(** * orgbot: reconciliation of a GitHub organisation against a desired state

    A shallow embedding of the Go packages [pkg/orgbot] and [pkg/http]:
    the desired-state documents ([Org], [Team]), the [GitHubService]
    interface with its read-only and stats-gathering adapters, the rule
    engine, [ApplyOrg] and its helpers, the admin-topic derivation, the
    merge/unmerge of the directory hierarchy and the loop of the event
    worker; and of the adapter [pkg/github], over an in-memory GitHub.

    Conventions.  A Go function returning [(T, error)] is a computation
    [M S T] over an explicit world state [S]; a function returning only
    [error] is an [M S unit].  Go [string]s are byte strings ([string]),
    [GitHubTeamID] ([int64]) is a [Z], a [map[string]T] is a [gmap string T]
    and a [set.Set] of strings is a [gset string]. *)

From stdpp Require Import base option list gmap strings sorting pretty.
From Stdlib Require Import ZArith String Ascii.

Open Scope string_scope.
Open Scope list_scope.
Open Scope Z_scope.

Set Warnings "-register-all,-clear-no-such-hyp".

(* ================================================================== *)
(** * Part I: the program *)
(* ================================================================== *)

(** ** Domain types ([pkg/orgbot/org.go], [pkg/orgbot/github.go]) *)

(** [Team] is the desired state of a team; [tChildren] nests the forest. *)
Inductive Team : Type := mkTeam {
  tName : string;
  tDescription : string;
  tPreviously : list string;
  tMaintainers : list string;
  tMembers : list string;
  tRestrictMembers : list string;
  tChildren : list Team
}.

Record Org : Type := mkOrg {
  oName : string;
  oTeams : list Team
}.

Inductive RepoPermission : Type :=
| RepoPermissionRead      (* "pull" *)
| RepoPermissionWrite     (* "push" *)
| RepoPermissionAdmin.    (* "admin" *)

Record TeamPermission : Type := mkTeamPermission {
  TeamName : string;
  Permission : RepoPermission
}.

Record Repo : Type := mkRepo {
  rName : string;
  rTopics : list string;
  rTeams : list TeamPermission
}.

Inductive GitHubTeamRole : Type := RoleMaintainer | RoleMember.

Definition GitHubTeamID := Z.

Record GitHubTeam : Type := mkGitHubTeam {
  ID : GitHubTeamID;          (* 0 for teams that don't exist yet *)
  ParentID : GitHubTeamID;    (* 0 for a top-level team *)
  gName : string;
  gDescription : string
}.

Record GitHubUser : Type := mkGitHubUser {
  Login : string;
  Email : string
}.

(** Special ID used by [readOnlyService] when stubbing team creation. *)
Definition phonyTeamID : GitHubTeamID := -1.

#[global] Instance RepoPermission_eq_dec : EqDecision RepoPermission.
Proof. solve_decision. Defined.
#[global] Instance TeamPermission_eq_dec : EqDecision TeamPermission.
Proof. solve_decision. Defined.
#[global] Instance Repo_eq_dec : EqDecision Repo.
Proof. solve_decision. Defined.
#[global] Instance GitHubTeamRole_eq_dec : EqDecision GitHubTeamRole.
Proof. solve_decision. Defined.
#[global] Instance GitHubTeam_eq_dec : EqDecision GitHubTeam.
Proof. solve_decision. Defined.
#[global] Instance GitHubUser_eq_dec : EqDecision GitHubUser.
Proof. solve_decision. Defined.

(** ** Errors

    Go's [error] interface is open; the embedding keeps the dynamic types
    the code distinguishes with a type assertion.  [RuleError] is the
    interface of the rules (description, violations, link); the other
    constructors are the [CompositeRuleError] built by the rule engine, the
    [GitHubUserNotFoundError], the errors of the merge, the errors of
    packages os and errors that the code tells apart, and [ErrOther] for
    every other error value. *)

Record RuleError : Type := mkRuleError {
  reDescription : string;
  reConstraintViolations : string;
  reLink : string
}.

Inductive error : Type :=
| ErrRule (re : RuleError)
| ErrComposite (orgName : string) (errors : list RuleError)
| ErrUserNotFound (orgName email login : string)
| ErrNotExist (path : string)
| ErrExist (path : string)
| ErrMissingControlFile (dir file : string)
| ErrUnexpectedFile (path reason : string)
| ErrInvalidTeamDirName (dir validDir teamName : string)
| ErrWrapped (cause : error) (msg : string)
| ErrOther (msg : string).

(** The type assertion [err.(RuleError)]. *)
Definition asRuleError (err : error) : option RuleError :=
  match err with
  | ErrRule re => Some re
  | _ => None
  end.

(** The type assertion of [err] to a pointer to [GitHubUserNotFoundError]. *)
Definition isUserNotFound (err : error) : bool :=
  match err with
  | ErrUserNotFound _ _ _ => true
  | _ => false
  end.

#[global] Instance RuleError_eq_dec : EqDecision RuleError.
Proof. solve_decision. Defined.
#[global] Instance error_eq_dec : EqDecision error.
Proof. solve_decision. Defined.

(** ** The state-and-error monad *)

Inductive result (A : Type) : Type :=
| Ok (a : A)
| Err (e : error).
Arguments Ok {A} a.
Arguments Err {A} e.

Definition isOk {A} (r : result A) : bool :=
  match r with Ok _ => true | Err _ => false end.

Definition M (S A : Type) : Type := S -> result A * S.

Definition ret {S A} (a : A) : M S A := fun s => (Ok a, s).
Definition fail {S A} (e : error) : M S A := fun s => (Err e, s).
Definition bind {S A B} (m : M S A) (k : A -> M S B) : M S B :=
  fun s => match m s with
           | (Ok a, s') => k a s'
           | (Err e, s') => (Err e, s')
           end.

(** stdpp's monad notation: [x ← m; k] is [bind m (λ x, k)] and [m ;; k]
    discards the value. *)
#[global] Instance M_ret {S} : MRet (M S) := fun A a => ret a.
#[global] Instance M_bind {S} : MBind (M S) := fun A B k m => bind m k.

(** A Go [for _, x := range xs] whose body may return an error. *)
Fixpoint forEach {S A} (xs : list A) (body : A -> M S unit) : M S unit :=
  match xs with
  | [] => ret tt
  | x :: xs' => body x;; forEach xs' body
  end.

(** ** The [GitHubService] interface ([pkg/orgbot/github.go])

    A walk passes every repo to the caller's function and stops at the
    first error; the function's captured variables are the accumulator
    [A] it folds over. *)

Definition WalkReposFunc (A : Type) : Type := Repo -> A -> result A.

Record GitHubService (S : Type) : Type := mkGitHubService {
  ListTeams : string -> M S (list GitHubTeam);
  ListTeamMembers : string -> GitHubTeamID -> GitHubTeamRole -> M S (list GitHubUser);
  CreateTeam : string -> GitHubTeam -> M S GitHubTeam;
  UpdateTeam : GitHubTeam -> M S GitHubTeam;
  DeleteTeam : GitHubTeamID -> M S unit;
  AddTeamMembership : string -> GitHubTeamID -> string -> GitHubTeamRole -> M S unit;
  DeleteTeamMembership : string -> GitHubTeamID -> string -> GitHubTeamRole -> M S unit;
  AddTeamRepoPermission : string -> string -> GitHubTeamID -> RepoPermission -> M S unit;
  DeleteTeamRepoPermission : string -> string -> GitHubTeamID -> M S unit;
  WalkRepos : forall A : Type, string -> WalkReposFunc A -> A -> M S A;
  WalkReposByTeam : forall A : Type, string -> GitHubTeamID -> WalkReposFunc A -> A -> M S A;
  RepoByName : string -> string -> M S Repo;
  UpdateRepoTopics : string -> string -> list string -> M S unit;
  ListAdmins : string -> M S (list GitHubUser);
  UserByEmail : string -> string -> M S GitHubUser;
  UserByLogin : string -> string -> M S GitHubUser
}.
Arguments ListTeams {S} _ _ _.
Arguments ListTeamMembers {S} _ _ _ _ _.
Arguments CreateTeam {S} _ _ _ _.
Arguments UpdateTeam {S} _ _ _.
Arguments DeleteTeam {S} _ _ _.
Arguments AddTeamMembership {S} _ _ _ _ _ _.
Arguments DeleteTeamMembership {S} _ _ _ _ _ _.
Arguments AddTeamRepoPermission {S} _ _ _ _ _ _.
Arguments DeleteTeamRepoPermission {S} _ _ _ _ _.
Arguments WalkRepos {S} _ {A} _ _ _ _.
Arguments WalkReposByTeam {S} _ {A} _ _ _ _ _.
Arguments RepoByName {S} _ _ _ _.
Arguments UpdateRepoTopics {S} _ _ _ _ _.
Arguments ListAdmins {S} _ _ _.
Arguments UserByEmail {S} _ _ _ _.
Arguments UserByLogin {S} _ _ _ _.

(** ** [GitHubStats] and the stats adapter ([statsService])

    The counters are Go [int]s; [incr] is [x++] on a 64-bit [int]. *)

Record GitHubStats : Type := mkGitHubStats {
  TeamsCreated : Z;
  TeamsUpdated : Z;
  TeamsDeleted : Z;
  TeamMembershipsAdded : Z;
  TeamMembershipsDeleted : Z
}.

Definition zeroStats : GitHubStats := mkGitHubStats 0 0 0 0 0.

Definition wrapInt (x : Z) : Z := (x + 2 ^ 63) mod 2 ^ 64 - 2 ^ 63.
Definition incr (x : Z) : Z := wrapInt (x + 1).

#[global] Instance GitHubStats_eq_dec : EqDecision GitHubStats.
Proof. solve_decision. Defined.

(** [liftS m] runs the delegate's operation and leaves the stats alone. *)
Definition liftS {S A} (m : M S A) : M (S * GitHubStats) A :=
  fun '(s, st) => match m s with (r, s') => (r, (s', st)) end.

(** [counted m upd]: call the delegate; on error return it, otherwise
    update the stats ([s.Lock(); s.stats.X++]) and return the value. *)
Definition counted {S A} (m : M S A) (upd : GitHubStats -> GitHubStats)
  : M (S * GitHubStats) A :=
  fun '(s, st) => match m s with
                  | (Ok a, s') => (Ok a, (s', upd st))
                  | (Err e, s') => (Err e, (s', st))
                  end.

Definition bumpTeamsCreated (st : GitHubStats) : GitHubStats :=
  mkGitHubStats (incr (TeamsCreated st)) (TeamsUpdated st) (TeamsDeleted st)
                (TeamMembershipsAdded st) (TeamMembershipsDeleted st).
Definition bumpTeamsUpdated (st : GitHubStats) : GitHubStats :=
  mkGitHubStats (TeamsCreated st) (incr (TeamsUpdated st)) (TeamsDeleted st)
                (TeamMembershipsAdded st) (TeamMembershipsDeleted st).
Definition bumpTeamsDeleted (st : GitHubStats) : GitHubStats :=
  mkGitHubStats (TeamsCreated st) (TeamsUpdated st) (incr (TeamsDeleted st))
                (TeamMembershipsAdded st) (TeamMembershipsDeleted st).
Definition bumpTeamMembershipsAdded (st : GitHubStats) : GitHubStats :=
  mkGitHubStats (TeamsCreated st) (TeamsUpdated st) (TeamsDeleted st)
                (incr (TeamMembershipsAdded st)) (TeamMembershipsDeleted st).
Definition bumpTeamMembershipsDeleted (st : GitHubStats) : GitHubStats :=
  mkGitHubStats (TeamsCreated st) (TeamsUpdated st) (TeamsDeleted st)
                (TeamMembershipsAdded st) (incr (TeamMembershipsDeleted st)).

(** [NewStatsGitHubService]: the adapter's state is the delegate's state
    together with the [stats] field. *)
Definition NewStatsGitHubService {S} (delegate : GitHubService S)
  : GitHubService (S * GitHubStats) := {|
  ListTeams := fun org => liftS (ListTeams delegate org);
  ListTeamMembers := fun org id role => liftS (ListTeamMembers delegate org id role);
  CreateTeam := fun org t => counted (CreateTeam delegate org t) bumpTeamsCreated;
  UpdateTeam := fun t => counted (UpdateTeam delegate t) bumpTeamsUpdated;
  DeleteTeam := fun id => counted (DeleteTeam delegate id) bumpTeamsDeleted;
  AddTeamMembership := fun org id email role =>
    counted (AddTeamMembership delegate org id email role) bumpTeamMembershipsAdded;
  DeleteTeamMembership := fun org id email role =>
    counted (DeleteTeamMembership delegate org id email role) bumpTeamMembershipsDeleted;
  AddTeamRepoPermission := fun org repo id p =>
    liftS (AddTeamRepoPermission delegate org repo id p);
  DeleteTeamRepoPermission := fun org repo id =>
    liftS (DeleteTeamRepoPermission delegate org repo id);
  WalkRepos := fun A org f a => liftS (WalkRepos delegate org f a);
  WalkReposByTeam := fun A org id f a => liftS (WalkReposByTeam delegate org id f a);
  RepoByName := fun org repo => liftS (RepoByName delegate org repo);
  UpdateRepoTopics := fun org repo topics =>
    liftS (UpdateRepoTopics delegate org repo topics);
  ListAdmins := fun org => liftS (ListAdmins delegate org);
  UserByEmail := fun org email => liftS (UserByEmail delegate org email);
  UserByLogin := fun org login => liftS (UserByLogin delegate org login)
|}.

(** [ZeroStats] and [Stats] of [GitHubServiceWithStats]. *)
Definition ZeroStats {S} : M (S * GitHubStats) unit :=
  fun '(s, _) => (Ok tt, (s, zeroStats)).
Definition Stats {S} : M (S * GitHubStats) GitHubStats :=
  fun '(s, st) => (Ok st, (s, st)).

(** ** The read-only adapter ([readOnlyService]) *)

Definition NewReadOnlyGitHubService {S} (delegate : GitHubService S)
  : GitHubService S := {|
  ListTeams := fun org => ListTeams delegate org;
  ListTeamMembers := fun org id role =>
    if bool_decide (id = phonyTeamID) then ret []
    else ListTeamMembers delegate org id role;
  CreateTeam := fun org t =>
    ret (mkGitHubTeam phonyTeamID (ParentID t) (gName t) (gDescription t));
  UpdateTeam := fun t => ret t;
  DeleteTeam := fun id => ret tt;
  AddTeamMembership := fun org id email role => ret tt;
  DeleteTeamMembership := fun org id email role => ret tt;
  AddTeamRepoPermission := fun org repo id p => ret tt;
  DeleteTeamRepoPermission := fun org repo id => ret tt;
  WalkRepos := fun A org f a => WalkRepos delegate org f a;
  WalkReposByTeam := fun A org id f a => WalkReposByTeam delegate org id f a;
  RepoByName := fun org repo => RepoByName delegate org repo;
  UpdateRepoTopics := fun org repo topics => ret tt;
  ListAdmins := fun org => ListAdmins delegate org;
  UserByEmail := fun org email => UserByEmail delegate org email;
  UserByLogin := fun org login => UserByLogin delegate org login
|}.

(** ** Walking the desired forest

    Every recursive closure of the source ([run], [process], [traverse])
    walks a [[]*Team] depth-first: the team itself, then its children. *)

Definition foldM {S A B} (f : B -> A -> M S B) : list A -> B -> M S B :=
  fix go xs b :=
    match xs with
    | [] => ret b
    | x :: xs' => b' ← f b x; go xs' b'
    end.

(** ** The rule engine *)

Definition maxTeamNameLength : Z := 35.

Definition Rule (S : Type) : Type := Org -> M S unit.

Record RuleEngine (S : Type) : Type := mkRuleEngine {
  Run : Org -> M S unit
}.
Arguments mkRuleEngine {S} _.
Arguments Run {S} _ _ _.

(** The loop of [ruleEngine.Run]: a [RuleError] is collected, any other
    error is returned at once. *)
Fixpoint runRules {S} (rules : list (Rule S)) (org : Org)
         (ruleErrors : list RuleError) : M S (list RuleError) :=
  match rules with
  | [] => ret ruleErrors
  | rule :: rules' => fun s =>
      match rule org s with
      | (Ok _, s') => runRules rules' org ruleErrors s'
      | (Err err, s') =>
          match asRuleError err with
          | None => (Err err, s')
          | Some ruleError => runRules rules' org (ruleErrors ++ [ruleError]) s'
          end
      end
  end.

Definition ruleEngine_Run {S} (rules : list (Rule S)) (org : Org) : M S unit :=
  ruleErrors ← runRules rules org [];
  if bool_decide (0 < List.length ruleErrors)%nat
  then fail (ErrComposite (oName org) ruleErrors)
  else ret tt.

Definition ruleEngine_Add {S} (rules : list (Rule S)) (r : Rule S) : list (Rule S) :=
  rules ++ [r].

Definition ruleEngine {S} (rules : list (Rule S)) : RuleEngine S :=
  {| Run := ruleEngine_Run rules |}.

(** [violations[t.Name] = append(violations[t.Name], email)] *)
Definition addViolation (violations : gmap string (list string)) (team email : string)
  : gmap string (list string) :=
  <[team := default [] (violations !! team) ++ [email]]> violations.

Definition quoteJoin (ss : list string) : string :=
  String.concat ", " (map (fun s => "'" +:+ s +:+ "'") ss).

Definition docURL : string := "https://github.com/SEEK-Jobs/org/blob/master/README.md".

(** The description and documentation link of the built-in rule errors;
    the rendering of a violation map follows Go's map iteration and is
    abstracted by [reConstraintViolations]. *)
Definition renderViolations (violations : gmap string (list string)) : string :=
  String.concat "; "
    (map (fun '(t, emails) => "'" +:+ t +:+ "': " +:+ quoteJoin emails) (map_to_list violations)).

Definition UnknownUsersError (violations : gmap string (list string)) : RuleError :=
  mkRuleError "Users must be members of the GitHub org"
              (renderViolations violations) (docURL +:+ "#unknown-users").
Definition TeamNamesUniqueError (violations : list string) : RuleError :=
  mkRuleError "Team names must be unique within an organisation"
              (quoteJoin violations) (docURL +:+ "#duplicate-team-names").
Definition UsersUniqueWithinTeamError (violations : gmap string (list string)) : RuleError :=
  mkRuleError "Users must not be repeated within a team"
              (renderViolations violations) (docURL +:+ "#duplicate-team-members").
Definition CrossOrgMembershipsError (violations : gmap string (list string)) : RuleError :=
  mkRuleError "Team membership violations were detected"
              (renderViolations violations) (docURL +:+ "#cross-organisation-memberships").
Definition ActiveTeamDeletionsError (violations : gmap string (list string)) : RuleError :=
  mkRuleError "Teams cannot be deleted if they are listed on one or more repositories"
              (renderViolations violations) (docURL +:+ "#active-team-deletions").
Definition TeamNameLengthError (violations : list string) (maxNameLength : Z) : RuleError :=
  mkRuleError ("Team names must not exceed " +:+ pretty maxNameLength +:+ " characters")
              (quoteJoin violations) (docURL +:+ "#team-name-length").

(** *** unknownUsersRule *)

Fixpoint unknownUsers_team {S} (svc : GitHubService S) (orgName : string)
         (violations : gmap string (list string)) (t : Team) {struct t}
  : M S (gmap string (list string)) :=
  violations ←
    foldM (fun violations email s =>
             match UserByEmail svc orgName email s with
             | (Ok _, s') => (Ok violations, s')
             | (Err err, s') =>
                 if isUserNotFound err
                 then (Ok (addViolation violations (tName t) email), s')
                 else (Err err, s')
             end)
          (tMaintainers t ++ tMembers t) violations;
  foldM (unknownUsers_team svc orgName) (tChildren t) violations.

Definition unknownUsersRule {S} (svc : GitHubService S) : Rule S := fun org =>
  violations ← foldM (unknownUsers_team svc (oName org)) (oTeams org) ∅;
  if bool_decide (0 < size violations)%nat
  then fail (ErrRule (UnknownUsersError violations))
  else ret tt.

(** *** teamNamesUniqueRule *)

Fixpoint teamNamesUnique_team (acc : gset string * list string) (t : Team) {struct t}
  : gset string * list string :=
  let '(unique, violations) := acc in
  let acc' :=
    if bool_decide (tName t ∈ unique)
    then (unique, violations ++ [tName t])       (* unique.Add returned false *)
    else ({[tName t]} ∪ unique, violations) in
  fold_left teamNamesUnique_team (tChildren t) acc'.

Definition teamNamesUniqueRule {S} : Rule S := fun org =>
  let '(_, violations) := fold_left teamNamesUnique_team (oTeams org) (∅, []) in
  if bool_decide (0 < List.length violations)%nat
  then fail (ErrRule (TeamNamesUniqueError violations))
  else ret tt.

(** *** usersUniqueWithinTeamRule *)

Definition usersUnique_emails (team : string) (emails : list string)
           (violations : gmap string (list string)) : gmap string (list string) :=
  snd (fold_left
         (fun '(unique, violations) email =>
            if bool_decide (email ∈ (unique : gset string))
            then (unique, addViolation violations team email)
            else ({[email]} ∪ unique, violations))
         emails (∅, violations)).

Fixpoint usersUnique_team (violations : gmap string (list string)) (t : Team) {struct t}
  : gmap string (list string) :=
  fold_left usersUnique_team (tChildren t)
            (usersUnique_emails (tName t) (tMaintainers t ++ tMembers t) violations).

Definition usersUniqueWithinTeamRule {S} : Rule S := fun org =>
  let violations := fold_left usersUnique_team (oTeams org) ∅ in
  if bool_decide (0 < size violations)%nat
  then fail (ErrRule (UsersUniqueWithinTeamError violations))
  else ret tt.

(** *** teamNameLengthRule *)

Fixpoint teamNameLength_team (maxLength : Z) (violations : list string) (t : Team) {struct t}
  : list string :=
  fold_left (teamNameLength_team maxLength) (tChildren t)
            (if bool_decide (maxLength < Z.of_nat (String.length (tName t)))
             then violations ++ [tName t] else violations).

Definition teamNameLengthRule {S} (maxLength : Z) : Rule S := fun org =>
  let violations := fold_left (teamNameLength_team maxLength) (oTeams org) [] in
  if bool_decide (0 < List.length violations)%nat
  then fail (ErrRule (TeamNameLengthError violations maxLength))
  else ret tt.

(** ** Matching a desired team to an observed one ([findGitHubTeamFromDesired]) *)

Definition findTeamNamed (teams : list GitHubTeam) (name : string) : option GitHubTeam :=
  List.find (fun t => bool_decide (name = gName t)) teams.

Fixpoint firstNamed (names : list string) (teams : list GitHubTeam) : option GitHubTeam :=
  match names with
  | [] => None
  | name :: names' =>
      match findTeamNamed teams name with
      | Some t => Some t
      | None => firstNamed names' teams
      end
  end.

Definition findGitHubTeamFromDesired (teams : list GitHubTeam) (want : Team)
  : option GitHubTeam :=
  firstNamed (tName want :: tPreviously want) teams.

(** *** crossOrgMembershipsRule

    [regexpCompile] stands for Go's [regexp.Compile] followed by
    [MatchString]: a pattern either fails to compile or yields a matcher. *)

Section CrossOrgMemberships.
Variable regexpCompile : string -> result (string -> bool).

(** A member is valid for one layer if it matches at least one pattern. *)
Fixpoint matchesAny (restrictMembers : list string) (email : string) : result bool :=
  match restrictMembers with
  | [] => Ok false
  | allowedPattern :: rest =>
      match regexpCompile allowedPattern with
      | Err err => Err err
      | Ok allowedRegex =>
          if allowedRegex email then Ok true else matchesAny rest email
      end
  end.

Fixpoint checkLayers (team email : string) (stack : list (list string))
         (violations : gmap string (list string))
  : result (gmap string (list string)) :=
  match stack with
  | [] => Ok violations
  | restrictMembers :: stack' =>
      match matchesAny restrictMembers email with
      | Err err => Err err
      | Ok matched =>
          checkLayers team email stack'
            (if matched then violations else addViolation violations team email)
      end
  end.

Fixpoint checkEmails (team : string) (emails : list string) (stack : list (list string))
         (violations : gmap string (list string))
  : result (gmap string (list string)) :=
  match emails with
  | [] => Ok violations
  | email :: emails' =>
      match checkLayers team email stack violations with
      | Err err => Err err
      | Ok violations' => checkEmails team emails' stack violations'
      end
  end.

(** [restrictMembersStack] is [nil] exactly at the top level. *)
Fixpoint crossOrg_team (restrictMembersStack : list (list string))
         (violations : gmap string (list string)) (t : Team) {struct t}
  : result (gmap string (list string)) :=
  let restrictMembers :=
    if bool_decide (restrictMembersStack ≠ []) && bool_decide (tRestrictMembers t = [])
    then [".*"] else tRestrictMembers t in
  let childRestrictMembersStack := restrictMembersStack ++ [restrictMembers] in
  match checkEmails (tName t) (tMaintainers t ++ tMembers t)
                    childRestrictMembersStack violations with
  | Err err => Err err
  | Ok violations' =>
      (fix run (teams : list Team) (violations : gmap string (list string)) :=
         match teams with
         | [] => Ok violations
         | c :: teams' =>
             match crossOrg_team childRestrictMembersStack violations c with
             | Err err => Err err
             | Ok violations' => run teams' violations'
             end
         end) (tChildren t) violations'
  end.

Fixpoint crossOrg_run (restrictMembersStack : list (list string)) (teams : list Team)
         (violations : gmap string (list string))
  : result (gmap string (list string)) :=
  match teams with
  | [] => Ok violations
  | c :: teams' =>
      match crossOrg_team restrictMembersStack violations c with
      | Err err => Err err
      | Ok violations' => crossOrg_run restrictMembersStack teams' violations'
      end
  end.

Definition crossOrgMembershipsRule {S} : Rule S := fun org =>
  match crossOrg_run [] (oTeams org) ∅ with
  | Err err => fail err
  | Ok violations =>
      if bool_decide (0 < size violations)%nat
      then fail (ErrRule (CrossOrgMembershipsError violations))
      else ret tt
  end.
End CrossOrgMemberships.

(** *** activeTeamDeletionsRule *)

(** [listTeamRepoNames]: the names of the repos directly accessible to a team. *)
Definition listTeamRepoNames {S} (svc : GitHubService S) (orgName : string)
           (teamID : GitHubTeamID) : M S (list string) :=
  WalkReposByTeam svc orgName teamID (fun r repoNames => Ok (repoNames ++ [rName r])) [].

Fixpoint activeTeamDeletions_team (haveTeams : list GitHubTeam)
         (haveTeamsByID : gmap Z GitHubTeam) (t : Team) {struct t} : gmap Z GitHubTeam :=
  fold_left (activeTeamDeletions_team haveTeams) (tChildren t)
            (match findGitHubTeamFromDesired haveTeams t with
             | Some have => delete (ID have) haveTeamsByID
             | None => haveTeamsByID
             end).

Definition activeTeamDeletionsRule {S} (svc : GitHubService S) : Rule S := fun org =>
  haveTeams ← ListTeams svc (oName org);
  let haveTeamsByID : gmap Z GitHubTeam :=
    fold_left (fun m have => <[ID have := have]> m) haveTeams ∅ in
  let haveTeamsByID :=
    fold_left (activeTeamDeletions_team haveTeams) (oTeams org) haveTeamsByID in
  violations ←
    foldM (fun (violations : gmap string (list string)) '(_, have) =>
             repoNames ← listTeamRepoNames svc (oName org) (ID have);
             ret (if bool_decide (0 < List.length repoNames)%nat
                  then <[gName have := repoNames]> violations
                  else violations))
          (map_to_list haveTeamsByID) ∅;
  if bool_decide (0 < size violations)%nat
  then fail (ErrRule (ActiveTeamDeletionsError violations))
  else ret tt.

(** [NewRuleEngine]: the six business rules in registration order. *)
Definition NewRuleEngine {S} (regexpCompile : string -> result (string -> bool))
           (gitHubService : GitHubService S) : RuleEngine S :=
  ruleEngine
    (ruleEngine_Add
      (ruleEngine_Add
        (ruleEngine_Add
          (ruleEngine_Add
            (ruleEngine_Add
              (ruleEngine_Add [] (unknownUsersRule gitHubService))
              teamNamesUniqueRule)
            usersUniqueWithinTeamRule)
          (teamNameLengthRule maxTeamNameLength))
        (activeTeamDeletionsRule gitHubService))
      (crossOrgMembershipsRule regexpCompile)).

(** ** The platform ([pkg/orgbot/platform.go]) *)

Record Platform (S : Type) : Type := mkPlatform {
  platGitHubService : GitHubService S;
  platRuleEngine : RuleEngine S
}.
Arguments mkPlatform {S} _ _.
Arguments platGitHubService {S} _.
Arguments platRuleEngine {S} _.

(** ** ApplyOrg *)

Record ApplyOrgResult : Type := mkApplyOrgResult {
  resTeamsCreated : Z;
  resTeamsUpdated : Z;
  resTeamsDeleted : Z;
  resMembershipsAdded : Z;
  resMembershipsDeleted : Z
}.

#[global] Instance ApplyOrgResult_eq_dec : EqDecision ApplyOrgResult.
Proof. solve_decision. Defined.

(** [HasChanges]: [*r != ApplyOrgResult{}]. *)
Definition HasChanges (r : ApplyOrgResult) : bool :=
  negb (bool_decide (r = mkApplyOrgResult 0 0 0 0 0)).

(** [keptGitHubTeam] extends [GitHubTeam] with whether it was freshly created. *)
Record keptGitHubTeam : Type := mkKept {
  keptTeam : GitHubTeam;
  created : bool
}.

Definition parentIDOf (parent : option GitHubTeam) : GitHubTeamID :=
  match parent with
  | Some p => ID p
  | None => 0
  end.

(** [updateTeam]: update the existing team if its parent, description or
    name differs from the desired state; otherwise return it as it is. *)
Definition updateTeam {S} (gitHubService : GitHubService S)
           (parent : option GitHubTeam) (have : GitHubTeam) (want : Team)
  : M S GitHubTeam :=
  let wantParentID := parentIDOf parent in
  let modified :=
    bool_decide (ParentID have ≠ wantParentID)
    || bool_decide (gDescription have ≠ tDescription want)
    || bool_decide (gName have ≠ tName want) in
  if modified then
    let t := mkGitHubTeam (ID have) wantParentID (tName want) (tDescription want) in
    UpdateTeam gitHubService t
  else ret have.

(** [createTeam]: create the desired team under the given parent. *)
Definition createTeam {S} (gitHubService : GitHubService S) (orgName : string)
           (parent : option GitHubTeam) (want : Team) : M S GitHubTeam :=
  let wantParentID := parentIDOf parent in
  let newT := mkGitHubTeam 0 wantParentID (tName want) (tDescription want) in
  CreateTeam gitHubService orgName newT.

(** The loop of [process] in [configureTeams].  [reconcileTeam] is the first
    half of its body: update the matched team or create a new one.
    [processTeam] is the whole body for one desired team: reconcile, record
    the kept team, recurse into the children with the kept team as parent. *)
Definition reconcileTeam {S} (gitHubService : GitHubService S) (orgName : string)
           (haveTeams : list GitHubTeam) (parent : option GitHubTeam) (want : Team)
  : M S keptGitHubTeam :=
  match findGitHubTeamFromDesired haveTeams want with
  | Some have => t ← updateTeam gitHubService parent have want; ret (mkKept t false)
  | None => t ← createTeam gitHubService orgName parent want; ret (mkKept t true)
  end.

Fixpoint processTeam {S} (gitHubService : GitHubService S) (orgName : string)
         (haveTeams : list GitHubTeam) (parent : option GitHubTeam)
         (keptTeams : list keptGitHubTeam) (want : Team) {struct want}
  : M S (list keptGitHubTeam) :=
  kept ← reconcileTeam gitHubService orgName haveTeams parent want;
  foldM (processTeam gitHubService orgName haveTeams (Some (keptTeam kept)))
        (tChildren want) (keptTeams ++ [kept]).

Definition process {S} (gitHubService : GitHubService S) (orgName : string)
           (haveTeams : list GitHubTeam) (parent : option GitHubTeam)
           (wantTeams : list Team) (keptTeams : list keptGitHubTeam)
  : M S (list keptGitHubTeam) :=
  foldM (processTeam gitHubService orgName haveTeams parent) wantTeams keptTeams.

(** [configureTeams]: create and update as the desired forest says, then
    delete every observed team whose ID was not kept. *)
Definition configureTeams {S} (gitHubService : GitHubService S) (org : Org)
           (haveTeams : list GitHubTeam) : M S (list keptGitHubTeam) :=
  keptTeams ← process gitHubService (oName org) haveTeams None (oTeams org) [];
  let keptIDs : gset Z := list_to_set (map (fun kept => ID (keptTeam kept)) keptTeams) in
  forEach haveTeams (fun t =>
    if bool_decide (ID t ∉ keptIDs) then DeleteTeam gitHubService (ID t) else ret tt);;
  ret keptTeams.

(** [promoteAdmins]: move every org admin from the member list of a team to
    its maintainer list.  The Go function rewrites the caller's [Org] in
    place; the embedding returns the rewritten [Org]. *)
Definition isAdmin (admins : list GitHubUser) (email : string) : bool :=
  existsb (fun a => bool_decide (Email a = email)) admins.

Fixpoint promoteTeam (admins : list GitHubUser) (t : Team) {struct t} : Team :=
  mkTeam (tName t) (tDescription t) (tPreviously t)
         (tMaintainers t ++ filter (fun email => isAdmin admins email) (tMembers t))
         (filter (fun email => ¬ isAdmin admins email) (tMembers t))
         (tRestrictMembers t)
         (map (promoteTeam admins) (tChildren t)).

Definition promoteAdmins {S} (gitHubService : GitHubService S) (org : Org) : M S Org :=
  admins ← ListAdmins gitHubService (oName org);
  ret (mkOrg (oName org) (map (promoteTeam admins) (oTeams org))).

(** [teamsByName]: the desired teams keyed by name (a later team of the same
    name replaces an earlier one). *)
Fixpoint teamsByName_team (m : gmap string Team) (want : Team) {struct want}
  : gmap string Team :=
  fold_left teamsByName_team (tChildren want) (<[tName want := want]> m).

Definition teamsByName (teams : list Team) : gmap string Team :=
  fold_left teamsByName_team teams ∅.

Definition gitHubUserEmails (users : list GitHubUser) : list string :=
  map Email users.

Definition newStringSet (strings : list string) : gset string :=
  list_to_set strings.

Definition stringSetToSlice (stringSet : gset string) : list string :=
  elements stringSet.

(** [updateTeamMemberships]: add the wanted emails the team does not have,
    then delete the emails it has and are not wanted. *)
Definition updateTeamMemberships {S} (gitHubService : GitHubService S)
           (orgName : string) (t : GitHubTeam) (haveEmails wantEmails : list string)
           (role : GitHubTeamRole) : M S unit :=
  let haveEmailSet := newStringSet haveEmails in
  let wantEmailSet := newStringSet wantEmails in
  let added := wantEmailSet ∖ haveEmailSet in
  forEach (elements added) (fun u =>
    AddTeamMembership gitHubService orgName (ID t) u role);;
  let deleted := haveEmailSet ∖ wantEmailSet in
  forEach (elements deleted) (fun u =>
    DeleteTeamMembership gitHubService orgName (ID t) u role).

Definition notInDesiredState (name : string) : error :=
  ErrOther ("expected team '" +:+ name +:+ "' to be in desired state").

(** [configureTeamMemberships] *)
Definition configureTeamMemberships {S} (gitHubService : GitHubService S) (org : Org)
           (haveTeams : list keptGitHubTeam) : M S unit :=
  let wantTeamsByName := teamsByName (oTeams org) in
  forEach haveTeams (fun have =>
    match wantTeamsByName !! gName (keptTeam have) with
    | None => fail (notInDesiredState (gName (keptTeam have)))
    | Some want =>
        '(haveMaintainers, haveMembers) ←
          (if created have then ret ([], [])
           else
             haveMaintainers ←
               ListTeamMembers gitHubService (oName org) (ID (keptTeam have)) RoleMaintainer;
             haveMembers ←
               ListTeamMembers gitHubService (oName org) (ID (keptTeam have)) RoleMember;
             ret (haveMaintainers, haveMembers));
        updateTeamMemberships gitHubService (oName org) (keptTeam have)
          (gitHubUserEmails haveMaintainers) (tMaintainers want) RoleMaintainer;;
        updateTeamMemberships gitHubService (oName org) (keptTeam have)
          (gitHubUserEmails haveMembers) (tMembers want) RoleMember
    end).

Definition asApplyOrgResult (stats : GitHubStats) : ApplyOrgResult :=
  mkApplyOrgResult (TeamsCreated stats) (TeamsUpdated stats) (TeamsDeleted stats)
                   (TeamMembershipsAdded stats) (TeamMembershipsDeleted stats).

(** The part of [ApplyOrg] that runs against the stats-gathering service. *)
Definition applyWithStats {S} (statsGitHubService : GitHubService (S * GitHubStats))
           (org : Org) : M (S * GitHubStats) (ApplyOrgResult * Org) :=
  haveTeams ← ListTeams statsGitHubService (oName org);
  keptTeams ← configureTeams statsGitHubService org haveTeams;
  org' ← promoteAdmins statsGitHubService org;
  configureTeamMemberships statsGitHubService org' keptTeams;;
  stats ← Stats;
  ret (asApplyOrgResult stats, org').

(** [ApplyOrg]: run the rules first; then reconcile through a fresh stats
    adapter and report its counters.  The second component of the value is
    the caller's [Org] as [promoteAdmins] left it. *)
Definition ApplyOrg {S} (plat : Platform S) (org : Org) : M S (ApplyOrgResult * Org) :=
  fun s =>
    match Run (platRuleEngine plat) org s with
    | (Err err, s1) => (Err err, s1)
    | (Ok _, s1) =>
        let statsGitHubService := NewStatsGitHubService (platGitHubService plat) in
        match applyWithStats statsGitHubService org (s1, zeroStats) with
        | (r, (s2, _)) => (r, s2)
        end
    end.

(** ** Clients of a service: calls, replies and the record of writes

    [Call] names one method invocation with its arguments and [perform]
    dispatches it; a client that keeps going after an error is a list of
    calls ([runCalls]). *)

Inductive Call : Type :=
| CListTeams (orgName : string)
| CListTeamMembers (orgName : string) (teamID : GitHubTeamID) (role : GitHubTeamRole)
| CCreateTeam (orgName : string) (team : GitHubTeam)
| CUpdateTeam (team : GitHubTeam)
| CDeleteTeam (teamID : GitHubTeamID)
| CAddTeamMembership (orgName : string) (teamID : GitHubTeamID) (email : string)
                     (role : GitHubTeamRole)
| CDeleteTeamMembership (orgName : string) (teamID : GitHubTeamID) (email : string)
                        (role : GitHubTeamRole)
| CAddTeamRepoPermission (orgName repoName : string) (teamID : GitHubTeamID)
                         (permission : RepoPermission)
| CDeleteTeamRepoPermission (orgName repoName : string) (teamID : GitHubTeamID)
| CWalkRepos (A : Type) (orgName : string) (walkFn : WalkReposFunc A) (a : A)
| CWalkReposByTeam (A : Type) (orgName : string) (teamID : GitHubTeamID)
                   (walkFn : WalkReposFunc A) (a : A)
| CRepoByName (orgName repoName : string)
| CUpdateRepoTopics (orgName repoName : string) (topics : list string)
| CListAdmins (orgName : string)
| CUserByEmail (orgName email : string)
| CUserByLogin (orgName login : string).

Inductive Reply : Type :=
| RTeams (teams : list GitHubTeam)
| RUsers (users : list GitHubUser)
| RTeam (team : GitHubTeam)
| RDone
| RWalked (A : Type) (a : A)
| RRepo (repo : Repo)
| RUser (user : GitHubUser).

Definition replyWith {S A} (wrap : A -> Reply) (m : M S A) : M S Reply :=
  fun s => match m s with
           | (Ok a, s') => (Ok (wrap a), s')
           | (Err e, s') => (Err e, s')
           end.

Definition perform {S} (svc : GitHubService S) (c : Call) : M S Reply :=
  match c with
  | CListTeams org => replyWith RTeams (ListTeams svc org)
  | CListTeamMembers org id role => replyWith RUsers (ListTeamMembers svc org id role)
  | CCreateTeam org t => replyWith RTeam (CreateTeam svc org t)
  | CUpdateTeam t => replyWith RTeam (UpdateTeam svc t)
  | CDeleteTeam id => replyWith (fun _ => RDone) (DeleteTeam svc id)
  | CAddTeamMembership org id email role =>
      replyWith (fun _ => RDone) (AddTeamMembership svc org id email role)
  | CDeleteTeamMembership org id email role =>
      replyWith (fun _ => RDone) (DeleteTeamMembership svc org id email role)
  | CAddTeamRepoPermission org repo id p =>
      replyWith (fun _ => RDone) (AddTeamRepoPermission svc org repo id p)
  | CDeleteTeamRepoPermission org repo id =>
      replyWith (fun _ => RDone) (DeleteTeamRepoPermission svc org repo id)
  | CWalkRepos A org f a => replyWith (RWalked A) (WalkRepos svc org f a)
  | CWalkReposByTeam A org id f a => replyWith (RWalked A) (WalkReposByTeam svc org id f a)
  | CRepoByName org repo => replyWith RRepo (RepoByName svc org repo)
  | CUpdateRepoTopics org repo topics =>
      replyWith (fun _ => RDone) (UpdateRepoTopics svc org repo topics)
  | CListAdmins org => replyWith RUsers (ListAdmins svc org)
  | CUserByEmail org email => replyWith RUser (UserByEmail svc org email)
  | CUserByLogin org login => replyWith RUser (UserByLogin svc org login)
  end.

Fixpoint runCalls {S} (svc : GitHubService S) (cs : list Call) (s : S)
  : list (result Reply) * S :=
  match cs with
  | [] => ([], s)
  | c :: cs' =>
      let '(r, s1) := perform svc c s in
      let '(rs, s2) := runCalls svc cs' s1 in
      (r :: rs, s2)
  end.

(** The five write kinds the stats adapter counts. *)
Inductive WriteKind : Type :=
| KCreateTeam | KUpdateTeam | KDeleteTeam | KAddTeamMembership | KDeleteTeamMembership.

Definition writeKind (c : Call) : option WriteKind :=
  match c with
  | CCreateTeam _ _ => Some KCreateTeam
  | CUpdateTeam _ => Some KUpdateTeam
  | CDeleteTeam _ => Some KDeleteTeam
  | CAddTeamMembership _ _ _ _ => Some KAddTeamMembership
  | CDeleteTeamMembership _ _ _ _ => Some KDeleteTeamMembership
  | _ => None
  end.

#[global] Instance WriteKind_eq_dec : EqDecision WriteKind.
Proof. solve_decision. Defined.

(** The number of calls of kind [k] among [cs] whose reply was not an error. *)
Fixpoint succeeded (k : WriteKind) (cs : list Call) (rs : list (result Reply)) : nat :=
  match cs, rs with
  | c :: cs', r :: rs' =>
      (if bool_decide (writeKind c = Some k) && isOk r then 1 else 0)%nat
      + succeeded k cs' rs'
  | _, _ => 0%nat
  end.

(** [recording svc] behaves as [svc] and appends every call of a method
    that changes the forge to a log, whether or not the call succeeds. *)
Definition isWrite (c : Call) : bool :=
  match c with
  | CCreateTeam _ _ | CUpdateTeam _ | CDeleteTeam _
  | CAddTeamMembership _ _ _ _ | CDeleteTeamMembership _ _ _ _
  | CAddTeamRepoPermission _ _ _ _ | CDeleteTeamRepoPermission _ _ _
  | CUpdateRepoTopics _ _ _ => true
  | _ => false
  end.

Definition logged {S A} (c : Call) (m : M S A) : M (S * list Call) A :=
  fun '(s, log) => match m s with (r, s') => (r, (s', log ++ [c])) end.

Definition unlogged {S A} (m : M S A) : M (S * list Call) A :=
  fun '(s, log) => match m s with (r, s') => (r, (s', log)) end.

Definition recording {S} (svc : GitHubService S) : GitHubService (S * list Call) := {|
  ListTeams := fun org => unlogged (ListTeams svc org);
  ListTeamMembers := fun org id role => unlogged (ListTeamMembers svc org id role);
  CreateTeam := fun org t => logged (CCreateTeam org t) (CreateTeam svc org t);
  UpdateTeam := fun t => logged (CUpdateTeam t) (UpdateTeam svc t);
  DeleteTeam := fun id => logged (CDeleteTeam id) (DeleteTeam svc id);
  AddTeamMembership := fun org id email role =>
    logged (CAddTeamMembership org id email role) (AddTeamMembership svc org id email role);
  DeleteTeamMembership := fun org id email role =>
    logged (CDeleteTeamMembership org id email role)
           (DeleteTeamMembership svc org id email role);
  AddTeamRepoPermission := fun org repo id p =>
    logged (CAddTeamRepoPermission org repo id p) (AddTeamRepoPermission svc org repo id p);
  DeleteTeamRepoPermission := fun org repo id =>
    logged (CDeleteTeamRepoPermission org repo id) (DeleteTeamRepoPermission svc org repo id);
  WalkRepos := fun A org f a => unlogged (WalkRepos svc org f a);
  WalkReposByTeam := fun A org id f a => unlogged (WalkReposByTeam svc org id f a);
  RepoByName := fun org repo => unlogged (RepoByName svc org repo);
  UpdateRepoTopics := fun org repo topics =>
    logged (CUpdateRepoTopics org repo topics) (UpdateRepoTopics svc org repo topics);
  ListAdmins := fun org => unlogged (ListAdmins svc org);
  UserByEmail := fun org email => unlogged (UserByEmail svc org email);
  UserByLogin := fun org login => unlogged (UserByLogin svc org login)
|}.

(** A rule engine that consults the forge through [svc] does not see the log. *)
Definition recordingPlatform {S} (plat : Platform S) : Platform (S * list Call) := {|
  platGitHubService := recording (platGitHubService plat);
  platRuleEngine := {| Run := fun org => unlogged (Run (platRuleEngine plat) org) |}
|}.

(** ** A reference forge

    The production adapter ([pkg/github]) over an in-memory GitHub, method
    by method.  A team is known by its ID and [CreateTeam] assigns the next
    free one; [UpdateTeam] edits the team of the ID and returns the team it
    was given.  A user has at most one membership in a team, kept under
    the login: [AddTeamMembership] looks the user up by email and sets the
    role of the membership (creating it when there is none);
    [DeleteTeamMembership] looks the user up by email and removes the
    membership, whatever its role (the adapter does not pass the role on);
    [ListTeamMembers] lists the logins of the role and looks each user up
    by login.  Deleting a team removes its memberships and its permissions
    on repos with it.  A call that names a team or a repo GitHub does not
    have fails with "Not Found"; a user that is not in the audited user
    set is a [GitHubUserNotFoundError]. *)

Record Forge : Type := mkForge {
  fTeams : list GitHubTeam;
  fMembers : list (GitHubTeamID * GitHubTeamRole * string);  (* team, role, login *)
  fAdmins : list GitHubUser;
  fUsers : list GitHubUser;
  fRepos : list Repo;
  fNextID : GitHubTeamID
}.

Definition setTeams (f : Forge) (teams : list GitHubTeam) (next : GitHubTeamID) : Forge :=
  mkForge teams (fMembers f) (fAdmins f) (fUsers f) (fRepos f) next.
Definition setMembers (f : Forge) (members : list (GitHubTeamID * GitHubTeamRole * string))
  : Forge :=
  mkForge (fTeams f) members (fAdmins f) (fUsers f) (fRepos f) (fNextID f).
Definition setRepos (f : Forge) (repos : list Repo) : Forge :=
  mkForge (fTeams f) (fMembers f) (fAdmins f) (fUsers f) repos (fNextID f).

Definition errNotFound : error := ErrOther "Not Found".

Definition hasTeam (f : Forge) (id : GitHubTeamID) : bool :=
  bool_decide (id ∈ map ID (fTeams f)).

Definition hasRepo (f : Forge) (repoName : string) : bool :=
  bool_decide (repoName ∈ map rName (fRepos f)).

(** [UserByEmail] and [UserByLogin] on the audited user set. *)
Definition userByEmail (f : Forge) (orgName email : string) : result GitHubUser :=
  match List.find (fun u => bool_decide (Email u = email)) (fUsers f) with
  | Some u => Ok u
  | None => Err (ErrUserNotFound orgName email EmptyString)
  end.

Definition userByLogin (f : Forge) (orgName login : string) : result GitHubUser :=
  match List.find (fun u => bool_decide (Login u = login)) (fUsers f) with
  | Some u => Ok u
  | None => Err (ErrUserNotFound orgName EmptyString login)
  end.

(** The logins GitHub lists for a team and a role. *)
Definition loginsOf (f : Forge) (id : GitHubTeamID) (role : GitHubTeamRole) : list string :=
  omap (fun '(i, r, login) => if bool_decide (i = id ∧ r = role) then Some login else None)
       (fMembers f).

(** The loop of [walkTeamMembers]: the first login that is not in the
    user set ends the listing with its error. *)
Fixpoint usersByLogin (f : Forge) (orgName : string) (logins : list string)
  : result (list GitHubUser) :=
  match logins with
  | [] => Ok []
  | login :: rest =>
      match userByLogin f orgName login with
      | Err err => Err err
      | Ok u =>
          match usersByLogin f orgName rest with
          | Err err => Err err
          | Ok users => Ok (u :: users)
          end
      end
  end.

(** The memberships other than the one of [login] in team [id]. *)
Definition withoutMember (id : GitHubTeamID) (login : string)
           (members : list (GitHubTeamID * GitHubTeamRole * string))
  : list (GitHubTeamID * GitHubTeamRole * string) :=
  filter (fun m => ¬ (m.1.1 = id ∧ m.2 = login)) members.

Definition teamNameOfID (f : Forge) (id : GitHubTeamID) : option string :=
  gName <$> List.find (fun t => bool_decide (ID t = id)) (fTeams f).

Definition repoHasTeam (name : string) (r : Repo) : bool :=
  existsb (fun tp => bool_decide (TeamName tp = name)) (rTeams r).

Fixpoint walk {A} (repos : list Repo) (walkFn : WalkReposFunc A) (a : A) : result A :=
  match repos with
  | [] => Ok a
  | r :: repos' =>
      match walkFn r a with
      | Ok a' => walk repos' walkFn a'
      | Err err => Err err
      end
  end.

Definition updRepo (repoName : string) (upd : Repo -> Repo) (repos : list Repo) : list Repo :=
  map (fun r => if bool_decide (rName r = repoName) then upd r else r) repos.

(** A repo without the permission of the team called [name]. *)
Definition withoutTeam (name : string) (r : Repo) : Repo :=
  mkRepo (rName r) (rTopics r) (filter (fun tp => TeamName tp ≠ name) (rTeams r)).

Definition forge : GitHubService Forge := {|
  ListTeams := fun org f => (Ok (fTeams f), f);
  ListTeamMembers := fun org id role f =>
    if hasTeam f id then (usersByLogin f org (loginsOf f id role), f)
    else (Err errNotFound, f);
  CreateTeam := fun org t f =>
    let newT := mkGitHubTeam (fNextID f) (ParentID t) (gName t) (gDescription t) in
    (Ok newT, setTeams f (fTeams f ++ [newT]) (fNextID f + 1));
  UpdateTeam := fun t f =>
    if hasTeam f (ID t)
    then (Ok t, setTeams f (map (fun g => if bool_decide (ID g = ID t) then t else g)
                                (fTeams f))
                         (fNextID f))
    else (Err errNotFound, f);
  DeleteTeam := fun id f =>
    match teamNameOfID f id with
    | None => (Err errNotFound, f)
    | Some name =>
        (Ok tt, mkForge (filter (fun g => ID g ≠ id) (fTeams f))
                        (filter (fun m => m.1.1 ≠ id) (fMembers f))
                        (fAdmins f) (fUsers f)
                        (map (withoutTeam name) (fRepos f))
                        (fNextID f))
    end;
  AddTeamMembership := fun org id email role f =>
    match userByEmail f org email with
    | Err err => (Err err, f)
    | Ok user =>
        if hasTeam f id
        then (Ok tt, setMembers f (withoutMember id (Login user) (fMembers f)
                                   ++ [(id, role, Login user)]))
        else (Err errNotFound, f)
    end;
  DeleteTeamMembership := fun org id email role f =>
    match userByEmail f org email with
    | Err err => (Err err, f)
    | Ok user =>
        if hasTeam f id
        then (Ok tt, setMembers f (withoutMember id (Login user) (fMembers f)))
        else (Err errNotFound, f)
    end;
  AddTeamRepoPermission := fun org repo id p f =>
    match teamNameOfID f id with
    | None => (Err errNotFound, f)
    | Some name =>
        if hasRepo f repo
        then (Ok tt, setRepos f
                (updRepo repo
                   (fun r => mkRepo (rName r) (rTopics r)
                               (filter (fun tp => TeamName tp ≠ name) (rTeams r)
                                ++ [mkTeamPermission name p]))
                   (fRepos f)))
        else (Err errNotFound, f)
    end;
  DeleteTeamRepoPermission := fun org repo id f =>
    match teamNameOfID f id with
    | None => (Err errNotFound, f)
    | Some name =>
        if hasRepo f repo
        then (Ok tt, setRepos f (updRepo repo (withoutTeam name) (fRepos f)))
        else (Err errNotFound, f)
    end;
  WalkRepos := fun A org walkFn a f => (walk (fRepos f) walkFn a, f);
  WalkReposByTeam := fun A org id walkFn a f =>
    match teamNameOfID f id with
    | None => (Err errNotFound, f)
    | Some name =>
        (walk (List.filter (repoHasTeam name) (fRepos f)) walkFn a, f)
    end;
  RepoByName := fun org repo f =>
    match List.find (fun r => bool_decide (rName r = repo)) (fRepos f) with
    | Some r => (Ok r, f)
    | None => (Err errNotFound, f)
    end;
  UpdateRepoTopics := fun org repo topics f =>
    if hasRepo f repo
    then (Ok tt, setRepos f
            (updRepo repo (fun r => mkRepo (rName r) topics (rTeams r)) (fRepos f)))
    else (Err errNotFound, f);
  ListAdmins := fun org f => (Ok (fAdmins f), f);
  UserByEmail := fun org email f => (userByEmail f org email, f);
  UserByLogin := fun org login f => (userByLogin f org login, f)
|}.

(** The production platform over the reference forge: the six built-in
    rules consulting the same forge. *)
Definition forgePlatform (regexpCompile : string -> result (string -> bool))
  : Platform Forge := {|
  platGitHubService := forge;
  platRuleEngine := NewRuleEngine regexpCompile forge
|}.

#[global] Instance Forge_eq_dec : EqDecision Forge.
Proof. solve_decision. Defined.

(** What a successful call of kind [k] does to the stats. *)
Definition bump (k : WriteKind) : GitHubStats -> GitHubStats :=
  match k with
  | KCreateTeam => bumpTeamsCreated
  | KUpdateTeam => bumpTeamsUpdated
  | KDeleteTeam => bumpTeamsDeleted
  | KAddTeamMembership => bumpTeamMembershipsAdded
  | KDeleteTeamMembership => bumpTeamMembershipsDeleted
  end.

Definition counter (k : WriteKind) : GitHubStats -> Z :=
  match k with
  | KCreateTeam => TeamsCreated
  | KUpdateTeam => TeamsUpdated
  | KDeleteTeam => TeamsDeleted
  | KAddTeamMembership => TeamMembershipsAdded
  | KDeleteTeamMembership => TeamMembershipsDeleted
  end.

(** ** Vocabulary of the properties *)

(** The desired forest in the order the closures visit it. *)
Fixpoint flattenTeam (t : Team) : list Team :=
  t :: flat_map flattenTeam (tChildren t).

Definition flattenTeams (teams : list Team) : list Team :=
  flat_map flattenTeam teams.

Definition desiredNames (org : Org) : list string :=
  map tName (flattenTeams (oTeams org)).

(** [AllPass rules org s s']: run in registration order from [s], every rule
    returns nil, and the last one leaves the state [s']. *)
Inductive AllPass {S} (org : Org) : list (Rule S) -> S -> S -> Prop :=
| AllPass_nil s : AllPass org [] s s
| AllPass_cons rule rules s s1 s' :
    rule org s = (Ok tt, s1) ->
    AllPass org rules s1 s' ->
    AllPass org (rule :: rules) s s'.

(** [Collected rules org s res s']: run in registration order from [s],
    every rule returns nil or a [RuleError], and [res] lists those
    [RuleError]s in that order. *)
Inductive Collected {S} (org : Org) : list (Rule S) -> S -> list RuleError -> S -> Prop :=
| Collected_nil s : Collected org [] s [] s
| Collected_pass rule rules s s1 res s' :
    rule org s = (Ok tt, s1) ->
    Collected org rules s1 res s' ->
    Collected org (rule :: rules) s res s'
| Collected_fail rule rules s s1 re res s' :
    rule org s = (Err (ErrRule re), s1) ->
    Collected org rules s1 res s' ->
    Collected org (rule :: rules) s (re :: res) s'.

(** One call through the stats adapter bumps the stats exactly when the
    call is a counted write that succeeded. *)
Definition statsAfter (c : Call) (r : result Reply) (st : GitHubStats) : GitHubStats :=
  match writeKind c with
  | Some k => if isOk r then bump k st else st
  | None => st
  end.

(** A service that differs from [svc] only in what [CreateTeam] returns. *)
Definition withCreateTeam {S} (svc : GitHubService S)
           (createTeam : string -> GitHubTeam -> M S GitHubTeam) : GitHubService S := {|
  ListTeams := ListTeams svc;
  ListTeamMembers := ListTeamMembers svc;
  CreateTeam := createTeam;
  UpdateTeam := UpdateTeam svc;
  DeleteTeam := DeleteTeam svc;
  AddTeamMembership := AddTeamMembership svc;
  DeleteTeamMembership := DeleteTeamMembership svc;
  AddTeamRepoPermission := AddTeamRepoPermission svc;
  DeleteTeamRepoPermission := DeleteTeamRepoPermission svc;
  WalkRepos := fun A => @WalkRepos _ svc A;
  WalkReposByTeam := fun A => @WalkReposByTeam _ svc A;
  RepoByName := RepoByName svc;
  UpdateRepoTopics := UpdateRepoTopics svc;
  ListAdmins := ListAdmins svc;
  UserByEmail := UserByEmail svc;
  UserByLogin := UserByLogin svc
|}.

(** A forge that stores a created team under a decorated name and returns
    the team as stored. *)
Definition decoratingForge : GitHubService Forge :=
  withCreateTeam forge (fun org t =>
    CreateTeam forge org
      (mkGitHubTeam (ID t) (ParentID t) (gName t +:+ " (new)") (gDescription t))).

Definition emptyForge : Forge := mkForge [] [] [] [] [] 1.

Definition plainTeam (name description : string) (previously members : list string)
           (children : list Team) : Team :=
  mkTeam name description previously [] members [] children.

(** ** Test data (the org and teams of the tests of [ApplyOrg]) *)

Definition testOrg : Org :=
  mkOrg "SEEK-Jobs"
    [mkTeam "parent" "Parent team" []
       ["david@seek.com.au"] ["alice@seek.com.au"; "bob@seek.com.au"] []
       [mkTeam "child1" "Child team 1" []
          ["gavin@seekasia.com"] ["lester@seekasia.com"; "bob@seek.com.au"] [] [];
        mkTeam "child2" "Child team 2" []
          ["alice@seek.com.au"] ["david@seek.com.au"] [] []]].

Definition asGitHubTeam (t : Team) (id parentID : GitHubTeamID) : GitHubTeam :=
  mkGitHubTeam id parentID (tName t) (tDescription t).

Definition parentGitHubTeam : GitHubTeam := mkGitHubTeam 100 0 "parent" "Parent team".
Definition child1GitHubTeam : GitHubTeam := mkGitHubTeam 101 100 "child1" "Child team 1".
Definition child2GitHubTeam : GitHubTeam := mkGitHubTeam 102 100 "child2" "Child team 2".

(** A regexp engine that matches every string, for orgs whose patterns are [".*"]. *)
Definition anyRegexp : string -> result (string -> bool) := fun _ => Ok (fun _ => true).


(** The IDs of the observed teams the desired teams are matched to. *)
Definition matchedIDs (haveTeams : list GitHubTeam) (wantTeams : list Team)
  : list GitHubTeamID :=
  omap (fun want => ID <$> findGitHubTeamFromDesired haveTeams want)
       (flattenTeams wantTeams).

(** The users of the reference forge whose membership in a team has the
    role. *)
Definition hasRole (f : Forge) (id : GitHubTeamID) (role : GitHubTeamRole)
           (email : string) : Prop :=
  exists u, u ∈ fUsers f /\ Email u = email /\ (id, role, Login u) ∈ fMembers f.

(** A user has one role in a team. *)
Definition oneRole (f : Forge) : Prop :=
  forall i r r' l, (i, r, l) ∈ fMembers f -> (i, r', l) ∈ fMembers f -> r = r'.


(** A reference forge is well formed when its team IDs are distinct and
    below the next free ID, as are the IDs its memberships mention; a user
    has one role in a team; and no two users of the audited set share a
    login or an email. *)
Definition wellFormed (f : Forge) : Prop :=
  NoDup (map ID (fTeams f))
  /\ (forall g, g ∈ fTeams f -> ID g < fNextID f)
  /\ (forall i r l, (i, r, l) ∈ fMembers f -> i < fNextID f)
  /\ oneRole f
  /\ NoDup (map Login (fUsers f))
  /\ NoDup (map Email (fUsers f)).



(** No user that the forge lists as a member of an observed team is a
    maintainer of the desired team matched to it. *)
Definition noRoleSwitch (f : Forge) (org : Org) : Prop :=
  forall want y e,
    want ∈ flattenTeams (oTeams org) ->
    findGitHubTeamFromDesired (fTeams f) want = Some y ->
    e ∈ tMaintainers want ->
    ~ hasRole f (ID y) RoleMember e.

(** A rule engine that only reads the forge. *)
Definition readOnly {S} (re : RuleEngine S) : Prop :=
  forall org s r s', Run re org s = (r, s') -> s' = s.






(** A rule that leaves the state as it found it. *)
Definition preserves {S} (rule : Rule S) : Prop :=
  forall org s r s', rule org s = (r, s') -> s' = s.


Definition seekUsers : list GitHubUser :=
  [mkGitHubUser "david" "david@seek.com.au"; mkGitHubUser "alice" "alice@seek.com.au";
   mkGitHubUser "bob" "bob@seek.com.au"; mkGitHubUser "gavin" "gavin@seekasia.com";
   mkGitHubUser "lester" "lester@seekasia.com"].

Definition seekForge : Forge := mkForge [] [] [] seekUsers [] 1.


(** The observed team [A] has the member m, whom [switchOrg] wants as its
    maintainer. *)
Definition switchOrg : Org :=
  mkOrg "SEEK-Jobs" [mkTeam "A" "d" [] ["m@x"] [] [".*"] []].

Definition switchForge : Forge :=
  mkForge [mkGitHubTeam 1 0 "A" "d"] [(1, RoleMember, "m")] []
          [mkGitHubUser "m" "m@x"] [] 2.



(** Is [c] an update-team call for the team of ID [id]? *)
Definition isUpdateOf (id : GitHubTeamID) (c : Call) : bool :=
  match c with
  | CUpdateTeam t => bool_decide (ID t = id)
  | _ => false
  end.

(** The calls [reconcileTeam] issues for the desired team [want], and the
    team it keeps: nothing or one update-team for the matched team, one
    update-team if the names differ, one create-team if nothing matches. *)
Definition Reconciled (haveTeams : list GitHubTeam) (orgName : string)
           (want : Team) (kept : keptGitHubTeam) (calls : list Call) : Prop :=
  match findGitHubTeamFromDesired haveTeams want with
  | Some have =>
      created kept = false
      /\ ID (keptTeam kept) = ID have
      /\ (calls = []
          \/ exists pid,
              calls = [CUpdateTeam (mkGitHubTeam (ID have) pid (tName want)
                                                 (tDescription want))])
      /\ (gName have ≠ tName want -> calls ≠ [])
  | None =>
      created kept = true
      /\ exists pid,
          calls = [CCreateTeam orgName (mkGitHubTeam 0 pid (tName want) (tDescription want))]
  end.

(** A new top-level team [new] (previously [old]) next to a team still
    called [old] with another description, and a forge observing [old]. *)
Definition renameTieOrg : Org :=
  mkOrg "SEEK-Jobs" [plainTeam "new" "d1" ["old"] [] []; plainTeam "old" "d2" [] [] []].

Definition renameTieForge : Forge := mkForge [mkGitHubTeam 7 0 "old" "d1"] [] [] [] [] 8.

(** Scenario 3 of the tests: [child1] becomes the top-level [new-parent]. *)
Definition renameOrg : Org :=
  mkOrg "SEEK-Jobs" [plainTeam "new-parent" "Child team 1" ["child1"] [] []].

Definition renameForge : Forge :=
  mkForge [parentGitHubTeam; child1GitHubTeam] [] [] [] [] 102.

(** The log of the recording service under the stats adapter. *)
Definition logOf {S} (r : S * list Call * GitHubStats) : list Call := r.1.2.

Definition isMembershipCall (c : Call) : bool :=
  match c with
  | CAddTeamMembership _ _ _ _ | CDeleteTeamMembership _ _ _ _ => true
  | _ => false
  end.

(** An org with two top-level teams of one name, and the error the built-in
    rule engine reports for it. *)
Definition dupOrg : Org :=
  mkOrg "SEEK-Jobs" [plainTeam "a" EmptyString [] [] []; plainTeam "a" EmptyString [] [] []].

Definition dupError : error :=
  ErrComposite "SEEK-Jobs" [TeamNamesUniqueError ["a"]].

(** A short session of calls against the forge. *)
Definition sessionCalls : list Call :=
  [CCreateTeam "o" (mkGitHubTeam 0 0 "a" EmptyString); CListTeams "o"; CDeleteTeam 1; CDeleteTeam 5].

(** * Names and admin topics

    Go strings are byte sequences; [string] is a list of [ascii], one per
    byte.  The regular expressions of [normaliseName] only ever match bytes
    below 128 or delete whole runes, so they are modelled byte by byte. *)

Definition isASCII (c : ascii) : bool := (N_of_ascii c <? 128)%N.

Definition isUpper (c : ascii) : bool := ((65 <=? N_of_ascii c) && (N_of_ascii c <=? 90))%N.

Definition lowerByte (c : ascii) : ascii :=
  if isUpper c then ascii_of_N (N_of_ascii c + 32) else c.

(** [strings.ToLower]: a string of bytes below 128 has ['A'..'Z'] shifted
    to ['a'..'z']; any other string goes through the Unicode mapping
    [unicodeToLower], which is left abstract. *)
Definition ToLower (unicodeToLower : list ascii -> list ascii) (s : list ascii) : list ascii :=
  if forallb isASCII s then map lowerByte s else unicodeToLower s.

Definition hyphen : ascii := "-"%char.

Definition isSpaceOrUnderscore (c : ascii) : bool :=
  bool_decide (c = " "%char) || bool_decide (c = "_"%char).

Definition isHyphen (c : ascii) : bool := bool_decide (c = hyphen).

Definition isHyphenOrUnderscore (c : ascii) : bool :=
  bool_decide (c = hyphen) || bool_decide (c = "_"%char).

(** The class [[abcdefghijklmnopqrstuvwxyz0123456789\-_]]. *)
Definition isGoodChar (c : ascii) : bool :=
  ((97 <=? N_of_ascii c) && (N_of_ascii c <=? 122))%N
  || ((48 <=? N_of_ascii c) && (N_of_ascii c <=? 57))%N
  || isHyphenOrUnderscore c.

(** [ReplaceAllString] of a pattern [[class]+] by ["-"]: every maximal run
    of bytes of the class becomes one hyphen.  [inRun] tells that the byte
    before was of the class.  For the class [[-]] this is also
    [ReplaceAllString] of [[-]{2,}]: a run of one hyphen stays one hyphen. *)
Fixpoint replaceRuns (class : ascii -> bool) (inRun : bool) (s : list ascii) : list ascii :=
  match s with
  | [] => []
  | c :: s' =>
      if class c then
        if inRun then replaceRuns class true s' else hyphen :: replaceRuns class true s'
      else c :: replaceRuns class false s'
  end.

Fixpoint dropWhile (class : ascii -> bool) (s : list ascii) : list ascii :=
  match s with
  | [] => []
  | c :: s' => if class c then dropWhile class s' else s
  end.

(** [ReplaceAllString] of [(^[\-_]+)|([\-_]+)$] by the empty string. *)
Definition trimEnds (s : list ascii) : list ascii :=
  reverse (dropWhile isHyphenOrUnderscore (reverse (dropWhile isHyphenOrUnderscore s))).

Definition normaliseBytes (unicodeToLower : list ascii -> list ascii) (name : list ascii)
  : list ascii :=
  let name := ToLower unicodeToLower name in
  let s := replaceRuns isSpaceOrUnderscore false name in
  let s := filter (fun c => isGoodChar c) s in
  let s := replaceRuns isHyphen false s in
  trimEnds s.

Definition normaliseName (unicodeToLower : list ascii -> list ascii) (name : string) : string :=
  string_of_list_ascii (normaliseBytes unicodeToLower (list_ascii_of_string name)).

Definition adminTopicPrefix : string := "admin-".
Definition maxTopicLength : nat := 35.

Record UpdateAdminTopicsResult : Type := mkUpdateAdminTopicsResult {
  ReposUpdated : Z
}.

(** Go compares strings byte by byte; [sort.Strings] sorts by that order. *)
Definition stringLe (s1 s2 : string) : Prop := String.leb s1 s2 = true.

#[global] Instance stringLe_dec : RelDecision stringLe.
Proof. intros s1 s2. unfold stringLe. apply _. Defined.

Definition sortStrings (l : list string) : list string := merge_sort stringLe l.

(** The admin topic of a team: the prefixed normalised name, cut to
    [maxTopicLength - 1] bytes when it has [maxTopicLength] bytes or more. *)
Definition adminTopicOf (unicodeToLower : list ascii -> list ascii) (teamName : string)
  : string :=
  let adminTopic := adminTopicPrefix +:+ normaliseName unicodeToLower teamName in
  if (maxTopicLength <=? String.length adminTopic)%nat
  then substring 0 (maxTopicLength - 1) adminTopic
  else adminTopic.

(** The set [wantTopics] that [rectifyRepoAdminTopics] builds. *)
Definition wantTopicsOf (unicodeToLower : list ascii -> list ascii) (r : Repo) : gset string :=
  let wantTopics :=
    fold_left (fun (w : gset string) topic =>
                 if negb (String.prefix adminTopicPrefix topic) then w ∪ {[topic]} else w)
              (rTopics r) ∅ in
  fold_left (fun (w : gset string) team =>
               if bool_decide (Permission team = RepoPermissionAdmin)
               then w ∪ {[adminTopicOf unicodeToLower (TeamName team)]} else w)
            (rTeams r) wantTopics.

(** [rectifyRepoAdminTopics]: the repo as the function leaves it, and the
    boolean it returns. *)
Definition rectifyRepoAdminTopics (unicodeToLower : list ascii -> list ascii) (r : Repo)
  : Repo * bool :=
  let haveTopics := newStringSet (rTopics r) in
  let wantTopics := wantTopicsOf unicodeToLower r in
  if bool_decide (haveTopics = wantTopics) then (r, false)
  else (mkRepo (rName r) (sortStrings (stringSetToSlice wantTopics)) (rTeams r), true).

(** [UpdateRepoAdminTopics]. *)
Definition UpdateRepoAdminTopics {S} (unicodeToLower : list ascii -> list ascii)
           (plat : Platform S) (orgName repoName : string) : M S UpdateAdminTopicsResult :=
  repo ← RepoByName (platGitHubService plat) orgName repoName;
  let '(repo, changed) := rectifyRepoAdminTopics unicodeToLower repo in
  (if changed
   then UpdateRepoTopics (platGitHubService plat) orgName repoName (rTopics repo)
   else ret tt);;
  ret (mkUpdateAdminTopicsResult 1).

(** [UpdateAdminTopics]: walk the repos of the org and collect those that
    [rectifyRepoAdminTopics] changed; then write the topics of each, and
    count the collected repos. *)
Definition UpdateAdminTopics {S} (unicodeToLower : list ascii -> list ascii)
           (plat : Platform S) (orgName : string) : M S UpdateAdminTopicsResult :=
  repos ← WalkRepos (platGitHubService plat) orgName
          (fun r repos =>
             let '(r, changed) := rectifyRepoAdminTopics unicodeToLower r in
             Ok (if changed then repos ++ [r] else repos)) [];
  forEach repos (fun repo =>
    UpdateRepoTopics (platGitHubService plat) orgName (rName repo) (rTopics repo));;
  ret (mkUpdateAdminTopicsResult (Z.of_nat (List.length repos))).

(** No upper-case letter ['A'..'Z'] among the bytes. *)
Definition lowercase (s : string) : Prop :=
  Forall (fun c => isUpper c = false) (list_ascii_of_string s).

(** Go's mapping is not needed where every name is ASCII. *)
Definition noUnicode (s : list ascii) : list ascii := s.

(** A repo whose topics already are the wanted ones, and a forge holding it. *)
Definition settledRepo : Repo :=
  mkRepo "svc" ["admin-foo"; "blue"] [mkTeamPermission "Foo" RepoPermissionAdmin].

Definition settledForge : Forge := mkForge [] [] [] [] [settledRepo] 1.

(** Functional scenario 6 of the tests: admin teams [Foo] and [Bar]. *)
Definition colourRepo : Repo :=
  mkRepo "svc" ["blue"; "red"; "green"]
         [mkTeamPermission "Foo" RepoPermissionAdmin;
          mkTeamPermission "Bar" RepoPermissionAdmin;
          mkTeamPermission "Baz" RepoPermissionWrite].

(** [UpdateTeamAdminTopics].  The walk function of the source calls
    [UpdateRepoTopics] for each repo that [rectifyRepoAdminTopics] changed
    and counts it.  [walkReposByTeamWith] is [WalkReposByTeam] of the
    service called with such a function, one that itself calls the service;
    the walks of the interface of this development take a function that
    does not, so this one is left abstract. *)
Definition UpdateTeamAdminTopics {S} (unicodeToLower : list ascii -> list ascii)
           (walkReposByTeamWith :
              forall A : Type, string -> GitHubTeamID -> (Repo -> A -> M S A) -> A -> M S A)
           (plat : Platform S) (orgName : string) (teamID : GitHubTeamID)
  : M S UpdateAdminTopicsResult :=
  updatedRepos ← walkReposByTeamWith Z orgName teamID
    (fun r updatedRepos =>
       let '(r, changed) := rectifyRepoAdminTopics unicodeToLower r in
       if changed
       then UpdateRepoTopics (platGitHubService plat) orgName (rName r) (rTopics r);;
            ret (incr updatedRepos)
       else ret updatedRepos) 0;
  ret (mkUpdateAdminTopicsResult updatedRepos).

(** A walk that lists the repos of the team first and then runs the
    function on each: one way for a service to walk with a function that
    calls it. *)
Definition walkByTeamCollected {S} (svc : GitHubService S)
  : forall A : Type, string -> GitHubTeamID -> (Repo -> A -> M S A) -> A -> M S A :=
  fun A orgName teamID walkFn a =>
    repos ← WalkReposByTeam svc orgName teamID (fun r repos => Ok (repos ++ [r])) [];
    foldM (fun a r => walkFn r a) repos a.

(** * The event worker ([ListenForEvents])

    The SQS client is an interface, as the forge is; a received SQS message
    is its body and its receipt handle. *)

Record message : Type := mkMessage {
  InstallationID : Z;
  EventType : string;
  DeliveryID : string;
  Payload : string
}.

Definition receiptHandle : Type := string.

Record SQSAPI (Q : Type) : Type := mkSQSAPI {
  ReceiveMessage : M Q (list (string * string));
  DeleteMessage : string -> M Q unit
}.
Arguments ReceiveMessage {Q} _ _.
Arguments DeleteMessage {Q} _ _ _.

(** The part of go-github's [TeamEvent] that the worker reads.  A pointer
    field is an [option]; dereferencing [None] is a nil-pointer panic. *)
Record hubUser : Type := mkHubUser { uLogin : option string }.

Record hubRepository : Type := mkHubRepository {
  repName : option string;
  repFullName : option string;
  repFork : option bool;
  repOwner : option hubUser
}.

Record hubTeam : Type := mkHubTeam { hID : option Z; hName : option string }.

Record hubOrganization : Type := mkHubOrganization { orgLogin : option string }.

Record TeamEvent : Type := mkTeamEvent {
  Action : option string;
  evTeam : option hubTeam;
  evRepo : option hubRepository;
  evOrg : option hubOrganization
}.

(** How one turn of the worker's loop ends: the loop goes on, the function
    returns after sending the error on [errChan], or the goroutine panics. *)
Inductive Turn : Type :=
| Continue
| Return (err : error)
| Panicked.

Section Events.
Context {Q S : Type}.
(** [json.Unmarshal] into a [message] and into a [TeamEvent]. *)
Variable unmarshalMessage : string -> result message.
Variable unmarshalTeamEvent : string -> result TeamEvent.
Variable unicodeToLower : list ascii -> list ascii.
Variable sqsClient : SQSAPI Q.
Variable p : Platform S.
Variable walkReposByTeamWith :
  forall A : Type, string -> GitHubTeamID -> (Repo -> A -> M S A) -> A -> M S A.

(** [queueService.receive]. *)
Definition queueService_receive : M Q (option (message * receiptHandle)) :=
  fun q =>
    match ReceiveMessage sqsClient q with
    | (Err err, q') => (Err (ErrWrapped err "failed to receive message from sqs"), q')
    | (Ok messages, q') =>
        match messages with
        | [] => (Ok None, q')
        | [(body, handle)] =>
            match unmarshalMessage body with
            | Err err => (Err (ErrWrapped err "failed to unmarshal sqs message"), q')
            | Ok m => (Ok (Some (m, handle)), q')
            end
        | _ => (Err (ErrOther ("received too many messages from sqs (expected 1, received "
                               +:+ pretty (List.length messages) +:+ ")")), q')
        end
    end.

(** [queueService.delete]. *)
Definition queueService_delete (handle : receiptHandle) : M Q unit :=
  fun q =>
    if bool_decide (handle = EmptyString) then (Ok tt, q)
    else match DeleteMessage sqsClient handle q with
         | (Err err, q') => (Err (ErrWrapped err "failed to delete message from sqs"), q')
         | (Ok _, q') => (Ok tt, q')
         end.

(** The [switch] on the action: [None] is a nil-pointer panic while the
    arguments of the log line or of the call are evaluated; otherwise the
    call to make, which leaves [err]. *)
Definition dispatch (event : TeamEvent) : option (M S (option error)) :=
  let errOf {A} (m : M S A) : M S (option error) :=
    fun s => match m s with
             | (Ok _, s') => (Ok None, s')
             | (Err err, s') => (Ok (Some err), s')
             end in
  match Action event with
  | None => Some (ret None)
  | Some action =>
      if bool_decide (action = "added_to_repository")
         || bool_decide (action = "removed_from_repository") then
        repo ← evRepo event;
        name ← repName repo;
        team ← evTeam event;
        _ ← hName team;
        owner ← repOwner repo;
        login ← uLogin owner;
        Some (errOf (UpdateRepoAdminTopics unicodeToLower p login name))
      else if bool_decide (action = "edited") then
        team ← evTeam event;
        _ ← hName team;
        match evRepo event with
        | Some repo =>
            owner ← repOwner repo;
            login ← uLogin owner;
            name ← repName repo;
            Some (errOf (UpdateRepoAdminTopics unicodeToLower p login name))
        | None =>
            org ← evOrg event;
            login ← orgLogin org;
            id ← hID team;
            Some (errOf (UpdateTeamAdminTopics unicodeToLower walkReposByTeamWith p login id))
        end
      else if bool_decide (action = "created") || bool_decide (action = "deleted") then
        Some (ret None)
      else Some (ret (Some (ErrOther ("don't recognise command " +:+ action))))
  end.

(** One turn of the [for] loop of [ListenForEvents], on the state of the
    queue and of the forge. *)
Definition listenTurn (st : Q * S) : Turn * (Q * S) :=
  let '(q, s) := st in
  match queueService_receive q with
  | (Err err, q1) => (Return err, (q1, s))
  | (Ok None, q1) => (Continue, (q1, s))
  | (Ok (Some (m, handle)), q1) =>
      match unmarshalTeamEvent (Payload m) with
      | Err _ => (Continue, (q1, s))
      | Ok event =>
          match evRepo event with
          | Some (mkHubRepository _ _ None _) => (Panicked, (q1, s))
          | Some (mkHubRepository _ fullName (Some true) _) =>
              match fullName with
              | None => (Panicked, (q1, s))
              | Some _ => (Continue, ((queueService_delete handle q1).2, s))
              end
          | _ =>
              match dispatch event with
              | None => (Panicked, (q1, s))
              | Some call => (Continue, ((queueService_delete handle q1).2, (call s).2))
              end
          end
      end
  end.

(** The [for] loop of [ListenForEvents] for at most [turns] turns: [None]
    when the loop is still running. *)
Fixpoint listenLoop (turns : nat) (st : Q * S) : option Turn * (Q * S) :=
  match turns with
  | O => (None, st)
  | Datatypes.S turns' =>
      match listenTurn st with
      | (Continue, st') => listenLoop turns' st'
      | (turn, st') => (Some turn, st')
      end
  end.
End Events.

(** [ListenForEvents]: when [newQueueService] fails, its error is sent on
    [errChan] and the function returns; otherwise the loop runs on the
    client it made. *)
Definition ListenForEvents {Q S} (unmarshalMessage : string -> result message)
           (unmarshalTeamEvent : string -> result TeamEvent)
           (unicodeToLower : list ascii -> list ascii)
           (newQueueService : result (SQSAPI Q)) (p : Platform S)
           (walkReposByTeamWith :
              forall A : Type, string -> GitHubTeamID -> (Repo -> A -> M S A) -> A -> M S A)
           (turns : nat) (st : Q * S) : option Turn * (Q * S) :=
  match newQueueService with
  | Err err => (Some (Return err), st)
  | Ok sqsClient =>
      listenLoop unmarshalMessage unmarshalTeamEvent unicodeToLower sqsClient p
                 walkReposByTeamWith turns st
  end.

(** An in-memory queue: the receipt handles and bodies of the messages in
    it.  A received message stays in the queue until it is deleted. *)
Definition memQueue : SQSAPI (list (string * string)) := {|
  ReceiveMessage := fun q => (Ok (map (fun '(handle, body) => (body, handle)) (take 1 q)), q);
  DeleteMessage := fun handle q => (Ok tt, filter (fun hb => hb.1 ≠ handle) q)
|}.

(** The calls made on an SQS client. *)
Inductive SQSCall : Type :=
| CReceiveMessage
| CDeleteMessage (handle : string).

Definition recordingSQS {Q} (sqsClient : SQSAPI Q) : SQSAPI (Q * list SQSCall) := {|
  ReceiveMessage := fun '(q, log) =>
    match ReceiveMessage sqsClient q with (r, q') => (r, (q', log ++ [CReceiveMessage])) end;
  DeleteMessage := fun handle '(q, log) =>
    match DeleteMessage sqsClient handle q with
    | (r, q') => (r, (q', log ++ [CDeleteMessage handle]))
    end
|}.

(** Decoders for the bodies used in the examples: the body of a queue
    message is taken as its payload, and three payloads are known. *)
Definition exampleMessage (body : string) : result message :=
  Ok (mkMessage 1 "team" "d1" body).

Definition exampleTeamEvent (payload : string) : result TeamEvent :=
  if bool_decide (payload = "renamed") then
    Ok (mkTeamEvent (Some "renamed") (Some (mkHubTeam (Some 7) (Some "a"))) None None)
  else if bool_decide (payload = "fork") then
    Ok (mkTeamEvent (Some "edited") (Some (mkHubTeam (Some 7) (Some "a")))
          (Some (mkHubRepository (Some "svc") (Some "o/svc") (Some true)
                   (Some (mkHubUser (Some "o"))))) None)
  else if bool_decide (payload = "created") then
    Ok (mkTeamEvent (Some "created") (Some (mkHubTeam (Some 7) (Some "a"))) None None)
  else Err (ErrOther "invalid character 'x' looking for beginning of value").

(** * Merge and unmerge ([pkg/orgbot/merge_org.go])

    A directory is the list of its entries in the order [ioutil.ReadDir]
    returns them: sorted by file name.  The functions below act on the
    content of the directory they are given; [inDir] runs an action in a
    subdirectory, which is how a path [filepath.Join(dir, name)] is
    followed.  [Join] itself only builds the paths shown in errors. *)

Inductive Node : Type :=
| File (buf : string)
| Dir (files : list (string * Node)).

Definition Files : Type := list (string * Node).

(** What is at a path: nothing, and not even the directory that should
    hold it; nothing, in a directory that exists; or a node. *)
Inductive Target : Type :=
| NoParent
| Absent
| Present (n : Node).

Fixpoint lookupFile (name : string) (files : Files) : option Node :=
  match files with
  | [] => None
  | (name', n) :: rest => if String.eqb name name' then Some n else lookupFile name rest
  end.

(** Add or replace the entry [name], keeping the entries sorted. *)
Fixpoint insertFile (name : string) (n : Node) (files : Files) : Files :=
  match files with
  | [] => [(name, n)]
  | (name', n') :: rest =>
      if String.ltb name name' then (name, n) :: files
      else if String.eqb name name' then (name, n) :: rest
      else (name', n') :: insertFile name n rest
  end.

Definition Join (dir name : string) : string :=
  if bool_decide (name = EmptyString) then dir else dir +:+ "/" +:+ name.

(** [os.Mkdir] of [filepath.Join(dir, name)], [files] being the content of
    the directory [dir]: with an empty [name] the path is [dir] itself,
    which is there. *)
Definition Mkdir (dir name : string) : M Files unit :=
  fun files =>
    if bool_decide (name = EmptyString) then (Err (ErrExist dir), files)
    else match lookupFile name files with
         | Some _ => (Err (ErrExist (Join dir name)), files)
         | None => (Ok tt, insertFile name (Dir []) files)
         end.

(** [ioutil.WriteFile]: creates the file or replaces its content. *)
Definition WriteFile (dir name buf : string) : M Files unit :=
  fun files =>
    match lookupFile name files with
    | Some (Dir _) => (Err (ErrOther ("open " +:+ Join dir name +:+ ": is a directory")), files)
    | _ => (Ok tt, insertFile name (File buf) files)
    end.

(** [ioutil.ReadFile]. *)
Definition ReadFile (dir name : string) (files : Files) : result string :=
  match lookupFile name files with
  | Some (File buf) => Ok buf
  | Some (Dir _) => Err (ErrOther ("read " +:+ Join dir name +:+ ": is a directory"))
  | None => Err (ErrNotExist (Join dir name))
  end.

Definition inDir {A} (dir name : string) (m : M Files A) : M Files A :=
  fun files =>
    match lookupFile name files with
    | Some (Dir sub) => match m sub with (r, sub') => (r, insertFile name (Dir sub') files) end
    | Some (File _) => (Err (ErrOther (Join dir name +:+ ": not a directory")), files)
    | None => (Err (ErrNotExist (Join dir name)), files)
    end.

(** [os.IsNotExist]: it does not look into an error of [errors.Wrap]. *)
Definition IsNotExist (err : error) : bool :=
  match err with
  | ErrNotExist _ => true
  | _ => false
  end.

(** The [Codec] interface, its [interface{}] argument split by type. *)
Record Codec : Type := mkCodec {
  EncodeOrg : Org -> result string;
  EncodeTeam : Team -> result string;
  DecodeOrg : string -> result Org;
  DecodeTeam : string -> result Team
}.

Definition orgFile : string := "org.yaml".
Definition teamFile : string := "team.yaml".

Definition unrecognisedFileReason : string :=
  "only " +:+ orgFile +:+ " and " +:+ teamFile +:+ " files are supported".
Definition multipleOrgFilesReason : string := "multiple " +:+ orgFile +:+ " files detected".
Definition noSiblingFilesReason : string :=
  orgFile +:+ " and " +:+ teamFile +:+ " files can't be siblings".

Definition setChildren (t : Team) (children : list Team) : Team :=
  mkTeam (tName t) (tDescription t) (tPreviously t) (tMaintainers t) (tMembers t)
         (tRestrictMembers t) children.

Section MergeUnmerge.
Variable unicodeToLower : list ascii -> list ascii.
Variable codec : Codec.

(** [readOrg] and [readTeam], on the content of directory [dir]. *)
Definition readOrg (dir : string) (files : Files) : result Org :=
  match ReadFile dir orgFile files with
  | Err err => Err err
  | Ok buf =>
      match DecodeOrg codec buf with
      | Err err => Err (ErrWrapped err ("could not unmarshal " +:+ Join dir orgFile))
      | Ok org => Ok org
      end
  end.

Definition readTeam (dir : string) (files : Files) : result Team :=
  match ReadFile dir teamFile files with
  | Err err => Err err
  | Ok buf =>
      match DecodeTeam codec buf with
      | Err err => Err (ErrWrapped err ("could not unmarshal " +:+ Join dir teamFile))
      | Ok team => Ok team
      end
  end.

(** [writeOrg] and [writeTeam], in directory [dir]. *)
Definition writeOrg (org : Org) (dir : string) : M Files unit :=
  fun files =>
    match EncodeOrg codec (mkOrg (oName org) []) with
    | Err err => (Err err, files)
    | Ok buf => WriteFile dir orgFile buf files
    end.

Definition writeTeam (t : Team) (dir : string) : M Files unit :=
  fun files =>
    match EncodeTeam codec (setChildren t []) with
    | Err err => (Err err, files)
    | Ok buf => WriteFile dir teamFile buf files
    end.

(** The loop of [descend] in [MergeOrg] over the entries of [dir];
    [descendInto] is the recursive call.  [top] tells that [dir] is the org
    directory.  The teams found are returned in the order they are appended. *)
Definition mergeEntries (descendInto : string -> Node -> result (list Team))
           (top : bool) (dir : string) : Files -> result (list Team) :=
  fix loop (files : Files) : result (list Team) :=
    match files with
    | [] => Ok []
    | (name, f) :: rest =>
        let path := Join dir name in
        match f with
        | Dir sub =>
            match readTeam path sub with
            | Err err =>
                Err (if IsNotExist err then ErrMissingControlFile path teamFile else err)
            | Ok t =>
                let normTeamName := normaliseName unicodeToLower (tName t) in
                if negb (String.eqb name normTeamName)
                then Err (ErrInvalidTeamDirName (Join dir name) (Join dir normTeamName) (tName t))
                else match descendInto path f with
                     | Err err => Err err
                     | Ok children =>
                         match loop rest with
                         | Err err => Err err
                         | Ok teams => Ok (setChildren t (tChildren t ++ children) :: teams)
                         end
                     end
            end
        | File _ =>
            if String.eqb name orgFile then
              if negb top then Err (ErrUnexpectedFile path multipleOrgFilesReason)
              else loop rest
            else if String.eqb name teamFile then
              if top then Err (ErrUnexpectedFile path noSiblingFilesReason)
              else loop rest
            else Err (ErrUnexpectedFile path unrecognisedFileReason)
        end
    end.

(** [descend] of [MergeOrg] on directory [dir], whose node is [n]. *)
Fixpoint mergeDescend (top : bool) (dir : string) (n : Node) {struct n} : result (list Team) :=
  match n with
  | File _ => Err (ErrOther ("readdirent " +:+ dir +:+ ": not a directory"))
  | Dir files => mergeEntries (mergeDescend false) top dir files
  end.

(** [MergeOrg] on directory [dir] with content [files]. *)
Definition MergeOrg (dir : string) (files : Files) : result Org :=
  match readOrg dir files with
  | Err err => Err (if IsNotExist err then ErrMissingControlFile dir orgFile else err)
  | Ok org =>
      match mergeDescend true dir (Dir files) with
      | Err err => Err err
      | Ok teams => Ok (mkOrg (oName org) (oTeams org ++ teams))
      end
  end.

(** The body of the loop of [descend] in [UnmergeOrg], in directory [dir]. *)
Fixpoint unmergeTeam (dir : string) (t : Team) : M Files unit :=
  let name := normaliseName unicodeToLower (tName t) in
  let teamDir := Join dir name in
  Mkdir dir name;;
  inDir dir name (writeTeam t teamDir);;
  inDir dir name (foldM (fun _ child => unmergeTeam teamDir child) (tChildren t) tt).

Definition unmergeDescend (dir : string) (teams : list Team) : M Files unit :=
  foldM (fun _ t => unmergeTeam dir t) teams tt.

(** [UnmergeOrg] into directory [dir], on what is at the path [dir]
    beforehand.  [os.Mkdir] makes one directory and needs the one that
    holds it; when the name of the org normalises to the empty string the
    path of the org directory is [dir] itself. *)
Definition UnmergeOrg (org : Org) (dir : string) : M Target unit :=
  fun target =>
    let name := normaliseName unicodeToLower (oName org) in
    let orgDir := Join dir name in
    match target with
    | Present (Dir files) =>
        match (Mkdir dir name;;
               inDir dir name (writeOrg org orgDir);;
               inDir dir name (unmergeDescend orgDir (oTeams org))) files with
        | (r, files') => (r, Present (Dir files'))
        end
    | Present (File _) =>
        (Err (if bool_decide (name = EmptyString) then ErrExist dir
              else ErrOther ("mkdir " +:+ orgDir +:+ ": not a directory")), target)
    | Absent =>
        if bool_decide (name = EmptyString)
        then match (writeOrg org orgDir;; unmergeDescend orgDir (oTeams org)) [] with
             | (r, files') => (r, Present (Dir files'))
             end
        else (Err (ErrNotExist orgDir), target)
    | NoParent => (Err (ErrNotExist orgDir), target)
    end.
End MergeUnmerge.

(** The content of the directory at [filepath.Join(dir, name)], [target]
    being what is at the path [dir]. *)
Definition dirAt (name : string) (target : Target) : option Files :=
  match target with
  | Present (Dir files) =>
      if bool_decide (name = EmptyString) then Some files
      else match lookupFile name files with
           | Some (Dir sub) => Some sub
           | _ => None
           end
  | _ => None
  end.

(** [SortOrg] and [SortTeam].  [sort.Slice] with [less] on the names is any
    sort by name: it is not stable, and where two teams of the slice have
    one name their order is not determined; where the names differ every
    sort by name gives the same slice.  The children are sorted after their
    own members and children are (the source sorts them before); a sort by
    name compares names only, which [SortTeam] keeps. *)
Definition teamLe (t1 t2 : Team) : Prop := stringLe (tName t1) (tName t2).

#[global] Instance teamLe_dec : RelDecision teamLe.
Proof. intros t1 t2. unfold teamLe. apply _. Defined.

Definition sortTeams (teams : list Team) : list Team := merge_sort teamLe teams.

Fixpoint SortTeam (team : Team) : Team :=
  mkTeam (tName team) (tDescription team) (tPreviously team)
         (sortStrings (tMaintainers team)) (sortStrings (tMembers team))
         (tRestrictMembers team)
         (sortTeams (map SortTeam (tChildren team))).

Definition SortOrg (org : Org) : Org :=
  mkOrg (oName org) (sortTeams (map SortTeam (oTeams org))).

(** An org or a team as a document shows it: without maintainers. *)
Fixpoint hideMaintainers (t : Team) : Team :=
  mkTeam (tName t) (tDescription t) (tPreviously t) [] (tMembers t) (tRestrictMembers t)
         (map hideMaintainers (tChildren t)).

Definition hideOrgMaintainers (org : Org) : Org :=
  mkOrg (oName org) (map hideMaintainers (oTeams org)).

(** A codec gives back what it was given when a team without children or
    an org without teams, once encoded, decodes to itself less the
    maintainers. *)
Definition roundTrips (codec : Codec) : Prop :=
  (forall name buf, EncodeOrg codec (mkOrg name []) = Ok buf ->
                    DecodeOrg codec buf = Ok (mkOrg name []))
  /\ (forall t buf, EncodeTeam codec (setChildren t []) = Ok buf ->
                    DecodeTeam codec buf = Ok (hideMaintainers (setChildren t []))).

(** A codec for the examples: it knows the documents of [docOrg] below and
    fails on every other. *)
Definition teamDoc (t : Team) : string * string * list string * list string * list string :=
  (tName t, tDescription t, tPreviously t, tMembers t, tRestrictMembers t).

Definition docTeams : list (string * Team) :=
  [("doc-b", mkTeam "B team" "second" [] [] ["zoe"; "adam"] [] []);
   ("doc-a", mkTeam "a team" "first" ["A"] [] ["bob"] [] []);
   ("doc-c", mkTeam "C" "child" [] [] [] [] [])].

Definition docCodec : Codec := {|
  EncodeOrg := fun org =>
    match oTeams org with
    | [] => if bool_decide (oName org = "Org A") then Ok "doc-org"
            else Err (ErrOther "cannot marshal")
    | _ => Err (ErrOther "cannot marshal")
    end;
  EncodeTeam := fun t =>
    match tChildren t with
    | [] =>
        match filter (fun d => teamDoc d.2 = teamDoc t) docTeams with
        | d :: _ => Ok d.1
        | [] => Err (ErrOther "cannot marshal")
        end
    | _ => Err (ErrOther "cannot marshal")
    end;
  DecodeOrg := fun buf =>
    if bool_decide (buf = "doc-org") then Ok (mkOrg "Org A" [])
    else Err (ErrOther "cannot unmarshal");
  DecodeTeam := fun buf =>
    match filter (fun d => d.1 = buf) docTeams with
    | d :: _ => Ok d.2
    | [] => Err (ErrOther "cannot unmarshal")
    end
|}.

Definition docOrg : Org :=
  mkOrg "Org A"
        [mkTeam "a team" "first" ["A"] ["mia"] ["bob"] []
                [mkTeam "C" "child" [] [] [] [] []];
         mkTeam "B team" "second" [] [] ["zoe"; "adam"] [] []].

(** One team whose members are not in order. *)
Definition unsortedOrg : Org :=
  mkOrg "Org A" [mkTeam "B team" "second" [] [] ["zoe"; "adam"] [] []].

(** ** Vocabulary of the merge and unmerge properties *)

(** What one entry of a directory adds to the teams [MergeOrg] collects:
    the body of the loop of [mergeEntries]. *)
Definition mergeEntry (unicodeToLower : list ascii -> list ascii) (codec : Codec)
           (descendInto : string -> Node -> result (list Team))
           (top : bool) (dir name : string) (f : Node) : result (option Team) :=
  let path := Join dir name in
  match f with
  | Dir sub =>
      match readTeam codec path sub with
      | Err err => Err (if IsNotExist err then ErrMissingControlFile path teamFile else err)
      | Ok t =>
          let normTeamName := normaliseName unicodeToLower (tName t) in
          if negb (String.eqb name normTeamName)
          then Err (ErrInvalidTeamDirName (Join dir name) (Join dir normTeamName) (tName t))
          else match descendInto path f with
               | Err err => Err err
               | Ok children => Ok (Some (setChildren t (tChildren t ++ children)))
               end
      end
  | File _ =>
      if String.eqb name orgFile then
        if negb top then Err (ErrUnexpectedFile path multipleOrgFilesReason) else Ok None
      else if String.eqb name teamFile then
        if top then Err (ErrUnexpectedFile path noSiblingFilesReason) else Ok None
      else Err (ErrUnexpectedFile path unrecognisedFileReason)
  end.

(** [Merged u t m]: [m] is [t] without maintainers, its children those of
    [t] in some order, each merged in turn; the directory names of the
    children of [t] differ. *)
Inductive Merged (unicodeToLower : list ascii -> list ascii) : Team -> Team -> Prop :=
| Merged_team (t : Team) (ms cs : list Team) :
    Forall2 (Merged unicodeToLower) (tChildren t) ms ->
    cs ≡ₚ ms ->
    NoDup (map (fun c => normaliseName unicodeToLower (tName c)) (tChildren t)) ->
    Merged unicodeToLower t
           (mkTeam (tName t) (tDescription t) (tPreviously t) [] (tMembers t)
                   (tRestrictMembers t) cs).

(** [Unmerged u codec teams]: what a completed [descend] of [UnmergeOrg]
    over [teams] leaves in a directory: the directory names of the teams
    were free and differ, the other entries are as they were, and
    [MergeOrg]'s loop finds the teams it found before and, in some order,
    the merged [teams]. *)
Definition Unmerged (unicodeToLower : list ascii -> list ascii) (codec : Codec)
           (teams : list Team) : Prop :=
  let norm := fun t : Team => normaliseName unicodeToLower (tName t) in
  let entries :=
    mergeEntries unicodeToLower codec (mergeDescend unicodeToLower codec false) in
  forall dir files files',
    unmergeDescend unicodeToLower codec dir teams files = (Ok tt, files') ->
    (forall t, t ∈ teams -> lookupFile (norm t) files = None)
    /\ NoDup (map norm teams)
    /\ (forall name, name ∉ map norm teams -> lookupFile name files' = lookupFile name files)
    /\ (forall top found,
           entries top dir files = Ok found ->
           exists found' ms,
             entries top dir files' = Ok found'
             /\ Forall2 (Merged unicodeToLower) teams ms
             /\ found' ≡ₚ found ++ ms).

(** A rule that leaves the log of the recording service as it was: it
    calls no method that changes the forge. *)
Definition keepsLog {S} (rule : Rule (S * list Call)) : Prop :=
  forall org s r s', rule org s = (r, s') -> s'.2 = s.2.

(* ================================================================== *)
(** * Part I, continued: more of the packages *)
(* ================================================================== *)

(** ** Vocabulary for names *)

(** No two hyphens side by side. *)
Fixpoint noDoubleHyphen (s : list ascii) : Prop :=
  match s with
  | a :: (b :: _) as rest => ~ (a = hyphen /\ b = hyphen) /\ noDoubleHyphen rest
  | _ => True
  end.

(** A letter ['a'..'z'] or a digit. *)
Definition isLowerAlnum (c : ascii) : bool :=
  ((97 <=? N_of_ascii c) && (N_of_ascii c <=? 122))%N
  || ((48 <=? N_of_ascii c) && (N_of_ascii c <=? 57))%N.

(** ** Test data for the topics of a whole org *)

Definition libRepo : Repo :=
  mkRepo "lib" ["admin-foo"; "blue"] [mkTeamPermission "Foo" RepoPermissionAdmin].

(** A forge with one repo to rectify and one that is settled. *)
Definition topicsForge : Forge := mkForge [] [] [] [] [colourRepo; libRepo] 1.

(** ** The platforms of package cmd ([pkg/cmd/platform.go])

    [NewPlatform] hands the rule engine a read-only view of the service;
    [NewReadOnlyPlatform] keeps the delegate's rule engine and makes the
    service read-only. *)
Definition NewPlatform {S} (regexpCompile : string -> result (string -> bool))
           (gitHubService : GitHubService S) : Platform S := {|
  platGitHubService := gitHubService;
  platRuleEngine := NewRuleEngine regexpCompile (NewReadOnlyGitHubService gitHubService)
|}.

Definition NewReadOnlyPlatform {S} (delegate : Platform S) : Platform S := {|
  platGitHubService := NewReadOnlyGitHubService (platGitHubService delegate);
  platRuleEngine := platRuleEngine delegate
|}.

(** A service no method of which changes what [obs] observes of the state. *)
Definition quiet {S T} (svc : GitHubService S) (obs : S -> T) : Prop :=
  forall (c : Call) s r s', perform svc c s = (r, s') -> obs s' = obs s.

(** ** Vocabulary for the rules *)

(** The restrictions a team adds to those of its ancestors: its own
    [restrictMembers], or [".*"] for a team below the top level that
    lists none. *)
Definition effectiveRestrictMembers (restrictMembersStack : list (list string)) (t : Team)
  : list string :=
  if bool_decide (restrictMembersStack ≠ []) && bool_decide (tRestrictMembers t = [])
  then [".*"] else tRestrictMembers t.

(** [Allowed regexpCompile stack t]: every maintainer and member of [t]
    matches a pattern of every layer of restrictions from the top-level
    ancestor down to [t] itself, and so for the teams below [t]. *)
Inductive Allowed (regexpCompile : string -> result (string -> bool))
  : list (list string) -> Team -> Prop :=
| Allowed_team stack t :
    (forall email layer,
        email ∈ tMaintainers t ++ tMembers t ->
        layer ∈ stack ++ [effectiveRestrictMembers stack t] ->
        matchesAny regexpCompile layer email = Ok true) ->
    Forall (Allowed regexpCompile (stack ++ [effectiveRestrictMembers stack t]))
           (tChildren t) ->
    Allowed regexpCompile stack t.

(** ** Vocabulary for the log of writes *)

(** [extendsBy lg P m]: whatever [m] returns, it appends to the log [lg]
    of the state only calls that satisfy [P]. *)
Definition extendsBy {R A} (lg : R -> list Call) (P : Call -> Prop) (m : M R A) : Prop :=
  forall r res r', m r = (res, r') ->
                   exists calls, lg r' = lg r ++ calls /\ Forall P calls.

Definition isTeamWrite (c : Call) : Prop :=
  match c with
  | CCreateTeam _ _ | CUpdateTeam _ => True
  | _ => False
  end.

Definition isDeleteTeam (c : Call) : Prop :=
  match c with
  | CDeleteTeam _ => True
  | _ => False
  end.

(** The IDs [configureTeams] keeps. *)
Definition keptIDsOf (keptTeams : list keptGitHubTeam) : gset Z :=
  list_to_set (map (fun kept => ID (keptTeam kept)) keptTeams).

(** [records rsvc lg]: the service keeps in [lg] a log of the calls of the
    methods that change GitHub, whether or not they succeed. *)
Definition records {R} (rsvc : GitHubService R) (lg : R -> list Call) : Prop :=
  forall (c : Call) r res r',
    perform rsvc c r = (res, r') -> lg r' = lg r ++ (if isWrite c then [c] else []).

(** ** Test data: one team to create and one to delete *)

Definition oneOrg : Org :=
  mkOrg "SEEK-Jobs" [mkTeam "A" "d" [] ["m@x"] ["e@x"] [".*"] []].

Definition oneForge : Forge :=
  mkForge [mkGitHubTeam 1 0 "B" EmptyString] [] []
          [mkGitHubUser "m" "m@x"; mkGitHubUser "e" "e@x"] [] 2.

(** A forge whose only org admin is a member of the team of [oneOrg]. *)
Definition adminForge : Forge :=
  mkForge [] [] [mkGitHubUser "e" "e@x"]
          [mkGitHubUser "m" "m@x"; mkGitHubUser "e" "e@x"] [] 1.

(** A decoder of message bodies that rejects one body. *)
Definition strictMessage (body : string) : result message :=
  if bool_decide (body = "not json")
  then Err (ErrOther "invalid character 'o' in literal null (expecting 'u')")
  else Ok (mkMessage 1 "team" "d1" body).

(** * Repository teams ([pkg/orgbot/repo_teams.go]) *)

Record RepoTeamsChangeSet : Type := mkRepoTeamsChangeSet {
  AddTeams : list TeamPermission;
  RemoveTeams : list TeamPermission;
  ExcludeRepos : list string;
  OnlyRepos : list string
}.

Record UpdateRepoTeamsResult : Type := mkUpdateRepoTeamsResult {
  TeamPermissionsRemoved : Z;
  TeamPermissionsAdded : Z
}.

Definition teamDoesNotExist (name : string) : error :=
  ErrOther ("team '" +:+ name +:+ "' does not exist").

(** [validateRepoTeamsChangeSet]: the loop over
    [append(changeSet.AddTeams, changeSet.RemoveTeams...)]. *)
Fixpoint validateTeamPermissions (teamPermissions : list TeamPermission)
         (teamsByName : gmap string GitHubTeam) : result unit :=
  match teamPermissions with
  | [] => Ok tt
  | tp :: rest =>
      match teamsByName !! TeamName tp with
      | None => Err (teamDoesNotExist (TeamName tp))
      | Some _ => validateTeamPermissions rest teamsByName
      end
  end.

Definition validateRepoTeamsChangeSet (changeSet : RepoTeamsChangeSet)
           (teamsByName : gmap string GitHubTeam) : result unit :=
  validateTeamPermissions (AddTeams changeSet ++ RemoveTeams changeSet) teamsByName.

(** The map [teamsByName] of [UpdateRepoTeams]: a later team of the same
    name replaces an earlier one. *)
Definition gitHubTeamsByName (teams : list GitHubTeam) : gmap string GitHubTeam :=
  fold_left (fun m t => <[gName t := t]> m) teams ∅.

Definition teamPermissionExists (haveTeamPermissions : list TeamPermission)
           (wantTeamPermission : TeamPermission) : bool :=
  existsb (fun haveTeamPermission => bool_decide (haveTeamPermission = wantTeamPermission))
          haveTeamPermissions.

(** [repoExcluded]: the names are compared after [strings.ToLower]. *)
Definition repoExcluded (unicodeToLower : list ascii -> list ascii)
           (changeSet : RepoTeamsChangeSet) (r : Repo) : bool :=
  existsb (fun rn => bool_decide (ToLower unicodeToLower (list_ascii_of_string (rName r))
                                  = ToLower unicodeToLower (list_ascii_of_string rn)))
          (ExcludeRepos changeSet).

(** What Go does when [teamsByName[tp.TeamName]] is nil and its [ID] is
    read; [validateRepoTeamsChangeSet] has ruled it out before. *)
Definition nilDereference : error :=
  ErrOther "runtime error: invalid memory address or nil pointer dereference".

Section RepoTeams.
Context {S : Type}.
Variable unicodeToLower : list ascii -> list ascii.
(** [WalkRepos] of the service called with a function that itself calls
    the service; the walks of the interface of this development take a
    function that does not, so this one is left abstract. *)
Variable walkReposWith :
  forall A : Type, string -> (Repo -> A -> M S A) -> A -> M S A.
Variable plat : Platform S.

(** [walkFn]: the counters [res] it captures are passed along. *)
Definition updateRepoTeams_walkFn (orgName : string) (changeSet : RepoTeamsChangeSet)
           (teamsByName : gmap string GitHubTeam) (r : Repo) (res : UpdateRepoTeamsResult)
  : M S UpdateRepoTeamsResult :=
  if repoExcluded unicodeToLower changeSet r then ret res
  else
    res ← foldM (fun (res : UpdateRepoTeamsResult) tp =>
                   if teamPermissionExists (rTeams r) tp then
                     match teamsByName !! TeamName tp with
                     | None => fail nilDereference
                     | Some t =>
                         DeleteTeamRepoPermission (platGitHubService plat) orgName (rName r)
                                                  (ID t);;
                         ret (mkUpdateRepoTeamsResult (incr (TeamPermissionsRemoved res))
                                                      (TeamPermissionsAdded res))
                     end
                   else ret res)
                (RemoveTeams changeSet) res;
    foldM (fun (res : UpdateRepoTeamsResult) tp =>
             if negb (teamPermissionExists (rTeams r) tp) then
               match teamsByName !! TeamName tp with
               | None => fail nilDereference
               | Some t =>
                   AddTeamRepoPermission (platGitHubService plat) orgName (rName r) (ID t)
                                         (Permission tp);;
                   ret (mkUpdateRepoTeamsResult (TeamPermissionsRemoved res)
                                                (incr (TeamPermissionsAdded res)))
               end
             else ret res)
          (AddTeams changeSet) res.

(** [UpdateRepoTeams]. *)
Definition UpdateRepoTeams (orgName : string) (changeSet : RepoTeamsChangeSet)
  : M S UpdateRepoTeamsResult :=
  teams ← ListTeams (platGitHubService plat) orgName;
  let teamsByName := gitHubTeamsByName teams in
  match validateRepoTeamsChangeSet changeSet teamsByName with
  | Err err => fail err
  | Ok _ =>
      let walkFn := updateRepoTeams_walkFn orgName changeSet teamsByName in
      let res := mkUpdateRepoTeamsResult 0 0 in
      if bool_decide (0 < List.length (OnlyRepos changeSet))%nat then
        foldM (fun res repoName =>
                 repo ← RepoByName (platGitHubService plat) orgName repoName;
                 walkFn repo res)
              (OnlyRepos changeSet) res
      else walkReposWith UpdateRepoTeamsResult orgName walkFn res
  end.
End RepoTeams.



(** A walk that lists the repos first and then runs the function on each:
    one way for a service to walk with a function that calls it. *)
Definition walkCollected {S} (svc : GitHubService S)
  : forall A : Type, string -> (Repo -> A -> M S A) -> A -> M S A :=
  fun A orgName walkFn a =>
    repos ← WalkRepos svc orgName (fun r repos => Ok (repos ++ [r])) [];
    foldM (fun a r => walkFn r a) repos a.

(** ** Test data for the teams of the repos *)

Definition permForge : Forge :=
  mkForge [mkGitHubTeam 1 0 "Foo" EmptyString; mkGitHubTeam 2 0 "Bar" EmptyString]
          [] [] [] [colourRepo; libRepo] 3.


Definition unknownChangeSet : RepoTeamsChangeSet :=
  mkRepoTeamsChangeSet [mkTeamPermission "Bar" RepoPermissionRead;
                        mkTeamPermission "Nope" RepoPermissionRead] [] [] [].

(** ** Vocabulary for the result of [ApplyOrg] *)

(** The number of calls of kind [k] in a log. *)
Definition countKind (k : WriteKind) (log : list Call) : nat :=
  List.length (List.filter (fun c => bool_decide (writeKind c = Some k)) log).

(** The stats are those of a zeroed adapter that has counted every call
    of the log. *)
Definition tallied {S} (p : S * list Call * GitHubStats) : Prop :=
  forall k, counter k p.2 = Nat.iter (countKind k p.1.2) incr 0.

(* ================================================================== *)
(** * Part II: properties *)
(* ================================================================== *)

(** ** The monad *)

Lemma bind_ok {S A B} (m : M S A) (k : A -> M S B) s a s' :
  m s = (Ok a, s') -> (m ≫= k) s = k a s'.
Proof. intros H. unfold mbind, M_bind, bind. by rewrite H. Qed.

Lemma bind_err {S A B} (m : M S A) (k : A -> M S B) s e s' :
  m s = (Err e, s') -> (m ≫= k) s = (Err e, s').
Proof. intros H. unfold mbind, M_bind, bind. by rewrite H. Qed.

Lemma bind_ok_eq {S A B} (m : M S A) (k : A -> M S B) s a s' r :
  m s = (Ok a, s') -> k a s' = r -> (m ≫= k) s = r.
Proof. intros H <-. by apply bind_ok. Qed.

Lemma bind_inv_ok {S A B} (m : M S A) (k : A -> M S B) s b s' :
  (m ≫= k) s = (Ok b, s') ->
  exists a s1, m s = (Ok a, s1) /\ k a s1 = (Ok b, s').
Proof.
  unfold mbind, M_bind, bind. destruct (m s) as [[a|e] s1]; [eauto | discriminate].
Qed.

Lemma forEach_app {S A} (xs ys : list A) (body : A -> M S unit) s :
  forEach (xs ++ ys) body s =
  match forEach xs body s with
  | (Ok _, s') => forEach ys body s'
  | (Err e, s') => (Err e, s')
  end.
Proof.
  revert s. induction xs as [|x xs IH]; intros s; simpl; [done|].
  unfold mbind, M_bind, bind. destruct (body x s) as [[[]|e] s1]; [apply IH | done].
Qed.

(** ** The stats adapter *)

Lemma wrapInt_small x : - 2 ^ 63 <= x < 2 ^ 63 -> wrapInt x = x.
Proof.
  intros H. unfold wrapInt.
  rewrite Z.mod_small; lia.
Qed.

Lemma incr_small x : 0 <= x < 2 ^ 63 - 1 -> incr x = x + 1.
Proof. intros H. unfold incr. apply wrapInt_small. lia. Qed.

Lemma counter_bump_same k st : counter k (bump k st) = incr (counter k st).
Proof. by destruct k. Qed.

Lemma counter_bump_other k k' st : k ≠ k' -> counter k (bump k' st) = counter k st.
Proof. by destruct k, k'. Qed.

Lemma perform_stats {S} (svc : GitHubService S) (c : Call) (s : S) (st : GitHubStats) :
  perform (NewStatsGitHubService svc) c (s, st) =
  ((perform svc c s).1, ((perform svc c s).2, statsAfter c (perform svc c s).1 st)).
Proof.
  destruct c; unfold statsAfter; simpl; unfold replyWith, counted, liftS;
    match goal with |- context [match ?m s with _ => _ end] =>
      destruct (m s) as [[?|?] ?] end; reflexivity.
Qed.

Lemma succeeded_le k cs rs : (succeeded k cs rs <= List.length cs)%nat.
Proof.
  revert rs. induction cs as [|c cs IH]; intros [|r rs]; simpl; try lia.
  specialize (IH rs). destruct (bool_decide _ && isOk r); lia.
Qed.

Lemma runCalls_stats {S} (svc : GitHubService S) (cs : list Call) (s : S) (st : GitHubStats) :
  (forall k, 0 <= counter k st /\ counter k st + Z.of_nat (List.length cs) < 2 ^ 63) ->
  exists st',
    runCalls (NewStatsGitHubService svc) cs (s, st)
    = ((runCalls svc cs s).1, ((runCalls svc cs s).2, st'))
    /\ forall k, counter k st' = counter k st + Z.of_nat (succeeded k cs (runCalls svc cs s).1).
Proof.
  revert s st. induction cs as [|c cs IH]; intros s st Hb.
  - exists st. split; [done|]. intros k. simpl. lia.
  - cbn [runCalls]. rewrite perform_stats.
    destruct (perform svc c s) as [r s1] eqn:Hp. cbn [fst snd].
    destruct (IH s1 (statsAfter c r st)) as (st' & Hrun & Hcnt).
    { intros k. specialize (Hb k). cbn [List.length] in Hb.
      unfold statsAfter. destruct (writeKind c) as [k'|]; [|lia].
      destruct (isOk r); [|lia].
      destruct (decide (k = k')) as [->|Hne].
      - rewrite counter_bump_same, incr_small; lia.
      - rewrite counter_bump_other by done. lia. }
    rewrite Hrun. destruct (runCalls svc cs s1) as [rs s2] eqn:Hr. cbn [fst snd].
    exists st'. split; [done|]. intros k. rewrite Hcnt. cbn [fst succeeded].
    specialize (Hb k). cbn [List.length] in Hb.
    unfold statsAfter. destruct (writeKind c) as [k'|] eqn:Hk; cbn [andb].
    + destruct (isOk r); cbn.
      * destruct (decide (k = k')) as [->|Hne].
        -- rewrite bool_decide_eq_true_2 by done. cbn.
           rewrite counter_bump_same, incr_small; lia.
        -- rewrite bool_decide_eq_false_2 by congruence. cbn.
           rewrite counter_bump_other by done. lia.
      * rewrite andb_false_r. lia.
    + rewrite bool_decide_eq_false_2 by congruence. cbn. lia.
Qed.

(** C9.  For every sequence of calls on a stats-wrapped service started
    from zeroed stats, the replies and the delegate's state are those of the
    delegate alone, and each counter read by [Stats] equals the number of
    calls of its write kind whose delegate call returned without error;
    a call that is not one of the five counted writes, or whose delegate
    fails, leaves the stats as they were.  (The counters are 64-bit, hence
    the bound on the number of calls.) *)
Theorem stats_count_successful_writes {S} (svc : GitHubService S) (cs : list Call) (s : S) :
  Z.of_nat (List.length cs) < 2 ^ 63 ->
  (exists st,
      runCalls (NewStatsGitHubService svc) cs (s, zeroStats)
      = ((runCalls svc cs s).1, ((runCalls svc cs s).2, st))
      /\ Stats ((runCalls svc cs s).2, st) = (Ok st, ((runCalls svc cs s).2, st))
      /\ forall k, counter k st = Z.of_nat (succeeded k cs (runCalls svc cs s).1))
  /\ (forall c s0 st,
        writeKind c = None \/ isOk (perform svc c s0).1 = false ->
        (perform (NewStatsGitHubService svc) c (s0, st)).2.2 = st).
Proof.
  intros Hlen. split.
  - destruct (runCalls_stats svc cs s zeroStats) as (st & Hrun & Hcnt).
    { intros k. destruct k; cbn; lia. }
    exists st. split; [done|]. split; [done|].
    intros k. rewrite Hcnt. destruct k; cbn; lia.
  - intros c s0 st H. rewrite perform_stats. cbn. unfold statsAfter.
    destruct H as [-> | ->]; [done|]. by destruct (writeKind c).
Qed.

(** ** The rule engine *)

Lemma asRuleError_Some err re : asRuleError err = Some re -> err = ErrRule re.
Proof. destruct err; simpl; congruence. Qed.

Lemma runRules_collected {S} (org : Org) (rules : list (Rule S)) s res s' acc :
  Collected org rules s res s' ->
  runRules rules org acc s = (Ok (acc ++ res), s').
Proof.
  intros H. revert acc. induction H; intros acc; simpl.
  - by rewrite app_nil_r.
  - rewrite H. apply IHCollected.
  - rewrite H. simpl. rewrite IHCollected. by rewrite <- app_assoc.
Qed.

Lemma runRules_ok_inv {S} (org : Org) (rules : list (Rule S)) s out s' acc :
  runRules rules org acc s = (Ok out, s') ->
  exists res, out = acc ++ res /\ Collected org rules s res s'.
Proof.
  revert s acc. induction rules as [|rule rules IH]; intros s acc; simpl.
  - intros [= <- <-]. exists []. split; [by rewrite app_nil_r | constructor].
  - destruct (rule org s) as [[[]|err] s1] eqn:Hr.
    + intros H. destruct (IH _ _ H) as (res & -> & Hc).
      exists res. split; [done|]. by eapply Collected_pass.
    + destruct (asRuleError err) as [re|] eqn:Hre; [|discriminate].
      apply asRuleError_Some in Hre as ->.
      intros H. destruct (IH _ _ H) as (res & -> & Hc).
      exists (re :: res). split; [by rewrite <- app_assoc|]. by eapply Collected_fail.
Qed.

Lemma runRules_app {S} (org : Org) (pre post : list (Rule S)) s acc :
  runRules (pre ++ post) org acc s =
  match runRules pre org acc s with
  | (Ok acc', s1) => runRules post org acc' s1
  | (Err err, s1) => (Err err, s1)
  end.
Proof.
  revert s acc. induction pre as [|rule pre IH]; intros s acc; simpl; [done|].
  destruct (rule org s) as [[[]|err] s1]; [apply IH|].
  destruct (asRuleError err); [apply IH | done].
Qed.

Lemma Collected_nil_AllPass {S} (org : Org) (rules : list (Rule S)) s s' :
  Collected org rules s [] s' <-> AllPass org rules s s'.
Proof.
  split.
  - intros H. remember [] as res eqn:E. induction H; try discriminate.
    + constructor.
    + econstructor; eauto.
  - induction 1; [constructor | by eapply Collected_pass].
Qed.

Lemma ruleEngine_Run_collected {S} (org : Org) (rules : list (Rule S)) s res s' :
  Collected org rules s res s' ->
  ruleEngine_Run rules org s =
  (match res with [] => Ok tt | _ => Err (ErrComposite (oName org) res) end, s').
Proof.
  intros H. unfold ruleEngine_Run.
  erewrite bind_ok by (apply (runRules_collected _ _ _ _ _ [] H)).
  simpl. by destruct res.
Qed.

Lemma ruleEngine_Run_AllPass {S} (rules : list (Rule S)) (org : Org) (s s' : S) :
  Run (ruleEngine rules) org s = (Ok tt, s') <-> AllPass org rules s s'.
Proof.
  simpl. split.
  - unfold ruleEngine_Run. intros H.
    destruct (runRules rules org [] s) as [[out|err] s1] eqn:Hr.
    + erewrite bind_ok in H by exact Hr.
      destruct (runRules_ok_inv _ _ _ _ _ _ Hr) as (res & -> & Hc).
      simpl in *. destruct res as [|re res].
      * simpl in H. injection H as <-. by apply Collected_nil_AllPass.
      * simpl in H. discriminate.
    + erewrite bind_err in H by exact Hr. discriminate.
  - intros H. apply Collected_nil_AllPass in H.
    by rewrite (ruleEngine_Run_collected _ _ _ _ _ H).
Qed.

(** C4.  [Run] returns nil exactly when every registered rule, run in
    registration order, returns nil; when every rule returns nil or a
    [RuleError] and at least one fails, [Run] returns the
    [CompositeRuleError] of the org with exactly those [RuleError]s in
    registration order; and when the rules before [rule] return nil or a
    [RuleError] and [rule] fails with an error that is not a [RuleError],
    [Run] returns that error as it is, in the state [rule] left: no later
    rule is run. *)
Theorem ruleEngine_Run_spec {S} (rules : list (Rule S)) (org : Org) (s : S) :
  (forall s', Run (ruleEngine rules) org s = (Ok tt, s') <-> AllPass org rules s s')
  /\ (forall res s', Collected org rules s res s' -> res ≠ [] ->
        Run (ruleEngine rules) org s = (Err (ErrComposite (oName org) res), s'))
  /\ (forall pre rule post res s1 err s2,
        rules = pre ++ rule :: post ->
        Collected org pre s res s1 ->
        rule org s1 = (Err err, s2) ->
        asRuleError err = None ->
        Run (ruleEngine rules) org s = (Err err, s2)).
Proof.
  split; [|split].
  - intros s'. apply ruleEngine_Run_AllPass.
  - simpl. intros res s' H Hne. rewrite (ruleEngine_Run_collected _ _ _ _ _ H).
    by destruct res.
  - simpl. intros pre rule post res s1 err s2 -> Hc Hr Hnone.
    unfold ruleEngine_Run. erewrite bind_err; [done|].
    rewrite runRules_app, (runRules_collected _ _ _ _ _ [] Hc). simpl.
    by rewrite Hr, Hnone.
Qed.

(** ** Induction over the desired forest *)

Lemma Team_ind_forall (P : Team -> Prop) :
  (forall n d pr ma me rm cs, Forall P cs -> P (mkTeam n d pr ma me rm cs)) ->
  forall t, P t.
Proof.
  intros H. fix IH 1. intros [n d pr ma me rm cs]. apply H.
  induction cs as [|c cs IHcs]; constructor; [apply IH | exact IHcs].
Qed.

Lemma flattenTeam_unfold t :
  flattenTeam t = t :: flattenTeams (tChildren t).
Proof. by destruct t. Qed.

Lemma flattenTeams_cons t ts :
  flattenTeams (t :: ts) = flattenTeam t ++ flattenTeams ts.
Proof. reflexivity. Qed.

Lemma processTeam_unfold {S} (svc : GitHubService S) orgName haveTeams parent keptTeams want :
  processTeam svc orgName haveTeams parent keptTeams want =
  (kept ← reconcileTeam svc orgName haveTeams parent want;
   process svc orgName haveTeams (Some (keptTeam kept)) (tChildren want) (keptTeams ++ [kept])).
Proof. by destruct want. Qed.

Lemma process_cons {S} (svc : GitHubService S) orgName haveTeams parent want wantTeams keptTeams :
  process svc orgName haveTeams parent (want :: wantTeams) keptTeams =
  (keptTeams' ← processTeam svc orgName haveTeams parent keptTeams want;
   process svc orgName haveTeams parent wantTeams keptTeams').
Proof. reflexivity. Qed.

Lemma process_nil {S} (svc : GitHubService S) orgName haveTeams parent keptTeams :
  process svc orgName haveTeams parent [] keptTeams = ret keptTeams.
Proof. reflexivity. Qed.

(** ** C10: every kept team is a desired team *)

Section KeptNames.
Context {S : Type} (svc : GitHubService S).
Hypothesis UpdateTeam_name : forall t s r s',
    UpdateTeam svc t s = (Ok r, s') -> gName r = gName t.
Hypothesis CreateTeam_name : forall o t s r s',
    CreateTeam svc o t s = (Ok r, s') -> gName r = gName t.

Lemma reconcileTeam_name orgName haveTeams parent want s kept s' :
  reconcileTeam svc orgName haveTeams parent want s = (Ok kept, s') ->
  gName (keptTeam kept) = tName want.
Proof.
  unfold reconcileTeam. destruct (findGitHubTeamFromDesired haveTeams want) as [have|].
  - intros H. apply bind_inv_ok in H as (t & s1 & Hu & Hr).
    injection Hr as <- <-. simpl. unfold updateTeam in Hu.
    destruct (_ || _) eqn:Hmod.
    + by apply UpdateTeam_name in Hu.
    + injection Hu as <- <-.
      apply orb_false_elim in Hmod as [_ Hn].
      apply bool_decide_eq_false in Hn. by destruct (decide (gName have = tName want)).
  - intros H. apply bind_inv_ok in H as (t & s1 & Hc & Hr).
    injection Hr as <- <-. simpl. unfold createTeam in Hc.
    by apply CreateTeam_name in Hc.
Qed.

Lemma process_kept_names orgName haveTeams wantTeams :
  forall parent keptTeams s keptTeams' s',
    process svc orgName haveTeams parent wantTeams keptTeams s = (Ok keptTeams', s') ->
    exists new, keptTeams' = keptTeams ++ new
                /\ map (fun k => gName (keptTeam k)) new = map tName (flattenTeams wantTeams).
Proof.
  induction wantTeams as [|want wantTeams IHl].
  - intros parent keptTeams s keptTeams' s' [= <- <-]. exists []. by rewrite app_nil_r.
  - revert wantTeams IHl. induction want as [n d pr ma me rm cs IHcs] using Team_ind_forall.
    intros wantTeams IHl parent keptTeams s keptTeams' s' H.
    rewrite process_cons in H. apply bind_inv_ok in H as (k1 & s1 & Hteam & Hrest).
    rewrite processTeam_unfold in Hteam.
    apply bind_inv_ok in Hteam as (kept & s0 & Hrec & Hch).
    apply reconcileTeam_name in Hrec. cbn [tChildren tName] in *.
    assert (Hchildren : exists new, k1 = (keptTeams ++ [kept]) ++ new
              /\ map (fun k => gName (keptTeam k)) new = map tName (flattenTeams cs)).
    { clear Hrest IHl. revert Hch. generalize (keptTeams ++ [kept]) (Some (keptTeam kept)).
      revert s0 k1 s1. induction IHcs as [|c cs Hc _ IH]; intros s0 k1 s1 acc par Hch.
      - injection Hch as <- <-. exists []. by rewrite app_nil_r.
      - eapply (Hc cs); [|exact Hch]. intros. eapply IH. eassumption. }
    destruct Hchildren as (newc & -> & Hnc).
    destruct (IHl _ _ _ _ _ Hrest) as (newr & -> & Hnr).
    exists (kept :: newc ++ newr). split.
    + by rewrite <- !app_assoc.
    + rewrite flattenTeams_cons, flattenTeam_unfold. cbn [tChildren].
      cbn [map app]. rewrite !map_app, Hrec, Hnc, Hnr. reflexivity.
Qed.
End KeptNames.

Lemma teamsByName_team_dom (t : Team) :
  forall m, dom (teamsByName_team m t) = dom m ∪ list_to_set (map tName (flattenTeam t)).
Proof.
  induction t as [n d pr ma me rm cs IHcs] using Team_ind_forall. intros m.
  cbn [teamsByName_team tChildren tName]. rewrite flattenTeam_unfold. cbn [tChildren tName map].
  set (m0 := <[n:=_]> m).
  assert (forall m1, dom (fold_left teamsByName_team cs m1)
                     = dom m1 ∪ list_to_set (map tName (flattenTeams cs))) as Hcs.
  { induction IHcs as [|c cs Hc _ IH]; intros m1; simpl; [set_solver|].
    rewrite IH, Hc. unfold flattenTeams. rewrite map_app, list_to_set_app_L. set_solver. }
  rewrite Hcs. unfold m0. rewrite dom_insert_L. set_solver.
Qed.

Lemma teamsByName_dom (teams : list Team) :
  dom (teamsByName teams) = list_to_set (map tName (flattenTeams teams)).
Proof.
  unfold teamsByName.
  assert (forall m, dom (fold_left teamsByName_team teams m)
                    = dom m ∪ list_to_set (map tName (flattenTeams teams))) as H.
  { induction teams as [|t ts IH]; intros m; simpl; [set_solver|].
    rewrite IH, teamsByName_team_dom. unfold flattenTeams.
    rewrite map_app, list_to_set_app_L. set_solver. }
  rewrite H. set_solver.
Qed.

Lemma promoteTeam_names admins (t : Team) :
  map tName (flattenTeam (promoteTeam admins t)) = map tName (flattenTeam t).
Proof.
  induction t as [n d pr ma me rm cs IHcs] using Team_ind_forall.
  cbn [promoteTeam tChildren tName]. rewrite !flattenTeam_unfold. cbn [tChildren tName map].
  f_equal. induction IHcs as [|c cs Hc _ IH]; [done|].
  cbn [map]. rewrite !flattenTeams_cons, !map_app. by rewrite Hc, IH.
Qed.

Lemma promoteTeams_names admins (teams : list Team) :
  map tName (flattenTeams (map (promoteTeam admins) teams)) = map tName (flattenTeams teams).
Proof.
  induction teams as [|t ts IH]; [done|].
  cbn [map]. rewrite !flattenTeams_cons, !map_app. by rewrite promoteTeam_names, IH.
Qed.

Lemma configureTeams_inv {S} (svc : GitHubService S) org haveTeams s keptTeams s' :
  configureTeams svc org haveTeams s = (Ok keptTeams, s') ->
  exists s1, process svc (oName org) haveTeams None (oTeams org) [] s = (Ok keptTeams, s1).
Proof.
  unfold configureTeams. intros H.
  apply bind_inv_ok in H as (k & s1 & Hp & H).
  apply bind_inv_ok in H as ([] & s2 & _ & H). injection H as <- <-. eauto.
Qed.

(** C10 (as amended).  If [UpdateTeam] and [CreateTeam] both return a team
    whose name is the name they were given, every team that
    [configureTeams] keeps has a name that is a key of the map
    [configureTeamMemberships] builds from the org [promoteAdmins] returns:
    the lookup in its loop never misses. *)
Theorem kept_teams_in_desired_state {S} (svc : GitHubService S) (org org' : Org)
        (haveTeams : list GitHubTeam) (keptTeams : list keptGitHubTeam) (s s1 s2 s3 : S) :
  (forall t s r s', UpdateTeam svc t s = (Ok r, s') -> gName r = gName t) ->
  (forall o t s r s', CreateTeam svc o t s = (Ok r, s') -> gName r = gName t) ->
  configureTeams svc org haveTeams s = (Ok keptTeams, s1) ->
  promoteAdmins svc org s2 = (Ok org', s3) ->
  Forall (fun have => is_Some (teamsByName (oTeams org') !! gName (keptTeam have))) keptTeams
  /\ map (fun have => gName (keptTeam have)) keptTeams = desiredNames org.
Proof.
  intros Hu Hc Hconf Hprom.
  apply configureTeams_inv in Hconf as (s1' & Hp).
  destruct (process_kept_names svc Hu Hc _ _ _ _ _ _ _ _ Hp) as (new & -> & Hnames).
  simpl. split; [|exact Hnames].
  unfold promoteAdmins in Hprom.
  apply bind_inv_ok in Hprom as (admins & s4 & _ & Hr). injection Hr as <- <-.
  cbn [oTeams]. apply Forall_forall. intros have Hin.
  apply elem_of_dom. rewrite teamsByName_dom, promoteTeams_names, <- Hnames.
  apply elem_of_list_to_set. apply list_elem_of_fmap. eauto.
Qed.

Lemma forge_UpdateTeam_returns_argument t f r f' :
  UpdateTeam forge t f = (Ok r, f') -> r = t.
Proof. simpl. destruct (hasTeam f (ID t)); [|done]. by intros [= <- _]. Qed.

Lemma forge_CreateTeam_name o t f r f' :
  CreateTeam forge o t f = (Ok r, f') -> gName r = gName t.
Proof. simpl. by intros [= <- _]. Qed.

Lemma kept_teams_in_desired_state_witness :
  Forall (fun have => is_Some (teamsByName (oTeams testOrg) !! gName (keptTeam have)))
         [mkKept (mkGitHubTeam 1 0 "parent" "Parent team") true;
          mkKept (mkGitHubTeam 2 1 "child1" "Child team 1") true;
          mkKept (mkGitHubTeam 3 1 "child2" "Child team 2") true]
  /\ map (fun have => gName (keptTeam have))
         [mkKept (mkGitHubTeam 1 0 "parent" "Parent team") true;
          mkKept (mkGitHubTeam 2 1 "child1" "Child team 1") true;
          mkKept (mkGitHubTeam 3 1 "child2" "Child team 2") true]
     = desiredNames testOrg.
Proof.
  apply (kept_teams_in_desired_state forge testOrg testOrg [] _ emptyForge
           (snd (configureTeams forge testOrg [] emptyForge)) emptyForge emptyForge).
  - intros t s r s' H. apply forge_UpdateTeam_returns_argument in H. by subst.
  - apply forge_CreateTeam_name.
  - vm_compute. reflexivity.
  - vm_compute. reflexivity.
Defined.

(** C10, counterexample to the claim as stated: on a service whose
    [UpdateTeam] returns the name it was given but whose [CreateTeam]
    returns the team under the name the forge stored, a one-team org with
    unique names is kept under a name that is not a key of the
    desired-team map, and the membership phase fails with "expected team
    ... to be in desired state". *)
Lemma kept_team_not_desired_counterexample :
  let org := mkOrg "SEEK-Jobs" [plainTeam "a" EmptyString [] [] []] in
  let kept := mkKept (mkGitHubTeam 1 0 "a (new)" EmptyString) true in
  NoDup (desiredNames org)
  /\ (forall t s r s', UpdateTeam decoratingForge t s = (Ok r, s') -> gName r = gName t)
  /\ (configureTeams decoratingForge org [] emptyForge).1 = Ok [kept]
  /\ teamsByName (oTeams org) !! gName (keptTeam kept) = None
  /\ (ApplyOrg (mkPlatform decoratingForge (NewRuleEngine anyRegexp decoratingForge))
               org emptyForge).1
     = Err (notInDesiredState "a (new)").
Proof.
  cbv zeta. split; [|split; [|split; [|split]]].
  - vm_compute. repeat constructor. set_solver.
  - intros t s r s' H. simpl in H. destruct (hasTeam s (ID t)); [|done]. by injection H as <- _.
  - vm_compute. reflexivity.
  - vm_compute. reflexivity.
  - vm_compute. reflexivity.
Qed.

(** ** C1: a converged forge is left alone *)

Section NoOp.
Context {S : Type} (svc : GitHubService S) (s : S) (orgName : string).
Context (haveTeams : list GitHubTeam).





End NoOp.



(** ** C1: the first run converges on the reference forge *)

Lemma NoDup_fmap_eq {A B} (f : A -> B) (l : list A) x y :
  NoDup (map f l) -> x ∈ l -> y ∈ l -> f x = f y -> x = y.
Proof.
  induction l as [|a l IH]; intros Hnd Hx Hy Heq; [by apply elem_of_nil in Hx|].
  cbn [map] in Hnd. apply NoDup_cons in Hnd as [Ha Hnd].
  apply elem_of_cons in Hx as [->|Hx]; apply elem_of_cons in Hy as [->|Hy]; auto.
  - exfalso. apply Ha. rewrite Heq. by apply list_elem_of_fmap_2.
  - exfalso. apply Ha. rewrite <- Heq. by apply list_elem_of_fmap_2.
Qed.

Lemma forest_ind (Q : list Team -> Prop) :
  Q [] ->
  (forall want rest, Q (tChildren want) -> Q rest -> Q (want :: rest)) ->
  forall wantTeams, Q wantTeams.
Proof.
  intros Hnil Hcons wantTeams.
  induction wantTeams as [|want rest IHrest]; [exact Hnil|].
  revert rest IHrest.
  induction want as [n d pr ma me rm cs IHcs] using Team_ind_forall.
  intros rest IHrest. apply Hcons; [|exact IHrest]. cbn [tChildren].
  induction IHcs as [|c cs Hc _ IH]; [exact Hnil | by apply Hc].
Qed.

Lemma findTeamNamed_Some teams name t :
  findTeamNamed teams name = Some t -> t ∈ teams /\ gName t = name.
Proof.
  unfold findTeamNamed. intros H. apply find_some in H as [Hin Hn].
  apply bool_decide_eq_true in Hn. split; [by apply list_elem_of_In | done].
Qed.



Lemma matchedIDs_cons haveTeams want rest :
  matchedIDs haveTeams (want :: rest) =
  option_list (ID <$> findGitHubTeamFromDesired haveTeams want)
  ++ matchedIDs haveTeams (tChildren want) ++ matchedIDs haveTeams rest.
Proof.
  unfold matchedIDs. rewrite flattenTeams_cons, flattenTeam_unfold.
  rewrite <- app_comm_cons. change (omap ?f (?x :: ?l)) with
    (match f x with Some y => y :: omap f l | None => omap f l end).
  rewrite omap_app. by destruct (findGitHubTeamFromDesired haveTeams want).
Qed.














(** *** Deleting the teams that were not kept *)

Lemma teamNameOfID_None f id : teamNameOfID f id = None -> id ∉ map ID (fTeams f).
Proof.
  unfold teamNameOfID. destruct (find _ (fTeams f)) as [g|] eqn:E; [done|].
  intros _ Hin. apply list_elem_of_fmap in Hin as (g & -> & Hg).
  eapply find_none in E; [|by apply list_elem_of_In].
  by rewrite bool_decide_eq_true_2 in E.
Qed.



(** *** The audited user set of the reference forge *)









(** *** Memberships on the reference forge *)





















(** *** Gluing the phases *)



Lemma promoteTeam_name admins t : tName (promoteTeam admins t) = tName t.
Proof. by destruct t. Qed.



Lemma filter_isAdmin_idem admins (members : list string) :
  filter (fun email => isAdmin admins email)
         (filter (fun email => ¬ isAdmin admins email) members) = [].
Proof.
  induction members as [|m members IH]; [done|].
  rewrite (filter_cons (fun email => ¬ isAdmin admins email)).
  destruct (decide (¬ isAdmin admins m)) as [Hm|Hm]; [|exact IH].
  rewrite filter_cons. destruct (decide (isAdmin admins m)); [done | exact IH].
Qed.

Lemma filter_notAdmin_idem admins (members : list string) :
  filter (fun email => ¬ isAdmin admins email)
         (filter (fun email => ¬ isAdmin admins email) members)
  = filter (fun email => ¬ isAdmin admins email) members.
Proof.
  induction members as [|m members IH]; [done|].
  rewrite (filter_cons _ m members).
  destruct (decide (¬ isAdmin admins m)) as [Hm|Hm]; [|exact IH].
  rewrite filter_cons. destruct (decide (¬ isAdmin admins m)); [|done]. by rewrite IH.
Qed.

Lemma promoteTeam_idem admins t :
  promoteTeam admins (promoteTeam admins t) = promoteTeam admins t.
Proof.
  induction t as [n d pr ma me rm cs IHcs] using Team_ind_forall.
  cbn [promoteTeam tName tDescription tPreviously tMaintainers tMembers
       tRestrictMembers tChildren].
  rewrite filter_isAdmin_idem, app_nil_r, filter_notAdmin_idem. f_equal.
  rewrite map_map. induction IHcs as [|c cs Hc _ IH]; [done|].
  cbn [map]. by rewrite Hc, IH.
Qed.

Lemma flattenTeam_promote admins (t : Team) :
  flattenTeam (promoteTeam admins t) = map (promoteTeam admins) (flattenTeam t).
Proof.
  induction t as [n d pr ma me rm cs IHcs] using Team_ind_forall.
  rewrite !flattenTeam_unfold. cbn [promoteTeam tChildren map]. f_equal.
  induction IHcs as [|c cs Hc _ IH]; [done|].
  cbn [map]. rewrite !flattenTeams_cons, map_app. by rewrite Hc, IH.
Qed.

Lemma flattenTeams_promote admins (teams : list Team) :
  flattenTeams (map (promoteTeam admins) teams) = map (promoteTeam admins) (flattenTeams teams).
Proof.
  induction teams as [|t ts IH]; [done|].
  cbn [map]. rewrite !flattenTeams_cons, map_app. by rewrite flattenTeam_promote, IH.
Qed.

(** The emails of a promoted team are those of the team. *)
Lemma promoteTeam_emails admins (t : Team) :
  tMaintainers (promoteTeam admins t) ++ tMembers (promoteTeam admins t)
  ≡ₚ tMaintainers t ++ tMembers t.
Proof.
  destruct t as [n d pr ma me rm cs]. cbn. rewrite <- app_assoc.
  apply Permutation_app_head.
  apply (filter_app_complement (fun email => isAdmin admins email)).
Qed.

Lemma teamsByName_team_unfold (m : gmap string Team) (t : Team) :
  teamsByName_team m t = fold_left teamsByName_team (tChildren t) (<[tName t := t]> m).
Proof. by destruct t. Qed.

Lemma teamsByName_fold (teams : list Team) (name : string) :
  forall m : gmap string Team,
    fold_left teamsByName_team teams m !! name
    = match last (List.filter (fun t => bool_decide (tName t = name)) (flattenTeams teams)) with
      | Some t => Some t
      | None => m !! name
      end.
Proof.
  induction teams as [|t rest IHc IHr] using forest_ind; intros m; [done|].
  cbn [fold_left]. rewrite IHr, teamsByName_team_unfold, IHc.
  rewrite flattenTeams_cons, flattenTeam_unfold, List.filter_app. cbn [List.filter].
  rewrite last_app.
  destruct (last (List.filter _ (flattenTeams rest))) as [u|]; [done|].
  case_bool_decide as Hn.
  - change (t :: ?l) with ([t] ++ l). rewrite last_app.
    destruct (last (List.filter _ (flattenTeams (tChildren t)))) as [u|]; [done|].
    cbn. by rewrite <- Hn, lookup_insert_eq.
  - destruct (last (List.filter _ (flattenTeams (tChildren t)))) as [u|]; [done|].
    by rewrite lookup_insert_ne.
Qed.







Lemma ApplyOrg_unfold {S} (plat : Platform S) org s :
  ApplyOrg plat org s =
  match Run (platRuleEngine plat) org s with
  | (Err err, s1) => (Err err, s1)
  | (Ok _, s1) =>
      match applyWithStats (NewStatsGitHubService (platGitHubService plat)) org
                           (s1, zeroStats) with
      | (r, (s2, _)) => (r, s2)
      end
  end.
Proof. reflexivity. Qed.



(** *** The built-in rules only read the reference forge *)

Lemma bind_preserves {S A B} (m : M S A) (k : A -> M S B) s r s' :
  (forall r1 s1, m s = (r1, s1) -> s1 = s) ->
  (forall a r2 s2, k a s = (r2, s2) -> s2 = s) ->
  (m ≫= k) s = (r, s') -> s' = s.
Proof.
  intros Hm Hk. unfold mbind, M_bind, bind.
  destruct (m s) as [[a|e] s1] eqn:E; specialize (Hm _ _ eq_refl); subst s1.
  - apply Hk.
  - by intros [= _ <-].
Qed.

Lemma foldM_preserves {S A B} (f : B -> A -> M S B) (xs : list A) :
  Forall (fun x => forall b s r s', f b x s = (r, s') -> s' = s) xs ->
  forall b s r s', foldM f xs b s = (r, s') -> s' = s.
Proof.
  induction 1 as [|x xs Hx _ IH]; intros b s r s'; cbn [foldM].
  - by intros [= _ <-].
  - apply bind_preserves.
    + intros r1 s1. apply Hx.
    + intros a r2 s2. apply IH.
Qed.

Lemma runRules_preserves {S} (rules : list (Rule S)) :
  Forall preserves rules ->
  forall org acc s r s', runRules rules org acc s = (r, s') -> s' = s.
Proof.
  induction 1 as [|rule rules Hr _ IH]; intros org acc s r s'; cbn [runRules].
  - by intros [= _ <-].
  - destruct (rule org s) as [[[]|err] s1] eqn:E; apply Hr in E; subst s1.
    + apply IH.
    + destruct (asRuleError err); [apply IH | by intros [= _ <-]].
Qed.

Lemma ruleEngine_readOnly {S} (rules : list (Rule S)) :
  Forall preserves rules -> readOnly (ruleEngine rules).
Proof.
  intros H org s r s'. cbn [Run ruleEngine]. unfold ruleEngine_Run.
  apply bind_preserves.
  - intros r1 s1. by apply runRules_preserves.
  - intros a r2 s2. case_bool_decide; by intros [= _ <-].
Qed.

Lemma unknownUsers_team_unfold {S} (svc : GitHubService S) orgName violations t :
  unknownUsers_team svc orgName violations t =
  (violations ←
     foldM (fun violations email s =>
              match UserByEmail svc orgName email s with
              | (Ok _, s') => (Ok violations, s')
              | (Err err, s') =>
                  if isUserNotFound err
                  then (Ok (addViolation violations (tName t) email), s')
                  else (Err err, s')
              end)
           (tMaintainers t ++ tMembers t) violations;
   foldM (unknownUsers_team svc orgName) (tChildren t) violations).
Proof. by destruct t. Qed.

Lemma unknownUsersRule_preserves : preserves (unknownUsersRule forge).
Proof.
  assert (forall orgName t violations s r s',
             unknownUsers_team forge orgName violations t s = (r, s') -> s' = s) as Hteam.
  { intros orgName t.
    induction t as [n d pr ma me rm cs IHcs] using Team_ind_forall.
    intros violations s r s'. rewrite unknownUsers_team_unfold. apply bind_preserves.
    - intros r1 s1. apply foldM_preserves. apply Forall_forall.
      intros email _ b s0 r0 s0'. cbn.
      destruct (userByEmail s0 orgName email) as [u|err];
        [|destruct (isUserNotFound err)]; by intros [= _ <-].
    - intros a r2 s2. cbn [tChildren]. apply foldM_preserves.
      eapply Forall_impl; [exact IHcs|]. intros c Hc b s0 r0 s0'. apply Hc. }
  intros org s r s'. unfold unknownUsersRule. apply bind_preserves.
  - intros r1 s1. apply foldM_preserves. apply Forall_forall.
    intros t _ b s0 r0 s0'. apply Hteam.
  - intros a r2 s2. case_bool_decide; by intros [= _ <-].
Qed.

Lemma teamNamesUniqueRule_preserves {S} : preserves (@teamNamesUniqueRule S).
Proof.
  intros org s r s'. unfold teamNamesUniqueRule.
  destruct (fold_left _ _ _) as [u v]. case_bool_decide; by intros [= _ <-].
Qed.

Lemma usersUniqueWithinTeamRule_preserves {S} : preserves (@usersUniqueWithinTeamRule S).
Proof.
  intros org s r s'. unfold usersUniqueWithinTeamRule.
  case_bool_decide; by intros [= _ <-].
Qed.

Lemma teamNameLengthRule_preserves {S} maxLength : preserves (@teamNameLengthRule S maxLength).
Proof.
  intros org s r s'. unfold teamNameLengthRule.
  case_bool_decide; by intros [= _ <-].
Qed.

Lemma crossOrgMembershipsRule_preserves {S} regexpCompile :
  preserves (@crossOrgMembershipsRule regexpCompile S).
Proof.
  intros org s r s'. unfold crossOrgMembershipsRule.
  destruct (crossOrg_run _ _ _ _); [case_bool_decide|]; by intros [= _ <-].
Qed.

Lemma activeTeamDeletionsRule_preserves : preserves (activeTeamDeletionsRule forge).
Proof.
  intros org s r s'. unfold activeTeamDeletionsRule. apply bind_preserves.
  - intros r1 s1. cbn. by intros [= _ <-].
  - intros haveTeams r2 s2. apply bind_preserves.
    + intros r1 s1. apply foldM_preserves. apply Forall_forall.
      intros [i have] _ b s0 r0 s0'. apply bind_preserves.
      * intros r3 s3. unfold listTeamRepoNames. cbn.
        destruct (teamNameOfID s0 (ID have)); by intros [= _ <-].
      * intros a r3 s3. by intros [= _ <-].
    + intros a r3 s3. case_bool_decide; by intros [= _ <-].
Qed.

Lemma NewRuleEngine_readOnly regexpCompile : readOnly (NewRuleEngine regexpCompile forge).
Proof.
  apply ruleEngine_readOnly. unfold ruleEngine_Add. cbn [app].
  repeat constructor.
  - apply unknownUsersRule_preserves.
  - apply teamNamesUniqueRule_preserves.
  - apply usersUniqueWithinTeamRule_preserves.
  - apply teamNameLengthRule_preserves.
  - apply activeTeamDeletionsRule_preserves.
  - apply crossOrgMembershipsRule_preserves.
Qed.

(** *** What [teamNamesUniqueRule] accepts *)

Lemma teamNamesUnique_team_unfold acc t :
  teamNamesUnique_team acc t =
  fold_left teamNamesUnique_team (tChildren t)
    (if bool_decide (tName t ∈ acc.1)
     then (acc.1, acc.2 ++ [tName t])
     else ({[tName t]} ∪ acc.1, acc.2)).
Proof. destruct t, acc. reflexivity. Qed.

Lemma teamNamesUnique_fold (teams : list Team) :
  forall (unique : gset string) (violations : list string),
  exists dups,
    fold_left teamNamesUnique_team teams (unique, violations)
    = (unique ∪ list_to_set (map tName (flattenTeams teams)), violations ++ dups)
    /\ (dups = [] ->
        NoDup (map tName (flattenTeams teams))
        /\ forall n, n ∈ map tName (flattenTeams teams) -> n ∉ unique).
Proof.
  induction teams as [|t rest IHc IHr] using forest_ind; intros unique violations.
  { exists []. cbn. rewrite app_nil_r. split; [f_equal; set_solver|].
    intros _. split; [constructor|]. intros n Hn. by apply elem_of_nil in Hn. }
  cbn [fold_left]. rewrite teamNamesUnique_team_unfold. cbn [fst snd].
  rewrite flattenTeams_cons, flattenTeam_unfold. cbn [map app]. rewrite map_app.
  case_bool_decide as Hin.
  - destruct (IHc unique (violations ++ [tName t])) as (d1 & -> & _).
    destruct (IHr (unique ∪ list_to_set (map tName (flattenTeams (tChildren t))))
                  ((violations ++ [tName t]) ++ d1)) as (d2 & -> & _).
    exists ((tName t :: d1) ++ d2). split.
    + f_equal; [|by rewrite <- !app_assoc].
      rewrite list_to_set_cons, list_to_set_app_L. set_solver.
    + discriminate.
  - destruct (IHc ({[tName t]} ∪ unique) violations) as (d1 & -> & H1).
    destruct (IHr (({[tName t]} ∪ unique)
                     ∪ list_to_set (map tName (flattenTeams (tChildren t))))
                  (violations ++ d1)) as (d2 & -> & H2).
    exists (d1 ++ d2). split.
    + f_equal; [|by rewrite <- !app_assoc].
      rewrite list_to_set_cons, list_to_set_app_L. set_solver.
    + intros Hd. apply app_eq_nil in Hd as [-> ->].
      destruct (H1 eq_refl) as [Hnd1 Hfresh1]. destruct (H2 eq_refl) as [Hnd2 Hfresh2].
      split.
      * apply NoDup_cons. split.
        -- intros Hx. apply elem_of_app in Hx as [Hx|Hx].
           ++ apply (Hfresh1 _ Hx). set_solver.
           ++ apply (Hfresh2 _ Hx). set_solver.
        -- apply NoDup_app. split; [done|]. split; [|done].
           intros n Hn Hn'. apply (Hfresh2 _ Hn'). apply elem_of_union. right.
           by apply elem_of_list_to_set.
      * intros n Hn. apply elem_of_cons in Hn as [->|Hn]; [done|].
        apply elem_of_app in Hn as [Hn|Hn].
        -- intros Hu. apply (Hfresh1 _ Hn). set_solver.
        -- intros Hu. apply (Hfresh2 _ Hn). set_solver.
Qed.



(** [usersUniqueWithinTeamRule]: no violation exactly when no team lists an
    email twice. *)
Lemma usersUnique_emails_empty team (emails : list string) :
  forall (unique : gset string) (violations : gmap string (list string)),
    snd (fold_left
           (fun '(unique, violations) email =>
              if bool_decide (email ∈ (unique : gset string))
              then (unique, addViolation violations team email)
              else ({[email]} ∪ unique, violations))
           emails (unique, violations)) = ∅
    <-> violations = ∅ /\ NoDup emails /\ forall e, e ∈ emails -> e ∉ unique.
Proof.
  induction emails as [|e emails IH]; intros unique violations; cbn [fold_left snd].
  - split; [|by intros [? _]]. intros ->. split; [done|]. split; [constructor|].
    intros e He. by apply elem_of_nil in He.
  - case_bool_decide as Hin; rewrite IH.
    + split.
      * intros [Hv _]. unfold addViolation in Hv. by apply insert_non_empty in Hv.
      * intros (_ & _ & Hf). exfalso. apply (Hf e); [left|done].
    + split.
      * intros (-> & Hnd & Hf). split; [done|]. split.
        -- apply NoDup_cons. split; [|done]. intros He. apply (Hf e He). set_solver.
        -- intros e' He'. apply elem_of_cons in He' as [->|He']; [done|].
           intros Hu. apply (Hf e' He'). set_solver.
      * intros (-> & Hnd & Hf). apply NoDup_cons in Hnd as [Hne Hnd].
        split; [done|]. split; [done|]. intros e' He' Hu.
        apply elem_of_union in Hu as [Hu|Hu].
        -- apply elem_of_singleton in Hu as ->. done.
        -- apply (Hf e'); [by right|done].
Qed.

Lemma usersUnique_team_unfold violations t :
  usersUnique_team violations t
  = fold_left usersUnique_team (tChildren t)
              (usersUnique_emails (tName t) (tMaintainers t ++ tMembers t) violations).
Proof. by destruct t. Qed.

Lemma usersUnique_empty (teams : list Team) :
  forall violations,
    fold_left usersUnique_team teams violations = ∅
    <-> violations = ∅
        /\ forall u, u ∈ flattenTeams teams -> NoDup (tMaintainers u ++ tMembers u).
Proof.
  induction teams as [|t rest IHc IHr] using forest_ind; intros violations.
  - cbn. split; [|by intros [? _]]. intros ->. split; [done|].
    intros u Hu. by apply elem_of_nil in Hu.
  - cbn [fold_left]. rewrite IHr, usersUnique_team_unfold, IHc.
    unfold usersUnique_emails. rewrite usersUnique_emails_empty.
    rewrite flattenTeams_cons, flattenTeam_unfold. split.
    + intros [[(-> & Hnd & _) Hc] Hr]. split; [done|].
      intros u Hu. apply elem_of_app in Hu as [Hu|Hu]; [|by apply Hr].
      apply elem_of_cons in Hu as [->|Hu]; [done|by apply Hc].
    + intros [-> H]. split; [split; [split; [done|split]|]|].
      * apply H. apply elem_of_app. left. left.
      * intros e _. apply not_elem_of_empty.
      * intros u Hu. apply H. apply elem_of_app. left. by right.
      * intros u Hu. apply H. apply elem_of_app. by right.
Qed.



(** ** C3: a failing rule engine *)

(** *** The built-in rules call no method that changes the forge *)

Lemma bind_keeps {S T A B} (obs : S -> T) (m : M S A) (k : A -> M S B) :
  (forall s r s', m s = (r, s') -> obs s' = obs s) ->
  (forall a s r s', k a s = (r, s') -> obs s' = obs s) ->
  forall s r s', (m ≫= k) s = (r, s') -> obs s' = obs s.
Proof.
  intros Hm Hk s r s'. unfold mbind, M_bind, bind.
  destruct (m s) as [[a|e] s1] eqn:E; apply Hm in E.
  - intros H. apply Hk in H. congruence.
  - intros [= _ <-]. done.
Qed.

Lemma foldM_keeps {S T A B} (obs : S -> T) (f : B -> A -> M S B) (xs : list A) :
  Forall (fun x => forall b s r s', f b x s = (r, s') -> obs s' = obs s) xs ->
  forall b s r s', foldM f xs b s = (r, s') -> obs s' = obs s.
Proof.
  induction 1 as [|x xs Hx _ IH]; intros b; cbn [foldM].
  - by intros s r s' [= _ <-].
  - apply bind_keeps; [apply Hx | intros a; apply IH].
Qed.

Lemma runRules_keeps {S T} (obs : S -> T) (rules : list (Rule S)) :
  Forall (fun rule => forall org s r s', rule org s = (r, s') -> obs s' = obs s) rules ->
  forall org acc s r s', runRules rules org acc s = (r, s') -> obs s' = obs s.
Proof.
  induction 1 as [|rule rules Hr _ IH]; intros org acc s r s'; cbn [runRules].
  - by intros [= _ <-].
  - destruct (rule org s) as [[[]|err] s1] eqn:E; apply Hr in E.
    + intros H. apply IH in H. congruence.
    + destruct (asRuleError err).
      * intros H. apply IH in H. congruence.
      * by intros [= _ <-].
Qed.

Lemma pure_rule_keepsLog {S} (rule : Rule (S * list Call)) :
  preserves rule -> keepsLog rule.
Proof. intros H org s r s' Hr. apply H in Hr. by subst. Qed.

Section RecordedRules.
Context {S : Type} (svc : GitHubService S).

Lemma unknownUsersRule_keepsLog : keepsLog (unknownUsersRule (recording svc)).
Proof.
  assert (forall orgName t violations s r s',
             unknownUsers_team (recording svc) orgName violations t s = (r, s') ->
             s'.2 = s.2) as Hteam.
  { intros orgName t.
    induction t as [n d pr ma me rm cs IHcs] using Team_ind_forall.
    intros violations. rewrite unknownUsers_team_unfold. apply (bind_keeps snd).
    - apply (foldM_keeps snd). apply Forall_forall.
      intros email _ b [s0 log0] r0 s0'. cbn. unfold unlogged.
      destruct (UserByEmail svc orgName email s0) as [[u|err] s1].
      + by intros [= _ <-].
      + destruct (isUserNotFound err); by intros [= _ <-].
    - intros a. cbn [tChildren]. apply (foldM_keeps snd).
      eapply Forall_impl; [exact IHcs|]. intros c Hc b. apply Hc. }
  intros org. unfold unknownUsersRule. apply (bind_keeps snd).
  - apply (foldM_keeps snd). apply Forall_forall. intros t _ b. apply Hteam.
  - intros a s r s'. case_bool_decide; by intros [= _ <-].
Qed.

Lemma activeTeamDeletionsRule_keepsLog : keepsLog (activeTeamDeletionsRule (recording svc)).
Proof.
  intros org. unfold activeTeamDeletionsRule. apply (bind_keeps snd).
  - intros [s log] r s'. cbn. unfold unlogged.
    destruct (ListTeams svc (oName org) s) as [r0 s0]. by intros [= _ <-].
  - intros haveTeams. apply (bind_keeps snd).
    + apply (foldM_keeps snd). apply Forall_forall.
      intros [i have] _ b. apply (bind_keeps snd).
      * intros [s log] r s'. unfold listTeamRepoNames. cbn. unfold unlogged.
        destruct (WalkReposByTeam svc _ _ _ _ s) as [r0 s0]. by intros [= _ <-].
      * intros a s r s'. by intros [= _ <-].
    + intros a s r s'. case_bool_decide; by intros [= _ <-].
Qed.

Lemma NewRuleEngine_keepsLog regexpCompile (org : Org) s r s' :
  Run (NewRuleEngine regexpCompile (recording svc)) org s = (r, s') -> s'.2 = s.2.
Proof.
  cbn [Run NewRuleEngine ruleEngine]. unfold ruleEngine_Run. revert s r s'.
  apply (bind_keeps snd).
  - intros s r s'. apply (runRules_keeps snd). unfold ruleEngine_Add. cbn [app].
    repeat constructor.
    + apply unknownUsersRule_keepsLog.
    + apply pure_rule_keepsLog, teamNamesUniqueRule_preserves.
    + apply pure_rule_keepsLog, usersUniqueWithinTeamRule_preserves.
    + apply pure_rule_keepsLog, teamNameLengthRule_preserves.
    + apply activeTeamDeletionsRule_keepsLog.
    + apply pure_rule_keepsLog, crossOrgMembershipsRule_preserves.
  - intros a s r s'. case_bool_decide; by intros [= _ <-].
Qed.
End RecordedRules.

(** C3.  If the rule engine returns an error for the org, [ApplyOrg] returns
    that error in the state the rule engine left, and it calls no method
    that changes the forge: run on the recording platform, the log of such
    calls is as it was (empty from an empty log).  The built-in rule engine
    itself, consulting a recording service, leaves the log as it was, and
    consulting the reference forge leaves the forge as it was. *)
Theorem ApplyOrg_rule_error_no_writes {S} (plat : Platform S) (org : Org) (s s1 : S)
        (err : error) (log : list Call) :
  Run (platRuleEngine plat) org s = (Err err, s1) ->
  ApplyOrg plat org s = (Err err, s1)
  /\ ApplyOrg (recordingPlatform plat) org (s, log) = (Err err, (s1, log))
  /\ ApplyOrg (recordingPlatform plat) org (s, []) = (Err err, (s1, []))
  /\ (forall regexpCompile (svc : GitHubService S) err' s' log',
        Run (NewRuleEngine regexpCompile (recording svc)) org (s, log) = (Err err', (s', log')) ->
        ApplyOrg (mkPlatform (recording svc) (NewRuleEngine regexpCompile (recording svc)))
                 org (s, log) = (Err err', (s', log))
        /\ log' = log)
  /\ (forall regexpCompile (f f' : Forge) err',
        Run (NewRuleEngine regexpCompile forge) org f = (Err err', f') ->
        ApplyOrg (forgePlatform regexpCompile) org f = (Err err', f)).
Proof.
  intros H. split; [|split; [|split; [|split]]].
  - unfold ApplyOrg. by rewrite H.
  - unfold ApplyOrg. simpl. unfold unlogged. by rewrite H.
  - unfold ApplyOrg. simpl. unfold unlogged. by rewrite H.
  - intros regexpCompile svc err' s' log' Hre.
    apply NewRuleEngine_keepsLog in Hre as Hlog. cbn [snd] in Hlog. subst log'.
    split; [|done]. rewrite ApplyOrg_unfold. cbn [platRuleEngine]. by rewrite Hre.
  - intros regexpCompile f f' err' Hre.
    apply NewRuleEngine_readOnly in Hre as Hf. subst f'.
    rewrite ApplyOrg_unfold. unfold forgePlatform. cbn [platRuleEngine]. by rewrite Hre.
Qed.

Lemma ApplyOrg_rule_error_no_writes_witness :
  ApplyOrg (forgePlatform anyRegexp) dupOrg emptyForge = (Err dupError, emptyForge)
  /\ ApplyOrg (recordingPlatform (forgePlatform anyRegexp)) dupOrg
              (emptyForge, [CDeleteTeam 3])
     = (Err dupError, (emptyForge, [CDeleteTeam 3]))
  /\ ApplyOrg (recordingPlatform (forgePlatform anyRegexp)) dupOrg (emptyForge, [])
     = (Err dupError, (emptyForge, [])).
Proof.
  assert (Run (platRuleEngine (forgePlatform anyRegexp)) dupOrg emptyForge
          = (Err dupError, emptyForge)) as Hre by (vm_compute; reflexivity).
  destruct (ApplyOrg_rule_error_no_writes (forgePlatform anyRegexp) dupOrg emptyForge
              emptyForge dupError [CDeleteTeam 3] Hre) as (H1 & H2 & H3 & _).
  repeat split; assumption.
Defined.

(** ** C1: the built-in rules accept the org again *)



Lemma teamNameLength_team_unfold maxLength violations t :
  teamNameLength_team maxLength violations t
  = fold_left (teamNameLength_team maxLength) (tChildren t)
              (if bool_decide (maxLength < Z.of_nat (String.length (tName t)))
               then violations ++ [tName t] else violations).
Proof. by destruct t. Qed.








(** [crossOrgMembershipsRule]: no violation exactly when every email
    matches every layer of restrictions above it. *)
Section CrossOrg.
Variable regexpCompile : string -> result (string -> bool).

Lemma checkLayers_empty team email (stack : list (list string)) :
  forall violations,
    checkLayers regexpCompile team email stack violations = Ok ∅
    <-> violations = ∅
        /\ forall layer, layer ∈ stack -> matchesAny regexpCompile layer email = Ok true.
Proof.
  induction stack as [|layer stack IH]; intros violations; cbn [checkLayers].
  - split; [|by intros [-> _]]. intros [= ->]. split; [done|].
    intros layer Hl. by apply elem_of_nil in Hl.
  - destruct (matchesAny regexpCompile layer email) as [[|]|err] eqn:Hm.
    + rewrite IH. split.
      * intros [-> H]. split; [done|]. intros l Hl.
        apply elem_of_cons in Hl as [->|Hl]; [done | by apply H].
      * intros [-> H]. split; [done|]. intros l Hl. apply H. by right.
    + rewrite IH. split.
      * intros [Hv _]. unfold addViolation in Hv. by apply insert_non_empty in Hv.
      * intros [_ H]. specialize (H layer). rewrite Hm in H. discriminate H. left.
    + split; [done|]. intros [_ H]. specialize (H layer). rewrite Hm in H.
      discriminate H. left.
Qed.

Lemma checkEmails_empty team (emails : list string) (stack : list (list string)) :
  forall violations,
    checkEmails regexpCompile team emails stack violations = Ok ∅
    <-> violations = ∅
        /\ forall e layer, e ∈ emails -> layer ∈ stack ->
                           matchesAny regexpCompile layer e = Ok true.
Proof.
  induction emails as [|e emails IH]; intros violations; cbn [checkEmails].
  - split; [|by intros [-> _]]. intros [= ->]. split; [done|].
    intros e layer He. by apply elem_of_nil in He.
  - destruct (checkLayers regexpCompile team e stack violations) as [v1|err] eqn:Hl.
    + rewrite IH. split.
      * intros [-> H]. apply checkLayers_empty in Hl as [-> Hl]. split; [done|].
        intros e' layer He'. apply elem_of_cons in He' as [->|He']; [apply Hl | by apply H].
      * intros [-> H]. split.
        -- assert (checkLayers regexpCompile team e stack ∅ = Ok ∅) as Hl'.
           { apply checkLayers_empty. split; [done|]. intros layer. apply H. left. }
           congruence.
        -- intros e' layer He'. apply H. by right.
    + split; [done|]. intros [-> H].
      assert (checkLayers regexpCompile team e stack ∅ = Ok ∅) as Hl'.
      { apply checkLayers_empty. split; [done|]. intros layer. apply H. left. }
      congruence.
Qed.

Lemma crossOrg_team_unfold stack violations t :
  crossOrg_team regexpCompile stack violations t
  = let restrictMembers :=
      if bool_decide (stack ≠ []) && bool_decide (tRestrictMembers t = [])
      then [".*"] else tRestrictMembers t in
    match checkEmails regexpCompile (tName t) (tMaintainers t ++ tMembers t)
                      (stack ++ [restrictMembers]) violations with
    | Err err => Err err
    | Ok violations' => crossOrg_run regexpCompile (stack ++ [restrictMembers])
                                     (tChildren t) violations'
    end.
Proof.
  destruct t as [n d pr ma me rm cs]. cbn [crossOrg_team tName tMaintainers tMembers
    tRestrictMembers tChildren]. cbv zeta.
  destruct (checkEmails _ _ _ _ _) as [v|]; [|done].
  generalize v. induction cs as [|c cs IH]; intros v0; [done|].
  cbn [crossOrg_run]. destruct (crossOrg_team _ _ _ c); [apply IH|done].
Qed.


End CrossOrg.

(** [activeTeamDeletionsRule] on a converged forge: every observed team is
    matched, so no team is to be deleted. *)
Lemma activeTeamDeletions_team_unfold haveTeams haveTeamsByID t :
  activeTeamDeletions_team haveTeams haveTeamsByID t
  = fold_left (activeTeamDeletions_team haveTeams) (tChildren t)
              (match findGitHubTeamFromDesired haveTeams t with
               | Some have => delete (ID have) haveTeamsByID
               | None => haveTeamsByID
               end).
Proof. by destruct t. Qed.

Lemma activeTeamDeletions_dom haveTeams (teams : list Team) :
  forall haveTeamsByID : gmap Z GitHubTeam,
    dom (fold_left (activeTeamDeletions_team haveTeams) teams haveTeamsByID)
    = dom haveTeamsByID ∖ list_to_set (matchedIDs haveTeams teams).
Proof.
  induction teams as [|t rest IHc IHr] using forest_ind; intros m.
  - cbn. set_solver.
  - cbn [fold_left]. rewrite IHr, activeTeamDeletions_team_unfold, IHc, matchedIDs_cons.
    rewrite !list_to_set_app_L.
    destruct (findGitHubTeamFromDesired haveTeams t) as [have|]; cbn [fmap option_fmap
      option_map option_list].
    + rewrite dom_delete_L. set_solver.
    + set_solver.
Qed.

Lemma haveTeamsByID_dom (haveTeams : list GitHubTeam) :
  forall m : gmap Z GitHubTeam,
    dom (fold_left (fun m have => <[ID have := have]> m) haveTeams m)
    = dom m ∪ list_to_set (map ID haveTeams).
Proof.
  induction haveTeams as [|have rest IH]; intros m; cbn [fold_left map].
  - set_solver.
  - rewrite IH, dom_insert_L. set_solver.
Qed.








(** The other way a second run can write: the observed team has the member
    m and the org wants m as its maintainer.  The memberships are listed
    before either role is updated, so the first [ApplyOrg] makes m a
    maintainer and then, m being in the member listing and not among the
    desired members, removes the membership; the second run adds m again. *)
Lemma ApplyOrg_role_switch_example :
  let f1 := mkForge [mkGitHubTeam 1 0 "A" "d"] [] [] [mkGitHubUser "m" "m@x"] [] 2 in
  wellFormed switchForge
  /\ NoDup (matchedIDs (fTeams switchForge) (oTeams switchOrg))
  /\ ApplyOrg (recordingPlatform (forgePlatform anyRegexp)) switchOrg (switchForge, [])
     = (Ok (mkApplyOrgResult 0 0 0 1 1, switchOrg),
        (f1, [CAddTeamMembership "SEEK-Jobs" 1 "m@x" RoleMaintainer;
              CDeleteTeamMembership "SEEK-Jobs" 1 "m@x" RoleMember]))
  /\ (ApplyOrg (recordingPlatform (forgePlatform anyRegexp)) switchOrg (f1, [])).1
     = Ok (mkApplyOrgResult 0 0 0 1 0, switchOrg)
  /\ ~ noRoleSwitch switchForge switchOrg.
Proof.
  cbv zeta. split; [|split; [|split; [|split]]].
  - split; [|split; [|split; [|split; [|split]]]].
    + vm_compute. repeat constructor. set_solver.
    + intros g Hg. apply list_elem_of_singleton in Hg as ->. vm_compute. reflexivity.
    + intros i r l H. apply list_elem_of_singleton in H as [= -> _ _].
      vm_compute. reflexivity.
    + intros i r r' l H H'. apply list_elem_of_singleton in H as [= -> -> ->].
      by apply list_elem_of_singleton in H' as [= ->].
    + vm_compute. repeat constructor. set_solver.
    + vm_compute. repeat constructor. set_solver.
  - vm_compute. repeat constructor. set_solver.
  - vm_compute. reflexivity.
  - vm_compute. reflexivity.
  - intros H.
    apply (H (mkTeam "A" "d" [] ["m@x"] [] [".*"] []) (mkGitHubTeam 1 0 "A" "d") "m@x").
    + vm_compute. left.
    + vm_compute. reflexivity.
    + left.
    + exists (mkGitHubUser "m" "m@x"). split; [left|]. split; [done|]. left.
Qed.

(** ** C2: a rename keeps the identity of the team *)

(** The lemmas are stated for any service [rsvc] that keeps a log [logOf]
    of the team writes it receives and whose [UpdateTeam] returns a team of
    the ID it was given; the recording service under the stats adapter is
    one ([recorded_update] and its siblings below). *)
Section Rename.
Context {R : Type} (rsvc : GitHubService R) (logOf : R -> list Call).
Hypothesis rec_update : forall t r g r',
    UpdateTeam rsvc t r = (Ok g, r') -> logOf r' = logOf r ++ [CUpdateTeam t] /\ ID g = ID t.
Hypothesis rec_create : forall o t r g r',
    CreateTeam rsvc o t r = (Ok g, r') -> logOf r' = logOf r ++ [CCreateTeam o t].
Hypothesis rec_delete : forall id r u r',
    DeleteTeam rsvc id r = (Ok u, r') -> logOf r' = logOf r ++ [CDeleteTeam id].

Lemma reconcileTeam_recorded orgName haveTeams parent want r kept r' :
  reconcileTeam rsvc orgName haveTeams parent want r = (Ok kept, r') ->
  exists calls, logOf r' = logOf r ++ calls
                /\ Reconciled haveTeams orgName want kept calls.
Proof.
  unfold reconcileTeam, Reconciled.
  destruct (findGitHubTeamFromDesired haveTeams want) as [have|].
  - intros H. apply bind_inv_ok in H as (t & r1 & Hu & Hr).
    injection Hr as <- <-. unfold updateTeam in Hu.
    destruct (_ || _) eqn:Hmod.
    + apply rec_update in Hu as [-> Hid].
      eexists. split; [reflexivity|]. cbn. repeat split; eauto; discriminate.
    + injection Hu as <- <-. exists []. split; [by rewrite app_nil_r|].
      cbn. repeat split; auto. intros Hne.
      apply orb_false_elim in Hmod as [_ Hn].
      apply bool_decide_eq_false in Hn. by destruct Hn.
  - intros H. apply bind_inv_ok in H as (t & r1 & Hc & Hr).
    injection Hr as <- <-. unfold createTeam in Hc. apply rec_create in Hc as ->.
    eexists. split; [reflexivity|]. cbn. eauto.
Qed.

Lemma process_recorded orgName haveTeams wantTeams :
  forall parent keptTeams r keptTeams' r',
    process rsvc orgName haveTeams parent wantTeams keptTeams r = (Ok keptTeams', r') ->
    exists new callss,
      keptTeams' = keptTeams ++ new
      /\ logOf r' = logOf r ++ List.concat callss
      /\ Forall3 (Reconciled haveTeams orgName) (flattenTeams wantTeams) new callss.
Proof.
  induction wantTeams as [|want rest IHc IHr] using forest_ind;
    intros parent keptTeams r keptTeams' r' H.
  { injection H as <- <-. exists [], []. rewrite !app_nil_r. repeat split. constructor. }
  rewrite process_cons in H. apply bind_inv_ok in H as (k1 & r1 & Hteam & Hrest).
  rewrite processTeam_unfold in Hteam.
  apply bind_inv_ok in Hteam as (kept & r0 & Hrec & Hch).
  apply reconcileTeam_recorded in Hrec as (calls & Hl0 & Hstep).
  apply IHc in Hch as (newc & cc & -> & Hl1 & Hc).
  apply IHr in Hrest as (newr & cr & -> & Hl2 & Hr).
  rewrite Hl2, Hl1, Hl0.
  exists (kept :: newc ++ newr), (calls :: cc ++ cr). split; [|split].
  - by rewrite <- !app_assoc.
  - cbn [List.concat]. rewrite concat_app. by rewrite <- !app_assoc.
  - rewrite flattenTeams_cons, flattenTeam_unfold. cbn [app].
    constructor; [done|]. by apply Forall3_app.
Qed.

Lemma deletes_recorded (keptIDs : gset Z) (teams : list GitHubTeam) :
  forall r r',
    forEach teams (fun t =>
      if bool_decide (ID t ∉ keptIDs) then DeleteTeam rsvc (ID t) else ret tt) r
    = (Ok tt, r') ->
    exists dels, logOf r' = logOf r ++ dels
                 /\ forall c, c ∈ dels -> exists id, c = CDeleteTeam id /\ id ∉ keptIDs.
Proof.
  induction teams as [|t teams IH]; intros r r' H.
  - injection H as <-. exists []. split; [by rewrite app_nil_r|].
    intros c Hc. by apply elem_of_nil in Hc.
  - cbn [forEach] in H. apply bind_inv_ok in H as (u & r1 & Hd & Hrest).
    apply IH in Hrest as (dels & -> & Hdels).
    case_bool_decide as Hk.
    + apply rec_delete in Hd as ->. exists (CDeleteTeam (ID t) :: dels).
      split; [by rewrite <- app_assoc|].
      intros c Hc. apply elem_of_cons in Hc as [->|Hc]; [eauto | by apply Hdels].
    + injection Hd as _ <-. exists dels. split; [done | exact Hdels].
Qed.

(** The calls of the teams that are not [t] contain no update of [x] and
    no creation under [t]'s name. *)
Lemma others_recorded orgName haveTeams (x : GitHubTeam) (t : Team)
      (others : list Team) (kept : list keptGitHubTeam) (callss : list (list Call)) :
  Forall3 (Reconciled haveTeams orgName) others kept callss ->
  (forall u, u ∈ others -> tName u ≠ tName t) ->
  (forall u y, u ∈ others -> findGitHubTeamFromDesired haveTeams u = Some y -> ID y ≠ ID x) ->
  filter (fun c => isUpdateOf (ID x) c) (List.concat callss) = []
  /\ (forall c, c ∈ List.concat callss ->
        match c with
        | CCreateTeam _ g => gName g ≠ tName t
        | CDeleteTeam _ => False
        | _ => True
        end).
Proof.
  induction 1 as [|u k calls others kept callss Hstep _ IH]; intros Hnames Hids.
  { split; [done|]. intros c Hc. by apply elem_of_nil in Hc. }
  destruct IH as [IHf IHc].
  { intros u' Hu'. apply Hnames. by right. }
  { intros u' y Hu'. apply Hids. by right. }
  assert (tName u ≠ tName t) as Hn by (apply Hnames; left).
  cbn [List.concat]. rewrite filter_app, IHf, app_nil_r. unfold Reconciled in Hstep.
  destruct (findGitHubTeamFromDesired haveTeams u) as [y|] eqn:Hfind.
  - destruct Hstep as (_ & _ & [-> | [pid ->]] & _).
    + split; [done|]. intros c Hc. by apply IHc.
    + assert (ID y ≠ ID x) as Hne by (eapply Hids; [left | exact Hfind]).
      split.
      * rewrite filter_cons. cbn. rewrite bool_decide_eq_false_2 by done.
        by destruct (decide (Is_true false)).
      * intros c Hc. apply elem_of_app in Hc as [Hc|Hc]; [|by apply IHc].
        by apply list_elem_of_singleton in Hc as ->.
  - destruct Hstep as (_ & pid & ->). split; [done|].
    intros c Hc. apply elem_of_app in Hc as [Hc|Hc]; [|by apply IHc].
    by apply list_elem_of_singleton in Hc as ->.
Qed.

(** The team phase of [ApplyOrg]. *)
Lemma configureTeams_rename (org : Org) (haveTeams : list GitHubTeam)
      (t : Team) (oldName : string) (x : GitHubTeam)
      (r r' : R) (keptTeams : list keptGitHubTeam) :
  t ∈ flattenTeams (oTeams org) ->
  tPreviously t = [oldName] ->
  findTeamNamed haveTeams oldName = Some x ->
  findTeamNamed haveTeams (tName t) = None ->
  NoDup (desiredNames org) ->
  (forall u y, u ∈ flattenTeams (oTeams org) -> tName u ≠ tName t ->
               findGitHubTeamFromDesired haveTeams u = Some y -> ID y ≠ ID x) ->
  configureTeams rsvc org haveTeams r = (Ok keptTeams, r') ->
  findGitHubTeamFromDesired haveTeams t = Some x
  /\ exists calls,
      logOf r' = logOf r ++ calls
      /\ (exists pid,
            filter (fun c => isUpdateOf (ID x) c) calls
            = [CUpdateTeam (mkGitHubTeam (ID x) pid (tName t) (tDescription t))])
      /\ ~ (CDeleteTeam (ID x) ∈ calls)
      /\ (forall o g, CCreateTeam o g ∈ calls -> gName g ≠ tName t)
      /\ (exists k, k ∈ keptTeams /\ ID (keptTeam k) = ID x /\ created k = false).
Proof.
  intros Ht Hprev Hold Hnew Hnames Hothers Hrun.
  assert (findGitHubTeamFromDesired haveTeams t = Some x) as Hfind.
  { unfold findGitHubTeamFromDesired. rewrite Hprev. cbn. by rewrite Hnew, Hold. }
  split; [exact Hfind|].
  (* the two phases of configureTeams *)
  unfold configureTeams in Hrun.
  apply bind_inv_ok in Hrun as (kept & r1 & Hproc & Hrun).
  apply bind_inv_ok in Hrun as ([] & r2 & Hdel & Hret).
  injection Hret as <- <-.
  apply process_recorded in Hproc as (new & callss & Hkept & Hlog1 & Hall).
  cbn [app] in Hkept. subst kept.
  apply deletes_recorded in Hdel as (dels & Hlog2 & Hdels).
  (* the place of t in the traversal *)
  apply list_elem_of_split in Ht as (l1 & l2 & Hsplit).
  unfold desiredNames in Hnames. rewrite Hsplit in Hnames, Hall, Hothers.
  rewrite map_app in Hnames. cbn [map] in Hnames.
  apply NoDup_app in Hnames as (_ & Hl1 & Hnames).
  apply NoDup_cons in Hnames as [Hl2 _].
  apply Forall3_app_inv_l in Hall as (n1 & n2' & c1 & c2' & -> & -> & H1 & H2).
  apply Forall3_cons_inv_l in H2 as (k & n2 & ct & c2 & -> & -> & Hstep & H2).
  assert (forall u, u ∈ l1 -> tName u ≠ tName t) as Hn1.
  { intros u Hu Heq. eapply Hl1; [by apply (list_elem_of_fmap_2 tName) |].
    rewrite Heq. left. }
  assert (forall u, u ∈ l2 -> tName u ≠ tName t) as Hn2.
  { intros u Hu Heq. apply Hl2. rewrite <- Heq. by apply (list_elem_of_fmap_2 tName). }
  destruct (others_recorded _ _ x t _ _ _ H1 Hn1) as [Hf1 Hc1].
  { intros u y Hu. apply Hothers; [|by apply Hn1]. apply elem_of_app. by left. }
  destruct (others_recorded _ _ x t _ _ _ H2 Hn2) as [Hf2 Hc2].
  { intros u y Hu. apply Hothers; [|by apply Hn2]. apply elem_of_app. right. by right. }
  (* the step for t itself *)
  unfold Reconciled in Hstep. rewrite Hfind in Hstep.
  destruct Hstep as (Hcr & Hid & Hcalls & Hmod).
  assert (gName x ≠ tName t) as Hne.
  { intros Heq. apply findTeamNamed_Some in Hold as [Hin _].
    unfold findTeamNamed in Hnew. eapply find_none in Hnew; [|by apply list_elem_of_In].
    by rewrite bool_decide_eq_true_2 in Hnew. }
  destruct Hcalls as [-> | [pid ->]]; [by destruct (Hmod Hne)|].
  assert (filter (fun c => isUpdateOf (ID x) c) dels = []) as Hfd.
  { clear -Hdels. induction dels as [|d dels IH]; [done|].
    rewrite filter_cons. destruct (Hdels d) as (id & -> & _); [left|]. cbn.
    destruct (decide (Is_true false)) as [[]|_]. apply IH.
    intros c Hc. apply Hdels. by right. }
  exists (List.concat (c1 ++ [CUpdateTeam (mkGitHubTeam (ID x) pid (tName t) (tDescription t))]
                          :: c2) ++ dels).
  split; [by rewrite Hlog2, Hlog1, <- app_assoc|].
  split; [|split; [|split]].
  - exists pid. rewrite concat_app. cbn [List.concat].
    rewrite !filter_app, Hf1, Hf2, Hfd. cbn [app]. rewrite app_nil_r.
    rewrite filter_cons. cbn. rewrite bool_decide_eq_true_2 by done.
    by destruct (decide (Is_true true)) as [_|[]].
  - intros Hin. rewrite concat_app in Hin. cbn [List.concat] in Hin.
    rewrite !elem_of_app in Hin. destruct Hin as [[Hin|[Hin|Hin]]|Hin].
    + by apply Hc1 in Hin.
    + by apply list_elem_of_singleton in Hin.
    + by apply Hc2 in Hin.
    + destruct (Hdels _ Hin) as (id & [= <-] & Hno). apply Hno.
      apply elem_of_list_to_set. rewrite !map_app. cbn [map]. rewrite Hid.
      apply elem_of_app. right. left.
  - intros o g Hin. rewrite concat_app in Hin. cbn [List.concat] in Hin.
    rewrite !elem_of_app in Hin. destruct Hin as [[Hin|[Hin|Hin]]|Hin].
    + by apply Hc1 in Hin.
    + by apply list_elem_of_singleton in Hin.
    + by apply Hc2 in Hin.
    + by destruct (Hdels _ Hin) as (id & [=] & _).
  - exists k. split; [|done]. apply elem_of_app. right. left.
Qed.
End Rename.

(** The recording service under the stats adapter keeps such a log. *)
Section Recorded.
Context {S : Type} (svc : GitHubService S).
Let rsvc := NewStatsGitHubService (recording svc).

Lemma recorded_update t r g r' :
  (forall t0 s0 g0 s0', UpdateTeam svc t0 s0 = (Ok g0, s0') -> ID g0 = ID t0) ->
  UpdateTeam rsvc t r = (Ok g, r') -> logOf r' = logOf r ++ [CUpdateTeam t] /\ ID g = ID t.
Proof.
  intros Hid. destruct r as [[s log] st]. cbn. unfold logged.
  destruct (UpdateTeam svc t s) as [[g0|e] s0] eqn:E; [|discriminate].
  intros [= <- <-]. split; [done|]. by eapply Hid.
Qed.

Lemma recorded_create o t r g r' :
  CreateTeam rsvc o t r = (Ok g, r') -> logOf r' = logOf r ++ [CCreateTeam o t].
Proof.
  destruct r as [[s log] st]. cbn. unfold logged.
  destruct (CreateTeam svc o t s) as [[g0|e] s0]; [|discriminate]. by intros [= _ <-].
Qed.

Lemma recorded_delete id r u r' :
  DeleteTeam rsvc id r = (Ok u, r') -> logOf r' = logOf r ++ [CDeleteTeam id].
Proof.
  destruct r as [[s log] st]. cbn. unfold logged.
  destruct (DeleteTeam svc id s) as [[u0|e] s0]; [|discriminate]. by intros [= _ <-].
Qed.

Lemma recorded_adds o id role (emails : list string) :
  forall r r',
    forEach emails (fun u => AddTeamMembership rsvc o id u role) r = (Ok tt, r') ->
    exists mem, logOf r' = logOf r ++ mem /\ Forall (fun c => isMembershipCall c) mem.
Proof.
  induction emails as [|e emails IH]; intros r r' H.
  - injection H as <-. exists []. by rewrite app_nil_r.
  - cbn [forEach] in H. apply bind_inv_ok in H as (u & r1 & Ha & Hrest).
    apply IH in Hrest as (mem & -> & Hmem).
    destruct r as [[s log] st]. cbn in Ha. unfold logged in Ha.
    destruct (AddTeamMembership svc o id e role s) as [[u0|err] s0]; [|discriminate].
    injection Ha as _ <-. eexists (_ :: mem). split; [unfold logOf; cbn; by rewrite <- app_assoc|].
    by constructor.
Qed.

Lemma recorded_dels o id role (emails : list string) :
  forall r r',
    forEach emails (fun u => DeleteTeamMembership rsvc o id u role) r = (Ok tt, r') ->
    exists mem, logOf r' = logOf r ++ mem /\ Forall (fun c => isMembershipCall c) mem.
Proof.
  induction emails as [|e emails IH]; intros r r' H.
  - injection H as <-. exists []. by rewrite app_nil_r.
  - cbn [forEach] in H. apply bind_inv_ok in H as (u & r1 & Ha & Hrest).
    apply IH in Hrest as (mem & -> & Hmem).
    destruct r as [[s log] st]. cbn in Ha. unfold logged in Ha.
    destruct (DeleteTeamMembership svc o id e role s) as [[u0|err] s0]; [|discriminate].
    injection Ha as _ <-. eexists (_ :: mem). split; [unfold logOf; cbn; by rewrite <- app_assoc|].
    by constructor.
Qed.

Lemma recorded_updateTeamMemberships o t haveEmails wantEmails role r r' :
  updateTeamMemberships rsvc o t haveEmails wantEmails role r = (Ok tt, r') ->
  exists mem, logOf r' = logOf r ++ mem /\ Forall (fun c => isMembershipCall c) mem.
Proof.
  unfold updateTeamMemberships. intros H.
  apply bind_inv_ok in H as ([] & r1 & Ha & Hd).
  apply recorded_adds in Ha as (m1 & Hl1 & Hm1).
  apply recorded_dels in Hd as (m2 & Hl2 & Hm2).
  exists (m1 ++ m2). split; [by rewrite Hl2, Hl1, app_assoc|]. by apply Forall_app.
Qed.

Lemma recorded_ListTeamMembers o id role r l r' :
  ListTeamMembers rsvc o id role r = (Ok l, r') -> logOf r' = logOf r.
Proof.
  destruct r as [[s log] st]. cbn. unfold unlogged.
  destruct (ListTeamMembers svc o id role s) as [[l0|e] s0]; [|discriminate].
  by intros [= _ <-].
Qed.

Lemma recorded_configureTeamMemberships org (kept : list keptGitHubTeam) :
  forall r r',
    configureTeamMemberships rsvc org kept r = (Ok tt, r') ->
    exists mem, logOf r' = logOf r ++ mem /\ Forall (fun c => isMembershipCall c) mem.
Proof.
  unfold configureTeamMemberships.
  induction kept as [|k kept IH]; intros r r' H.
  - injection H as <-. exists []. by rewrite app_nil_r.
  - cbn [forEach] in H. apply bind_inv_ok in H as ([] & r1 & Hk & Hrest).
    apply IH in Hrest as (mem & -> & Hmem).
    destruct (teamsByName (oTeams org) !! gName (keptTeam k)) as [want|]; [|discriminate].
    apply bind_inv_ok in Hk as ([ma me] & r0 & Hlist & Hk).
    apply bind_inv_ok in Hk as ([] & r2 & H1 & H2).
    apply recorded_updateTeamMemberships in H1 as (m1 & Hl1 & Hm1).
    apply recorded_updateTeamMemberships in H2 as (m2 & Hl2 & Hm2).
    assert (logOf r0 = logOf r) as Hl0.
    { destruct (created k).
      - by injection Hlist as _ _ <-.
      - apply bind_inv_ok in Hlist as (a & ra & Ha & Hlist).
        apply bind_inv_ok in Hlist as (b & rb & Hb & Hlist).
        injection Hlist as _ _ <-.
        apply recorded_ListTeamMembers in Ha, Hb. congruence. }
    exists (m1 ++ m2 ++ mem). split.
    + rewrite Hl2, Hl1, Hl0. by rewrite <- !app_assoc.
    + by repeat apply Forall_app_2.
Qed.
End Recorded.

(** C2 (as amended).  Let [t] be a desired team with [previously =
    [oldName]], let [x] be the observed team found under [oldName], let no
    observed team be named [t.name], let the desired names be distinct and
    let no other desired team match a team of [x]'s ID.  On a platform
    whose [UpdateTeam] returns a team of the ID it was given, whenever
    [ApplyOrg] completes: [t] is matched to [x]; exactly one update-team
    call is issued for [x]'s ID, and it carries [t]'s name and description;
    no delete-team call is issued for that ID; and no create-team call is
    issued under [t]'s name. *)
Theorem rename_preserves_identity {S} (plat : Platform S) (org org1 : Org)
        (haveTeams : list GitHubTeam) (t : Team) (oldName : string) (x : GitHubTeam)
        (s s1 s2 s' : S) (res : ApplyOrgResult) (log : list Call) :
  (forall t0 s0 g s0',
      UpdateTeam (platGitHubService plat) t0 s0 = (Ok g, s0') -> ID g = ID t0) ->
  Run (platRuleEngine plat) org s = (Ok tt, s1) ->
  ListTeams (platGitHubService plat) (oName org) s1 = (Ok haveTeams, s2) ->
  t ∈ flattenTeams (oTeams org) ->
  tPreviously t = [oldName] ->
  findTeamNamed haveTeams oldName = Some x ->
  findTeamNamed haveTeams (tName t) = None ->
  NoDup (desiredNames org) ->
  (forall u y, u ∈ flattenTeams (oTeams org) -> tName u ≠ tName t ->
               findGitHubTeamFromDesired haveTeams u = Some y -> ID y ≠ ID x) ->
  ApplyOrg (recordingPlatform plat) org (s, []) = (Ok (res, org1), (s', log)) ->
  findGitHubTeamFromDesired haveTeams t = Some x
  /\ (exists pid,
        filter (fun c => isUpdateOf (ID x) c) log
        = [CUpdateTeam (mkGitHubTeam (ID x) pid (tName t) (tDescription t))])
  /\ ~ (CDeleteTeam (ID x) ∈ log)
  /\ (forall o g, CCreateTeam o g ∈ log -> gName g ≠ tName t).
Proof.
  intros Hid Hre Hlist Ht Hprev Hold Hnew Hnames Hothers Hrun.
  rewrite ApplyOrg_unfold in Hrun.
  cbn [platRuleEngine platGitHubService recordingPlatform Run] in Hrun.
  unfold unlogged in Hrun. rewrite Hre in Hrun.
  destruct (applyWithStats _ org _) as [r [[s3 log3] st3]] eqn:Happ.
  injection Hrun as -> -> ->.
  unfold applyWithStats in Happ.
  apply bind_inv_ok in Happ as (hs & r0 & Hl & Happ).
  cbn in Hl. unfold liftS, unlogged in Hl. rewrite Hlist in Hl. injection Hl as <- <-.
  apply bind_inv_ok in Happ as (kept & r1 & Hconf & Happ).
  apply bind_inv_ok in Happ as (org' & r2 & Hprom & Happ).
  apply bind_inv_ok in Happ as ([] & r3 & Hmem & Happ).
  apply bind_inv_ok in Happ as (st & r4 & Hst & Hret).
  injection Hret as _ _ ->.
  assert ((s', log, st3) = r3) as Hr3
    by (destruct r3 as [? ?]; cbn in Hst; congruence).
  eapply (configureTeams_rename _ logOf) in Hconf
    as (Hfind & calls & Hlog1 & Hupd & Hdel & Hcre & _); eauto.
  2:{ intros. eapply recorded_update; eauto. }
  2:{ intros. eapply recorded_create; eauto. }
  2:{ intros. eapply recorded_delete; eauto. }
  assert (logOf r2 = logOf r1) as Hlog2.
  { unfold promoteAdmins in Hprom. apply bind_inv_ok in Hprom as (a & ra & Ha & Hp).
    injection Hp as _ <-. destruct r1 as [[sa la] sta]. cbn in Ha.
    unfold liftS, unlogged in Ha.
    destruct (ListAdmins _ _ sa) as [[l|e] sb]; [|discriminate]. by injection Ha as _ <-. }
  apply recorded_configureTeamMemberships in Hmem as (mem & Hlog3 & Hmemc).
  assert (log = calls ++ mem) as ->.
  { change log with (logOf (s', log, st3)). rewrite Hr3, Hlog3, Hlog2, Hlog1. done. }
  assert (filter (fun c => isUpdateOf (ID x) c) mem = []) as Hfm.
  { clear -Hmemc. induction Hmemc as [|c mem Hc _ IH]; [done|].
    rewrite filter_cons. destruct c; try done; cbn;
      by destruct (decide (Is_true false)) as [[]|_]. }
  split; [exact Hfind|]. split; [|split].
  - destruct Hupd as [pid Hupd]. exists pid. by rewrite filter_app, Hupd, Hfm.
  - intros Hin. apply elem_of_app in Hin as [Hin|Hin]; [by apply Hdel|].
    rewrite Forall_forall in Hmemc. by apply Hmemc in Hin.
  - intros o g Hin. apply elem_of_app in Hin as [Hin|Hin]; [by eapply Hcre|].
    rewrite Forall_forall in Hmemc. by apply Hmemc in Hin.
Qed.

Lemma rename_preserves_identity_witness :
  let t := plainTeam "new-parent" "Child team 1" ["child1"] [] [] in
  let log := [CUpdateTeam (mkGitHubTeam 101 0 "new-parent" "Child team 1"); CDeleteTeam 100] in
  findGitHubTeamFromDesired (fTeams renameForge) t = Some child1GitHubTeam
  /\ (exists pid,
        filter (fun c => isUpdateOf (ID child1GitHubTeam) c) log
        = [CUpdateTeam (mkGitHubTeam (ID child1GitHubTeam) pid (tName t) (tDescription t))])
  /\ ~ (CDeleteTeam (ID child1GitHubTeam) ∈ log)
  /\ (forall o g, CCreateTeam o g ∈ log -> gName g ≠ tName t).
Proof.
  cbv zeta.
  apply (rename_preserves_identity (forgePlatform anyRegexp) renameOrg renameOrg
           (fTeams renameForge) _ "child1" child1GitHubTeam
           renameForge renameForge renameForge
           (mkForge [mkGitHubTeam 101 0 "new-parent" "Child team 1"] [] [] [] [] 102)
           (mkApplyOrgResult 0 1 1 0 0)).
  - intros t0 s0 g s0' H. apply forge_UpdateTeam_returns_argument in H. by subst.
  - vm_compute. reflexivity.
  - reflexivity.
  - vm_compute. left.
  - reflexivity.
  - vm_compute. reflexivity.
  - vm_compute. reflexivity.
  - vm_compute. repeat constructor. set_solver.
  - intros u y Hu Hne. vm_compute in Hu. apply list_elem_of_singleton in Hu. by subst u.
  - vm_compute. reflexivity.
Defined.

(** C2, counterexample to the claim as stated: [renameTieOrg] (accepted by
    the built-in rules) wants [new], previously [old], and also a team
    [old]; the forge observes [old] with ID 7 and no team named [new].
    [new] is matched to the observed team, but [ApplyOrg] issues two
    update-team calls for ID 7, and the team ends up named [old] again. *)
Lemma rename_two_updates_counterexample :
  let t := plainTeam "new" "d1" ["old"] [] [] in
  let x := mkGitHubTeam 7 0 "old" "d1" in
  let run := ApplyOrg (recordingPlatform (forgePlatform anyRegexp)) renameTieOrg
                      (renameTieForge, []) in
  t ∈ flattenTeams (oTeams renameTieOrg)
  /\ tPreviously t = ["old"]
  /\ findTeamNamed (fTeams renameTieForge) "old" = Some x
  /\ findTeamNamed (fTeams renameTieForge) (tName t) = None
  /\ findGitHubTeamFromDesired (fTeams renameTieForge) t = Some x
  /\ run.1 = Ok (mkApplyOrgResult 0 2 0 0 0, renameTieOrg)
  /\ filter (fun c => isUpdateOf (ID x) c) run.2.2
     = [CUpdateTeam (mkGitHubTeam 7 0 "new" "d1"); CUpdateTeam (mkGitHubTeam 7 0 "old" "d2")]
  /\ fTeams run.2.1 = [mkGitHubTeam 7 0 "old" "d2"].
Proof.
  cbv zeta. repeat split; try (vm_compute; reflexivity).
  vm_compute. left.
Qed.

(** ** An instance of C9 on the reference forge *)

Lemma stats_count_successful_writes_witness :
  (exists st,
      runCalls (NewStatsGitHubService forge) sessionCalls (emptyForge, zeroStats)
      = ((runCalls forge sessionCalls emptyForge).1,
         ((runCalls forge sessionCalls emptyForge).2, st))
      /\ Stats ((runCalls forge sessionCalls emptyForge).2, st)
         = (Ok st, ((runCalls forge sessionCalls emptyForge).2, st))
      /\ forall k, counter k st
                   = Z.of_nat (succeeded k sessionCalls (runCalls forge sessionCalls emptyForge).1))
  /\ (forall c s0 st,
        writeKind c = None \/ isOk (perform forge c s0).1 = false ->
        (perform (NewStatsGitHubService forge) c (s0, st)).2.2 = st).
Proof.
  apply (stats_count_successful_writes forge sessionCalls emptyForge).
  vm_compute. reflexivity.
Defined.

(** ** C7: the admin topics of a repo *)

Lemma fold_left_union_elem {A} (c : A -> bool) (g : A -> string) (l : list A) :
  forall (w : gset string) x,
    x ∈ fold_left (fun (w : gset string) a => if c a then w ∪ {[g a]} else w) l w
    <-> x ∈ w \/ exists a, a ∈ l /\ c a = true /\ x = g a.
Proof.
  induction l as [|a l IH]; intros w x; cbn [fold_left].
  - split; [by left|]. intros [?|(a & Ha & _)]; [done|]. by apply elem_of_nil in Ha.
  - rewrite IH. split.
    + intros [Hx|(b & Hb & Hc & ->)].
      * destruct (c a) eqn:Hca; [|by left].
        apply elem_of_union in Hx as [?|Hx]; [by left|].
        apply elem_of_singleton in Hx as ->. right. exists a. split; [left|done].
      * right. exists b. split; [by right|done].
    + intros [Hx|(b & Hb & Hc & ->)].
      * left. destruct (c a); [|done]. apply elem_of_union. by left.
      * apply elem_of_cons in Hb as [->|Hb].
        -- left. rewrite Hc. apply elem_of_union. right. by apply elem_of_singleton.
        -- right. by exists b.
Qed.

Lemma wantTopicsOf_elem u (r : Repo) (topic : string) :
  topic ∈ wantTopicsOf u r
  <-> (topic ∈ rTopics r /\ String.prefix adminTopicPrefix topic = false)
      \/ exists team, team ∈ rTeams r /\ Permission team = RepoPermissionAdmin
                      /\ topic = adminTopicOf u (TeamName team).
Proof.
  unfold wantTopicsOf.
  rewrite (fold_left_union_elem
             (fun team => bool_decide (Permission team = RepoPermissionAdmin))
             (fun team => adminTopicOf u (TeamName team))).
  rewrite (fold_left_union_elem
             (fun topic => negb (String.prefix adminTopicPrefix topic)) (fun topic => topic)).
  split.
  - intros [[H|(a & Ha & Hc & ->)]|(team & Ht & Hp & ->)].
    + by apply elem_of_empty in H.
    + left. split; [done|]. by apply negb_true_iff.
    + right. exists team. split; [done|]. split; [|done]. by apply bool_decide_eq_true in Hp.
  - intros [[Hin Hp]|(team & Ht & Hp & ->)].
    + left. right. exists topic. split; [done|]. split; [|done]. by apply negb_true_iff.
    + right. exists team. split; [done|]. split; [|done]. by apply bool_decide_eq_true.
Qed.

Lemma substring_0_take (n : nat) (s : string) :
  list_ascii_of_string (substring 0 n s) = take n (list_ascii_of_string s).
Proof.
  revert n. induction s as [|c s IH]; intros [|n]; cbn; try done. by rewrite IH.
Qed.

Lemma substring_0_short (n : nat) (s : string) :
  (String.length s <= n)%nat -> substring 0 n s = s.
Proof.
  revert n. induction s as [|c s IH]; intros [|n] H; cbn in *; try done; [lia|].
  rewrite IH; [done|lia].
Qed.

Lemma substring_0_length (n : nat) (s : string) :
  (String.length (substring 0 n s) <= n)%nat.
Proof.
  revert n. induction s as [|c s IH]; intros [|n]; cbn; try lia. specialize (IH n). lia.
Qed.

(** The admin topic is the prefixed normalised name cut to 34 bytes. *)
Lemma adminTopicOf_truncated u (teamName : string) :
  adminTopicOf u teamName = substring 0 34 (adminTopicPrefix +:+ normaliseName u teamName).
Proof.
  unfold adminTopicOf. cbv zeta.
  destruct (Nat.leb_spec maxTopicLength
              (String.length (adminTopicPrefix +:+ normaliseName u teamName))) as [H|H].
  - reflexivity.
  - symmetry. apply substring_0_short. unfold maxTopicLength in H. lia.
Qed.

Lemma replaceRuns_good (class : ascii -> bool) (s : list ascii) :
  forall inRun, Forall (fun c => isGoodChar c = true) s ->
                Forall (fun c => isGoodChar c = true) (replaceRuns class inRun s).
Proof.
  induction s as [|c s IH]; intros inRun H; cbn; [done|].
  apply Forall_cons in H as [Hc Hs].
  destruct (class c); [destruct inRun|]; repeat constructor; auto.
Qed.

Lemma dropWhile_sublist (class : ascii -> bool) (s : list ascii) :
  dropWhile class s `sublist_of` s.
Proof.
  induction s as [|c s IH]; cbn; [done|]. destruct (class c); [by constructor|done].
Qed.

Lemma trimEnds_good (s : list ascii) :
  Forall (fun c => isGoodChar c = true) s -> Forall (fun c => isGoodChar c = true) (trimEnds s).
Proof.
  intros H. unfold trimEnds. rewrite Forall_forall in *. intros c Hc. apply H.
  rewrite elem_of_reverse in Hc.
  eapply elem_of_sublist in Hc; [|apply dropWhile_sublist].
  rewrite elem_of_reverse in Hc.
  eapply elem_of_sublist in Hc; [|apply dropWhile_sublist]. done.
Qed.

(** Whatever the lowercase mapping does, a normalised name is over
    [[a-z0-9_-]]. *)
Lemma normaliseBytes_good u (name : list ascii) :
  Forall (fun c => isGoodChar c = true) (normaliseBytes u name).
Proof.
  unfold normaliseBytes. cbv zeta. apply trimEnds_good, replaceRuns_good.
  apply Forall_forall. intros c Hc. apply list_elem_of_filter in Hc as [Hc _].
  by destruct (isGoodChar c).
Qed.

Lemma isGoodChar_not_upper (c : ascii) : isGoodChar c = true -> isUpper c = false.
Proof.
  destruct c as [[] [] [] [] [] [] [] []]; vm_compute; congruence.
Qed.

Lemma list_ascii_of_string_app (s1 s2 : string) :
  list_ascii_of_string (s1 +:+ s2) = list_ascii_of_string s1 ++ list_ascii_of_string s2.
Proof.
  induction s1 as [|c s1 IH]; [done|].
  change (c :: list_ascii_of_string (s1 +:+ s2)
          = c :: (list_ascii_of_string s1 ++ list_ascii_of_string s2)).
  by rewrite IH.
Qed.

Lemma adminTopicOf_good u (teamName : string) :
  Forall (fun c => isGoodChar c = true) (list_ascii_of_string (adminTopicOf u teamName))
  /\ (String.length (adminTopicOf u teamName) <= 34)%nat.
Proof.
  rewrite adminTopicOf_truncated. split; [|apply substring_0_length].
  rewrite substring_0_take, list_ascii_of_string_app.
  apply Forall_take, Forall_app. split.
  - vm_compute. repeat constructor.
  - unfold normaliseName. rewrite list_ascii_of_string_of_list_ascii.
    apply normaliseBytes_good.
Qed.

Lemma adminTopicOf_lowercase u (teamName : string) : lowercase (adminTopicOf u teamName).
Proof.
  unfold lowercase. eapply Forall_impl; [apply adminTopicOf_good|].
  intros c. apply isGoodChar_not_upper.
Qed.

#[local] Instance stringLe_total : Total stringLe.
Proof. intros s1 s2. apply String.leb_total. Qed.

Lemma sortStrings_set (w : gset string) :
  NoDup (sortStrings (stringSetToSlice w))
  /\ Sorted stringLe (sortStrings (stringSetToSlice w))
  /\ forall topic, topic ∈ sortStrings (stringSetToSlice w) <-> topic ∈ w.
Proof.
  unfold sortStrings, stringSetToSlice. split; [|split].
  - rewrite merge_sort_Permutation. apply NoDup_elements.
  - apply Sorted_merge_sort, _.
  - intros topic. rewrite merge_sort_Permutation. apply elem_of_elements.
Qed.

(** The ASCII cases of the tests of [normaliseName]. *)
Lemma normaliseName_tests (unicodeToLower : list ascii -> list ascii) :
  normaliseName unicodeToLower "abcdefghijklmnopqrstuvxyz-0123456789goodname"
  = "abcdefghijklmnopqrstuvxyz-0123456789goodname"
  /\ normaliseName unicodeToLower "this name has spaces" = "this-name-has-spaces"
  /\ normaliseName unicodeToLower " _Team Name_ " = "team-name"
  /\ normaliseName unicodeToLower "_-fds0-_fds-_" = "fds0-fds"
  /\ normaliseName unicodeToLower "test - name" = "test-name"
  /\ normaliseName unicodeToLower "test_name" = "test-name".
Proof. repeat split; vm_compute; reflexivity. Qed.

(** C7 (as amended).  For every repo [r], with [want] the topic set that
    [rectifyRepoAdminTopics] derives: a topic is in [want] exactly when it
    is an observed topic not prefixed [admin-], or it is [admin-] followed
    by the normalised name of a team with admin permission on [r], the
    whole cut to 34 bytes; the admin topics are lowercase and have at most
    34 bytes; the topic list made of [want] has no duplicates, is sorted
    and holds exactly the topics of [want], each of them a lowercase admin
    topic or an observed topic kept as it was observed;
    [rectifyRepoAdminTopics] returns true exactly when [want] differs from
    the set of observed topics, and then leaves that list in the repo, and
    otherwise leaves the repo, its topic list included, as it was. *)
Theorem rectifyRepoAdminTopics_spec (unicodeToLower : list ascii -> list ascii) (r : Repo) :
  let want := wantTopicsOf unicodeToLower r in
  let target := sortStrings (stringSetToSlice want) in
  (forall topic,
      topic ∈ want <->
      (topic ∈ rTopics r /\ String.prefix "admin-" topic = false)
      \/ exists team, team ∈ rTeams r /\ Permission team = RepoPermissionAdmin
           /\ topic = substring 0 34 ("admin-" +:+ normaliseName unicodeToLower (TeamName team)))
  /\ (forall team, lowercase (adminTopicOf unicodeToLower (TeamName team))
                   /\ (String.length (adminTopicOf unicodeToLower (TeamName team)) <= 34)%nat)
  /\ NoDup target
  /\ Sorted stringLe target
  /\ (forall topic, topic ∈ target <-> topic ∈ want)
  /\ (forall topic, topic ∈ target ->
                    lowercase topic
                    \/ (topic ∈ rTopics r /\ String.prefix "admin-" topic = false))
  /\ ((rectifyRepoAdminTopics unicodeToLower r).2 = true <-> want ≠ newStringSet (rTopics r))
  /\ ((rectifyRepoAdminTopics unicodeToLower r).2 = true ->
      (rectifyRepoAdminTopics unicodeToLower r).1 = mkRepo (rName r) target (rTeams r))
  /\ ((rectifyRepoAdminTopics unicodeToLower r).2 = false ->
      (rectifyRepoAdminTopics unicodeToLower r).1 = r).
Proof.
  cbv zeta. destruct (sortStrings_set (wantTopicsOf unicodeToLower r)) as (Hnd & Hs & Hel).
  assert (forall topic,
      topic ∈ wantTopicsOf unicodeToLower r <->
      (topic ∈ rTopics r /\ String.prefix "admin-" topic = false)
      \/ exists team, team ∈ rTeams r /\ Permission team = RepoPermissionAdmin
           /\ topic = substring 0 34 ("admin-" +:+ normaliseName unicodeToLower (TeamName team)))
    as Hwant.
  { intros topic. rewrite wantTopicsOf_elem.
    split; intros [H|(team & ? & ? & ->)]; try (by left); right; exists team;
      by rewrite adminTopicOf_truncated in *. }
  split; [exact Hwant|]. split.
  { intros team. split; [apply adminTopicOf_lowercase|apply adminTopicOf_good]. }
  split; [exact Hnd|]. split; [exact Hs|]. split; [exact Hel|]. split.
  { intros topic Ht.
    apply Hel, Hwant in Ht as [Ht|(team & _ & _ & ->)]; [by right|]. left.
    rewrite <- (adminTopicOf_truncated unicodeToLower). apply adminTopicOf_lowercase. }
  unfold rectifyRepoAdminTopics. cbv zeta. case_bool_decide as Heq; cbn.
  - split; [|done]. split; [done|]. intros Hne. by destruct Hne.
  - split; [|done]. split; [|done]. intros _ Hne. by apply Heq.
Qed.

(** C7, counterexample to the claim as stated.  A kept topic is left as it
    was observed: with the observed topics [Blue] and [admin-old] and no
    admin team, a change is reported and the list left in the repo is
    [Blue], which is not lowercase.  And when no change is reported the
    list is left as observed: [b; a; a] stays, neither sorted nor free of
    duplicates. *)
Lemma rectifyRepoAdminTopics_keeps_observed_counterexample :
  rectifyRepoAdminTopics noUnicode (mkRepo "svc" ["Blue"; "admin-old"] [])
  = (mkRepo "svc" ["Blue"] [], true)
  /\ ~ lowercase "Blue"
  /\ rectifyRepoAdminTopics noUnicode (mkRepo "svc" ["b"; "a"; "a"] [])
     = (mkRepo "svc" ["b"; "a"; "a"] [], false)
  /\ ~ Sorted stringLe ["b"; "a"; "a"]
  /\ ~ NoDup ["b"; "a"; "a"].
Proof.
  split; [vm_compute; reflexivity|]. split.
  { unfold lowercase. intros H. apply Forall_cons in H as [H _]. vm_compute in H.
    discriminate H. }
  split; [vm_compute; reflexivity|]. split.
  - intros H. apply Sorted_inv in H as [_ H]. apply HdRel_inv in H.
    vm_compute in H. discriminate H.
  - intros H. apply NoDup_cons in H as [_ H]. apply NoDup_cons in H as [H _].
    apply H. left.
Qed.

(** Functional scenario 6: admin teams [Foo] and [Bar], topics blue, red,
    green. *)
Lemma rectifyRepoAdminTopics_scenario :
  rectifyRepoAdminTopics noUnicode colourRepo
  = (mkRepo "svc" ["admin-bar"; "admin-foo"; "blue"; "green"; "red"] (rTeams colourRepo), true).
Proof. vm_compute. reflexivity. Qed.

(** ** C5: the count that [UpdateRepoAdminTopics] returns *)

Lemma rectifyRepoAdminTopics_settled u (repo : Repo) :
  wantTopicsOf u repo = newStringSet (rTopics repo) ->
  rectifyRepoAdminTopics u repo = (repo, false).
Proof.
  intros H. unfold rectifyRepoAdminTopics. cbv zeta. by rewrite bool_decide_eq_true_2.
Qed.

(** C5, where the code departs from the claim.  When the named repo is
    fetched and its topics already are the target set, [UpdateRepoAdminTopics]
    calls no method that changes the forge (the recording platform's log
    stays empty and the state is the one the fetch left), and yet the
    result it returns has [ReposUpdated = 1], not 0. *)
Theorem UpdateRepoAdminTopics_counts_unwritten_repo {S}
        (unicodeToLower : list ascii -> list ascii) (plat : Platform S)
        (orgName repoName : string) (s s1 : S) (repo : Repo) :
  RepoByName (platGitHubService plat) orgName repoName s = (Ok repo, s1) ->
  wantTopicsOf unicodeToLower repo = newStringSet (rTopics repo) ->
  UpdateRepoAdminTopics unicodeToLower plat orgName repoName s
  = (Ok (mkUpdateAdminTopicsResult 1), s1)
  /\ UpdateRepoAdminTopics unicodeToLower (recordingPlatform plat) orgName repoName (s, [])
     = (Ok (mkUpdateAdminTopicsResult 1), (s1, [])).
Proof.
  intros Hrepo Hsettled. unfold UpdateRepoAdminTopics. split.
  - eapply bind_ok_eq; [exact Hrepo|].
    by rewrite (rectifyRepoAdminTopics_settled _ _ Hsettled).
  - eapply bind_ok_eq.
    { cbn. unfold unlogged. by rewrite Hrepo. }
    by rewrite (rectifyRepoAdminTopics_settled _ _ Hsettled).
Qed.

Lemma UpdateRepoAdminTopics_counts_unwritten_repo_witness :
  UpdateRepoAdminTopics noUnicode (forgePlatform anyRegexp) "o" "svc" settledForge
  = (Ok (mkUpdateAdminTopicsResult 1), settledForge)
  /\ UpdateRepoAdminTopics noUnicode (recordingPlatform (forgePlatform anyRegexp)) "o" "svc"
                           (settledForge, [])
     = (Ok (mkUpdateAdminTopicsResult 1), (settledForge, [])).
Proof.
  apply (UpdateRepoAdminTopics_counts_unwritten_repo noUnicode (forgePlatform anyRegexp)
           "o" "svc" settledForge settledForge settledRepo).
  - vm_compute. reflexivity.
  - vm_compute. reflexivity.
Defined.

(** Whenever [UpdateRepoAdminTopics] returns a result, it is [ReposUpdated = 1]. *)
Lemma UpdateRepoAdminTopics_result {S} u (plat : Platform S) orgName repoName s res s' :
  UpdateRepoAdminTopics u plat orgName repoName s = (Ok res, s') -> ReposUpdated res = 1.
Proof.
  unfold UpdateRepoAdminTopics. intros H.
  apply bind_inv_ok in H as (repo & s1 & _ & H).
  destruct (rectifyRepoAdminTopics u repo) as [repo' changed].
  apply bind_inv_ok in H as (? & s2 & _ & H). by injection H as <- _.
Qed.

(** ** C6: what the event worker does with a received message *)

Section Worker.
Context {Q S : Type}.
Variable unmarshalMessage : string -> result message.
Variable unmarshalTeamEvent : string -> result TeamEvent.
Variable unicodeToLower : list ascii -> list ascii.
Variable sqsClient : SQSAPI Q.
Variable p : Platform S.
Variable walkReposByTeamWith :
  forall A : Type, string -> GitHubTeamID -> (Repo -> A -> M S A) -> A -> M S A.

Let turn :=
  listenTurn unmarshalMessage unmarshalTeamEvent unicodeToLower sqsClient p
             walkReposByTeamWith.







End Worker.



(** On the in-memory queue: an unknown action and a fork are deleted, a
    malformed payload stays at the head of the queue. *)
Lemma listenTurn_examples :
  let turn := listenTurn exampleMessage exampleTeamEvent noUnicode memQueue
                         (forgePlatform anyRegexp) (walkByTeamCollected forge) in
  turn ([("h1", "renamed"); ("h2", "created")], emptyForge)
  = (Continue, ([("h2", "created")], emptyForge))
  /\ turn ([("h1", "fork"); ("h2", "created")], emptyForge)
     = (Continue, ([("h2", "created")], emptyForge))
  /\ turn ([("h1", "garbage"); ("h2", "created")], emptyForge)
     = (Continue, ([("h1", "garbage"); ("h2", "created")], emptyForge)).
Proof. cbv zeta. repeat split; vm_compute; reflexivity. Qed.

(** ** C8: unmerge, then merge *)

(** *** The order of strings *)

Lemma ascii_compare_N (a b : ascii) :
  Ascii.compare a b = N.compare (N_of_ascii a) (N_of_ascii b).
Proof. reflexivity. Qed.

Lemma string_compare_refl (s : string) : String.compare s s = Eq.
Proof.
  induction s as [|c s IH]; cbn; [done|].
  by rewrite ascii_compare_N, N.compare_refl.
Qed.

Lemma string_compare_le_trans (s1 s2 s3 : string) :
  String.compare s1 s2 ≠ Gt -> String.compare s2 s3 ≠ Gt -> String.compare s1 s3 ≠ Gt.
Proof.
  revert s2 s3. induction s1 as [|c1 s1 IH]; intros [|c2 s2] [|c3 s3]; cbn; try done.
  rewrite !ascii_compare_N.
  destruct (N.compare_spec (N_of_ascii c1) (N_of_ascii c2)) as [E12|L12|G12]; [| |done].
  - rewrite E12. destruct (N.compare_spec (N_of_ascii c2) (N_of_ascii c3)); [|done..].
    apply IH.
  - intros _. destruct (N.compare_spec (N_of_ascii c2) (N_of_ascii c3)) as [E23|L23|G23];
      [| |done]; intros _.
    + rewrite <- E23. by apply N.compare_lt_iff in L12 as ->.
    + assert (N_of_ascii c1 < N_of_ascii c3)%N as L13 by lia.
      by apply N.compare_lt_iff in L13 as ->.
Qed.

#[local] Instance stringLe_trans : Transitive stringLe.
Proof.
  intros s1 s2 s3. unfold stringLe, String.leb. intros H12 H23.
  pose proof (string_compare_le_trans s1 s2 s3) as H.
  destruct (String.compare s1 s2), (String.compare s2 s3), (String.compare s1 s3);
    try done; exfalso; by apply H.
Qed.

#[local] Instance stringLe_antisym : AntiSymm eq stringLe.
Proof. intros s1 s2. apply String.leb_antisym. Qed.

Lemma string_ltb_irrefl (s : string) : String.ltb s s = false.
Proof. unfold String.ltb. by rewrite string_compare_refl. Qed.

(** *** Directories *)

Lemma lookupFile_insertFile (name : string) (n : Node) (files : Files) :
  lookupFile name (insertFile name n files) = Some n.
Proof.
  induction files as [|[name' n'] rest IH]; cbn.
  - by rewrite String.eqb_refl.
  - destruct (String.ltb name name'); cbn; [by rewrite String.eqb_refl|].
    destruct (String.eqb name name') eqn:E; cbn; [by rewrite String.eqb_refl|].
    by rewrite E.
Qed.

Lemma lookupFile_insertFile_ne (name name' : string) (n : Node) (files : Files) :
  name ≠ name' -> lookupFile name' (insertFile name n files) = lookupFile name' files.
Proof.
  intros Hne. assert (String.eqb name' name = false) as Hf by (apply String.eqb_neq; congruence).
  induction files as [|[name0 n0] rest IH]; cbn.
  - by rewrite Hf.
  - destruct (String.ltb name name0); cbn; [by rewrite Hf|].
    destruct (String.eqb name name0) eqn:E; cbn.
    + apply String.eqb_eq in E as <-. by rewrite Hf.
    + by rewrite IH.
Qed.

Lemma insertFile_insertFile (name : string) (n1 n2 : Node) (files : Files) :
  insertFile name n2 (insertFile name n1 files) = insertFile name n2 files.
Proof.
  induction files as [|[name' n'] rest IH]; cbn.
  - by rewrite string_ltb_irrefl, String.eqb_refl.
  - destruct (String.ltb name name') eqn:L; cbn.
    + by rewrite string_ltb_irrefl, String.eqb_refl.
    + destruct (String.eqb name name') eqn:E; cbn.
      * by rewrite string_ltb_irrefl, String.eqb_refl.
      * by rewrite L, E, IH.
Qed.

(** *** Merging what was unmerged *)

Section RoundTrip.
Variable unicodeToLower : list ascii -> list ascii.
Variable codec : Codec.
Hypothesis codec_roundTrips : roundTrips codec.

Let norm (t : Team) : string := normaliseName unicodeToLower (tName t).
Let descendInto := mergeDescend unicodeToLower codec false.
Let entries := mergeEntries unicodeToLower codec descendInto.
Let entry := mergeEntry unicodeToLower codec descendInto.

Lemma mergeEntries_cons top dir name f rest :
  entries top dir ((name, f) :: rest)
  = match entry top dir name f with
    | Err err => Err err
    | Ok found =>
        match entries top dir rest with
        | Err err => Err err
        | Ok teams => Ok (match found with Some t => t :: teams | None => teams end)
        end
    end.
Proof.
  unfold entries, entry, mergeEntry. cbn. destruct f as [buf|sub].
  - destruct (String.eqb name orgFile); [destruct (negb top); [done|]|].
    + by destruct (mergeEntries _ _ _ _ _ rest).
    + destruct (String.eqb name teamFile); [|done]. destruct top; [done|].
      by destruct (mergeEntries _ _ _ _ _ rest).
  - destruct (readTeam codec (Join dir name) sub); [|done].
    destruct (negb _); [done|]. by destruct (descendInto _ _).
Qed.

Lemma mergeDescend_Dir top dir files :
  mergeDescend unicodeToLower codec top dir (Dir files) = entries top dir files.
Proof. reflexivity. Qed.

(** A new directory adds its team to those found in the others. *)
Lemma mergeEntries_insertFile top dir name sub m :
  entry top dir name (Dir sub) = Ok (Some m) ->
  forall files teams,
    lookupFile name files = None ->
    entries top dir files = Ok teams ->
    exists teams', entries top dir (insertFile name (Dir sub) files) = Ok teams'
                   /\ teams' ≡ₚ m :: teams.
Proof.
  intros Hm. induction files as [|[name' n'] rest IH]; intros teams Hnone Hteams.
  - cbn [insertFile]. rewrite mergeEntries_cons, Hm, Hteams. by exists (m :: teams).
  - cbn [lookupFile] in Hnone. destruct (String.eqb name name') eqn:E; [done|].
    cbn [insertFile]. rewrite E. destruct (String.ltb name name').
    + rewrite mergeEntries_cons, Hm, Hteams. by exists (m :: teams).
    + rewrite mergeEntries_cons in Hteams |- *.
      destruct (entry top dir name' n') as [found|]; [|done].
      destruct (entries top dir rest) as [teams0|] eqn:Hrest; [|done].
      injection Hteams as <-.
      destruct (IH teams0 Hnone eq_refl) as (teams1 & -> & Hperm).
      eexists. split; [done|]. destruct found as [t|]; [|done].
      rewrite Hperm. apply Permutation_swap.
Qed.

Lemma unmergeTeam_unfold dir t :
  unmergeTeam unicodeToLower codec dir t
  = (Mkdir dir (norm t);;
     inDir dir (norm t) (writeTeam codec t (Join dir (norm t)));;
     inDir dir (norm t) (unmergeDescend unicodeToLower codec (Join dir (norm t)) (tChildren t))).
Proof. by destruct t. Qed.

Lemma unmergeDescend_cons dir t rest files :
  unmergeDescend unicodeToLower codec dir (t :: rest) files
  = (unmergeTeam unicodeToLower codec dir t;; unmergeDescend unicodeToLower codec dir rest) files.
Proof.
  unfold unmergeDescend. cbn [foldM]. unfold mbind, M_bind, bind.
  by destruct (unmergeTeam unicodeToLower codec dir t files) as [[[]|err] files1].
Qed.

Lemma Unmerged_nil : Unmerged unicodeToLower codec [].
Proof.
  unfold Unmerged. cbv zeta. intros dir files files' H. injection H as <-. split; [|split; [|split]].
  - intros t Ht. by apply elem_of_nil in Ht.
  - constructor.
  - done.
  - intros top found Hf. exists found, []. rewrite app_nil_r. by repeat split.
Qed.

(** One team: its directory is created, and merges to the team. *)
Lemma unmergeTeam_merged t dir files files' :
  Unmerged unicodeToLower codec (tChildren t) ->
  unmergeTeam unicodeToLower codec dir t files = (Ok tt, files') ->
  lookupFile (norm t) files = None
  /\ exists sub m,
      files' = insertFile (norm t) (Dir sub) files
      /\ (forall top, entry top dir (norm t) (Dir sub) = Ok (Some m))
      /\ Merged unicodeToLower t m.
Proof.
  intros Hchildren H. rewrite unmergeTeam_unfold in H.
  apply bind_inv_ok in H as ([] & files1 & Hmk & H).
  apply bind_inv_ok in H as ([] & files2 & Hwr & Hdesc).
  unfold Mkdir in Hmk. case_bool_decide as Hname; [done|].
  destruct (lookupFile (norm t) files) eqn:Hnone; [done|]. injection Hmk as <-.
  split; [done|].
  unfold inDir in Hwr. rewrite lookupFile_insertFile in Hwr.
  unfold writeTeam in Hwr.
  destruct (EncodeTeam codec (setChildren t [])) as [buf|] eqn:Henc; [|done].
  cbn in Hwr. injection Hwr as <-. rewrite insertFile_insertFile in Hdesc.
  unfold inDir in Hdesc. rewrite lookupFile_insertFile in Hdesc.
  destruct (unmergeDescend _ _ _ (tChildren t) _) as [r sub] eqn:Hsub.
  injection Hdesc as -> <-. rewrite insertFile_insertFile.
  destruct (Hchildren _ _ _ Hsub) as (Hfresh & Hnd & Hframe & Hmerge).
  fold descendInto in Hmerge. fold entries in Hmerge.
  assert (lookupFile teamFile sub = Some (File buf)) as Hteam.
  { rewrite Hframe; [done|]. intros Hin. apply list_elem_of_fmap in Hin as (c & Hc & Hin).
    apply Hfresh in Hin. cbn beta in Hc. by rewrite <- Hc in Hin. }
  apply proj2 in codec_roundTrips as Hdec. specialize (Hdec _ _ Henc).
  destruct (Hmerge false [] eq_refl) as (cs & ms & Hcs & Hms & Hperm).
  exists sub, (mkTeam (tName t) (tDescription t) (tPreviously t) [] (tMembers t)
                      (tRestrictMembers t) cs).
  split; [done|]. split.
  - intros top.
    unfold entry, mergeEntry, readTeam, ReadFile. rewrite Hteam, Hdec.
    cbn [tName hideMaintainers setChildren]. fold (norm t).
    rewrite String.eqb_refl. cbn [negb].
    unfold descendInto at 1. rewrite mergeDescend_Dir. fold descendInto. fold entries.
    rewrite Hcs. reflexivity.
  - by econstructor.
Qed.

Lemma Unmerged_cons t rest :
  Unmerged unicodeToLower codec (tChildren t) ->
  Unmerged unicodeToLower codec rest ->
  Unmerged unicodeToLower codec (t :: rest).
Proof.
  intros Hchildren Hrest. unfold Unmerged. cbv zeta. intros dir files files' H.
  rewrite unmergeDescend_cons in H.
  apply bind_inv_ok in H as ([] & files1 & Ht & Hr).
  destruct (unmergeTeam_merged _ _ _ _ Hchildren Ht) as (Hnone & sub & m & -> & Hentry & Hm).
  destruct (Hrest _ _ _ Hr) as (Hfresh & Hnd & Hframe & Hmerge).
  fold descendInto in Hmerge |- *. fold entries in Hmerge |- *.
  assert (forall r, r ∈ rest -> norm r ≠ norm t) as Hne.
  { intros r Hin Heq. apply Hfresh in Hin. fold (norm r) in Hin.
    by rewrite Heq, lookupFile_insertFile in Hin. }
  split; [|split; [|split]].
  - intros r Hin. apply elem_of_cons in Hin as [->|Hin]; [done|].
    rewrite <- (lookupFile_insertFile_ne (norm t) _ (Dir sub)); [by apply Hfresh|].
    intros Heq. by eapply Hne.
  - cbn [map]. apply NoDup_cons. split; [|done].
    intros Hin. apply list_elem_of_fmap in Hin as (r & Heq & Hin). by eapply Hne.
  - intros name Hname. cbn [map] in Hname. apply not_elem_of_cons in Hname as [Hne' Hname].
    rewrite Hframe by done. apply lookupFile_insertFile_ne.
    intros Heq. apply Hne'. symmetry. exact Heq.
  - intros top found Hfound.
    destruct (mergeEntries_insertFile top dir _ sub m (Hentry top) files found Hnone Hfound)
      as (found1 & Hfound1 & Hperm1).
    destruct (Hmerge top found1 Hfound1) as (found' & ms & Hfound' & Hms & Hperm).
    exists found', (m :: ms). split; [done|]. split; [by constructor|].
    rewrite Hperm, Hperm1. cbn [app]. by rewrite Permutation_middle.
Qed.

Lemma unmergeDescend_Unmerged teams : Unmerged unicodeToLower codec teams.
Proof.
  induction teams as [|t rest IHchildren IHrest] using forest_ind.
  - apply Unmerged_nil.
  - by apply Unmerged_cons.
Qed.

(** The org directory once [writeOrg] and [descend] have filled it. *)
Lemma orgDir_merged org orgDir sub0 sub :
  writeOrg codec org orgDir [] = (Ok tt, sub0) ->
  unmergeDescend unicodeToLower codec orgDir (oTeams org) sub0 = (Ok tt, sub) ->
  exists found ms,
    MergeOrg unicodeToLower codec orgDir sub = Ok (mkOrg (oName org) found)
    /\ Forall2 (Merged unicodeToLower) (oTeams org) ms
    /\ found ≡ₚ ms
    /\ NoDup (map norm (oTeams org)).
Proof.
  intros Hwr Hsub. unfold writeOrg in Hwr.
  destruct (EncodeOrg codec (mkOrg (oName org) [])) as [buf|] eqn:Henc; [|done].
  cbn in Hwr. injection Hwr as <-.
  destruct (unmergeDescend_Unmerged _ _ _ _ Hsub) as (Hfresh & Hnd & Hframe & Hmerge).
  fold descendInto in Hmerge. fold entries in Hmerge.
  assert (lookupFile orgFile sub = Some (File buf)) as Horg.
  { rewrite Hframe; [done|]. intros Hin. apply list_elem_of_fmap in Hin as (c & Hc & Hin).
    apply Hfresh in Hin. cbn beta in Hc. by rewrite <- Hc in Hin. }
  apply proj1 in codec_roundTrips as Hdec. specialize (Hdec _ _ Henc).
  destruct (Hmerge true [] eq_refl) as (found & ms & Hfound & Hms & Hperm).
  exists found, ms. split; [|done].
  unfold MergeOrg, readOrg, ReadFile. rewrite Horg, Hdec, mergeDescend_Dir.
  fold descendInto. fold entries. by rewrite Hfound.
Qed.

(** [UnmergeOrg], when it completes, leaves the org directory, and
    [MergeOrg] on it gives the org's name and, in some order, its teams
    merged. *)
Lemma MergeOrg_UnmergeOrg org dir target target' :
  UnmergeOrg unicodeToLower codec org dir target = (Ok tt, target') ->
  exists sub found ms,
    dirAt (normaliseName unicodeToLower (oName org)) target' = Some sub
    /\ MergeOrg unicodeToLower codec (Join dir (normaliseName unicodeToLower (oName org))) sub
       = Ok (mkOrg (oName org) found)
    /\ Forall2 (Merged unicodeToLower) (oTeams org) ms
    /\ found ≡ₚ ms
    /\ NoDup (map norm (oTeams org)).
Proof.
  unfold UnmergeOrg. cbv zeta. set (name := normaliseName unicodeToLower (oName org)).
  intros H. destruct target as [| |[buf|files]]; [done| |by destruct (bool_decide _)|].
  - case_bool_decide as Hname; [|done].
    destruct ((writeOrg codec org (Join dir name);;
               unmergeDescend unicodeToLower codec (Join dir name) (oTeams org)) [])
      as [r sub] eqn:Hrun.
    injection H as -> <-.
    apply bind_inv_ok in Hrun as ([] & sub0 & Hwr & Hsub).
    destruct (orgDir_merged _ _ _ _ Hwr Hsub) as (found & ms & Hmerge).
    exists sub, found, ms. split; [|done].
    unfold dirAt. by rewrite bool_decide_eq_true_2.
  - destruct ((Mkdir dir name;;
               inDir dir name (writeOrg codec org (Join dir name));;
               inDir dir name (unmergeDescend unicodeToLower codec (Join dir name)
                                 (oTeams org))) files) as [r files'] eqn:Hrun.
    injection H as -> <-.
    apply bind_inv_ok in Hrun as ([] & files1 & Hmk & H).
    apply bind_inv_ok in H as ([] & files2 & Hwr & Hdesc).
    unfold Mkdir in Hmk. case_bool_decide as Hname; [done|].
    destruct (lookupFile name files) eqn:Hnone; [done|]. injection Hmk as <-.
    unfold inDir in Hwr. rewrite lookupFile_insertFile in Hwr.
    destruct (writeOrg codec org (Join dir name) []) as [rw sub0] eqn:Hw.
    injection Hwr as -> <-. rewrite insertFile_insertFile in Hdesc.
    unfold inDir in Hdesc. rewrite lookupFile_insertFile in Hdesc.
    destruct (unmergeDescend _ _ _ (oTeams org) _) as [r sub] eqn:Hsub.
    injection Hdesc as -> <-. rewrite insertFile_insertFile.
    destruct (orgDir_merged _ _ _ _ Hw Hsub) as (found & ms & Hmerge).
    exists sub, found, ms. split; [|done].
    unfold dirAt. by rewrite bool_decide_eq_false_2, lookupFile_insertFile.
Qed.
End RoundTrip.

(** *** Sorting what was merged *)

Lemma perm_fmap_eq {A B} (f : A -> B) (l1 : list A) :
  forall l2, NoDup (map f l1) -> l1 ≡ₚ l2 -> map f l1 = map f l2 -> l1 = l2.
Proof.
  induction l1 as [|x l1 IH]; intros [|y l2] Hnd Hperm Heq; try done.
  cbn [map] in Heq. injection Heq as Hxy Heq.
  assert (x = y) as ->.
  { apply (NoDup_fmap_eq f (x :: l1)); [done | left | | done].
    rewrite Hperm. left. }
  f_equal. cbn [map] in Hnd. apply NoDup_cons in Hnd as [_ Hnd].
  apply IH; [done| |done]. by apply (Permutation_cons_inv (a := y)).
Qed.

(** Where the names differ, a sort by name does not depend on the order
    the teams come in. *)
Lemma sortTeams_perm (l1 l2 : list Team) :
  l1 ≡ₚ l2 -> NoDup (map tName l1) -> sortTeams l1 = sortTeams l2.
Proof.
  intros Hperm Hnd. unfold sortTeams.
  assert (merge_sort teamLe l1 ≡ₚ merge_sort teamLe l2) as Hsorted.
  { by rewrite !merge_sort_Permutation. }
  apply (perm_fmap_eq tName); [|done|].
  - rewrite merge_sort_Permutation. done.
  - apply (Sorted_unique stringLe).
    + apply (Sorted_fmap _ teamLe); [done|]. apply Sorted_merge_sort.
      intros t1 t2. apply stringLe_total.
    + apply (Sorted_fmap _ teamLe); [done|]. apply Sorted_merge_sort.
      intros t1 t2. apply stringLe_total.
    + by apply fmap_Permutation.
Qed.

Lemma Merged_names u (cs ms : list Team) :
  Forall2 (Merged u) cs ms -> map tName ms = map tName cs.
Proof.
  induction 1 as [|c m cs ms Hm _ IH]; [done|]. cbn [map]. rewrite IH. f_equal.
  by inversion Hm.
Qed.

Lemma SortTeam_name (t : Team) : tName (SortTeam t) = tName t.
Proof. by destruct t. Qed.

Lemma SortTeam_unfold (t : Team) :
  SortTeam t = mkTeam (tName t) (tDescription t) (tPreviously t)
                      (sortStrings (tMaintainers t)) (sortStrings (tMembers t))
                      (tRestrictMembers t) (sortTeams (map SortTeam (tChildren t))).
Proof. by destruct t. Qed.

Lemma hideMaintainers_unfold (t : Team) :
  hideMaintainers t = mkTeam (tName t) (tDescription t) (tPreviously t) [] (tMembers t)
                             (tRestrictMembers t) (map hideMaintainers (tChildren t)).
Proof. by destruct t. Qed.

(** The teams of a level, merged and in any order, sort to what the teams
    without maintainers sort to. *)
Lemma sortTeams_Merged u (cs ms found : list Team) :
  Forall (fun c => forall m, Merged u c m -> SortTeam m = SortTeam (hideMaintainers c)) cs ->
  Forall2 (Merged u) cs ms ->
  found ≡ₚ ms ->
  NoDup (map (fun c => normaliseName u (tName c)) cs) ->
  sortTeams (map SortTeam found) = sortTeams (map SortTeam (map hideMaintainers cs)).
Proof.
  intros IH Hms Hperm Hnd.
  assert (map SortTeam ms = map SortTeam (map hideMaintainers cs)) as <-.
  { clear Hperm Hnd. induction Hms as [|c m cs ms Hm _ IHms]; [done|].
    apply Forall_cons in IH as [Hc IH]. cbn [map]. by rewrite (Hc _ Hm), IHms. }
  apply sortTeams_perm; [by apply fmap_Permutation|].
  rewrite Hperm. rewrite map_map.
  rewrite (map_ext _ tName) by (intros; apply SortTeam_name).
  rewrite (Merged_names _ _ _ Hms).
  apply (NoDup_fmap_1 (normaliseName u)). by rewrite <- list_fmap_compose.
Qed.

Lemma SortTeam_Merged u (t : Team) :
  forall m, Merged u t m -> SortTeam m = SortTeam (hideMaintainers t).
Proof.
  induction t as [n d pr ma me rm cs IH] using Team_ind_forall.
  intros m Hm. inversion Hm as [t ms found Hms Hperm Hnd Ht]; subst.
  cbn [tName tDescription tPreviously tMembers tRestrictMembers tChildren] in *.
  rewrite SortTeam_unfold, (SortTeam_unfold (hideMaintainers _)).
  cbn [hideMaintainers tName tDescription tPreviously tMaintainers tMembers tRestrictMembers
       tChildren].
  f_equal. by eapply sortTeams_Merged.
Qed.

(** C8 (as amended).  For every Org, every codec that gives back the
    documents it encoded (less the maintainers), every directory and
    whatever is at its path beforehand: when [UnmergeOrg] completes, the
    directory named after the org is there, and [MergeOrg] on it returns an
    Org which, once sorted by [SortOrg], equals [SortOrg] of the input with
    every Maintainers field emptied. *)
Theorem merge_unmerge_round_trip (unicodeToLower : list ascii -> list ascii) (codec : Codec)
        (org : Org) (dir : string) (target target' : Target) :
  roundTrips codec ->
  UnmergeOrg unicodeToLower codec org dir target = (Ok tt, target') ->
  exists sub merged,
    dirAt (normaliseName unicodeToLower (oName org)) target' = Some sub
    /\ MergeOrg unicodeToLower codec (Join dir (normaliseName unicodeToLower (oName org))) sub
       = Ok merged
    /\ SortOrg merged = SortOrg (hideOrgMaintainers org).
Proof.
  intros Hcodec Hun.
  destruct (MergeOrg_UnmergeOrg _ _ Hcodec _ _ _ _ Hun)
    as (sub & found & ms & Hsub & Hmerge & Hms & Hperm & Hnd).
  exists sub, (mkOrg (oName org) found). split; [done|]. split; [done|].
  unfold SortOrg, hideOrgMaintainers. cbn [oName oTeams]. f_equal.
  eapply sortTeams_Merged; eauto.
  apply Forall_forall. intros c _. apply SortTeam_Merged.
Qed.

Lemma docCodec_roundTrips : roundTrips docCodec.
Proof.
  split.
  - intros name buf. cbn. case_bool_decide as Hn; [|done]. intros [= <-]. by subst name.
  - intros [n d pr ma me rm cs] buf. cbn. unfold teamDoc. cbn.
    repeat (destruct (decide (_ = (n, d, pr, me, rm))) as [Hd|_];
            [injection Hd as <- <- <- <- <-; intros [= <-]; vm_compute; reflexivity|]).
    done.
Qed.

Lemma merge_unmerge_round_trip_witness :
  exists sub merged,
    dirAt (normaliseName noUnicode (oName docOrg))
          (UnmergeOrg noUnicode docCodec docOrg "out" (Present (Dir []))).2 = Some sub
    /\ MergeOrg noUnicode docCodec (Join "out" (normaliseName noUnicode (oName docOrg))) sub
       = Ok merged
    /\ SortOrg merged = SortOrg (hideOrgMaintainers docOrg).
Proof.
  apply (merge_unmerge_round_trip noUnicode docCodec docOrg "out" (Present (Dir []))).
  - exact docCodec_roundTrips.
  - vm_compute. reflexivity.
Defined.

(** C8, counterexample to the claim as stated: the one team of
    [unsortedOrg] has members zoe, adam.  Unmerged and merged back it has
    them in that order; [SortOrg] has adam first. *)
Lemma merge_unmerge_keeps_order_counterexample :
  let merged := mkOrg "Org A" [mkTeam "B team" "second" [] [] ["zoe"; "adam"] [] []] in
  let sub := [("b-team", Dir [("team.yaml", File "doc-b")]); ("org.yaml", File "doc-org")] in
  UnmergeOrg noUnicode docCodec unsortedOrg "out" (Present (Dir []))
  = (Ok tt, Present (Dir [("org-a", Dir sub)]))
  /\ MergeOrg noUnicode docCodec "out/org-a" sub = Ok merged
  /\ SortOrg (hideOrgMaintainers unsortedOrg)
     = mkOrg "Org A" [mkTeam "B team" "second" [] [] ["adam"; "zoe"] [] []]
  /\ merged ≠ SortOrg (hideOrgMaintainers unsortedOrg).
Proof.
  cbv zeta. split; [|split; [|split]]; try (vm_compute; reflexivity).
  vm_compute. intros [=].
Qed.

(* ================================================================== *)
(** * Further properties of the packages *)
(* ================================================================== *)

(** ** Normalised names *)

Lemma replaceRuns_elem (class : ascii -> bool) (s : list ascii) :
  forall inRun c, c ∈ replaceRuns class inRun s -> c = hyphen \/ (c ∈ s /\ class c = false).
Proof.
  induction s as [|a s IH]; intros inRun c; cbn; [by intros ?%elem_of_nil|].
  destruct (class a) eqn:Ha; [destruct inRun|].
  - intros [?|[? ?]]%IH; [by left|right; split; [by right|done]].
  - intros [->|[?|[? ?]]%IH]%elem_of_cons; [by left|by left|right; split; [by right|done]].
  - intros [->|[?|[? ?]]%IH]%elem_of_cons;
      [right; split; [by left|done]|by left|right; split; [by right|done]].
Qed.

Lemma replaceRuns_id (class : ascii -> bool) (s : list ascii) :
  Forall (fun c => class c = false) s -> forall inRun, replaceRuns class inRun s = s.
Proof.
  induction 1 as [|a s Ha _ IH]; intros inRun; cbn; [done|]. by rewrite Ha, IH.
Qed.

Lemma replaceRuns_noDouble (s : list ascii) :
  forall inRun,
    noDoubleHyphen (replaceRuns isHyphen inRun s)
    /\ (inRun = true -> head (replaceRuns isHyphen inRun s) <> Some hyphen).
Proof.
  induction s as [|a s IH]; intros inRun; cbn; [by split|].
  destruct (isHyphen a) eqn:Ha; unfold isHyphen in Ha;
    [apply bool_decide_eq_true in Ha|apply bool_decide_eq_false in Ha].
  - destruct inRun; [apply IH|]. split; [|done].
    destruct (IH true) as [Hn Hh]. specialize (Hh eq_refl).
    destruct (replaceRuns isHyphen true s) as [|b rest] eqn:E; cbn; [done|].
    split; [|done]. intros [_ ->]. by apply Hh.
  - destruct (IH false) as [Hn _]. split.
    + destruct (replaceRuns isHyphen false s) as [|b rest] eqn:E; cbn; [done|].
      split; [|done]. by intros [? _].
    + intros _ [=]. done.
Qed.

Lemma noDoubleHyphen_id (s : list ascii) :
  forall inRun, noDoubleHyphen s -> (inRun = true -> head s <> Some hyphen) ->
                replaceRuns isHyphen inRun s = s.
Proof.
  induction s as [|a s IH]; intros inRun Hn Hh; cbn; [done|].
  destruct (isHyphen a) eqn:Ha; unfold isHyphen in Ha;
    [apply bool_decide_eq_true in Ha|apply bool_decide_eq_false in Ha].
  - destruct inRun; [by destruct Hh; [|rewrite Ha]|].
    f_equal; [done|]. apply IH.
    + destruct s; [done|]. apply Hn.
    + intros _. destruct s as [|b s]; [done|]. cbn. intros [= ->]. by apply Hn.
  - f_equal. apply IH; [|done]. destruct s; [done|]. apply Hn.
Qed.

Lemma noDoubleHyphen_app_r (l1 l2 : list ascii) :
  noDoubleHyphen (l1 ++ l2) -> noDoubleHyphen l2.
Proof.
  induction l1 as [|a l1 IH]; [done|]. intros H. apply IH.
  cbn in H. destruct (l1 ++ l2); [done|]. apply H.
Qed.

Lemma noDoubleHyphen_app_l (l1 l2 : list ascii) :
  noDoubleHyphen (l1 ++ l2) -> noDoubleHyphen l1.
Proof.
  induction l1 as [|a l1 IH]; [done|]. intros H.
  destruct l1 as [|b l1]; [done|]. cbn in H |- *. split; [apply H|]. apply IH, H.
Qed.

Lemma dropWhile_suffix (class : ascii -> bool) (s : list ascii) :
  exists l1, s = l1 ++ dropWhile class s.
Proof.
  induction s as [|a s [l1 IH]]; [by exists []|]. cbn.
  destruct (class a); [|by exists []]. exists (a :: l1). cbn. by f_equal.
Qed.

Lemma dropWhile_head (class : ascii -> bool) (s : list ascii) (c : ascii) :
  head (dropWhile class s) = Some c -> class c = false.
Proof.
  induction s as [|a s IH]; [done|]. cbn. destruct (class a) eqn:Ha; [done|].
  by intros [= <-].
Qed.

Lemma dropWhile_id (class : ascii -> bool) (s : list ascii) :
  (forall c, head s = Some c -> class c = false) -> dropWhile class s = s.
Proof. destruct s as [|a s]; [done|]. intros H. cbn. by rewrite (H a eq_refl). Qed.

(** What [trimEnds] leaves is a middle part of its argument, and neither
    end of it is a hyphen or an underscore. *)
Lemma trimEnds_infix (s : list ascii) :
  (exists l1 l2, s = l1 ++ trimEnds s ++ l2)
  /\ (forall c, head (trimEnds s) = Some c -> isHyphenOrUnderscore c = false)
  /\ (forall c, last (trimEnds s) = Some c -> isHyphenOrUnderscore c = false).
Proof.
  unfold trimEnds. set (class := isHyphenOrUnderscore).
  destruct (dropWhile_suffix class s) as [l1 H1].
  destruct (dropWhile_suffix class (reverse (dropWhile class s))) as [l2 H2].
  apply (f_equal reverse) in H2. rewrite reverse_involutive, reverse_app in H2.
  split; [|split].
  - exists l1, (reverse l2). by rewrite <- H2.
  - intros c Hc. apply (dropWhile_head class s). rewrite H2.
    destruct (reverse (dropWhile class (reverse (dropWhile class s)))); [done|]. done.
  - intros c Hc. rewrite last_reverse in Hc. by apply dropWhile_head in Hc.
Qed.

Lemma trimEnds_id (s : list ascii) :
  (forall c, head s = Some c -> isHyphenOrUnderscore c = false) ->
  (forall c, last s = Some c -> isHyphenOrUnderscore c = false) ->
  trimEnds s = s.
Proof.
  intros Hh Hl. unfold trimEnds. rewrite (dropWhile_id _ s) by done.
  rewrite dropWhile_id; [apply reverse_involutive|].
  intros c Hc. apply Hl. by rewrite <- head_reverse.
Qed.

Lemma isLowerAlnum_facts (c : ascii) :
  isLowerAlnum c = true \/ c = hyphen ->
  isASCII c = true /\ lowerByte c = c /\ isSpaceOrUnderscore c = false
  /\ isGoodChar c = true /\ (isHyphenOrUnderscore c = true -> c = hyphen).
Proof.
  destruct c as [[] [] [] [] [] [] [] []]; vm_compute; intuition congruence.
Qed.

Lemma isGoodChar_cases (c : ascii) :
  isGoodChar c = true -> isSpaceOrUnderscore c = false -> isLowerAlnum c = true \/ c = hyphen.
Proof.
  destruct c as [[] [] [] [] [] [] [] []]; vm_compute; intuition congruence.
Qed.

Lemma normaliseBytes_shape u (name : list ascii) :
  let s := normaliseBytes u name in
  Forall (fun c => isLowerAlnum c = true \/ c = hyphen) s
  /\ head s <> Some hyphen /\ last s <> Some hyphen /\ noDoubleHyphen s.
Proof.
  unfold normaliseBytes. cbv zeta.
  set (s3 := replaceRuns isHyphen false _).
  destruct (trimEnds_infix s3) as ((l1 & l2 & Hin) & Hh & Hl).
  split; [|split; [|split]].
  - assert (Forall (fun c => isLowerAlnum c = true \/ c = hyphen) s3) as Hs3.
    { apply Forall_forall. intros c [->|[Hc _]]%replaceRuns_elem; [by right|].
      apply list_elem_of_filter in Hc as [Hg Hc].
      apply replaceRuns_elem in Hc as [->|[_ Hsp]]; [by right|].
      apply isGoodChar_cases; [by destruct (isGoodChar c)|done]. }
    rewrite Hin in Hs3. by apply Forall_app in Hs3 as [_ [? _]%Forall_app].
  - intros Hc. by apply Hh in Hc.
  - intros Hc. by apply Hl in Hc.
  - destruct (replaceRuns_noDouble (filter (fun c => isGoodChar c)
       (replaceRuns isSpaceOrUnderscore false (ToLower u name))) false) as [Hn _].
    fold s3 in Hn. rewrite Hin in Hn.
    by apply noDoubleHyphen_app_r, noDoubleHyphen_app_l in Hn.
Qed.

Lemma normaliseBytes_id u (s : list ascii) :
  Forall (fun c => isLowerAlnum c = true \/ c = hyphen) s ->
  head s <> Some hyphen -> last s <> Some hyphen -> noDoubleHyphen s ->
  normaliseBytes u s = s.
Proof.
  intros Hs Hh Hl Hn. unfold normaliseBytes. cbv zeta.
  assert (ToLower u s = s) as ->.
  { unfold ToLower. rewrite (proj2 (forallb_forall _ _)).
    - rewrite <- (map_id s) at 2. apply map_ext_in. intros c Hc.
      rewrite Forall_forall in Hs. apply isLowerAlnum_facts, Hs. by apply list_elem_of_In.
    - intros c Hc. rewrite Forall_forall in Hs. apply isLowerAlnum_facts, Hs.
      by apply list_elem_of_In. }
  rewrite (replaceRuns_id isSpaceOrUnderscore s)
    by (eapply Forall_impl; [exact Hs|]; intros c Hc; by apply isLowerAlnum_facts).
  assert (filter (fun c => isGoodChar c) s = s) as ->.
  { clear Hh Hl Hn. induction Hs as [|c s Hc _ IH]; [done|].
    rewrite filter_cons_True; [by rewrite IH|].
    apply isLowerAlnum_facts in Hc as (_ & _ & _ & -> & _). done. }
  rewrite noDoubleHyphen_id by done.
  apply trimEnds_id.
  - intros c Hc. destruct (isHyphenOrUnderscore c) eqn:E; [|done].
    destruct s as [|a s]; [done|]. injection Hc as ->.
    apply Forall_cons in Hs as [Hc _].
    apply isLowerAlnum_facts in Hc as (_ & _ & _ & _ & Hy). by rewrite (Hy E) in Hh.
  - intros c Hc. destruct (isHyphenOrUnderscore c) eqn:E; [|done].
    assert (c ∈ s) as Hin by (by apply last_Some_elem_of).
    rewrite Forall_forall in Hs.
    apply Hs, isLowerAlnum_facts in Hin as (_ & _ & _ & _ & Hy). by rewrite (Hy E) in Hc.
Qed.

(** X1.  Whatever the name (and whatever Go's lower-case mapping does to a
    name that is not ASCII), [normaliseName] returns a string over
    [a-z], [0-9] and the hyphen only (no underscore is left), that neither
    starts nor ends with a hyphen and has no two hyphens side by side. *)
Theorem normaliseName_shape (unicodeToLower : list ascii -> list ascii) (name : string) :
  let s := list_ascii_of_string (normaliseName unicodeToLower name) in
  Forall (fun c => isLowerAlnum c = true \/ c = hyphen) s
  /\ head s <> Some hyphen /\ last s <> Some hyphen /\ noDoubleHyphen s.
Proof.
  unfold normaliseName. rewrite list_ascii_of_string_of_list_ascii.
  apply normaliseBytes_shape.
Qed.

(** X2.  [normaliseName] is idempotent: a normalised name normalises to
    itself. *)
Theorem normaliseName_idempotent (unicodeToLower : list ascii -> list ascii) (name : string) :
  normaliseName unicodeToLower (normaliseName unicodeToLower name)
  = normaliseName unicodeToLower name.
Proof.
  unfold normaliseName. rewrite list_ascii_of_string_of_list_ascii. f_equal.
  destruct (normaliseBytes_shape unicodeToLower (list_ascii_of_string name))
    as (Hs & Hh & Hl & Hn).
  by apply normaliseBytes_id.
Qed.

(** ** Loops over a recording service *)


(** ** Admin topics of every repo *)

Lemma newStringSet_sortStrings (w : gset string) :
  newStringSet (sortStrings (stringSetToSlice w)) = w.
Proof.
  apply set_eq. intros x. unfold newStringSet. rewrite elem_of_list_to_set.
  apply sortStrings_set.
Qed.

Lemma wantTopicsOf_rectified u (r : Repo) (topics : list string) :
  newStringSet topics = wantTopicsOf u r ->
  wantTopicsOf u (mkRepo (rName r) topics (rTeams r)) = wantTopicsOf u r.
Proof.
  intros Ht. apply set_eq. intros x. rewrite (wantTopicsOf_elem u (mkRepo _ _ _)).
  cbn [rTopics rTeams]. split.
  - intros [[Hx Hp]|H].
    + assert (x ∈ newStringSet topics) as Hin by (by apply elem_of_list_to_set).
      by rewrite Ht in Hin.
    + apply wantTopicsOf_elem. by right.
  - intros Hx. pose proof Hx as Hx'.
    apply wantTopicsOf_elem in Hx as [[Hin Hp]|H]; [|by right].
    left. split; [|done]. rewrite <- Ht in Hx'. by apply elem_of_list_to_set in Hx'.
Qed.

Lemma rectified_topics_settled u (r : Repo) :
  wantTopicsOf u (rectifyRepoAdminTopics u r).1
  = newStringSet (rTopics (rectifyRepoAdminTopics u r).1).
Proof.
  unfold rectifyRepoAdminTopics. cbv zeta. case_bool_decide as Heq; cbn [fst]; [done|].
  cbn [rTopics]. rewrite newStringSet_sortStrings. apply wantTopicsOf_rectified.
  apply newStringSet_sortStrings.
Qed.

(** X3.  [rectifyRepoAdminTopics] is idempotent: the repo it leaves needs
    no further change, so rectifying it again returns it as it is with
    [false]. *)
Theorem rectifyRepoAdminTopics_idempotent (unicodeToLower : list ascii -> list ascii)
        (r : Repo) :
  rectifyRepoAdminTopics unicodeToLower (rectifyRepoAdminTopics unicodeToLower r).1
  = ((rectifyRepoAdminTopics unicodeToLower r).1, false).
Proof.
  apply rectifyRepoAdminTopics_settled, rectified_topics_settled.
Qed.

(** The function [UpdateAdminTopics] passes to the walk. *)
Lemma walk_collect u (repos : list Repo) :
  forall acc,
    walk repos (fun r repos =>
                  let '(r, changed) := rectifyRepoAdminTopics u r in
                  Ok (if changed then repos ++ [r] else repos)) acc
    = Ok (acc ++ map fst (List.filter snd (map (rectifyRepoAdminTopics u) repos))).
Proof.
  induction repos as [|r repos IH]; intros acc; cbn [walk map List.filter].
  - by rewrite app_nil_r.
  - destruct (rectifyRepoAdminTopics u r) as [r' []]; cbn [snd fst map]; rewrite IH.
    + by rewrite <- app_assoc.
    + done.
Qed.



Lemma updRepo_names (repoName : string) (topics : list string) (repos : list Repo) :
  map rName (updRepo repoName (fun r => mkRepo (rName r) topics (rTeams r)) repos)
  = map rName repos.
Proof.
  unfold updRepo. rewrite map_map. apply map_ext. intros r. by case_bool_decide.
Qed.

Lemma forge_UpdateRepoTopics (orgName repoName : string) (topics : list string) (f : Forge) :
  repoName ∈ map rName (fRepos f) ->
  UpdateRepoTopics forge orgName repoName topics f
  = (Ok tt, setRepos f (updRepo repoName (fun r => mkRepo (rName r) topics (rTeams r))
                                (fRepos f))).
Proof.
  intros Hin. cbn [UpdateRepoTopics forge]. unfold hasRepo.
  by rewrite bool_decide_eq_true_2.
Qed.

(** The repos as a series of [UpdateRepoTopics] calls on repos of the forge
    leaves them. *)
Lemma forEach_UpdateRepoTopics (orgName : string) (cs : list Repo) :
  forall f,
    (forall c, c ∈ cs -> rName c ∈ map rName (fRepos f)) ->
    forEach cs (fun repo => UpdateRepoTopics forge orgName (rName repo) (rTopics repo)) f
    = (Ok tt,
       setRepos f
         (map (fun r =>
                 fold_left (fun r c => if bool_decide (rName r = rName c)
                                       then mkRepo (rName r) (rTopics c) (rTeams r) else r)
                           cs r)
              (fRepos f))).
Proof.
  induction cs as [|c cs IH]; intros f Hcs.
  - cbn. rewrite map_id. by destruct f.
  - cbn [forEach]. eapply bind_ok_eq; [apply forge_UpdateRepoTopics, Hcs; left|].
    rewrite IH.
    + f_equal. unfold setRepos, updRepo. cbn. by rewrite map_map.
    + intros c' Hc'. cbn [fRepos setRepos]. rewrite updRepo_names. apply Hcs. by right.
Qed.

Lemma fold_left_retopic (cs : list Repo) (topics : list string) :
  forall r,
    (forall c, c ∈ cs -> rName c = rName r -> rTopics c = topics) ->
    fold_left (fun r c => if bool_decide (rName r = rName c)
                          then mkRepo (rName r) (rTopics c) (rTeams r) else r) cs r
    = if bool_decide (rName r ∈ map rName cs)
      then mkRepo (rName r) topics (rTeams r) else r.
Proof.
  induction cs as [|c cs IH]; intros r Hc; cbn [fold_left map].
  - rewrite bool_decide_eq_false_2; [done|]. by intros ?%elem_of_nil.
  - case_bool_decide as Hn.
    + rewrite IH.
      * cbn [rName rTeams]. rewrite (Hc c) by (done || left).
        rewrite (bool_decide_eq_true_2 (rName r ∈ _ :: _)) by (rewrite Hn; left).
        by case_bool_decide.
      * cbn [rName]. intros c' Hin Hname. apply Hc; [by right|done].
    + rewrite IH by (intros c' Hin Hname; apply Hc; [by right|done]).
      rewrite (bool_decide_ext (rName r ∈ rName c :: map rName cs)
                               (rName r ∈ map rName cs)); [done|].
      rewrite elem_of_cons. naive_solver.
Qed.

Lemma rectifyRepoAdminTopics_name u (r : Repo) :
  rName (rectifyRepoAdminTopics u r).1 = rName r
  /\ rTeams (rectifyRepoAdminTopics u r).1 = rTeams r
  /\ ((rectifyRepoAdminTopics u r).2 = false -> (rectifyRepoAdminTopics u r).1 = r).
Proof. unfold rectifyRepoAdminTopics. cbv zeta. by case_bool_decide. Qed.

(** X5.  On a forge whose repos have distinct names, [UpdateAdminTopics]
    succeeds, reports as many repos as needed a change, and leaves every
    repo as [rectifyRepoAdminTopics] makes it.  Run again on the forge it
    left, it reports 0 repos and changes nothing. *)
Theorem UpdateAdminTopics_settles (unicodeToLower : list ascii -> list ascii)
        (regexpCompile : string -> result (string -> bool)) (orgName : string) (f : Forge) :
  NoDup (map rName (fRepos f)) ->
  let rectified := map (rectifyRepoAdminTopics unicodeToLower) (fRepos f) in
  let f' := setRepos f (map fst rectified) in
  UpdateAdminTopics unicodeToLower (forgePlatform regexpCompile) orgName f
  = (Ok (mkUpdateAdminTopicsResult (Z.of_nat (List.length (List.filter snd rectified)))), f')
  /\ UpdateAdminTopics unicodeToLower (forgePlatform regexpCompile) orgName f'
     = (Ok (mkUpdateAdminTopicsResult 0), f').
Proof.
  intros Hnd rectified f'.
  assert (forall g, g = f \/ g = f' ->
            List.filter snd (map (rectifyRepoAdminTopics unicodeToLower) (fRepos g)) = [] ->
            UpdateAdminTopics unicodeToLower (forgePlatform regexpCompile) orgName g
            = (Ok (mkUpdateAdminTopicsResult 0), g)) as Hnone.
  { intros g _ Hg. unfold UpdateAdminTopics. cbn [forgePlatform platGitHubService].
    eapply bind_ok_eq.
    { cbn [WalkRepos forge]. rewrite walk_collect, Hg. reflexivity. }
    reflexivity. }
  split.
  - unfold UpdateAdminTopics. cbn [forgePlatform platGitHubService].
    eapply bind_ok_eq.
    { cbn [WalkRepos forge]. rewrite walk_collect. reflexivity. }
    cbn [app]. eapply bind_ok_eq.
    { apply forEach_UpdateRepoTopics. intros c Hc.
      apply list_elem_of_fmap in Hc as ([c' ch] & -> & Hc).
      apply list_elem_of_In, filter_In in Hc as [Hc _].
      apply in_map_iff in Hc as (r0 & Hr0 & Hin0). apply list_elem_of_In in Hin0.
      destruct (rectifyRepoAdminTopics_name unicodeToLower r0) as (Hname0 & _).
      rewrite Hr0 in Hname0. cbn [fst] in Hname0 |- *. rewrite Hname0.
      apply list_elem_of_fmap. by exists r0. }
    unfold ret, mret, M_ret, ret. rewrite length_map. f_equal. unfold f'. f_equal.
    subst rectified. rewrite map_map. apply map_ext_in. intros r Hr.
    apply list_elem_of_In in Hr.
    destruct (rectifyRepoAdminTopics_name unicodeToLower r) as (Hname & Hteams & Hsame).
    rewrite (fold_left_retopic _ (rTopics (rectifyRepoAdminTopics unicodeToLower r).1)).
    + case_bool_decide as Hin.
      * rewrite <- Hname, <- Hteams.
        by destruct ((rectifyRepoAdminTopics unicodeToLower r).1).
      * symmetry. apply Hsame.
        destruct ((rectifyRepoAdminTopics unicodeToLower r).2) eqn:Hch; [|done].
        exfalso. apply Hin. apply list_elem_of_fmap.
        exists (rectifyRepoAdminTopics unicodeToLower r).1. split; [done|].
        apply list_elem_of_fmap. exists (rectifyRepoAdminTopics unicodeToLower r).
        split; [done|]. apply list_elem_of_In, filter_In. split; [|done].
        apply in_map. by apply list_elem_of_In.
    + intros c Hc Hcn.
      apply list_elem_of_fmap in Hc as ([c' ch] & -> & Hc).
      apply list_elem_of_In, filter_In in Hc as [Hc _].
      apply in_map_iff in Hc as (r0 & Hr0 & Hin0). apply list_elem_of_In in Hin0.
      cbn [fst] in Hcn |- *.
      assert (r0 = r) as ->; [|by rewrite Hr0].
      destruct (rectifyRepoAdminTopics_name unicodeToLower r0) as (Hname0 & _).
      rewrite Hr0 in Hname0. cbn [fst] in Hname0.
      apply list_elem_of_lookup in Hr as [i Hi]. apply list_elem_of_lookup in Hin0 as [j Hj].
      assert (i = j) as ->; [|congruence].
      eapply NoDup_lookup; [exact Hnd| |]; rewrite list_lookup_fmap.
      * by rewrite Hi.
      * rewrite Hj. cbn. congruence.
  - apply Hnone; [by right|]. unfold f', rectified. cbn [fRepos setRepos].
    rewrite !map_map. clear. induction (fRepos f) as [|r rs IH]; [done|].
    cbn [map List.filter].
    by rewrite (rectifyRepoAdminTopics_settled _ _ (rectified_topics_settled unicodeToLower r)).
Qed.

Lemma UpdateAdminTopics_settles_witness :
  UpdateAdminTopics noUnicode (forgePlatform anyRegexp) "o" topicsForge
  = (Ok (mkUpdateAdminTopicsResult 1),
     setRepos topicsForge
       [mkRepo "svc" ["admin-bar"; "admin-foo"; "blue"; "green"; "red"] (rTeams colourRepo);
        libRepo])
  /\ UpdateAdminTopics noUnicode (forgePlatform anyRegexp) "o"
       (setRepos topicsForge
          [mkRepo "svc" ["admin-bar"; "admin-foo"; "blue"; "green"; "red"] (rTeams colourRepo);
           libRepo])
     = (Ok (mkUpdateAdminTopicsResult 0),
        setRepos topicsForge
          [mkRepo "svc" ["admin-bar"; "admin-foo"; "blue"; "green"; "red"] (rTeams colourRepo);
           libRepo]).
Proof.
  apply (UpdateAdminTopics_settles noUnicode anyRegexp "o" topicsForge).
  vm_compute. repeat constructor; set_solver.
Defined.

(** ** Services that leave an observation of the state alone *)

Lemma replyWith_state {S A} (wrap : A -> Reply) (m : M S A) s r s' :
  m s = (r, s') -> exists r', replyWith wrap m s = (r', s').
Proof. intros H. unfold replyWith. rewrite H. destruct r; eauto. Qed.

Lemma replyWith_inv {S A} (wrap : A -> Reply) (m : M S A) s r' s' :
  replyWith wrap m s = (r', s') -> exists r, m s = (r, s').
Proof. unfold replyWith. destruct (m s) as [[a|e] s1]; intros [= _ <-]; eauto. Qed.

Lemma ret_keeps {S T A} (obs : S -> T) (a : A) s r s' :
  ret a s = (r, s') -> obs s' = obs s.
Proof. by intros [= _ <-]. Qed.

Lemma forEach_keeps {S T A} (obs : S -> T) (body : A -> M S unit) (xs : list A) :
  Forall (fun x => forall s r s', body x s = (r, s') -> obs s' = obs s) xs ->
  forall s r s', forEach xs body s = (r, s') -> obs s' = obs s.
Proof.
  induction 1 as [|x xs Hx _ IH]; cbn [forEach].
  - apply ret_keeps.
  - apply bind_keeps; [apply Hx | intros _; apply IH].
Qed.

Section Quiet.
Context {S T : Type} (svc : GitHubService S) (obs : S -> T).
Hypothesis Hq : quiet svc obs.

Local Ltac by_call c :=
  let H := fresh in
  intros H; eapply replyWith_state in H as [? H]; exact (Hq c _ _ _ H).

Lemma quiet_ListTeams org s r s' : ListTeams svc org s = (r, s') -> obs s' = obs s.
Proof. by_call (CListTeams org). Qed.
Lemma quiet_ListTeamMembers org id role s r s' :
  ListTeamMembers svc org id role s = (r, s') -> obs s' = obs s.
Proof. by_call (CListTeamMembers org id role). Qed.
Lemma quiet_CreateTeam org t s r s' : CreateTeam svc org t s = (r, s') -> obs s' = obs s.
Proof. by_call (CCreateTeam org t). Qed.
Lemma quiet_UpdateTeam t s r s' : UpdateTeam svc t s = (r, s') -> obs s' = obs s.
Proof. by_call (CUpdateTeam t). Qed.
Lemma quiet_DeleteTeam id s r s' : DeleteTeam svc id s = (r, s') -> obs s' = obs s.
Proof. by_call (CDeleteTeam id). Qed.
Lemma quiet_AddTeamMembership org id email role s r s' :
  AddTeamMembership svc org id email role s = (r, s') -> obs s' = obs s.
Proof. by_call (CAddTeamMembership org id email role). Qed.
Lemma quiet_DeleteTeamMembership org id email role s r s' :
  DeleteTeamMembership svc org id email role s = (r, s') -> obs s' = obs s.
Proof. by_call (CDeleteTeamMembership org id email role). Qed.
Lemma quiet_AddTeamRepoPermission org repo id p s r s' :
  AddTeamRepoPermission svc org repo id p s = (r, s') -> obs s' = obs s.
Proof. by_call (CAddTeamRepoPermission org repo id p). Qed.
Lemma quiet_DeleteTeamRepoPermission org repo id s r s' :
  DeleteTeamRepoPermission svc org repo id s = (r, s') -> obs s' = obs s.
Proof. by_call (CDeleteTeamRepoPermission org repo id). Qed.
Lemma quiet_WalkRepos {A} org (f : WalkReposFunc A) a s r s' :
  WalkRepos svc org f a s = (r, s') -> obs s' = obs s.
Proof. by_call (CWalkRepos A org f a). Qed.
Lemma quiet_WalkReposByTeam {A} org id (f : WalkReposFunc A) a s r s' :
  WalkReposByTeam svc org id f a s = (r, s') -> obs s' = obs s.
Proof. by_call (CWalkReposByTeam A org id f a). Qed.
Lemma quiet_RepoByName org repo s r s' : RepoByName svc org repo s = (r, s') -> obs s' = obs s.
Proof. by_call (CRepoByName org repo). Qed.
Lemma quiet_UpdateRepoTopics org repo topics s r s' :
  UpdateRepoTopics svc org repo topics s = (r, s') -> obs s' = obs s.
Proof. by_call (CUpdateRepoTopics org repo topics). Qed.
Lemma quiet_ListAdmins org s r s' : ListAdmins svc org s = (r, s') -> obs s' = obs s.
Proof. by_call (CListAdmins org). Qed.
Lemma quiet_UserByEmail org email s r s' :
  UserByEmail svc org email s = (r, s') -> obs s' = obs s.
Proof. by_call (CUserByEmail org email). Qed.
Lemma quiet_UserByLogin org login s r s' :
  UserByLogin svc org login s = (r, s') -> obs s' = obs s.
Proof. by_call (CUserByLogin org login). Qed.

(** *** The rules *)

Lemma pure_rule_keeps (rule : Rule S) :
  preserves rule -> forall org s r s', rule org s = (r, s') -> obs s' = obs s.
Proof. intros H org s r s' Hr. apply H in Hr. by subst. Qed.

Lemma unknownUsersRule_quiet org s r s' :
  unknownUsersRule svc org s = (r, s') -> obs s' = obs s.
Proof.
  assert (forall orgName t violations s r s',
             unknownUsers_team svc orgName violations t s = (r, s') ->
             obs s' = obs s) as Hteam.
  { intros orgName t.
    induction t as [n d pr ma me rm cs IHcs] using Team_ind_forall.
    intros violations. rewrite unknownUsers_team_unfold. apply (bind_keeps obs).
    - apply (foldM_keeps obs). apply Forall_forall.
      intros email _ b s0 r0 s0'.
      destruct (UserByEmail svc orgName email s0) as [[u|err] s1] eqn:E;
        apply quiet_UserByEmail in E.
      + by intros [= _ <-].
      + destruct (isUserNotFound err); by intros [= _ <-].
    - intros a. cbn [tChildren]. apply (foldM_keeps obs).
      eapply Forall_impl; [exact IHcs|]. intros c Hc b. apply Hc. }
  revert s r s'. unfold unknownUsersRule. apply (bind_keeps obs).
  - apply (foldM_keeps obs). apply Forall_forall. intros t _ b. apply Hteam.
  - intros a s r s'. case_bool_decide; by intros [= _ <-].
Qed.

Lemma activeTeamDeletionsRule_quiet org s r s' :
  activeTeamDeletionsRule svc org s = (r, s') -> obs s' = obs s.
Proof.
  revert s r s'. unfold activeTeamDeletionsRule. apply (bind_keeps obs).
  - intros s r s'. apply quiet_ListTeams.
  - intros haveTeams. apply (bind_keeps obs).
    + apply (foldM_keeps obs). apply Forall_forall.
      intros [i have] _ b. apply (bind_keeps obs).
      * intros s r s'. apply quiet_WalkReposByTeam.
      * intros a s r s'. by intros [= _ <-].
    + intros a s r s'. case_bool_decide; by intros [= _ <-].
Qed.

Lemma NewRuleEngine_quiet regexpCompile org s r s' :
  Run (NewRuleEngine regexpCompile svc) org s = (r, s') -> obs s' = obs s.
Proof.
  cbn [Run NewRuleEngine ruleEngine]. unfold ruleEngine_Run. revert s r s'.
  apply (bind_keeps obs).
  - intros s r s'. apply (runRules_keeps obs). unfold ruleEngine_Add. cbn [app].
    repeat constructor.
    + apply unknownUsersRule_quiet.
    + apply pure_rule_keeps, teamNamesUniqueRule_preserves.
    + apply pure_rule_keeps, usersUniqueWithinTeamRule_preserves.
    + apply pure_rule_keeps, teamNameLengthRule_preserves.
    + apply activeTeamDeletionsRule_quiet.
    + apply pure_rule_keeps, crossOrgMembershipsRule_preserves.
  - intros a s r s'. case_bool_decide; by intros [= _ <-].
Qed.

(** *** The reconciliation *)

Lemma reconcileTeam_quiet orgName haveTeams parent want s r s' :
  reconcileTeam svc orgName haveTeams parent want s = (r, s') -> obs s' = obs s.
Proof.
  revert s r s'. unfold reconcileTeam.
  destruct (findGitHubTeamFromDesired haveTeams want) as [have|].
  - apply (bind_keeps obs); [|intros; by eapply ret_keeps].
    unfold updateTeam. cbv zeta. intros s r s'.
    destruct (_ || _); [apply quiet_UpdateTeam|apply ret_keeps].
  - apply (bind_keeps obs); [|intros; by eapply ret_keeps].
    intros s r s'. apply quiet_CreateTeam.
Qed.

Lemma processTeam_quiet orgName haveTeams want :
  forall parent keptTeams s r s',
    processTeam svc orgName haveTeams parent keptTeams want s = (r, s') -> obs s' = obs s.
Proof.
  induction want as [n d pr ma me rm cs IHcs] using Team_ind_forall.
  intros parent keptTeams. rewrite processTeam_unfold. apply (bind_keeps obs).
  - intros s r s'. apply reconcileTeam_quiet.
  - intros kept. cbn [tChildren]. apply (foldM_keeps obs).
    eapply Forall_impl; [exact IHcs|]. intros c Hc b. apply Hc.
Qed.

Lemma configureTeams_quiet org haveTeams s r s' :
  configureTeams svc org haveTeams s = (r, s') -> obs s' = obs s.
Proof.
  revert s r s'. unfold configureTeams. apply (bind_keeps obs).
  - unfold process. apply (foldM_keeps obs). apply Forall_forall.
    intros t _ b. apply processTeam_quiet.
  - intros keptTeams. cbv zeta. apply (bind_keeps obs); [|intros; by eapply ret_keeps].
    apply (forEach_keeps obs). apply Forall_forall. intros t _ s r s'.
    case_bool_decide; [apply quiet_DeleteTeam|apply ret_keeps].
Qed.

Lemma promoteAdmins_quiet org s r s' :
  promoteAdmins svc org s = (r, s') -> obs s' = obs s.
Proof.
  revert s r s'. unfold promoteAdmins. apply (bind_keeps obs).
  - intros s r s'. apply quiet_ListAdmins.
  - intros; by eapply ret_keeps.
Qed.

Lemma updateTeamMemberships_quiet orgName t haveEmails wantEmails role s r s' :
  updateTeamMemberships svc orgName t haveEmails wantEmails role s = (r, s') ->
  obs s' = obs s.
Proof.
  revert s r s'. unfold updateTeamMemberships. cbv zeta. apply (bind_keeps obs).
  - apply (forEach_keeps obs). apply Forall_forall. intros u _ s r s'.
    apply quiet_AddTeamMembership.
  - intros _. apply (forEach_keeps obs). apply Forall_forall. intros u _ s r s'.
    apply quiet_DeleteTeamMembership.
Qed.

Lemma configureTeamMemberships_quiet org haveTeams s r s' :
  configureTeamMemberships svc org haveTeams s = (r, s') -> obs s' = obs s.
Proof.
  revert s r s'. unfold configureTeamMemberships. cbv zeta.
  apply (forEach_keeps obs). apply Forall_forall. intros have _.
  destruct (teamsByName (oTeams org) !! gName (keptTeam have)) as [want|].
  - apply (bind_keeps obs).
    + destruct (created have); [intros s r s'; apply ret_keeps|].
      apply (bind_keeps obs); [intros s r s'; apply quiet_ListTeamMembers|].
      intros a. apply (bind_keeps obs); [intros s r s'; apply quiet_ListTeamMembers|].
      intros b s r s'. apply ret_keeps.
    + intros [haveMaintainers haveMembers]. apply (bind_keeps obs).
      * intros s r s'. apply updateTeamMemberships_quiet.
      * intros _ s r s'. apply updateTeamMemberships_quiet.
  - by intros s r s' [= _ <-].
Qed.

(** *** The admin topics *)

Lemma UpdateAdminTopics_quiet u (re : RuleEngine S) orgName s r s' :
  UpdateAdminTopics u (mkPlatform svc re) orgName s = (r, s') -> obs s' = obs s.
Proof.
  revert s r s'. unfold UpdateAdminTopics. cbn [platGitHubService].
  apply (bind_keeps obs).
  - intros s r s'. apply quiet_WalkRepos.
  - intros repos. apply (bind_keeps obs); [|intros; by eapply ret_keeps].
    apply (forEach_keeps obs). apply Forall_forall. intros x _ s r s'.
    apply quiet_UpdateRepoTopics.
Qed.

Lemma UpdateRepoAdminTopics_quiet u (re : RuleEngine S) orgName repoName s r s' :
  UpdateRepoAdminTopics u (mkPlatform svc re) orgName repoName s = (r, s') ->
  obs s' = obs s.
Proof.
  revert s r s'. unfold UpdateRepoAdminTopics. cbn [platGitHubService].
  apply (bind_keeps obs).
  - intros s r s'. apply quiet_RepoByName.
  - intros repo. destruct (rectifyRepoAdminTopics u repo) as [repo' changed].
    apply (bind_keeps obs); [|intros; by eapply ret_keeps].
    intros s r s'. destruct changed; [apply quiet_UpdateRepoTopics|apply ret_keeps].
Qed.

End Quiet.

(** The stats adapter over a quiet service is quiet. *)
Lemma NewStatsGitHubService_quiet {S T} (svc : GitHubService S) (obs : S -> T) :
  quiet svc obs -> quiet (NewStatsGitHubService svc) (fun p => obs p.1).
Proof.
  intros Hq c [s st] r [s' st'] H. cbn [fst].
  assert (forall A (m : M S A) (r : result A),
             liftS m (s, st) = (r, (s', st')) -> exists r1, m s = (r1, s')) as Hl.
  { intros A m r1. unfold liftS. destruct (m s) as [r2 s2]. intros [= _ <- _]. eauto. }
  assert (forall A (m : M S A) upd (r : result A),
             counted m upd (s, st) = (r, (s', st')) -> exists r1, m s = (r1, s')) as Hc.
  { intros A m upd r1. unfold counted.
    destruct (m s) as [[a|e] s2]; intros [= _ <- _]; eauto. }
  destruct c; cbn [perform] in H; apply replyWith_inv in H as [r0 H];
    cbn -[liftS counted] in H;
    first [apply Hl in H|apply Hc in H]; destruct H as [r1 Hr].
  - by eapply quiet_ListTeams.
  - by eapply quiet_ListTeamMembers.
  - by eapply quiet_CreateTeam.
  - by eapply quiet_UpdateTeam.
  - by eapply quiet_DeleteTeam.
  - by eapply quiet_AddTeamMembership.
  - by eapply quiet_DeleteTeamMembership.
  - by eapply quiet_AddTeamRepoPermission.
  - by eapply quiet_DeleteTeamRepoPermission.
  - by eapply quiet_WalkRepos.
  - by eapply quiet_WalkReposByTeam.
  - by eapply quiet_RepoByName.
  - by eapply quiet_UpdateRepoTopics.
  - by eapply quiet_ListAdmins.
  - by eapply quiet_UserByEmail.
  - by eapply quiet_UserByLogin.
Qed.

Lemma applyWithStats_quiet {S T} (svc : GitHubService (S * GitHubStats)) (obs : S -> T)
      (org : Org) :
  quiet svc (fun p => obs p.1) ->
  forall s r s', applyWithStats svc org s = (r, s') -> obs s'.1 = obs s.1.
Proof.
  intros Hq.
  change (forall s r s', applyWithStats svc org s = (r, s') ->
                         (fun p : S * GitHubStats => obs p.1) s'
                         = (fun p : S * GitHubStats => obs p.1) s).
  revert Hq. generalize (fun p : S * GitHubStats => obs p.1). intros obs2 Hq.
  unfold applyWithStats.
  apply (bind_keeps obs2).
  { intros s r s'. by apply quiet_ListTeams. }
  intros haveTeams. apply (bind_keeps obs2).
  { intros s r s'. by apply configureTeams_quiet. }
  intros keptTeams. apply (bind_keeps obs2).
  { intros s r s'. by apply promoteAdmins_quiet. }
  intros org'. apply (bind_keeps obs2).
  { intros s r s'. by apply configureTeamMemberships_quiet. }
  intros _. apply (bind_keeps obs2).
  { intros [s st] r s'. by intros [= _ <-]. }
  intros stats s r s'. by intros [= _ <-].
Qed.

Lemma ApplyOrg_quiet {S T} (plat : Platform S) (obs : S -> T) (org : Org) :
  quiet (platGitHubService plat) obs ->
  (forall s r s', Run (platRuleEngine plat) org s = (r, s') -> obs s' = obs s) ->
  forall s r s', ApplyOrg plat org s = (r, s') -> obs s' = obs s.
Proof.
  intros Hq Hre s r s'. unfold ApplyOrg.
  destruct (Run (platRuleEngine plat) org s) as [[[]|err] s1] eqn:E; apply Hre in E.
  - destruct (applyWithStats _ org (s1, zeroStats)) as [r2 [s2 st2]] eqn:Happly.
    intros [= _ <-]. rewrite <- E.
    apply (applyWithStats_quiet _ obs) in Happly; [done|].
    by apply NewStatsGitHubService_quiet.
  - by intros [= _ <-].
Qed.

(** *** The read-only adapter *)

Lemma NewReadOnlyGitHubService_quiet {S} (svc : GitHubService S) :
  quiet (NewReadOnlyGitHubService (recording svc)) snd.
Proof.
  intros c [s log] r [s' log'] H. cbn [snd].
  destruct c; cbn [perform] in H; apply replyWith_inv in H as [r0 H];
    cbn in H; unfold unlogged in H;
    try (by injection H as _ _ <-);
    try (match type of H with
         | context [?m s] => destruct (m s) as [? ?]; by injection H as _ _ <-
         end).
  case_bool_decide; [by injection H as _ _ <-|].
  unfold unlogged in H.
  destruct (ListTeamMembers svc orgName teamID role s) as [? ?]. by injection H as _ _ <-.
Qed.

Lemma NewReadOnlyGitHubService_forge_quiet : quiet (NewReadOnlyGitHubService forge) id.
Proof.
  intros c f r f' H. unfold id.
  destruct c; cbn [perform] in H; apply replyWith_inv in H as [r0 H]; cbn in H;
    repeat (match type of H with
            | context [if ?x then _ else _] => destruct x
            | context [match ?x with _ => _ end] => destruct x
            end);
    by injection H as _ <-.
Qed.

Lemma runCalls_quiet {S T} (svc : GitHubService S) (obs : S -> T) (cs : list Call) :
  quiet svc obs -> forall s, obs (runCalls svc cs s).2 = obs s.
Proof.
  intros Hq. induction cs as [|c cs IH]; intros s; cbn [runCalls]; [done|].
  destruct (perform svc c s) as [r s1] eqn:E.
  specialize (IH s1). destruct (runCalls svc cs s1) as [rs s2].
  cbn [snd] in *. rewrite IH. by eapply Hq.
Qed.

(** X6.  The read-only adapter.  Whatever calls a client makes through it,
    and whether or not they fail, no method of the delegate that changes
    GitHub is called: over a recording delegate the log stays as it was.
    Every changing method answers without an error and leaves the state
    alone; [CreateTeam] answers the team it was given with the phony ID. *)
Theorem readOnly_adapter_never_writes {S} (svc : GitHubService S) (cs : list Call)
        (s : S) (log : list Call) :
  (runCalls (NewReadOnlyGitHubService (recording svc)) cs (s, log)).2.2 = log
  /\ Forall (fun c => exists r, perform (NewReadOnlyGitHubService svc) c s = (Ok r, s))
            (List.filter isWrite cs)
  /\ forall orgName t,
       CreateTeam (NewReadOnlyGitHubService svc) orgName t s
       = (Ok (mkGitHubTeam phonyTeamID (ParentID t) (gName t) (gDescription t)), s).
Proof.
  split; [|split].
  - apply (runCalls_quiet _ snd cs (NewReadOnlyGitHubService_quiet svc) (s, log)).
  - apply Forall_forall. intros c [_ Hw]%list_elem_of_In%filter_In.
    destruct c; try discriminate Hw; cbn; eauto.
  - done.
Qed.

(** X7.  A dry run of [ApplyOrg] writes nothing.  On the read-only platform
    over the production platform no method that changes GitHub is called,
    whatever the org and whether the run succeeds or fails; the same holds
    over any delegate platform whose rule engine does not write.  On the
    reference forge the state after the run is the state before. *)
Theorem ApplyOrg_dry_run {S} (regexpCompile : string -> result (string -> bool))
        (svc : GitHubService S) (plat : Platform S) (org : Org) (s : S) (log : list Call)
        (f : Forge) :
  (ApplyOrg (NewReadOnlyPlatform (NewPlatform regexpCompile (recording svc))) org (s, log)).2.2
  = log
  /\ (ApplyOrg (NewReadOnlyPlatform (recordingPlatform plat)) org (s, log)).2.2 = log
  /\ (ApplyOrg (NewReadOnlyPlatform (NewPlatform regexpCompile forge)) org f).2 = f.
Proof.
  split; [|split].
  - destruct (ApplyOrg _ org (s, log)) as [r p] eqn:E.
    apply (ApplyOrg_quiet _ snd) in E; [done| |].
    + apply NewReadOnlyGitHubService_quiet.
    + intros s0 r0 s0'. cbn [NewReadOnlyPlatform NewPlatform platRuleEngine].
      apply NewRuleEngine_quiet, NewReadOnlyGitHubService_quiet.
  - destruct (ApplyOrg _ org (s, log)) as [r p] eqn:E.
    apply (ApplyOrg_quiet _ snd) in E; [done| |].
    + apply NewReadOnlyGitHubService_quiet.
    + intros [s0 log0] r0 s0'. cbn. unfold unlogged.
      destruct (Run (platRuleEngine plat) org s0) as [? ?]. by intros [= _ <-].
  - destruct (ApplyOrg _ org f) as [r p] eqn:E.
    apply (ApplyOrg_quiet _ id) in E; [done| |].
    + apply NewReadOnlyGitHubService_forge_quiet.
    + intros s0 r0 s0'. cbn [NewReadOnlyPlatform NewPlatform platRuleEngine].
      apply (NewRuleEngine_quiet _ id), NewReadOnlyGitHubService_forge_quiet.
Qed.

Lemma forEach_ret {S A} (xs : list A) (s : S) :
  forEach xs (fun _ => ret tt) s = (Ok tt, s).
Proof. induction xs as [|x xs IH]; [done|]. cbn [forEach]. by eapply bind_ok_eq. Qed.

(** X8.  A dry run of [UpdateAdminTopics] predicts the real run: when the
    real run succeeds, the dry run returns the same count; and the dry run
    itself makes no [UpdateRepoTopics] call or any other write. *)
Theorem UpdateAdminTopics_dry_run {S} (unicodeToLower : list ascii -> list ascii)
        (plat : Platform S) (orgName : string) (s s' : S) (res : UpdateAdminTopicsResult) :
  UpdateAdminTopics unicodeToLower plat orgName s = (Ok res, s') ->
  (UpdateAdminTopics unicodeToLower (NewReadOnlyPlatform plat) orgName s).1 = Ok res
  /\ (UpdateAdminTopics unicodeToLower (NewReadOnlyPlatform (recordingPlatform plat))
                        orgName (s, [])).2.2 = [].
Proof.
  intros H. split.
  - unfold UpdateAdminTopics in H |- *.
    cbn [NewReadOnlyPlatform platGitHubService NewReadOnlyGitHubService
         WalkRepos UpdateRepoTopics].
    apply bind_inv_ok in H as (repos & s1 & Hwalk & H).
    apply bind_inv_ok in H as ([] & s2 & _ & H). injection H as <- _.
    erewrite bind_ok; [|exact Hwalk]. erewrite bind_ok; [|apply forEach_ret]. done.
  - destruct (UpdateAdminTopics _ _ _ (s, [])) as [r p] eqn:E.
    destruct plat as [svc re].
    apply (UpdateAdminTopics_quiet _ snd (NewReadOnlyGitHubService_quiet svc)) in E.
    done.
Qed.

Lemma UpdateAdminTopics_dry_run_witness :
  (UpdateAdminTopics noUnicode (NewReadOnlyPlatform (forgePlatform anyRegexp)) "o"
                     topicsForge).1 = Ok (mkUpdateAdminTopicsResult 1)
  /\ (UpdateAdminTopics noUnicode
        (NewReadOnlyPlatform (recordingPlatform (forgePlatform anyRegexp)))
        "o" (topicsForge, [])).2.2 = [].
Proof.
  eapply (UpdateAdminTopics_dry_run noUnicode (forgePlatform anyRegexp) "o" topicsForge).
  vm_compute. reflexivity.
Defined.

(** ** What the rules accept *)

Lemma teamNamesUnique_fold_dups (teams : list Team) :
  forall (unique : gset string) (violations : list string),
  exists dups,
    fold_left teamNamesUnique_team teams (unique, violations)
    = (unique ∪ list_to_set (map tName (flattenTeams teams)), violations ++ dups)
    /\ (forall d, d ∈ dups -> d ∈ map tName (flattenTeams teams))
    /\ (NoDup (map tName (flattenTeams teams))
        /\ (forall n, n ∈ map tName (flattenTeams teams) -> n ∉ unique) -> dups = []).
Proof.
  induction teams as [|t rest IHc IHr] using forest_ind; intros unique violations.
  { exists []. cbn. rewrite app_nil_r. split; [f_equal; set_solver|].
    split; [|done]. intros d Hd. by apply elem_of_nil in Hd. }
  cbn [fold_left]. rewrite teamNamesUnique_team_unfold. cbn [fst snd].
  rewrite flattenTeams_cons, flattenTeam_unfold. cbn [map app]. rewrite map_app.
  case_bool_decide as Hin.
  - destruct (IHc unique (violations ++ [tName t])) as (d1 & -> & Hs1 & _).
    destruct (IHr (unique ∪ list_to_set (map tName (flattenTeams (tChildren t))))
                  ((violations ++ [tName t]) ++ d1)) as (d2 & -> & Hs2 & _).
    exists ((tName t :: d1) ++ d2). split; [|split].
    + f_equal; [|by rewrite <- !app_assoc].
      rewrite list_to_set_cons, list_to_set_app_L. set_solver.
    + intros d Hd. rewrite elem_of_app, elem_of_cons in Hd.
      rewrite elem_of_cons, elem_of_app. naive_solver.
    + intros [_ Hf]. exfalso. apply (Hf (tName t)); [left|done].
  - destruct (IHc ({[tName t]} ∪ unique) violations) as (d1 & -> & Hs1 & H1).
    destruct (IHr (({[tName t]} ∪ unique)
                     ∪ list_to_set (map tName (flattenTeams (tChildren t))))
                  (violations ++ d1)) as (d2 & -> & Hs2 & H2).
    exists (d1 ++ d2). split; [|split].
    + f_equal; [|by rewrite <- !app_assoc].
      rewrite list_to_set_cons, list_to_set_app_L. set_solver.
    + intros d Hd. rewrite elem_of_app in Hd.
      rewrite elem_of_cons, elem_of_app. naive_solver.
    + intros [Hnd Hf]. apply NoDup_cons in Hnd as [Hnt Hnd].
      apply NoDup_app in Hnd as (Hnd1 & Hdisj & Hnd2).
      rewrite H1, H2; [done| |].
      * split; [done|]. intros n Hn Hu. rewrite !elem_of_union in Hu.
        destruct Hu as [[Hu|Hu]|Hu].
        -- apply elem_of_singleton in Hu as ->. apply Hnt. apply elem_of_app. by right.
        -- apply (Hf n); [|done]. right. apply elem_of_app. by right.
        -- apply elem_of_list_to_set in Hu. by apply (Hdisj n).
      * split; [done|]. intros n Hn Hu. rewrite elem_of_union in Hu.
        destruct Hu as [Hu|Hu].
        -- apply elem_of_singleton in Hu as ->. apply Hnt. apply elem_of_app. by left.
        -- apply (Hf n); [|done]. right. apply elem_of_app. by left.
Qed.

(** X9.  [teamNamesUniqueRule] accepts an org exactly when no two teams of
    the whole forest, at whatever depth, have the same name.  Otherwise it
    returns a [TeamNamesUniqueError] whose violations are names of the org;
    the state is never changed. *)
Theorem teamNamesUniqueRule_spec {S} (org : Org) (s : S) :
  exists violations,
    teamNamesUniqueRule org s
    = (if bool_decide (violations = []) then Ok tt
       else Err (ErrRule (TeamNamesUniqueError violations)), s)
    /\ (violations = [] <-> NoDup (desiredNames org))
    /\ forall n, n ∈ violations -> n ∈ desiredNames org.
Proof.
  unfold teamNamesUniqueRule, desiredNames.
  destruct (teamNamesUnique_fold (oTeams org) ∅ []) as (dups & Hfold & Hnd).
  destruct (teamNamesUnique_fold_dups (oTeams org) ∅ []) as (dups' & Hfold' & Hsub & Hnil).
  rewrite Hfold in Hfold'. cbn [app] in Hfold'. injection Hfold' as <-.
  exists dups. rewrite Hfold. cbn [app]. split; [|split; [split|done]].
  - destruct dups; [done|]. rewrite bool_decide_eq_true_2 by (cbn; lia).
    by rewrite bool_decide_eq_false_2.
  - intros Hd. by apply Hnd.
  - intros H. apply Hnil. split; [done|]. intros n _. apply not_elem_of_empty.
Qed.

(** X10.  [usersUniqueWithinTeamRule] accepts an org exactly when in every
    team no email occurs twice in the maintainers followed by the members
    (so an email listed as maintainer and as member of one team is a
    violation).  Otherwise it returns a [UsersUniqueWithinTeamError]. *)
Theorem usersUniqueWithinTeamRule_spec {S} (org : Org) (s : S) :
  (usersUniqueWithinTeamRule org s = (Ok tt, s)
   <-> forall t, t ∈ flattenTeams (oTeams org) -> NoDup (tMaintainers t ++ tMembers t))
  /\ (usersUniqueWithinTeamRule org s = (Ok tt, s)
      \/ exists violations,
           usersUniqueWithinTeamRule org s
           = (Err (ErrRule (UsersUniqueWithinTeamError violations)), s)).
Proof.
  unfold usersUniqueWithinTeamRule. cbv zeta.
  pose proof (usersUnique_empty (oTeams org) ∅) as Hiff.
  case_bool_decide as Hsize.
  - split; [|right; eauto]. split; [done|]. intros H. exfalso.
    assert (fold_left usersUnique_team (oTeams org) ∅ = ∅) as Hv by (by apply Hiff).
    rewrite Hv, map_size_empty in Hsize. lia.
  - split; [|by left]. split; [|done]. intros _.
    apply Hiff. apply map_size_empty_iff. lia.
Qed.

Lemma teamNameLength_fold maxLength (teams : list Team) :
  forall violations,
    fold_left (teamNameLength_team maxLength) teams violations
    = violations
      ++ List.filter (fun n => bool_decide (maxLength < Z.of_nat (String.length n)))
                     (map tName (flattenTeams teams)).
Proof.
  induction teams as [|t rest IHc IHr] using forest_ind; intros violations.
  - cbn. by rewrite app_nil_r.
  - cbn [fold_left]. rewrite IHr, teamNameLength_team_unfold, IHc.
    rewrite flattenTeams_cons, flattenTeam_unfold. cbn [map app List.filter].
    rewrite map_app, List.filter_app.
    case_bool_decide; by rewrite <- ?app_assoc.
Qed.

(** X11.  [teamNameLengthRule] collects, in depth-first order, the names of
    more than [maxLength] bytes; it accepts when there is none and
    otherwise returns a [TeamNameLengthError] listing exactly those names. *)
Theorem teamNameLengthRule_spec {S} (maxLength : Z) (org : Org) (s : S) :
  let violations :=
    List.filter (fun n => bool_decide (maxLength < Z.of_nat (String.length n)))
                (desiredNames org) in
  teamNameLengthRule maxLength org s
  = (if bool_decide (violations = []) then Ok tt
     else Err (ErrRule (TeamNameLengthError violations maxLength)), s).
Proof.
  unfold teamNameLengthRule, desiredNames. cbv zeta.
  rewrite teamNameLength_fold. cbn [app].
  destruct (List.filter _ _) as [|v vs]; [done|].
  rewrite bool_decide_eq_true_2 by (cbn; lia). by rewrite bool_decide_eq_false_2.
Qed.

Section CrossOrgAllowed.
Variable regexpCompile : string -> result (string -> bool).

Lemma crossOrg_run_Allowed (teams : list Team) :
  forall stack violations,
    crossOrg_run regexpCompile stack teams violations = Ok ∅
    <-> violations = ∅ /\ Forall (Allowed regexpCompile stack) teams.
Proof.
  induction teams as [|t rest IHc IHr] using forest_ind; intros stack violations.
  - cbn. split; [by intros [= ->]|by intros [-> _]].
  - cbn [crossOrg_run]. rewrite crossOrg_team_unfold. cbv zeta.
    fold (effectiveRestrictMembers stack t).
    set (stack' := stack ++ [effectiveRestrictMembers stack t]).
    split.
    + destruct (checkEmails _ (tName t) _ stack' violations) as [v1|] eqn:He; [|done].
      destruct (crossOrg_run _ stack' (tChildren t) v1) as [v2|] eqn:Hc; [|done].
      intros Hr. apply IHr in Hr as [-> Hr]. apply IHc in Hc as [-> Hc].
      apply checkEmails_empty in He as [-> He]. split; [done|].
      constructor; [|done]. by constructor.
    + intros [-> Hall]. apply Forall_cons in Hall as [Ht Hr].
      inversion Ht as [? ? He Hc]; subst.
      rewrite (proj2 (checkEmails_empty regexpCompile (tName t) _ stack' ∅)) by done.
      rewrite (proj2 (IHc stack' ∅)) by done. by apply IHr.
Qed.


(** X13.  A top-level team that lists no [restrictMembers] cannot have
    anyone in it: if such a team has a maintainer or a member,
    [crossOrgMembershipsRule] does not accept the org, whatever the
    patterns of the other teams are. *)
Theorem crossOrgMembershipsRule_top_level {S} (org : Org) (s : S) (t : Team)
        (email : string) :
  t ∈ oTeams org ->
  tRestrictMembers t = [] ->
  email ∈ tMaintainers t ++ tMembers t ->
  (crossOrgMembershipsRule regexpCompile org s).1 <> Ok tt.
Proof.
  intros Ht Hrm He Hok. unfold crossOrgMembershipsRule in Hok.
  pose proof (crossOrg_run_Allowed (oTeams org) [] ∅) as Hiff.
  destruct (crossOrg_run regexpCompile [] (oTeams org) ∅) as [v|err]; [|done].
  case_bool_decide as Hsize; [done|].
  assert (v = ∅) as -> by (apply map_size_empty_iff; lia).
  destruct Hiff as [[_ Hall] _]; [done|].
  rewrite Forall_forall in Hall. specialize (Hall t Ht).
  inversion Hall as [? ? Hem _]; subst.
  specialize (Hem email (effectiveRestrictMembers [] t) He).
  unfold effectiveRestrictMembers in Hem. cbn in Hem. rewrite Hrm in Hem.
  cbn in Hem. discriminate Hem. set_solver.
Qed.
End CrossOrgAllowed.

Lemma crossOrgMembershipsRule_top_level_witness :
  (crossOrgMembershipsRule anyRegexp testOrg emptyForge).1 <> Ok tt.
Proof.
  apply (crossOrgMembershipsRule_top_level anyRegexp testOrg emptyForge
           (mkTeam "parent" "Parent team" []
              ["david@seek.com.au"] ["alice@seek.com.au"; "bob@seek.com.au"] []
              [mkTeam "child1" "Child team 1" []
                 ["gavin@seekasia.com"] ["lester@seekasia.com"; "bob@seek.com.au"] [] [];
               mkTeam "child2" "Child team 2" []
                 ["alice@seek.com.au"] ["david@seek.com.au"] [] []])
           "david@seek.com.au").
  - simpl. left.
  - reflexivity.
  - simpl. left.
Defined.

(** ** The order of the writes *)

Lemma ret_extendsBy {R A} (lg : R -> list Call) (P : Call -> Prop) (a : A) :
  extendsBy lg P (ret a).
Proof. intros r res r' [= _ <-]. exists []. by rewrite app_nil_r. Qed.

Lemma fail_extendsBy {R A} (lg : R -> list Call) (P : Call -> Prop) (e : error) :
  extendsBy lg P (@fail R A e).
Proof. intros r res r' [= _ <-]. exists []. by rewrite app_nil_r. Qed.

Lemma bind_extendsBy {R A B} (lg : R -> list Call) (P : Call -> Prop)
      (m : M R A) (k : A -> M R B) :
  extendsBy lg P m -> (forall a, extendsBy lg P (k a)) -> extendsBy lg P (m ≫= k).
Proof.
  intros Hm Hk r res r'. unfold mbind, M_bind, bind.
  destruct (m r) as [[a|e] r1] eqn:E; apply Hm in E as (c1 & Hl1 & Hp1).
  - intros H. apply Hk in H as (c2 & Hl2 & Hp2). exists (c1 ++ c2).
    split; [by rewrite Hl2, Hl1, app_assoc|]. by apply Forall_app.
  - intros [= _ <-]. by exists c1.
Qed.

Lemma bind_phases {R A B} (lg : R -> list Call) (P Q : Call -> Prop)
      (m : M R A) (k : A -> M R B) :
  extendsBy lg P m -> (forall a, extendsBy lg Q (k a)) ->
  forall r res r', (m ≫= k) r = (res, r') ->
    exists l1 l2, lg r' = lg r ++ l1 ++ l2 /\ Forall P l1 /\ Forall Q l2
                  /\ (forall e r1, m r = (Err e, r1) -> res = Err e /\ l2 = []).
Proof.
  intros Hm Hk r res r'. unfold mbind, M_bind, bind.
  destruct (m r) as [[a|e] r1] eqn:E; apply Hm in E as (c1 & Hl1 & Hp1).
  - intros H. apply Hk in H as (c2 & Hl2 & Hp2). exists c1, c2.
    split; [by rewrite Hl2, Hl1, app_assoc|]. done.
  - intros [= <- <-]. exists c1, []. rewrite app_nil_r.
    split; [done|]. split; [done|]. split; [done|]. by intros ? ? [= <- _].
Qed.

Lemma foldM_extendsBy {R A B} (lg : R -> list Call) (P : Call -> Prop)
      (f : B -> A -> M R B) (xs : list A) :
  Forall (fun x => forall b, extendsBy lg P (f b x)) xs ->
  forall b, extendsBy lg P (foldM f xs b).
Proof.
  induction 1 as [|x xs Hx _ IH]; intros b; cbn [foldM].
  - apply ret_extendsBy.
  - apply bind_extendsBy; [apply Hx | apply IH].
Qed.

Lemma forEach_extendsBy {R A} (lg : R -> list Call) (P : Call -> Prop)
      (body : A -> M R unit) (xs : list A) :
  Forall (fun x => extendsBy lg P (body x)) xs -> extendsBy lg P (forEach xs body).
Proof.
  induction 1 as [|x xs Hx _ IH]; cbn [forEach].
  - apply ret_extendsBy.
  - apply bind_extendsBy; [apply Hx | intros _; apply IH].
Qed.

Lemma extendsBy_impl {R A} (lg : R -> list Call) (P Q : Call -> Prop) (m : M R A) :
  (forall c, P c -> Q c) -> extendsBy lg P m -> extendsBy lg Q m.
Proof.
  intros Himpl Hm r res r' H. apply Hm in H as (calls & Hl & Hp).
  exists calls. split; [done|]. by eapply Forall_impl.
Qed.

Section LogShape.
Context {R : Type} (rsvc : GitHubService R) (lg : R -> list Call).
Hypothesis Hrec : records rsvc lg.

Local Ltac by_record c :=
  let H := fresh in
  intros ? ? ? H; eapply replyWith_state in H as [? H];
  apply (Hrec c) in H; cbn [isWrite] in H.

Lemma reads_extendsBy (P : Call -> Prop) :
  (forall org, extendsBy lg P (ListTeams rsvc org))
  /\ (forall org id role, extendsBy lg P (ListTeamMembers rsvc org id role))
  /\ (forall org, extendsBy lg P (ListAdmins rsvc org)).
Proof.
  split; [|split].
  - intros org. by_record (CListTeams org). by exists [].
  - intros org id role. by_record (CListTeamMembers org id role). by exists [].
  - intros org. by_record (CListAdmins org). by exists [].
Qed.

Lemma CreateTeam_extendsBy org t : extendsBy lg isTeamWrite (CreateTeam rsvc org t).
Proof. by_record (CCreateTeam org t). eexists. split; [done|]. by repeat constructor. Qed.

Lemma UpdateTeam_extendsBy t : extendsBy lg isTeamWrite (UpdateTeam rsvc t).
Proof. by_record (CUpdateTeam t). eexists. split; [done|]. by repeat constructor. Qed.

Lemma DeleteTeam_extendsBy id : extendsBy lg isDeleteTeam (DeleteTeam rsvc id).
Proof. by_record (CDeleteTeam id). eexists. split; [done|]. by repeat constructor. Qed.

Lemma AddTeamMembership_extendsBy org id email role :
  extendsBy lg (fun c => isMembershipCall c) (AddTeamMembership rsvc org id email role).
Proof.
  by_record (CAddTeamMembership org id email role). eexists. split; [done|].
  by repeat constructor.
Qed.

Lemma DeleteTeamMembership_extendsBy org id email role :
  extendsBy lg (fun c => isMembershipCall c) (DeleteTeamMembership rsvc org id email role).
Proof.
  by_record (CDeleteTeamMembership org id email role). eexists. split; [done|].
  by repeat constructor.
Qed.

Lemma reconcileTeam_extendsBy orgName haveTeams parent want :
  extendsBy lg isTeamWrite (reconcileTeam rsvc orgName haveTeams parent want).
Proof.
  unfold reconcileTeam. destruct (findGitHubTeamFromDesired haveTeams want) as [have|].
  - apply bind_extendsBy; [|intros; apply ret_extendsBy].
    unfold updateTeam. cbv zeta.
    destruct (_ || _); [apply UpdateTeam_extendsBy|apply ret_extendsBy].
  - apply bind_extendsBy; [|intros; apply ret_extendsBy]. apply CreateTeam_extendsBy.
Qed.

Lemma processTeam_extendsBy orgName haveTeams want :
  forall parent keptTeams,
    extendsBy lg isTeamWrite (processTeam rsvc orgName haveTeams parent keptTeams want).
Proof.
  induction want as [n d pr ma me rm cs IHcs] using Team_ind_forall.
  intros parent keptTeams. rewrite processTeam_unfold. apply bind_extendsBy.
  - apply reconcileTeam_extendsBy.
  - intros kept. cbn [tChildren]. apply foldM_extendsBy.
    eapply Forall_impl; [exact IHcs|]. intros c Hc b. apply Hc.
Qed.

Lemma process_extendsBy orgName haveTeams parent wantTeams keptTeams :
  extendsBy lg isTeamWrite (process rsvc orgName haveTeams parent wantTeams keptTeams).
Proof.
  unfold process. apply foldM_extendsBy. apply Forall_forall.
  intros t _ b. apply processTeam_extendsBy.
Qed.

Lemma deletes_extendsBy (keptIDs : gset Z) (teams : list GitHubTeam) :
  extendsBy lg isDeleteTeam
    (forEach teams (fun t =>
       if bool_decide (ID t ∉ keptIDs) then DeleteTeam rsvc (ID t) else ret tt)).
Proof.
  apply forEach_extendsBy, Forall_forall. intros t _.
  case_bool_decide; [apply DeleteTeam_extendsBy|apply ret_extendsBy].
Qed.

Lemma deletes_exact (keptIDs : gset Z) (teams : list GitHubTeam) :
  forall r r',
    forEach teams (fun t =>
      if bool_decide (ID t ∉ keptIDs) then DeleteTeam rsvc (ID t) else ret tt) r
    = (Ok tt, r') ->
    lg r' = lg r ++ map (fun t => CDeleteTeam (ID t))
                        (List.filter (fun t => bool_decide (ID t ∉ keptIDs)) teams).
Proof.
  induction teams as [|t teams IH]; intros r r' H.
  - injection H as <-. cbn. by rewrite app_nil_r.
  - cbn [forEach] in H. apply bind_inv_ok in H as (u & r1 & Hd & Hrest).
    apply IH in Hrest as ->. cbn [List.filter]. case_bool_decide as Hk.
    + eapply replyWith_state in Hd as [? Hd]. apply (Hrec (CDeleteTeam (ID t))) in Hd as ->.
      cbn. by rewrite <- app_assoc.
    + by injection Hd as _ <-.
Qed.

Lemma updateTeamMemberships_extendsBy orgName t haveEmails wantEmails role :
  extendsBy lg (fun c => isMembershipCall c)
            (updateTeamMemberships rsvc orgName t haveEmails wantEmails role).
Proof.
  unfold updateTeamMemberships. cbv zeta. apply bind_extendsBy.
  - apply forEach_extendsBy, Forall_forall. intros u _. apply AddTeamMembership_extendsBy.
  - intros _. apply forEach_extendsBy, Forall_forall. intros u _.
    apply DeleteTeamMembership_extendsBy.
Qed.

Lemma configureTeamMemberships_extendsBy org haveTeams :
  extendsBy lg (fun c => isMembershipCall c) (configureTeamMemberships rsvc org haveTeams).
Proof.
  unfold configureTeamMemberships. cbv zeta.
  apply forEach_extendsBy, Forall_forall. intros have _.
  destruct (teamsByName (oTeams org) !! gName (keptTeam have)) as [want|];
    [|apply fail_extendsBy].
  apply bind_extendsBy.
  - destruct (created have); [apply ret_extendsBy|].
    apply bind_extendsBy; [apply reads_extendsBy|]. intros a.
    apply bind_extendsBy; [apply reads_extendsBy|]. intros b. apply ret_extendsBy.
  - intros [haveMaintainers haveMembers]. apply bind_extendsBy.
    + apply updateTeamMemberships_extendsBy.
    + intros _. apply updateTeamMemberships_extendsBy.
Qed.

Lemma forEach_exact {A} (call : A -> Call) (body : A -> M R unit) (xs : list A) :
  (forall x r res r', body x r = (res, r') -> lg r' = lg r ++ [call x]) ->
  forall r r', forEach xs body r = (Ok tt, r') -> lg r' = lg r ++ map call xs.
Proof.
  intros Hb. induction xs as [|x xs IH]; intros r r' H.
  - injection H as <-. cbn. by rewrite app_nil_r.
  - cbn [forEach] in H. apply bind_inv_ok in H as (u & r1 & Hd & Hrest).
    apply IH in Hrest as ->. apply Hb in Hd as ->. cbn. by rewrite <- app_assoc.
Qed.

Lemma updateTeamMemberships_exact orgName t haveEmails wantEmails role r r' :
  updateTeamMemberships rsvc orgName t haveEmails wantEmails role r = (Ok tt, r') ->
  lg r' = lg r
          ++ map (fun u => CAddTeamMembership orgName (ID t) u role)
                 (elements (newStringSet wantEmails ∖ newStringSet haveEmails))
          ++ map (fun u => CDeleteTeamMembership orgName (ID t) u role)
                 (elements (newStringSet haveEmails ∖ newStringSet wantEmails)).
Proof.
  unfold updateTeamMemberships. cbv zeta. intros H.
  apply bind_inv_ok in H as ([] & r1 & Ha & Hd).
  apply (forEach_exact (fun u => CAddTeamMembership orgName (ID t) u role)) in Ha.
  - apply (forEach_exact (fun u => CDeleteTeamMembership orgName (ID t) u role)) in Hd.
    + by rewrite Hd, Ha, <- app_assoc.
    + intros x r0 res r0' Hx. eapply replyWith_state in Hx as [? Hx].
      by apply (Hrec (CDeleteTeamMembership orgName (ID t) x role)) in Hx.
  - intros x r0 res r0' Hx. eapply replyWith_state in Hx as [? Hx].
    by apply (Hrec (CAddTeamMembership orgName (ID t) x role)) in Hx.
Qed.

Lemma configureTeams_log org haveTeams r res r' :
  configureTeams rsvc org haveTeams r = (res, r') ->
  exists writes dels,
    lg r' = lg r ++ writes ++ dels
    /\ Forall isTeamWrite writes /\ Forall isDeleteTeam dels
    /\ (forall keptTeams,
          res = Ok keptTeams ->
          dels = map (fun t => CDeleteTeam (ID t))
                     (List.filter (fun t => bool_decide (ID t ∉ keptIDsOf keptTeams))
                                  haveTeams))
    /\ (forall e r1,
          process rsvc (oName org) haveTeams None (oTeams org) [] r = (Err e, r1) ->
          res = Err e /\ dels = []).
Proof.
  unfold configureTeams. intros H.
  destruct (process rsvc (oName org) haveTeams None (oTeams org) [] r)
    as [[keptTeams|e] r1] eqn:Hp.
  - erewrite bind_ok in H by exact Hp. cbv zeta in H.
    apply process_extendsBy in Hp as (writes & Hl1 & Hw).
    fold (keptIDsOf keptTeams) in H.
    destruct (forEach haveTeams
                (fun t => if bool_decide (ID t ∉ keptIDsOf keptTeams)
                          then DeleteTeam rsvc (ID t) else ret tt) r1)
      as [[[]|e] r2] eqn:Hd.
    + erewrite bind_ok in H by exact Hd. injection H as <- <-.
      pose proof Hd as Hd'. apply deletes_extendsBy in Hd as (dels & Hl2 & Hdel).
      apply deletes_exact in Hd'. rewrite Hl2 in Hd'. apply app_inv_head in Hd'.
      exists writes, dels. rewrite Hl2, Hl1, <- app_assoc.
      split; [done|]. split; [done|]. split; [done|]. split; [|done].
      by intros k [= <-].
    + erewrite bind_err in H by exact Hd. injection H as <- <-.
      apply deletes_extendsBy in Hd as (dels & Hl2 & Hdel).
      exists writes, dels. rewrite Hl2, Hl1, <- app_assoc.
      split; [done|]. split; [done|]. split; [done|]. split; done.
  - erewrite bind_err in H by exact Hp. injection H as <- <-.
    apply process_extendsBy in Hp as (writes & Hl1 & Hw).
    exists writes, []. rewrite app_nil_r.
    split; [done|]. split; [done|]. split; [done|]. split; [done|].
    by intros ? ? [= <- _].
Qed.

End LogShape.

Lemma recording_records {S} (svc : GitHubService S) : records (recording svc) snd.
Proof.
  intros c [s log] res [s' log'] H. cbn [snd].
  destruct c; cbn [perform] in H; apply replyWith_inv in H as [r0 H];
    cbn in H; unfold logged, unlogged in H;
    match type of H with
    | context [?m s] => destruct (m s) as [? ?]; injection H as _ _ <-
    end; cbn [isWrite]; by rewrite ?app_nil_r.
Qed.

Lemma NewStatsGitHubService_records {R} (rsvc : GitHubService R) (lg : R -> list Call) :
  records rsvc lg -> records (NewStatsGitHubService rsvc) (fun p => lg p.1).
Proof.
  intros Hrec c [s st] r [s' st'] H. cbn [fst].
  assert (forall A (m : M R A) (r : result A),
             liftS m (s, st) = (r, (s', st')) -> exists r1, m s = (r1, s')) as Hl.
  { intros A m r1. unfold liftS. destruct (m s) as [r2 s2]. intros [= _ <- _]. eauto. }
  assert (forall A (m : M R A) upd (r : result A),
             counted m upd (s, st) = (r, (s', st')) -> exists r1, m s = (r1, s')) as Hc.
  { intros A m upd r1. unfold counted.
    destruct (m s) as [[a|e] s2]; intros [= _ <- _]; eauto. }
  destruct c; cbn [perform] in H; apply replyWith_inv in H as [r0 H];
    cbn -[liftS counted] in H;
    (first [apply Hl in H|apply Hc in H]); destruct H as [r1 Hr];
    eapply replyWith_state in Hr as [? Hr].
  - exact (Hrec (CListTeams _) _ _ _ Hr).
  - exact (Hrec (CListTeamMembers _ _ _) _ _ _ Hr).
  - exact (Hrec (CCreateTeam _ _) _ _ _ Hr).
  - exact (Hrec (CUpdateTeam _) _ _ _ Hr).
  - exact (Hrec (CDeleteTeam _) _ _ _ Hr).
  - exact (Hrec (CAddTeamMembership _ _ _ _) _ _ _ Hr).
  - exact (Hrec (CDeleteTeamMembership _ _ _ _) _ _ _ Hr).
  - exact (Hrec (CAddTeamRepoPermission _ _ _ _) _ _ _ Hr).
  - exact (Hrec (CDeleteTeamRepoPermission _ _ _) _ _ _ Hr).
  - exact (Hrec (CWalkRepos _ _ _ _) _ _ _ Hr).
  - exact (Hrec (CWalkReposByTeam _ _ _ _ _) _ _ _ Hr).
  - exact (Hrec (CRepoByName _ _) _ _ _ Hr).
  - exact (Hrec (CUpdateRepoTopics _ _ _) _ _ _ Hr).
  - exact (Hrec (CListAdmins _) _ _ _ Hr).
  - exact (Hrec (CUserByEmail _ _) _ _ _ Hr).
  - exact (Hrec (CUserByLogin _ _) _ _ _ Hr).
Qed.

Lemma Forall_False_nil {A} (l : list A) : Forall (fun _ => False) l -> l = [].
Proof. destruct l as [|a l]; [done|]. by intros [[] _]%Forall_cons. Qed.

Lemma bind_cases {S A B} (m : M S A) (k : A -> M S B) s res s' :
  (m ≫= k) s = (res, s') ->
  (exists a s1, m s = (Ok a, s1) /\ k a s1 = (res, s'))
  \/ (exists e, m s = (Err e, s') /\ res = Err e).
Proof.
  unfold mbind, M_bind, bind. destruct (m s) as [[a|e] s1]; [eauto|].
  intros [= <- <-]. eauto.
Qed.

Lemma applyWithStats_phases {S} (rsvc : GitHubService (S * GitHubStats))
      (lg : S * GitHubStats -> list Call) (org : Org) r res r' :
  records rsvc lg ->
  applyWithStats rsvc org r = (res, r') ->
  exists l1 l2 l3,
    lg r' = lg r ++ l1 ++ l2 ++ l3
    /\ Forall isTeamWrite l1 /\ Forall isDeleteTeam l2
    /\ Forall (fun c => isMembershipCall c) l3.
Proof.
  intros Hrec H. unfold applyWithStats in H.
  apply bind_cases in H as [(haveTeams & r1 & E1 & H)|(e & E1 & ->)];
    apply (reads_extendsBy rsvc lg Hrec (fun _ => False)) in E1
      as (c0 & Hl0 & ->%Forall_False_nil);
    rewrite app_nil_r in Hl0.
  - apply bind_cases in H as [(kept & r2 & E2 & H)|(e & E2 & ->)];
      apply (configureTeams_log rsvc lg Hrec) in E2 as (writes & dels & Hl1 & Hw & Hd & _).
    + assert (extendsBy lg (fun c => isMembershipCall c)
                (org' ← promoteAdmins rsvc org;
                 configureTeamMemberships rsvc org' kept;;
                 stats ← Stats; ret (asApplyOrgResult stats, org'))) as Hrest.
      { apply bind_extendsBy.
        - unfold promoteAdmins. apply bind_extendsBy; [apply reads_extendsBy, Hrec|].
          intros a. apply ret_extendsBy.
        - intros org'. apply bind_extendsBy.
          + by apply configureTeamMemberships_extendsBy.
          + intros _. apply bind_extendsBy.
            * intros [s0 st0] res0 r0 [= _ <-]. exists []. by rewrite app_nil_r.
            * intros stats. apply ret_extendsBy. }
      apply Hrest in H as (l3 & Hl3 & Hm).
      exists writes, dels, l3. rewrite Hl3, Hl1, Hl0, <- !app_assoc. done.
    + exists writes, dels, []. rewrite Hl1, Hl0, app_nil_r. done.
  - exists [], [], []. by rewrite Hl0, app_nil_r.
Qed.

(** X14.  The team phase of [ApplyOrg].  Whatever [configureTeams] returns,
    it first issues only [CreateTeam] and [UpdateTeam] calls and after
    them only [DeleteTeam] calls.  When it succeeds, the deletions are
    exactly the observed teams whose ID was not kept, in the order they
    were listed; when creating or updating fails, that error is returned
    and no team is deleted. *)
Theorem configureTeams_writes {S} (svc : GitHubService S) (org : Org)
        (haveTeams : list GitHubTeam) (s : S) (log : list Call) res s' log' :
  configureTeams (recording svc) org haveTeams (s, log) = (res, (s', log')) ->
  exists writes dels,
    log' = log ++ writes ++ dels
    /\ Forall isTeamWrite writes /\ Forall isDeleteTeam dels
    /\ (forall keptTeams,
          res = Ok keptTeams ->
          dels = map (fun t => CDeleteTeam (ID t))
                     (List.filter (fun t => bool_decide (ID t ∉ keptIDsOf keptTeams))
                                  haveTeams))
    /\ (forall e r1,
          process (recording svc) (oName org) haveTeams None (oTeams org) [] (s, log)
          = (Err e, r1) ->
          res = Err e /\ dels = []).
Proof.
  intros H. exact (configureTeams_log (recording svc) snd (recording_records svc) _ _ _ _ _ H).
Qed.

(** X15.  The writes of [ApplyOrg] come in three phases, whatever it
    returns: first team creations and updates, then team deletions, then
    membership additions and deletions.  No repository is ever written. *)
Theorem ApplyOrg_phases {S} (plat : Platform S) (org : Org) (s : S) (log : list Call)
        res s' log' :
  ApplyOrg (recordingPlatform plat) org (s, log) = (res, (s', log')) ->
  exists l1 l2 l3,
    log' = log ++ l1 ++ l2 ++ l3
    /\ Forall isTeamWrite l1 /\ Forall isDeleteTeam l2
    /\ Forall (fun c => isMembershipCall c) l3.
Proof.
  unfold ApplyOrg. cbn [recordingPlatform platRuleEngine platGitHubService Run].
  unfold unlogged at 1.
  destruct (Run (platRuleEngine plat) org s) as [[[]|err] s1].
  - destruct (applyWithStats _ org (s1, log, zeroStats)) as [r2 [[s2 log2] st2]] eqn:Happly.
    intros [= <- <- <-].
    apply (applyWithStats_phases _ (fun p => p.1.2)) in Happly; [exact Happly|].
    apply (NewStatsGitHubService_records _ snd), recording_records.
  - intros [= <- <- <-]. exists [], [], []. by rewrite app_nil_r.
Qed.

(** X16.  [updateTeamMemberships], when it succeeds, first adds the wanted
    emails the team does not have and then deletes the emails it has that
    are not wanted, each exactly once, in whatever order the sets are
    walked; nothing else is written (nothing at all when the two sets are
    equal). *)
Theorem updateTeamMemberships_writes {S} (svc : GitHubService S) (orgName : string)
        (t : GitHubTeam) (haveEmails wantEmails : list string) (role : GitHubTeamRole)
        (s s' : S) (log log' : list Call) :
  updateTeamMemberships (recording svc) orgName t haveEmails wantEmails role (s, log)
  = (Ok tt, (s', log')) ->
  exists added deleted,
    log' = log
           ++ map (fun u => CAddTeamMembership orgName (ID t) u role) added
           ++ map (fun u => CDeleteTeamMembership orgName (ID t) u role) deleted
    /\ NoDup added
    /\ (forall u, u ∈ added <-> u ∈ wantEmails /\ u ∉ haveEmails)
    /\ NoDup deleted
    /\ (forall u, u ∈ deleted <-> u ∈ haveEmails /\ u ∉ wantEmails).
Proof.
  intros H.
  exists (elements (newStringSet wantEmails ∖ newStringSet haveEmails)),
         (elements (newStringSet haveEmails ∖ newStringSet wantEmails)).
  split.
  { exact (updateTeamMemberships_exact (recording svc) snd (recording_records svc)
             _ _ _ _ _ _ _ H). }
  unfold newStringSet.
  split; [apply NoDup_elements|]. split; [intros u; set_solver|].
  split; [apply NoDup_elements|]. intros u; set_solver.
Qed.

Lemma configureTeams_writes_witness :
  configureTeams (recording forge) oneOrg (fTeams oneForge) (oneForge, [])
  = (Ok [mkKept (mkGitHubTeam 2 0 "A" "d") true],
     (mkForge [mkGitHubTeam 2 0 "A" "d"] [] [] (fUsers oneForge) [] 3,
      [CCreateTeam "SEEK-Jobs" (mkGitHubTeam 0 0 "A" "d"); CDeleteTeam 1]))
  /\ exists writes dels,
       [CCreateTeam "SEEK-Jobs" (mkGitHubTeam 0 0 "A" "d"); CDeleteTeam 1]
       = [] ++ writes ++ dels
       /\ Forall isTeamWrite writes /\ Forall isDeleteTeam dels.
Proof.
  assert (configureTeams (recording forge) oneOrg (fTeams oneForge) (oneForge, [])
          = (Ok [mkKept (mkGitHubTeam 2 0 "A" "d") true],
             (mkForge [mkGitHubTeam 2 0 "A" "d"] [] [] (fUsers oneForge) [] 3,
              [CCreateTeam "SEEK-Jobs" (mkGitHubTeam 0 0 "A" "d"); CDeleteTeam 1]))) as H
    by (vm_compute; reflexivity).
  split; [exact H|].
  destruct (configureTeams_writes forge oneOrg (fTeams oneForge) oneForge [] _ _ _ H)
    as (writes & dels & Hl & Hw & Hd & _).
  exists writes, dels. split; [exact Hl|]. split; [exact Hw|exact Hd].
Defined.

Lemma ApplyOrg_phases_witness :
  exists res f' l1 l2 l3,
    ApplyOrg (recordingPlatform (forgePlatform anyRegexp)) oneOrg (oneForge, [])
    = (res, (f', [] ++ l1 ++ l2 ++ l3))
    /\ Forall isTeamWrite l1 /\ Forall isDeleteTeam l2
    /\ Forall (fun c => isMembershipCall c) l3.
Proof.
  assert (ApplyOrg (recordingPlatform (forgePlatform anyRegexp)) oneOrg (oneForge, [])
          = (Ok (mkApplyOrgResult 1 0 1 2 0, oneOrg),
             (mkForge [mkGitHubTeam 2 0 "A" "d"]
                      [(2, RoleMaintainer, "m"); (2, RoleMember, "e")] []
                      (fUsers oneForge) [] 3,
              [CCreateTeam "SEEK-Jobs" (mkGitHubTeam 0 0 "A" "d"); CDeleteTeam 1;
               CAddTeamMembership "SEEK-Jobs" 2 "m@x" RoleMaintainer;
               CAddTeamMembership "SEEK-Jobs" 2 "e@x" RoleMember]))) as H
    by (vm_compute; reflexivity).
  destruct (ApplyOrg_phases (forgePlatform anyRegexp) oneOrg oneForge [] _ _ _ H)
    as (l1 & l2 & l3 & Hl & H1 & H2 & H3).
  eexists _, _, l1, l2, l3. rewrite <- Hl. split; [exact H|]. split; [exact H1|].
  split; [exact H2|exact H3].
Defined.

Lemma updateTeamMemberships_writes_witness :
  exists added deleted,
    [CAddTeamMembership "o" 1 "z" RoleMember; CDeleteTeamMembership "o" 1 "x" RoleMember]
    = [] ++ map (fun u => CAddTeamMembership "o" (ID (mkGitHubTeam 1 0 "a" EmptyString))
                                             u RoleMember) added
         ++ map (fun u => CDeleteTeamMembership "o" (ID (mkGitHubTeam 1 0 "a" EmptyString))
                                                u RoleMember) deleted
    /\ NoDup added
    /\ (forall u, u ∈ added <-> u ∈ ["y"; "z"] /\ u ∉ ["x"; "y"])
    /\ NoDup deleted
    /\ (forall u, u ∈ deleted <-> u ∈ ["x"; "y"] /\ u ∉ ["y"; "z"]).
Proof.
  refine (updateTeamMemberships_writes forge "o" (mkGitHubTeam 1 0 "a" EmptyString)
            ["x"; "y"] ["y"; "z"] RoleMember
            (mkForge [mkGitHubTeam 1 0 "a" EmptyString]
                     [(1, RoleMember, "x"); (1, RoleMember, "y")] []
                     [mkGitHubUser "x" "x"; mkGitHubUser "y" "y"; mkGitHubUser "z" "z"] [] 2)
            (mkForge [mkGitHubTeam 1 0 "a" EmptyString]
                     [(1, RoleMember, "y"); (1, RoleMember, "z")] []
                     [mkGitHubUser "x" "x"; mkGitHubUser "y" "y"; mkGitHubUser "z" "z"] [] 2)
            [] _ _).
  vm_compute; reflexivity.
Defined.

(** ** Promotion of the org admins *)

Lemma promoteTeam_facts admins (t : Team) :
  tName (promoteTeam admins t) = tName t
  /\ tMaintainers (promoteTeam admins t) ++ tMembers (promoteTeam admins t)
     ≡ₚ tMaintainers t ++ tMembers t
  /\ tMaintainers t `prefix_of` tMaintainers (promoteTeam admins t)
  /\ Forall (fun e => isAdmin admins e = false) (tMembers (promoteTeam admins t))
  /\ (forall e, e ∈ tMaintainers (promoteTeam admins t) ->
                e ∈ tMaintainers t \/ (e ∈ tMembers t /\ isAdmin admins e = true))
  /\ tMembers (promoteTeam admins t) `sublist_of` tMembers t.
Proof.
  split; [apply promoteTeam_name|]. split; [apply promoteTeam_emails|].
  destruct t as [n d pr ma me rm cs]. cbn. split; [by eexists|]. split; [|split].
  - apply Forall_forall. intros e [He _]%list_elem_of_filter.
    by destruct (isAdmin admins e).
  - intros e [He|[Ha He]%list_elem_of_filter]%elem_of_app; [by left|right].
    split; [done|]. by destruct (isAdmin admins e).
  - apply sublist_filter.
Qed.

(** X17.  [promoteAdmins], when the admins can be listed, keeps the shape
    of the forest and the name of every team; in every team it keeps the
    emails (maintainers and members together are a permutation of what
    they were), keeps the maintainers in front, moves to the maintainers
    only members that are org admins, and leaves no org admin among the
    members.  Promoting the result again with the same admins changes
    nothing. *)
Theorem promoteAdmins_spec {S} (svc : GitHubService S) (org org' : Org) (s s' : S) :
  promoteAdmins svc org s = (Ok org', s') ->
  exists admins,
    ListAdmins svc (oName org) s = (Ok admins, s')
    /\ oName org' = oName org
    /\ Forall2 (fun t t' =>
                  tName t' = tName t
                  /\ tMaintainers t' ++ tMembers t' ≡ₚ tMaintainers t ++ tMembers t
                  /\ tMaintainers t `prefix_of` tMaintainers t'
                  /\ Forall (fun e => isAdmin admins e = false) (tMembers t')
                  /\ (forall e, e ∈ tMaintainers t' ->
                                e ∈ tMaintainers t \/ (e ∈ tMembers t /\ isAdmin admins e = true))
                  /\ tMembers t' `sublist_of` tMembers t)
               (flattenTeams (oTeams org)) (flattenTeams (oTeams org'))
    /\ forall s2 s2',
         ListAdmins svc (oName org) s2 = (Ok admins, s2') ->
         promoteAdmins svc org' s2 = (Ok org', s2').
Proof.
  unfold promoteAdmins. intros H.
  apply bind_inv_ok in H as (admins & s1 & Hadm & H). injection H as <- <-.
  exists admins. split; [done|]. split; [done|]. split.
  - cbn [oTeams]. rewrite flattenTeams_promote. apply Forall2_fmap_r, Forall_Forall2_diag.
    apply Forall_forall. intros t _. apply promoteTeam_facts.
  - intros s2 s2' H2. cbn [oName oTeams]. eapply bind_ok_eq; [exact H2|].
    unfold ret, mret, M_ret, ret. do 3 f_equal.
    rewrite map_map. apply map_ext. intros t. apply promoteTeam_idem.
Qed.

Lemma promoteAdmins_spec_witness :
  promoteAdmins forge oneOrg adminForge
  = (Ok (mkOrg "SEEK-Jobs" [mkTeam "A" "d" [] ["m@x"; "e@x"] [] [".*"] []]), adminForge)
  /\ exists admins,
       ListAdmins forge "SEEK-Jobs" adminForge = (Ok admins, adminForge)
       /\ Forall (fun e => isAdmin admins e = false) [].
Proof.
  assert (promoteAdmins forge oneOrg adminForge
          = (Ok (mkOrg "SEEK-Jobs" [mkTeam "A" "d" [] ["m@x"; "e@x"] [] [".*"] []]),
             adminForge)) as H by (vm_compute; reflexivity).
  split; [exact H|].
  destruct (promoteAdmins_spec forge oneOrg _ adminForge adminForge H)
    as (admins & Hadm & _ & Hall & _).
  exists admins. split; [exact Hadm|]. constructor.
Defined.

(** ** The event listener *)

Section Listener.
Context {Q S : Type}.
Variable unmarshalMessage : string -> result message.
Variable unmarshalTeamEvent : string -> result TeamEvent.
Variable unicodeToLower : list ascii -> list ascii.
Variable p : Platform S.
Variable walkReposByTeamWith :
  forall A : Type, string -> GitHubTeamID -> (Repo -> A -> M S A) -> A -> M S A.

Lemma queueService_receive_err (sqsClient : SQSAPI Q) q err q' :
  queueService_receive unmarshalMessage sqsClient q = (Err err, q') ->
  (exists e, ReceiveMessage sqsClient q = (Err e, q')
             /\ err = ErrWrapped e "failed to receive message from sqs")
  \/ (exists e body handle,
        ReceiveMessage sqsClient q = (Ok [(body, handle)], q')
        /\ unmarshalMessage body = Err e
        /\ err = ErrWrapped e "failed to unmarshal sqs message")
  \/ (exists messages,
        ReceiveMessage sqsClient q = (Ok messages, q')
        /\ (1 < List.length messages)%nat
        /\ err = ErrOther ("received too many messages from sqs (expected 1, received "
                           +:+ pretty (List.length messages) +:+ ")")).
Proof.
  unfold queueService_receive.
  destruct (ReceiveMessage sqsClient q) as [[messages|e] q1].
  - destruct messages as [|[body handle] [|m2 rest]].
    + done.
    + destruct (unmarshalMessage body) as [m|e] eqn:Hm; [done|].
      intros [= <- <-]. right. left. by exists e, body, handle.
    + intros [= <- <-]. right. right. eexists. split; [done|]. split; [cbn; lia|done].
  - intros [= <- <-]. left. by exists e.
Qed.

Lemma listenTurn_return (sqsClient : SQSAPI Q) st err st' :
  listenTurn unmarshalMessage unmarshalTeamEvent unicodeToLower sqsClient p
             walkReposByTeamWith st
  = (Return err, st') ->
  queueService_receive unmarshalMessage sqsClient st.1 = (Err err, st'.1) /\ st'.2 = st.2.
Proof.
  destruct st as [q s]. unfold listenTurn. cbn [fst snd].
  destruct (queueService_receive unmarshalMessage sqsClient q) as [[[[m handle]|]|e] q1].
  - destruct (unmarshalTeamEvent (Payload m)) as [event|]; [|done].
    destruct (evRepo event) as [[n fn [[]|] o]|].
    + by destruct fn.
    + by destruct (dispatch unicodeToLower p walkReposByTeamWith event).
    + done.
    + by destruct (dispatch unicodeToLower p walkReposByTeamWith event).
  - done.
  - by intros [= <- <-].
Qed.

Lemma listenLoop_stops (sqsClient : SQSAPI Q) (turns : nat) (st st' : Q * S) (err : error) :
  listenLoop unmarshalMessage unmarshalTeamEvent unicodeToLower sqsClient p
             walkReposByTeamWith turns st
  = (Some (Return err), st') ->
  exists k st1,
    (k < turns)%nat
    /\ listenLoop unmarshalMessage unmarshalTeamEvent unicodeToLower sqsClient p
                  walkReposByTeamWith k st = (None, st1)
    /\ st'.2 = st1.2
    /\ queueService_receive unmarshalMessage sqsClient st1.1 = (Err err, st'.1).
Proof.
  revert st. induction turns as [|turns IH]; intros st; cbn [listenLoop]; [done|].
  destruct (listenTurn _ _ _ _ _ _ st) as [[|e|] st1] eqn:Hturn.
  - intros H. apply IH in H as (k & st2 & Hk & Hrun & Hs & Hr).
    exists (Datatypes.S k), st2. split; [lia|]. cbn [listenLoop]. by rewrite Hturn.
  - intros [= <- <-]. apply listenTurn_return in Hturn as [Hr Hs].
    exists 0%nat, st. split; [lia|]. done.
  - done.
Qed.

(** X18.  The listener returns only when the queue service cannot be made
    or receiving fails.  If [ListenForEvents] returns an error, then either
    [newQueueService] failed with that error and nothing was done, or the
    loop ran some turns without returning and the error is the one of the
    [receive] that followed: a failed [ReceiveMessage], a message body that
    is not a [message], or more than one message; the forge is as those
    turns left it.  No error of a handler or of a deletion ends the loop. *)
Theorem ListenForEvents_stops (newQueueService : result (SQSAPI Q)) (turns : nat)
        (st st' : Q * S) (err : error) :
  ListenForEvents unmarshalMessage unmarshalTeamEvent unicodeToLower newQueueService p
                  walkReposByTeamWith turns st
  = (Some (Return err), st') ->
  (newQueueService = Err err /\ st' = st)
  \/ exists client k st1,
       newQueueService = Ok client
       /\ (k < turns)%nat
       /\ ListenForEvents unmarshalMessage unmarshalTeamEvent unicodeToLower (Ok client) p
                          walkReposByTeamWith k st = (None, st1)
       /\ st'.2 = st1.2
       /\ queueService_receive unmarshalMessage client st1.1 = (Err err, st'.1)
       /\ ((exists e, ReceiveMessage client st1.1 = (Err e, st'.1)
                      /\ err = ErrWrapped e "failed to receive message from sqs")
           \/ (exists e body handle,
                 ReceiveMessage client st1.1 = (Ok [(body, handle)], st'.1)
                 /\ unmarshalMessage body = Err e
                 /\ err = ErrWrapped e "failed to unmarshal sqs message")
           \/ (exists messages,
                 ReceiveMessage client st1.1 = (Ok messages, st'.1)
                 /\ (1 < List.length messages)%nat
                 /\ err = ErrOther ("received too many messages from sqs (expected 1, received "
                                    +:+ pretty (List.length messages) +:+ ")"))).
Proof.
  unfold ListenForEvents. destruct newQueueService as [client|e].
  - intros H. right.
    apply (listenLoop_stops client) in H as (k & st1 & Hk & Hrun & Hs & Hr).
    exists client, k, st1. repeat (split; [done|]).
    by apply (queueService_receive_err client).
  - intros [= <- <-]. by left.
Qed.

Lemma listenTurn_calls (sqsClient : SQSAPI Q) q log s t q' log' s' :
  listenTurn unmarshalMessage unmarshalTeamEvent unicodeToLower (recordingSQS sqsClient) p
             walkReposByTeamWith ((q, log), s) = (t, ((q', log'), s')) ->
  log' = log ++ [CReceiveMessage]
  \/ exists handle, handle <> EmptyString
                    /\ log' = log ++ [CReceiveMessage; CDeleteMessage handle].
Proof.
  assert (forall handle q1 l1,
             (queueService_delete (recordingSQS sqsClient) handle (q1, l1)).2.2 = l1
             \/ (handle <> EmptyString
                 /\ (queueService_delete (recordingSQS sqsClient) handle (q1, l1)).2.2
                    = l1 ++ [CDeleteMessage handle])) as Hdel.
  { intros handle q1 l1. unfold queueService_delete. case_bool_decide as Hh; [by left|].
    right. split; [done|]. cbn.
    by destruct (DeleteMessage sqsClient handle q1) as [[?|?] ?]. }
  unfold listenTurn.
  assert (forall r q1 l1,
             queueService_receive unmarshalMessage (recordingSQS sqsClient) (q, log)
             = (r, (q1, l1)) -> l1 = log ++ [CReceiveMessage]) as Hrecv.
  { intros r q1 l1. unfold queueService_receive. cbn.
    destruct (ReceiveMessage sqsClient q) as [[messages|e] q2].
    - destruct messages as [|[body handle] [|m2 rest]].
      + by intros [= _ _ <-].
      + destruct (unmarshalMessage body); by intros [= _ _ <-].
      + by intros [= _ _ <-].
    - by intros [= _ _ <-]. }
  destruct (queueService_receive unmarshalMessage (recordingSQS sqsClient) (q, log))
    as [r [q1 l1]].
  rewrite (Hrecv _ _ _ eq_refl). clear Hrecv.
  assert (forall handle (sx : S),
             (t, (q', log', s'))
             = (Continue, ((queueService_delete (recordingSQS sqsClient) handle
                              (q1, log ++ [CReceiveMessage])).2, sx)) ->
             log' = log ++ [CReceiveMessage]
             \/ exists handle, handle <> EmptyString
                               /\ log' = log ++ [CReceiveMessage; CDeleteMessage handle])
    as Hcont.
  { intros handle sx Heq.
    destruct (Hdel handle q1 (log ++ [CReceiveMessage])) as [Hd|[Hh Hd]];
      destruct (queueService_delete _ handle _) as [rd [qd ld]];
      cbn [snd] in Hd, Heq; injection Heq as _ _ -> _; subst ld.
    - by left.
    - right. exists handle. split; [done|]. by rewrite <- app_assoc. }
  destruct r as [[[m handle]|]|e].
  - destruct (unmarshalTeamEvent (Payload m)) as [event|]; [|intros [= _ _ <- _]; by left].
    destruct (evRepo event) as [[n fn [[]|] o]|].
    + destruct fn; [|intros [= _ _ <- _]; by left]. intros H. symmetry in H.
      by eapply Hcont.
    + destruct (dispatch unicodeToLower p walkReposByTeamWith event); [|intros [= _ _ <- _]; by left].
      intros H. symmetry in H. by eapply Hcont.
    + intros [= _ _ <- _]; by left.
    + destruct (dispatch unicodeToLower p walkReposByTeamWith event); [|intros [= _ _ <- _]; by left].
      intros H. symmetry in H. by eapply Hcont.
  - intros [= _ _ <- _]. by left.
  - intros [= _ _ <- _]. by left.
Qed.

(** X19.  The calls the listener makes on the queue: every turn of its loop
    makes one [ReceiveMessage] call and after it at most one
    [DeleteMessage] call, never with an empty receipt handle; nothing else
    is called, however the turns end. *)
Theorem ListenForEvents_calls (sqsClient : SQSAPI Q) (turns : nat) q log s r q' log' s' :
  ListenForEvents unmarshalMessage unmarshalTeamEvent unicodeToLower
                  (Ok (recordingSQS sqsClient)) p walkReposByTeamWith turns ((q, log), s)
  = (r, ((q', log'), s')) ->
  exists perTurn,
    log' = log ++ List.concat perTurn
    /\ (List.length perTurn <= turns)%nat
    /\ Forall (fun calls =>
                 calls = [CReceiveMessage]
                 \/ exists handle, handle <> EmptyString
                                   /\ calls = [CReceiveMessage; CDeleteMessage handle])
              perTurn.
Proof.
  unfold ListenForEvents.
  revert q log s. induction turns as [|turns IH]; intros q log s; cbn [listenLoop].
  - intros [= _ _ <- _]. exists []. cbn. by rewrite app_nil_r.
  - destruct (listenTurn _ _ _ _ _ _ (q, log, s)) as [t [[q1 log1] s1]] eqn:Hturn.
    pose proof (listenTurn_calls _ _ _ _ _ _ _ _ Hturn) as Hcalls.
    assert (exists calls,
               log1 = log ++ calls
               /\ (calls = [CReceiveMessage]
                   \/ exists handle, handle <> EmptyString
                                     /\ calls = [CReceiveMessage; CDeleteMessage handle]))
      as (calls & -> & Hc).
    { destruct Hcalls as [->|(h & Hh & ->)]; eexists; split; eauto. }
    destruct t.
    + intros H. apply IH in H as (perTurn & -> & Hlen & Hall).
      exists (calls :: perTurn). cbn [List.concat List.length].
      split; [by rewrite <- app_assoc|]. split; [lia|]. by constructor.
    + intros [= _ _ <- _]. exists [calls]. cbn. rewrite app_nil_r.
      split; [done|]. split; [lia|]. constructor; [exact Hc|constructor].
    + intros [= _ _ <- _]. exists [calls]. cbn. rewrite app_nil_r.
      split; [done|]. split; [lia|]. constructor; [exact Hc|constructor].
Qed.

(** X20.  A message whose body is not a [message] stops the listener: the
    error of the decoder is returned wrapped, the forge is not touched and
    the message is not deleted from the queue. *)
Theorem malformed_body_stops_listener (sqsClient : SQSAPI Q) (turns : nat) q q1 s body handle err :
  ReceiveMessage sqsClient q = (Ok [(body, handle)], q1) ->
  unmarshalMessage body = Err err ->
  ListenForEvents unmarshalMessage unmarshalTeamEvent unicodeToLower (Ok sqsClient) p
                  walkReposByTeamWith (Datatypes.S turns) (q, s)
  = (Some (Return (ErrWrapped err "failed to unmarshal sqs message")), (q1, s))
  /\ ListenForEvents unmarshalMessage unmarshalTeamEvent unicodeToLower
                     (Ok (recordingSQS sqsClient)) p walkReposByTeamWith
                     (Datatypes.S turns) ((q, []), s)
     = (Some (Return (ErrWrapped err "failed to unmarshal sqs message")),
        ((q1, [CReceiveMessage]), s)).
Proof.
  intros Hr Hm. unfold ListenForEvents. cbn [listenLoop].
  unfold listenTurn, queueService_receive. cbn.
  by rewrite Hr, Hm.
Qed.
End Listener.

Lemma ListenForEvents_stops_witness :
  exists k st1,
    (k < 3)%nat
    /\ ListenForEvents strictMessage exampleTeamEvent noUnicode (Ok memQueue)
                       (forgePlatform anyRegexp) (walkByTeamCollected forge) k
                       ([("h0", "created"); ("h1", "not json")], emptyForge) = (None, st1)
    /\ emptyForge = st1.2
    /\ queueService_receive strictMessage memQueue st1.1
       = (Err (ErrWrapped (ErrOther "invalid character 'o' in literal null (expecting 'u')")
                          "failed to unmarshal sqs message"),
          [("h1", "not json")]).
Proof.
  destruct (ListenForEvents_stops strictMessage exampleTeamEvent noUnicode
              (forgePlatform anyRegexp) (walkByTeamCollected forge) (Ok memQueue) 3
              ([("h0", "created"); ("h1", "not json")], emptyForge)
              ([("h1", "not json")], emptyForge)
              (ErrWrapped (ErrOther "invalid character 'o' in literal null (expecting 'u')")
                          "failed to unmarshal sqs message"))
    as [[Hq _]|(client & k & st1 & Hq & Hk & Hrun & Hs & Hr & _)].
  - vm_compute. reflexivity.
  - discriminate Hq.
  - injection Hq as Hq. subst client. exists k, st1. split; [exact Hk|].
    split; [exact Hrun|]. split; [exact Hs|exact Hr].
Defined.

Lemma ListenForEvents_calls_witness :
  exists perTurn,
    [CReceiveMessage; CDeleteMessage "h0"; CReceiveMessage] = [] ++ List.concat perTurn
    /\ (List.length perTurn <= 3)%nat.
Proof.
  destruct (ListenForEvents_calls strictMessage exampleTeamEvent noUnicode
              (forgePlatform anyRegexp) (walkByTeamCollected forge) memQueue 3
              [("h0", "created"); ("h1", "not json")] [] emptyForge
              (Some (Return (ErrWrapped
                               (ErrOther "invalid character 'o' in literal null (expecting 'u')")
                               "failed to unmarshal sqs message")))
              [("h1", "not json")]
              [CReceiveMessage; CDeleteMessage "h0"; CReceiveMessage] emptyForge)
    as (perTurn & Hl & Hlen & _).
  - vm_compute. reflexivity.
  - exists perTurn. split; [exact Hl|exact Hlen].
Defined.

Lemma malformed_body_stops_listener_witness :
  ListenForEvents strictMessage exampleTeamEvent noUnicode (Ok memQueue)
                  (forgePlatform anyRegexp) (walkByTeamCollected forge) 5
                  ([("h1", "not json")], emptyForge)
  = (Some (Return (ErrWrapped
                     (ErrOther "invalid character 'o' in literal null (expecting 'u')")
                     "failed to unmarshal sqs message")),
     ([("h1", "not json")], emptyForge))
  /\ ListenForEvents strictMessage exampleTeamEvent noUnicode (Ok (recordingSQS memQueue))
                     (forgePlatform anyRegexp) (walkByTeamCollected forge) 5
                     (([("h1", "not json")], []), emptyForge)
     = (Some (Return (ErrWrapped
                        (ErrOther "invalid character 'o' in literal null (expecting 'u')")
                        "failed to unmarshal sqs message")),
        (([("h1", "not json")], [CReceiveMessage]), emptyForge)).
Proof.
  apply (malformed_body_stops_listener strictMessage exampleTeamEvent noUnicode
           (forgePlatform anyRegexp) (walkByTeamCollected forge) memQueue
           4 [("h1", "not json")] [("h1", "not json")]
           emptyForge "not json" "h1").
  - reflexivity.
  - reflexivity.
Defined.

(** ** The teams of the repos *)

Lemma gitHubTeamsByName_lookup (teams : list GitHubTeam) (name : string) :
  forall m : gmap string GitHubTeam,
    fold_left (fun m t => <[gName t := t]> m) teams m !! name = None
    <-> m !! name = None /\ name ∉ map gName teams.
Proof.
  induction teams as [|t teams IH]; intros m; cbn [fold_left map].
  - split; [|by intros [? _]]. intros H. split; [done|]. by intros ?%elem_of_nil.
  - rewrite IH, lookup_insert_None, not_elem_of_cons. naive_solver.
Qed.

Lemma validateTeamPermissions_Ok (tps : list TeamPermission) (m : gmap string GitHubTeam) :
  validateTeamPermissions tps m = Ok tt
  <-> forall tp, tp ∈ tps -> is_Some (m !! TeamName tp).
Proof.
  induction tps as [|tp tps IH]; cbn [validateTeamPermissions].
  - split; [|done]. intros _ tp Htp. by apply elem_of_nil in Htp.
  - destruct (m !! TeamName tp) as [t|] eqn:Hm.
    + rewrite IH. split.
      * intros H tp' [->|Htp']%elem_of_cons; [by rewrite Hm|by apply H].
      * intros H tp' Htp'. apply H. by right.
    + split; [done|]. intros H. destruct (H tp) as [t Ht]; [left|]. congruence.
Qed.

Lemma validateTeamPermissions_Err (tps : list TeamPermission) (m : gmap string GitHubTeam)
      (err : error) :
  validateTeamPermissions tps m = Err err ->
  exists tp, tp ∈ tps /\ m !! TeamName tp = None /\ err = teamDoesNotExist (TeamName tp).
Proof.
  induction tps as [|tp tps IH]; cbn [validateTeamPermissions]; [done|].
  destruct (m !! TeamName tp) as [t|] eqn:Hm.
  - intros (tp' & Hin & Hnone & ->)%IH. exists tp'. split; [by right|done].
  - intros [= <-]. exists tp. split; [left|done].
Qed.

(** X21.  [UpdateRepoTeams] validates before it changes anything: when the
    change set names, to add or to remove, a team that the org does not
    list, the error names such a team, and no method that changes GitHub
    has been called, whatever repos were selected. *)
Theorem UpdateRepoTeams_validation {S} (unicodeToLower : list ascii -> list ascii)
        (walkReposWith : forall A : Type,
            string -> (Repo -> A -> M (S * list Call) A) -> A -> M (S * list Call) A)
        (svc : GitHubService S) (re : RuleEngine (S * list Call))
        (orgName : string) (changeSet : RepoTeamsChangeSet)
        (teams : list GitHubTeam) (missing : TeamPermission) (s s1 : S) (log : list Call) :
  ListTeams svc orgName s = (Ok teams, s1) ->
  missing ∈ (AddTeams changeSet ++ RemoveTeams changeSet) ->
  TeamName missing ∉ map gName teams ->
  exists tp,
    tp ∈ (AddTeams changeSet ++ RemoveTeams changeSet)
    /\ (TeamName tp ∉ map gName teams)
    /\ UpdateRepoTeams unicodeToLower walkReposWith (mkPlatform (recording svc) re)
                       orgName changeSet (s, log)
       = (Err (teamDoesNotExist (TeamName tp)), (s1, log)).
Proof.
  intros Hlist Hin Hmiss. unfold UpdateRepoTeams. cbn [platGitHubService].
  destruct (validateRepoTeamsChangeSet changeSet (gitHubTeamsByName teams)) as [[]|err] eqn:Hv.
  - exfalso. unfold validateRepoTeamsChangeSet in Hv.
    rewrite validateTeamPermissions_Ok in Hv. destruct (Hv missing Hin) as [t Ht].
    assert (gitHubTeamsByName teams !! TeamName missing = None) as Hnone.
    { apply gitHubTeamsByName_lookup. split; [apply lookup_empty|done]. }
    congruence.
  - pose proof Hv as Hv2.
    apply validateTeamPermissions_Err in Hv2 as (tp & Htp & Hnone & ->).
    exists tp. split; [done|].
    apply gitHubTeamsByName_lookup in Hnone as [_ Hnone]. split; [done|].
    eapply bind_ok_eq.
    { cbn. unfold unlogged. by rewrite Hlist. }
    cbv zeta. by rewrite Hv.
Qed.


Lemma iter_incr (n : nat) : Z.of_nat n < 2 ^ 63 -> Nat.iter n incr 0 = Z.of_nat n.
Proof.
  induction n as [|n IH]; [done|]. intros Hn. rewrite Nat.iter_succ.
  rewrite IH by lia. rewrite incr_small by lia. lia.
Qed.

Section RepoTeamsLog.
Context {R : Type} (rsvc : GitHubService R) (lg : R -> list Call).
Hypothesis Hrec : records rsvc lg.
Variable unicodeToLower : list ascii -> list ascii.
Variable walkReposWith : forall A : Type, string -> (Repo -> A -> M R A) -> A -> M R A.
Variable re : RuleEngine R.
Variable orgName : string.
Variable changeSet : RepoTeamsChangeSet.
Variable teamsByName : gmap string GitHubTeam.





End RepoTeamsLog.



Lemma UpdateRepoTeams_validation_witness :
  exists tp,
    tp ∈ (AddTeams unknownChangeSet ++ RemoveTeams unknownChangeSet)
    /\ (TeamName tp ∉ map gName (fTeams permForge))
    /\ UpdateRepoTeams noUnicode (walkCollected (recording forge))
                       (mkPlatform (recording forge) (NewRuleEngine anyRegexp (recording forge)))
                       "o" unknownChangeSet (permForge, [])
       = (Err (teamDoesNotExist (TeamName tp)), (permForge, [])).
Proof.
  apply (UpdateRepoTeams_validation noUnicode (walkCollected (recording forge)) forge
           (NewRuleEngine anyRegexp (recording forge)) "o" unknownChangeSet
           (fTeams permForge) (mkTeamPermission "Nope" RepoPermissionRead)
           permForge permForge []).
  - reflexivity.
  - simpl. right. left.
  - simpl. intros H. repeat (apply elem_of_cons in H as [H|H]; [discriminate H|]).
    by apply elem_of_nil in H.
Defined.


(** ** The result of [ApplyOrg] *)

Lemma bind_inv {S A B} (inv : S -> Prop) (m : M S A) (k : A -> M S B) :
  (forall s a s', m s = (Ok a, s') -> inv s -> inv s') ->
  (forall a s b s', k a s = (Ok b, s') -> inv s -> inv s') ->
  forall s b s', (m ≫= k) s = (Ok b, s') -> inv s -> inv s'.
Proof.
  intros Hm Hk s b s' H Hs. apply bind_inv_ok in H as (a & s1 & H1 & H2).
  eapply Hk; [exact H2|]. by eapply Hm.
Qed.

Lemma foldM_inv {S A B} (inv : S -> Prop) (f : B -> A -> M S B) (xs : list A) :
  Forall (fun x => forall b s b' s', f b x s = (Ok b', s') -> inv s -> inv s') xs ->
  forall b s b' s', foldM f xs b s = (Ok b', s') -> inv s -> inv s'.
Proof.
  induction 1 as [|x xs Hx _ IH]; intros b; cbn [foldM].
  - by intros s b' s' [= _ <-].
  - apply bind_inv; [apply Hx | intros a; apply IH].
Qed.

Lemma forEach_inv {S A} (inv : S -> Prop) (body : A -> M S unit) (xs : list A) :
  Forall (fun x => forall s u s', body x s = (Ok u, s') -> inv s -> inv s') xs ->
  forall s u s', forEach xs body s = (Ok u, s') -> inv s -> inv s'.
Proof.
  induction 1 as [|x xs Hx _ IH]; cbn [forEach].
  - by intros s u s' [= _ <-].
  - apply bind_inv; [apply Hx | intros _; apply IH].
Qed.

Section Invariant.
Context {R : Type} (w : GitHubService R) (inv : R -> Prop).
Hypothesis Hinv : forall (c : Call) r res r', perform w c r = (Ok res, r') -> inv r -> inv r'.

Lemma replyWith_Ok {A} (wrap : A -> Reply) (m : M R A) r a r' :
  m r = (Ok a, r') -> replyWith wrap m r = (Ok (wrap a), r').
Proof. intros H. unfold replyWith. by rewrite H. Qed.

Local Ltac by_inv :=
  let H := fresh in
  intros ? ? ? H;
  lazymatch type of H with
  | ListTeams _ ?o _ = _ =>
      apply (replyWith_Ok RTeams) in H; exact (Hinv (CListTeams o) _ _ _ H)
  | ListTeamMembers _ ?o ?i ?r _ = _ =>
      apply (replyWith_Ok RUsers) in H; exact (Hinv (CListTeamMembers o i r) _ _ _ H)
  | ListAdmins _ ?o _ = _ =>
      apply (replyWith_Ok RUsers) in H; exact (Hinv (CListAdmins o) _ _ _ H)
  | CreateTeam _ ?o ?t _ = _ =>
      apply (replyWith_Ok RTeam) in H; exact (Hinv (CCreateTeam o t) _ _ _ H)
  | UpdateTeam _ ?t _ = _ =>
      apply (replyWith_Ok RTeam) in H; exact (Hinv (CUpdateTeam t) _ _ _ H)
  | DeleteTeam _ ?i _ = _ =>
      apply (replyWith_Ok (fun _ => RDone)) in H; exact (Hinv (CDeleteTeam i) _ _ _ H)
  | AddTeamMembership _ ?o ?i ?e ?r _ = _ =>
      apply (replyWith_Ok (fun _ => RDone)) in H;
      exact (Hinv (CAddTeamMembership o i e r) _ _ _ H)
  | DeleteTeamMembership _ ?o ?i ?e ?r _ = _ =>
      apply (replyWith_Ok (fun _ => RDone)) in H;
      exact (Hinv (CDeleteTeamMembership o i e r) _ _ _ H)
  end.

Lemma configureTeams_invariant org haveTeams :
  forall r a r', configureTeams w org haveTeams r = (Ok a, r') -> inv r -> inv r'.
Proof.
  assert (forall orgName want parent keptTeams r a r',
             processTeam w orgName haveTeams parent keptTeams want r = (Ok a, r') ->
             inv r -> inv r') as Hteam.
  { intros orgName want.
    induction want as [n d pr ma me rm cs IHcs] using Team_ind_forall.
    intros parent keptTeams. rewrite processTeam_unfold. apply bind_inv.
    - unfold reconcileTeam.
      destruct (findGitHubTeamFromDesired haveTeams _) as [have|].
      + apply bind_inv; [|by intros a s b s' [= _ <-]].
        unfold updateTeam. cbv zeta.
        destruct (_ || _); [by_inv|by intros s b s' [= _ <-]].
      + apply bind_inv; [|by intros a s b s' [= _ <-]].
        unfold createTeam. cbv zeta. by_inv.
    - intros kept. cbn [tChildren]. apply foldM_inv.
      eapply Forall_impl; [exact IHcs|]. intros c Hc b. apply Hc. }
  unfold configureTeams. apply bind_inv.
  - unfold process. apply foldM_inv, Forall_forall. intros t _ b. apply Hteam.
  - intros keptTeams. cbv zeta. apply bind_inv; [|by intros a s b s' [= _ <-]].
    apply forEach_inv, Forall_forall. intros t _.
    case_bool_decide; [by_inv|by intros s b s' [= _ <-]].
Qed.

Lemma configureTeamMemberships_invariant org haveTeams :
  forall r a r', configureTeamMemberships w org haveTeams r = (Ok a, r') -> inv r -> inv r'.
Proof.
  assert (forall orgName t haveEmails wantEmails role r a r',
             updateTeamMemberships w orgName t haveEmails wantEmails role r = (Ok a, r') ->
             inv r -> inv r') as Hupd.
  { intros orgName t haveEmails wantEmails role. unfold updateTeamMemberships. cbv zeta.
    apply bind_inv.
    - apply forEach_inv, Forall_forall. intros u _.
      by_inv.
    - intros _. apply forEach_inv, Forall_forall. intros u _.
      by_inv. }
  unfold configureTeamMemberships. cbv zeta. apply forEach_inv, Forall_forall.
  intros have _. destruct (teamsByName (oTeams org) !! gName (keptTeam have)) as [want|];
    [|done].
  apply bind_inv.
  - destruct (created have); [by intros s b s' [= _ <-]|].
    apply bind_inv; [by_inv|].
    intros a. apply bind_inv;
      [by_inv|].
    by intros b s c s' [= _ <-].
  - intros [haveMaintainers haveMembers]. apply bind_inv; [apply Hupd|].
    intros _. apply Hupd.
Qed.

Lemma reads_inv org :
  (forall r a r', ListTeams w org r = (Ok a, r') -> inv r -> inv r')
  /\ (forall r a r', ListAdmins w org r = (Ok a, r') -> inv r -> inv r').
Proof. split; [by_inv|by_inv]. Qed.
End Invariant.

Lemma countKind_app k l1 l2 : countKind k (l1 ++ l2) = (countKind k l1 + countKind k l2)%nat.
Proof. unfold countKind. by rewrite List.filter_app, length_app. Qed.

Lemma perform_tallied {S} (svc : GitHubService S) (c : Call) p res p' :
  perform (NewStatsGitHubService (recording svc)) c p = (Ok res, p') ->
  tallied p -> tallied p'.
Proof.
  destruct p as [[s log] st]. rewrite perform_stats.
  destruct (perform (recording svc) c (s, log)) as [r [s1 log1]] eqn:Hp.
  cbn [fst snd]. intros [= -> <-] Ht k. cbn [fst snd].
  apply recording_records in Hp. cbn [snd] in Hp. subst log1.
  specialize (Ht k). cbn [fst snd] in Ht.
  unfold statsAfter. cbn [isOk]. rewrite countKind_app.
  destruct (writeKind c) as [k'|] eqn:Hk.
  - assert (isWrite c = true) as -> by (by destruct c).
    unfold countKind at 2. cbn [List.filter].
    destruct (decide (k = k')) as [<-|Hne].
    + rewrite bool_decide_eq_true_2 by done. cbn [List.length].
      rewrite counter_bump_same, Ht, Nat.add_1_r. by rewrite Nat.iter_succ.
    + rewrite bool_decide_eq_false_2 by congruence. cbn [List.length].
      rewrite counter_bump_other by done. by rewrite Nat.add_0_r.
  - rewrite Ht. f_equal. destruct (isWrite c); [|cbn; lia].
    unfold countKind. cbn [List.filter].
    rewrite bool_decide_eq_false_2 by congruence. cbn [List.length]. lia.
Qed.

Lemma applyWithStats_tallied {S} (svc : GitHubService S) (org : Org) p res org' p' :
  applyWithStats (NewStatsGitHubService (recording svc)) org p = (Ok (res, org'), p') ->
  tallied p -> tallied p' /\ res = asApplyOrgResult p'.2.
Proof.
  intros H Ht. unfold applyWithStats in H.
  pose proof (perform_tallied svc) as Hinv.
  apply bind_inv_ok in H as (haveTeams & p1 & H1 & H).
  apply (reads_inv _ tallied Hinv) in H1; [|done].
  apply bind_inv_ok in H as (keptTeams & p2 & H2 & H).
  apply (configureTeams_invariant _ tallied Hinv) in H2; [|done].
  apply bind_inv_ok in H as (org1 & p3 & H3 & H).
  assert (tallied p3) as Ht3.
  { unfold promoteAdmins in H3. apply bind_inv_ok in H3 as (admins & p0 & Ha & Hr).
    injection Hr as _ <-. by apply (reads_inv _ tallied Hinv) in Ha. }
  apply bind_inv_ok in H as ([] & p4 & H4 & H).
  apply (configureTeamMemberships_invariant _ tallied Hinv) in H4; [|done].
  apply bind_inv_ok in H as (stats & p5 & H5 & H).
  destruct p4 as [q4 st4]. injection H5 as <- <-. injection H as <- _ <-. done.
Qed.

Lemma countKind_le k log : (countKind k log <= List.length log)%nat.
Proof. apply List.filter_length_le. Qed.

(** X23.  What [ApplyOrg] reports is what it did: when it succeeds, each
    counter of its result is the number of calls of that kind it made
    (each succeeded, for a failure ends the run), and [HasChanges] holds
    exactly when it has called a method that changes GitHub.  (The
    counters are 64-bit, hence the bound on the number of calls.) *)
Theorem ApplyOrg_result_counts {S} (plat : Platform S) (org org' : Org) (s s' : S)
        (res : ApplyOrgResult) (log : list Call) :
  ApplyOrg (recordingPlatform plat) org (s, []) = (Ok (res, org'), (s', log)) ->
  Z.of_nat (List.length log) < 2 ^ 63 ->
  resTeamsCreated res = Z.of_nat (countKind KCreateTeam log)
  /\ resTeamsUpdated res = Z.of_nat (countKind KUpdateTeam log)
  /\ resTeamsDeleted res = Z.of_nat (countKind KDeleteTeam log)
  /\ resMembershipsAdded res = Z.of_nat (countKind KAddTeamMembership log)
  /\ resMembershipsDeleted res = Z.of_nat (countKind KDeleteTeamMembership log)
  /\ (HasChanges res = true <-> log <> []).
Proof.
  intros H Hbound. unfold ApplyOrg in H.
  cbn [recordingPlatform platRuleEngine platGitHubService Run] in H.
  unfold unlogged at 1 in H.
  destruct (Run (platRuleEngine plat) org s) as [[[]|err] s1]; [|discriminate].
  destruct (applyWithStats _ org (s1, [], zeroStats)) as [r2 [[s2 log2] st2]] eqn:Happly.
  injection H as -> <- <-.
  pose proof Happly as Hphases.
  apply applyWithStats_tallied in Happly as [Ht ->]; [|by intros []].
  apply (applyWithStats_phases _ (fun p => p.1.2)) in Hphases
    as (l1 & l2 & l3 & Hl & H1 & H2 & H3);
    [|apply (NewStatsGitHubService_records _ snd), recording_records].
  unfold tallied in Ht. cbn [fst snd app] in Hl, Ht |- *.
  assert (forall k, counter k st2 = Z.of_nat (countKind k log2)) as Hc.
  { intros k. rewrite (Ht k). cbn [fst snd]. apply iter_incr.
    pose proof (countKind_le k log2). lia. }
  pose proof (Hc KCreateTeam) as Hc1. pose proof (Hc KUpdateTeam) as Hc2.
  pose proof (Hc KDeleteTeam) as Hc3. pose proof (Hc KAddTeamMembership) as Hc4.
  pose proof (Hc KDeleteTeamMembership) as Hc5. cbn [counter] in Hc1, Hc2, Hc3, Hc4, Hc5.
  cbn [asApplyOrgResult resTeamsCreated resTeamsUpdated resTeamsDeleted resMembershipsAdded
       resMembershipsDeleted].
  do 5 (split; [done|]).
  unfold HasChanges, asApplyOrgResult. rewrite negb_true_iff, bool_decide_eq_false.
  rewrite Hc1, Hc2, Hc3, Hc4, Hc5. split.
  - intros Hne ->. by apply Hne.
  - intros Hne Heq. apply Hne. injection Heq as E1 E2 E3 E4 E5.
    assert (Forall (fun c => is_Some (writeKind c)) log2) as Hkinds.
    { rewrite Hl. repeat apply Forall_app_2.
      - eapply Forall_impl; [exact H1|]. by intros [].
      - eapply Forall_impl; [exact H2|]. by intros [].
      - eapply Forall_impl; [exact H3|]. by intros []. }
    destruct log2 as [|c rest]; [done|]. exfalso.
    apply Forall_cons in Hkinds as [[k Hk] _].
    assert (0 < countKind k (c :: rest))%nat as Hpos.
    { unfold countKind. cbn [List.filter]. rewrite bool_decide_eq_true_2 by done.
      cbn. lia. }
    destruct k; lia.
Qed.

Lemma ApplyOrg_result_counts_witness :
  resTeamsCreated (mkApplyOrgResult 1 0 1 2 0)
  = Z.of_nat (countKind KCreateTeam
                [CCreateTeam "SEEK-Jobs" (mkGitHubTeam 0 0 "A" "d"); CDeleteTeam 1;
                 CAddTeamMembership "SEEK-Jobs" 2 "m@x" RoleMaintainer;
                 CAddTeamMembership "SEEK-Jobs" 2 "e@x" RoleMember])
  /\ resMembershipsAdded (mkApplyOrgResult 1 0 1 2 0)
     = Z.of_nat (countKind KAddTeamMembership
                   [CCreateTeam "SEEK-Jobs" (mkGitHubTeam 0 0 "A" "d"); CDeleteTeam 1;
                    CAddTeamMembership "SEEK-Jobs" 2 "m@x" RoleMaintainer;
                    CAddTeamMembership "SEEK-Jobs" 2 "e@x" RoleMember]).
Proof.
  destruct (ApplyOrg_result_counts (forgePlatform anyRegexp) oneOrg oneOrg oneForge
              (mkForge [mkGitHubTeam 2 0 "A" "d"]
                       [(2, RoleMaintainer, "m"); (2, RoleMember, "e")] []
                       (fUsers oneForge) [] 3)
              (mkApplyOrgResult 1 0 1 2 0)
              [CCreateTeam "SEEK-Jobs" (mkGitHubTeam 0 0 "A" "d"); CDeleteTeam 1;
               CAddTeamMembership "SEEK-Jobs" 2 "m@x" RoleMaintainer;
               CAddTeamMembership "SEEK-Jobs" 2 "e@x" RoleMember])
    as (H1 & _ & _ & H4 & _).
  - vm_compute. reflexivity.
  - vm_compute. reflexivity.
  - split; [exact H1|exact H4].
Defined.

(** ** What [UnmergeOrg] needs to complete *)

Section UnmergeDirs.
Variable unicodeToLower : list ascii -> list ascii.
Variable codec : Codec.

Let dirName (t : Team) : string := normaliseName unicodeToLower (tName t).

Lemma unmergeTeam_dirs t dir files files' :
  unmergeTeam unicodeToLower codec dir t files = (Ok tt, files') ->
  dirName t <> EmptyString
  /\ lookupFile (dirName t) files = None
  /\ exists sub sub',
       unmergeDescend unicodeToLower codec (Join dir (dirName t)) (tChildren t) sub = (Ok tt, sub')
       /\ files' = insertFile (dirName t) (Dir sub') files.
Proof.
  intros H. rewrite unmergeTeam_unfold in H. fold (dirName t) in H.
  apply bind_inv_ok in H as ([] & files1 & Hmk & H).
  apply bind_inv_ok in H as ([] & files2 & Hwr & Hdesc).
  unfold Mkdir in Hmk. case_bool_decide as Hname; [done|].
  destruct (lookupFile (dirName t) files) eqn:Hnone; [done|]. injection Hmk as <-.
  split; [done|]. split; [done|].
  unfold inDir in Hwr. rewrite lookupFile_insertFile in Hwr.
  destruct (writeTeam codec t (Join dir (dirName t)) []) as [rw sub] eqn:Hw.
  injection Hwr as -> <-. rewrite insertFile_insertFile in Hdesc.
  unfold inDir in Hdesc. rewrite lookupFile_insertFile in Hdesc.
  destruct (unmergeDescend _ _ _ (tChildren t) sub) as [r sub'] eqn:Hsub.
  injection Hdesc as -> <-. rewrite insertFile_insertFile. by exists sub, sub'.
Qed.

Lemma unmergeDescend_dirs (teams : list Team) :
  forall dir files files',
    unmergeDescend unicodeToLower codec dir teams files = (Ok tt, files') ->
    (forall t, t ∈ teams -> lookupFile (dirName t) files = None)
    /\ NoDup (map dirName teams)
    /\ (forall name, name ∉ map dirName teams -> lookupFile name files' = lookupFile name files)
    /\ (forall t, t ∈ teams -> is_Some (lookupFile (dirName t) files'))
    /\ (forall t, t ∈ flattenTeams teams ->
          dirName t <> EmptyString /\ NoDup (map dirName (tChildren t))).
Proof.
  induction teams as [|t rest IHc IHr] using forest_ind; intros dir files files' H.
  { injection H as <-. split; [|split; [|split; [|split]]].
    - intros t Ht. by apply elem_of_nil in Ht.
    - constructor.
    - done.
    - intros t Ht. by apply elem_of_nil in Ht.
    - intros t Ht. by apply elem_of_nil in Ht. }
  rewrite unmergeDescend_cons in H. apply bind_inv_ok in H as ([] & files1 & Ht & Hrest).
  apply unmergeTeam_dirs in Ht as (Hne & Hnone & sub & sub' & Hsub & ->).
  apply IHc in Hsub as (_ & Hndc & _ & _ & Hflatc).
  apply IHr in Hrest as (Hfresh & Hnd & Hframe & Hthere & Hflatr).
  assert (dirName t ∉ map dirName rest) as Hnotin.
  { intros Hin. apply list_elem_of_fmap in Hin as (t' & Heq & Hin).
    specialize (Hfresh t' Hin).
    pose proof (lookupFile_insertFile (dirName t) (Dir sub') files) as Hthere'.
    rewrite Heq in Hthere'. congruence. }
  split; [|split; [|split; [|split]]].
  - intros t' [->|Hin]%elem_of_cons; [done|].
    specialize (Hfresh t' Hin).
    rewrite lookupFile_insertFile_ne in Hfresh; [done|].
    intros Heq. apply Hnotin. rewrite Heq. apply list_elem_of_fmap. by exists t'.
  - cbn [map]. by apply NoDup_cons.
  - intros name Hname. cbn [map] in Hname. apply not_elem_of_cons in Hname as [Hn1 Hn2].
    rewrite (Hframe name Hn2). by apply lookupFile_insertFile_ne.
  - intros t' [->|Hin]%elem_of_cons; [|by apply Hthere].
    rewrite (Hframe _ Hnotin), lookupFile_insertFile. by eexists.
  - intros t'. rewrite flattenTeams_cons, flattenTeam_unfold.
    intros [[->|Hin]%elem_of_cons|Hin]%elem_of_app; [done|by apply Hflatc|by apply Hflatr].
Qed.

(** X24.  [UnmergeOrg] completes only where every directory it has to make
    is new.  Either the name of the org normalises to a name that is not
    empty, the target directory is there and has no entry of that name, and
    its other entries are left as they were; or the name of the org
    normalises to the empty string, the org directory is the target
    directory itself, and nothing is at its path beforehand.  In both
    cases no name of a team normalises to the empty string and no two
    sibling teams normalise to the same directory name. *)
Theorem UnmergeOrg_distinct_dirs (org : Org) (dir : string) (target target' : Target) :
  UnmergeOrg unicodeToLower codec org dir target = (Ok tt, target') ->
  ((normaliseName unicodeToLower (oName org) <> EmptyString
    /\ exists files files',
         target = Present (Dir files) /\ target' = Present (Dir files')
         /\ lookupFile (normaliseName unicodeToLower (oName org)) files = None
         /\ (forall name, name <> normaliseName unicodeToLower (oName org) ->
                          lookupFile name files' = lookupFile name files))
   \/ (normaliseName unicodeToLower (oName org) = EmptyString /\ target = Absent
       /\ exists files', target' = Present (Dir files')))
  /\ NoDup (map (fun t => normaliseName unicodeToLower (tName t)) (oTeams org))
  /\ (forall t, t ∈ flattenTeams (oTeams org) ->
        normaliseName unicodeToLower (tName t) <> EmptyString
        /\ NoDup (map (fun c => normaliseName unicodeToLower (tName c)) (tChildren t))).
Proof.
  intros H. unfold UnmergeOrg in H. cbv zeta in H.
  set (name := normaliseName unicodeToLower (oName org)) in *.
  destruct target as [| |[buf|files]]; [done| |by destruct (bool_decide _)|].
  - case_bool_decide as Hname; [|done].
    destruct ((writeOrg codec org (Join dir name);;
               unmergeDescend unicodeToLower codec (Join dir name) (oTeams org)) [])
      as [r sub] eqn:Hrun.
    injection H as -> <-.
    apply bind_inv_ok in Hrun as ([] & sub0 & Hwr & Hsub).
    apply unmergeDescend_dirs in Hsub as (_ & Hnd & _ & _ & Hflat).
    split; [|done]. right. split; [done|]. split; [done|]. by eexists.
  - destruct ((Mkdir dir name;;
               inDir dir name (writeOrg codec org (Join dir name));;
               inDir dir name (unmergeDescend unicodeToLower codec (Join dir name)
                                 (oTeams org))) files) as [r0 files'] eqn:Hrun.
    injection H as -> <-.
    apply bind_inv_ok in Hrun as ([] & files1 & Hmk & H).
    apply bind_inv_ok in H as ([] & files2 & Hwr & Hdesc).
    unfold Mkdir in Hmk. case_bool_decide as Hname; [done|].
    destruct (lookupFile name files) eqn:Hnone; [done|]. injection Hmk as <-.
    unfold inDir in Hwr. rewrite lookupFile_insertFile in Hwr.
    destruct (writeOrg codec org (Join dir name) []) as [rw sub] eqn:Hw.
    injection Hwr as -> <-. rewrite insertFile_insertFile in Hdesc.
    unfold inDir in Hdesc. rewrite lookupFile_insertFile in Hdesc.
    destruct (unmergeDescend _ _ _ (oTeams org) sub) as [r sub'] eqn:Hsub.
    injection Hdesc as -> <-. rewrite insertFile_insertFile.
    apply unmergeDescend_dirs in Hsub as (_ & Hnd & _ & _ & Hflat).
    split; [|done]. left. split; [done|]. eexists _, _. split; [done|]. split; [done|].
    split; [done|]. intros name' Hne. by apply lookupFile_insertFile_ne.
Qed.
End UnmergeDirs.

Lemma UnmergeOrg_distinct_dirs_witness :
  ((normaliseName noUnicode (oName docOrg) <> EmptyString
    /\ exists files files',
         Present (Dir []) = Present (Dir files)
         /\ (UnmergeOrg noUnicode docCodec docOrg "out" (Present (Dir []))).2
            = Present (Dir files')
         /\ lookupFile (normaliseName noUnicode (oName docOrg)) files = None
         /\ (forall name, name <> normaliseName noUnicode (oName docOrg) ->
                          lookupFile name files' = lookupFile name files))
   \/ (normaliseName noUnicode (oName docOrg) = EmptyString /\ Present (Dir []) = Absent
       /\ exists files', (UnmergeOrg noUnicode docCodec docOrg "out" (Present (Dir []))).2
                         = Present (Dir files')))
  /\ NoDup (map (fun t => normaliseName noUnicode (tName t)) (oTeams docOrg))
  /\ (forall t, t ∈ flattenTeams (oTeams docOrg) ->
        normaliseName noUnicode (tName t) <> EmptyString
        /\ NoDup (map (fun c => normaliseName noUnicode (tName c)) (tChildren t))).
Proof.
  apply (UnmergeOrg_distinct_dirs noUnicode docCodec docOrg "out" (Present (Dir []))).
  vm_compute. reflexivity.
Defined.

(** The org directory is the target directory itself when the name of the
    org normalises to the empty string: [UnmergeOrg] then completes where
    nothing is at the path of the target, and fails where the target
    directory is there. *)
Lemma UnmergeOrg_fresh_dir_example :
  let codec := mkCodec (fun _ => Ok "o") (fun _ => Ok "t")
                       (fun _ => Ok (mkOrg "?" [])) (fun _ => Err (ErrOther "no team")) in
  normaliseName noUnicode "?" = EmptyString
  /\ UnmergeOrg noUnicode codec (mkOrg "?" []) "out" Absent
     = (Ok tt, Present (Dir [("org.yaml", File "o")]))
  /\ UnmergeOrg noUnicode codec (mkOrg "?" []) "out" (Present (Dir []))
     = (Err (ErrExist "out"), Present (Dir [])).
Proof. cbv zeta. repeat split; vm_compute; reflexivity. Qed.

(** ** Matching by name *)

Lemma findTeamNamed_None teams name :
  findTeamNamed teams name = None <-> name ∉ map gName teams.
Proof.
  unfold findTeamNamed. induction teams as [|t teams IH]; cbn [List.find map].
  - split; [|done]. intros _ H. by apply elem_of_nil in H.
  - case_bool_decide as Hn.
    + split; [done|]. intros H. exfalso. apply H. rewrite Hn. left.
    + rewrite IH, not_elem_of_cons. naive_solver.
Qed.

Lemma firstNamed_spec (names : list string) (teams : list GitHubTeam) :
  match firstNamed names teams with
  | Some g =>
      exists before after,
        names = before ++ gName g :: after
        /\ (forall n, n ∈ before -> n ∉ map gName teams)
        /\ findTeamNamed teams (gName g) = Some g
  | None => forall n, n ∈ names -> n ∉ map gName teams
  end.
Proof.
  induction names as [|name names IH]; cbn [firstNamed].
  - intros n Hn. by apply elem_of_nil in Hn.
  - destruct (findTeamNamed teams name) as [g|] eqn:Hfind.
    + pose proof (findTeamNamed_Some _ _ _ Hfind) as [_ Hname]. subst name.
      exists [], names. split; [done|]. split; [|done].
      intros n Hn. by apply elem_of_nil in Hn.
    + apply findTeamNamed_None in Hfind.
      destruct (firstNamed names teams) as [g|].
      * destruct IH as (before & after & -> & Hbefore & Hg).
        exists (name :: before), after. split; [done|]. split; [|done].
        intros n [->|Hn]%elem_of_cons; [done|by apply Hbefore].
      * intros n [->|Hn]%elem_of_cons; [done|by apply IH].
Qed.

(** X25.  [findGitHubTeamFromDesired] tries the name of the desired team
    and then its previous names in order: the team returned is the first
    observed team bearing the first of these names that any observed team
    bears; nothing is returned exactly when no observed team bears any of
    them.  So a team already bearing the new name wins over a team
    bearing a previous one. *)
Theorem findGitHubTeamFromDesired_spec (teams : list GitHubTeam) (want : Team) :
  match findGitHubTeamFromDesired teams want with
  | Some g =>
      g ∈ teams
      /\ exists before after,
           tName want :: tPreviously want = before ++ gName g :: after
           /\ (forall n, n ∈ before -> n ∉ map gName teams)
           /\ List.find (fun t => bool_decide (gName g = gName t)) teams = Some g
  | None => forall n g, n ∈ tName want :: tPreviously want -> g ∈ teams -> gName g <> n
  end.
Proof.
  unfold findGitHubTeamFromDesired.
  pose proof (firstNamed_spec (tName want :: tPreviously want) teams) as H.
  destruct (firstNamed (tName want :: tPreviously want) teams) as [g|].
  - destruct H as (before & after & Hsplit & Hbefore & Hg).
    split; [by apply findTeamNamed_Some in Hg as [? _]|]. by exists before, after.
  - intros n g Hn Hg Heq. apply (H n Hn). rewrite <- Heq. by apply list_elem_of_fmap_2.
Qed.

(** X26.  [teamsByName] keys the whole forest by name, and a later team
    replaces an earlier one of the same name: the entry of a name is the
    last team of that name in depth-first order, and there is none exactly
    when no team has the name. *)
Theorem teamsByName_spec (teams : list Team) (name : string) :
  teamsByName teams !! name
  = last (List.filter (fun t => bool_decide (tName t = name)) (flattenTeams teams)).
Proof.
  unfold teamsByName. rewrite teamsByName_fold.
  by destruct (last _).
Qed.

(** ** Teams that are about to be deleted *)

Lemma haveTeamsByID_lookup (haveTeams : list GitHubTeam) (i : Z) (have : GitHubTeam) :
  forall m : gmap Z GitHubTeam,
    fold_left (fun m have => <[ID have := have]> m) haveTeams m !! i = Some have ->
    (have ∈ haveTeams /\ ID have = i) \/ m !! i = Some have.
Proof.
  induction haveTeams as [|t rest IH]; intros m; cbn [fold_left]; [by right|].
  intros [[Hin Hid]|H]%IH; [left; split; [by right|done]|].
  destruct (decide (ID t = i)) as [<-|Hne].
  - rewrite lookup_insert_eq in H. injection H as ->. left. split; [left|done].
  - rewrite lookup_insert_ne in H by done. by right.
Qed.

Lemma activeTeamDeletions_lookup haveTeams (teams : list Team) (i : Z) (have : GitHubTeam) :
  forall m : gmap Z GitHubTeam,
    fold_left (activeTeamDeletions_team haveTeams) teams m !! i = Some have ->
    m !! i = Some have.
Proof.
  induction teams as [|t rest IHc IHr] using forest_ind; intros m; [done|].
  cbn [fold_left]. intros H%IHr. rewrite activeTeamDeletions_team_unfold in H.
  apply IHc in H. destruct (findGitHubTeamFromDesired haveTeams t) as [y|]; [|done].
  by apply lookup_delete_Some in H as [_ H].
Qed.

Lemma teamNameOfID_NoDup (f : Forge) (g : GitHubTeam) :
  NoDup (map ID (fTeams f)) -> g ∈ fTeams f -> teamNameOfID f (ID g) = Some (gName g).
Proof.
  intros Hnd Hg. unfold teamNameOfID.
  destruct (List.find _ (fTeams f)) as [g'|] eqn:Hfind.
  - apply find_some in Hfind as [Hin Hid]. apply bool_decide_eq_true in Hid.
    apply list_elem_of_In in Hin.
    apply list_elem_of_lookup in Hin as [i Hi]. apply list_elem_of_lookup in Hg as [j Hj].
    assert (i = j) as ->; [|cbn; congruence].
    eapply NoDup_lookup; [exact Hnd| |]; rewrite list_lookup_fmap.
    + rewrite Hi. cbn. by rewrite Hid.
    + by rewrite Hj.
  - exfalso. eapply find_none in Hfind; [|by apply list_elem_of_In].
    by rewrite bool_decide_eq_true_2 in Hfind.
Qed.

Lemma activeTeamDeletions_violations (orgName : string) (f : Forge)
      (entries : list (Z * GitHubTeam)) :
  NoDup (map ID (fTeams f)) ->
  (forall i have, (i, have) ∈ entries -> have ∈ fTeams f) ->
  forall violations : gmap string (list string),
  exists violations',
    foldM (fun (violations : gmap string (list string)) '(_, have) =>
             repoNames ← listTeamRepoNames forge orgName (ID have);
             ret (if bool_decide (0 < List.length repoNames)%nat
                  then <[gName have := repoNames]> violations
                  else violations))
          entries violations f = (Ok violations', f)
    /\ (violations' = ∅
        <-> violations = ∅
            /\ forall i have r, (i, have) ∈ entries -> r ∈ fRepos f ->
                                repoHasTeam (gName have) r = false).
Proof.
  intros Hnd. induction entries as [|[i have] entries IH]; intros Hin violations.
  - exists violations. split; [done|]. split; [|by intros [? _]].
    intros ->. split; [done|]. intros i have r H. by apply elem_of_nil in H.
  - cbn [foldM].
    assert (have ∈ fTeams f) as Hhave by (apply (Hin i); left).
    assert (forall A (walkFn : WalkReposFunc A) a,
               WalkReposByTeam forge orgName (ID have) walkFn a f
               = (walk (List.filter (repoHasTeam (gName have)) (fRepos f)) walkFn a, f))
      as Hwalk.
    { intros A walkFn a. cbn. by rewrite (teamNameOfID_NoDup f have Hnd Hhave). }
    assert (forall (repos : list Repo) acc,
               walk repos (fun r repoNames => Ok (repoNames ++ [rName r])) acc
               = Ok (acc ++ map rName repos)) as Hnames.
    { induction repos as [|r repos IHr]; intros acc; cbn [walk map].
      - by rewrite app_nil_r.
      - rewrite IHr. by rewrite <- app_assoc. }
    set (listed := List.filter (repoHasTeam (gName have)) (fRepos f)).
    destruct (IH (fun i0 h0 H0 => Hin i0 h0 (list_elem_of_further _ _ _ H0))
                 (if bool_decide (0 < List.length (map rName listed))%nat
                  then <[gName have := map rName listed]> violations else violations))
      as (v' & Hrun & Hv').
    exists v'. split.
    { eapply bind_ok_eq; [|exact Hrun]. eapply bind_ok_eq.
      - unfold listTeamRepoNames. rewrite Hwalk, Hnames. reflexivity.
      - reflexivity. }
    assert (listed = [] <-> forall r, r ∈ fRepos f -> repoHasTeam (gName have) r = false)
      as Hlisted.
    { unfold listed. split.
      - intros Hnil r Hr. destruct (repoHasTeam (gName have) r) eqn:E; [|done].
        assert (In r (List.filter (repoHasTeam (gName have)) (fRepos f))) as Hin'.
        { apply filter_In. split; [by apply list_elem_of_In|done]. }
        by rewrite Hnil in Hin'.
      - intros Hall. destruct (List.filter _ (fRepos f)) as [|r l] eqn:E; [done|].
        assert (In r (List.filter (repoHasTeam (gName have)) (fRepos f))) as Hin'
          by (rewrite E; left; done).
        apply filter_In in Hin' as [Hr Ht]. apply list_elem_of_In in Hr.
        rewrite (Hall r Hr) in Ht. done. }
    assert ((if bool_decide (0 < List.length (map rName listed))%nat
             then <[gName have := map rName listed]> violations else violations) = ∅
            <-> violations = ∅ /\ listed = []) as Hnext.
    { rewrite length_map.
      destruct (bool_decide (0 < List.length listed)%nat) eqn:Hlen;
        [apply bool_decide_eq_true in Hlen|apply bool_decide_eq_false in Hlen].
      - split.
        + intros Hv. by apply insert_non_empty in Hv.
        + intros [_ Hnil]. rewrite Hnil in Hlen. cbn in Hlen. lia.
      - split; [|by intros [? _]]. intros ->. split; [done|].
        destruct listed; [done|cbn in Hlen; lia]. }
    rewrite Hv', Hnext, Hlisted. split.
    + intros [[-> Hhere] Hall]. split; [done|].
      intros i0 h0 r [[= -> ->]|H0]%elem_of_cons Hr; [by apply Hhere|].
      by apply (Hall i0 h0 r).
    + intros [-> Hall]. split; [split; [done|]|].
      * intros r Hr. apply (Hall i have r); [left|done].
      * intros i0 h0 r H0. apply (Hall i0 h0 r). by right.
Qed.

Lemma activeTeamDeletionsRule_accepts (org : Org) (f : Forge) :
  NoDup (map ID (fTeams f)) ->
  activeTeamDeletionsRule forge org f = (Ok tt, f)
  <-> forall g r, g ∈ fTeams f -> ID g ∉ matchedIDs (fTeams f) (oTeams org) ->
                  r ∈ fRepos f -> repoHasTeam (gName g) r = false.
Proof.
  intros Hnd.
  set (byID := fold_left (activeTeamDeletions_team (fTeams f)) (oTeams org)
                 (fold_left (fun m have => <[ID have := have]> m) (fTeams f) ∅)).
  assert (forall i have, byID !! i = Some have ->
                         have ∈ fTeams f /\ ID have = i
                         /\ i ∉ matchedIDs (fTeams f) (oTeams org)) as Hentries.
  { intros i have Hl. pose proof Hl as Hl'.
    apply activeTeamDeletions_lookup, haveTeamsByID_lookup in Hl as [[Hin Hid]|Hl];
      [|by rewrite lookup_empty in Hl].
    split; [done|]. split; [done|].
    assert (i ∈ dom byID) as Hdom by (apply elem_of_dom; eauto).
    unfold byID in Hdom. rewrite activeTeamDeletions_dom in Hdom.
    apply elem_of_difference in Hdom as [_ Hno]. intros Hm. apply Hno.
    by apply elem_of_list_to_set. }
  assert (forall g, g ∈ fTeams f -> ID g ∉ matchedIDs (fTeams f) (oTeams org) ->
                    byID !! ID g = Some g) as Hthere.
  { intros g Hg Hno.
    assert (ID g ∈ dom byID) as Hdom.
    { unfold byID. rewrite activeTeamDeletions_dom, haveTeamsByID_dom.
      apply elem_of_difference. split.
      - apply elem_of_union. right. apply elem_of_list_to_set. by apply list_elem_of_fmap_2.
      - intros Hm. apply Hno. by apply elem_of_list_to_set in Hm. }
    apply elem_of_dom in Hdom as [have Hl]. rewrite Hl. f_equal.
    destruct (Hentries _ _ Hl) as (Hin & Hid & _).
    apply list_elem_of_lookup in Hin as [i Hi]. apply list_elem_of_lookup in Hg as [j Hj].
    assert (i = j) as ->; [|congruence].
    eapply NoDup_lookup; [exact Hnd| |]; rewrite list_lookup_fmap.
    - rewrite Hi. cbn. by rewrite Hid.
    - by rewrite Hj. }
  destruct (activeTeamDeletions_violations (oName org) f (map_to_list byID) Hnd) with
    (violations := (∅ : gmap string (list string))) as (v & Hrun & Hv).
  { intros i have Hin. apply elem_of_map_to_list in Hin. by apply Hentries in Hin as [? _]. }
  assert (activeTeamDeletionsRule forge org f
          = (if bool_decide (0 < size v)%nat
             then Err (ErrRule (ActiveTeamDeletionsError v)) else Ok tt, f)) as ->.
  { unfold activeTeamDeletionsRule. eapply bind_ok_eq; [reflexivity|]. cbv zeta.
    eapply bind_ok_eq; [exact Hrun|]. by case_bool_decide. }
  split.
  - intros H g r Hg Hno Hr.
    assert (v = ∅) as Hempty.
    { case_bool_decide as Hsize; [discriminate H|]. apply map_size_empty_iff. lia. }
    apply Hv in Hempty as [_ Hall]. apply (Hall (ID g) g r); [|done].
    apply elem_of_map_to_list. by apply Hthere.
  - intros Hall.
    assert (v = ∅) as ->.
    { apply Hv. split; [done|]. intros i have r Hin Hr.
      apply elem_of_map_to_list in Hin. destruct (Hentries _ _ Hin) as (Hhave & <- & Hno).
      by apply Hall. }
    by rewrite bool_decide_eq_false_2 by (rewrite map_size_empty; lia).
Qed.

(** X27.  [activeTeamDeletionsRule] on the reference forge, team IDs being
    distinct: the rule accepts the org exactly when no observed team that
    is left unmatched by the desired teams (and so is about to be deleted)
    is listed on a repository. *)
Theorem activeTeamDeletionsRule_forge (org : Org) (f : Forge) :
  NoDup (map ID (fTeams f)) ->
  activeTeamDeletionsRule forge org f = (Ok tt, f)
  <-> forall g r, g ∈ fTeams f -> ID g ∉ matchedIDs (fTeams f) (oTeams org) ->
                  r ∈ fRepos f -> repoHasTeam (gName g) r = false.
Proof. apply activeTeamDeletionsRule_accepts. Qed.

Lemma activeTeamDeletionsRule_forge_witness :
  activeTeamDeletionsRule forge oneOrg permForge = (Ok tt, permForge)
  <-> forall g r, g ∈ fTeams permForge ->
                  ID g ∉ matchedIDs (fTeams permForge) (oTeams oneOrg) ->
                  r ∈ fRepos permForge -> repoHasTeam (gName g) r = false.
Proof.
  apply (activeTeamDeletionsRule_forge oneOrg permForge).
  vm_compute. repeat constructor; set_solver.
Defined.

(** ** The teams [ApplyOrg] deletes *)

Section Deletes.
Context {R : Type} (rsvc : GitHubService R) (lg : R -> list Call).
Hypothesis Hrec : records rsvc lg.
Hypothesis Hid : forall t r g r', UpdateTeam rsvc t r = (Ok g, r') -> ID g = ID t.

Lemma process_kept_matched orgName haveTeams wantTeams :
  forall parent keptTeams r keptTeams' r',
    process rsvc orgName haveTeams parent wantTeams keptTeams r = (Ok keptTeams', r') ->
    exists new,
      keptTeams' = keptTeams ++ new
      /\ forall i, i ∈ matchedIDs haveTeams wantTeams ->
                   i ∈ map (fun k => ID (keptTeam k)) new.
Proof.
  induction wantTeams as [|want rest IHc IHr] using forest_ind;
    intros parent keptTeams r keptTeams' r' H.
  { injection H as <- <-. exists []. rewrite app_nil_r. split; [done|].
    intros i Hi. by apply elem_of_nil in Hi. }
  rewrite process_cons in H. apply bind_inv_ok in H as (k1 & r1 & Hteam & Hrest).
  rewrite processTeam_unfold in Hteam.
  apply bind_inv_ok in Hteam as (kept & r0 & Hrec' & Hch).
  apply IHc in Hch as (newc & -> & Hc). apply IHr in Hrest as (newr & -> & Hr).
  exists (kept :: newc ++ newr). split; [by rewrite <- !app_assoc|].
  intros i Hi. rewrite matchedIDs_cons in Hi. cbn [map]. rewrite map_app.
  apply elem_of_app in Hi as [Hi|Hi].
  - unfold reconcileTeam in Hrec'.
    destruct (findGitHubTeamFromDesired haveTeams want) as [have|]; cbn in Hi;
      [|by apply elem_of_nil in Hi].
    apply list_elem_of_singleton in Hi as ->.
    apply bind_inv_ok in Hrec' as (t & r2 & Hu & Hret). injection Hret as <- <-.
    cbn [keptTeam]. unfold updateTeam in Hu. cbv zeta in Hu.
    destruct (_ || _).
    + apply Hid in Hu. cbn in Hu. rewrite Hu. left.
    + injection Hu as <- _. left.
  - right. apply elem_of_app in Hi as [Hi|Hi]; apply elem_of_app; [left|right]; auto.
Qed.

Lemma deletes_ids (keptIDs : gset Z) (teams : list GitHubTeam) :
  forall r res r',
    forEach teams (fun t =>
      if bool_decide (ID t ∉ keptIDs) then DeleteTeam rsvc (ID t) else ret tt) r
    = (res, r') ->
    exists dels,
      lg r' = lg r ++ dels
      /\ Forall (fun c => exists t, t ∈ teams /\ c = CDeleteTeam (ID t) /\ ID t ∉ keptIDs) dels.
Proof.
  induction teams as [|t teams IH]; intros r res r' H.
  - injection H as <- <-. exists []. by rewrite app_nil_r.
  - cbn [forEach] in H.
    assert (exists c0, (forall r0 res0 r0',
                           (if bool_decide (ID t ∉ keptIDs) then DeleteTeam rsvc (ID t)
                            else ret tt) r0 = (res0, r0') -> lg r0' = lg r0 ++ c0)
                       /\ Forall (fun c => exists t', t' ∈ t :: teams
                                                      /\ c = CDeleteTeam (ID t')
                                                      /\ ID t' ∉ keptIDs) c0)
      as (c0 & Hstep & Hc0).
    { case_bool_decide as Hk.
      - exists [CDeleteTeam (ID t)]. split.
        + intros r0 res0 r0' Hd. eapply replyWith_state in Hd as [? Hd].
          by apply (Hrec (CDeleteTeam (ID t))) in Hd.
        + constructor; [|constructor]. exists t. split; [left|done].
      - exists []. split; [|constructor].
        intros r0 res0 r0' [= _ <-]. by rewrite app_nil_r. }
    apply bind_cases in H as [([] & r1 & Hd & Hrest)|(e & Hd & ->)].
    + apply Hstep in Hd. apply IH in Hrest as (dels & Hl & Hdels).
      exists (c0 ++ dels). split; [by rewrite Hl, Hd, <- app_assoc|].
      apply Forall_app. split; [done|]. eapply Forall_impl; [exact Hdels|].
      intros c (t' & Hin & -> & Hno). exists t'. split; [by right|done].
    + apply Hstep in Hd. by exists c0.
Qed.

Lemma configureTeams_deletes org haveTeams r res r' :
  configureTeams rsvc org haveTeams r = (res, r') ->
  exists writes dels,
    lg r' = lg r ++ writes ++ dels
    /\ Forall isTeamWrite writes
    /\ Forall (fun c => exists t, t ∈ haveTeams /\ c = CDeleteTeam (ID t)
                                  /\ ID t ∉ matchedIDs haveTeams (oTeams org)) dels.
Proof.
  unfold configureTeams. intros H.
  apply bind_cases in H as [(keptTeams & r1 & Hp & H)|(e & Hp & ->)].
  - pose proof Hp as Hp'. apply (process_extendsBy rsvc lg Hrec) in Hp as (writes & Hl1 & Hw).
    apply process_kept_matched in Hp' as (new & Hnew & Hmatched). cbn [app] in Hnew.
    subst new. cbv zeta in H.
    apply bind_cases in H as [([] & r2 & Hd & H)|(e & Hd & ->)];
      [injection H as _ <-|];
      apply deletes_ids in Hd as (dels & Hl2 & Hdels);
      exists writes, dels; (split; [by rewrite Hl2, Hl1, <- app_assoc|]);
      (split; [done|]); (eapply Forall_impl; [exact Hdels|]);
      intros c (t & Hin & -> & Hno); exists t; (split; [done|]); (split; [done|]);
      intros Hm; apply Hno, elem_of_list_to_set; by apply Hmatched.
  - apply (process_extendsBy rsvc lg Hrec) in Hp as (writes & Hl1 & Hw).
    exists writes, []. rewrite app_nil_r. done.
Qed.
End Deletes.

Lemma applyWithStats_deletes {S} (rsvc : GitHubService (S * GitHubStats))
      (lg : S * GitHubStats -> list Call) (org : Org) r res r' :
  records rsvc lg ->
  (forall t r g r', UpdateTeam rsvc t r = (Ok g, r') -> ID g = ID t) ->
  applyWithStats rsvc org r = (res, r') ->
  exists calls,
    lg r' = lg r ++ calls
    /\ forall id, CDeleteTeam id ∈ calls ->
         exists haveTeams r1,
           ListTeams rsvc (oName org) r = (Ok haveTeams, r1)
           /\ id ∈ map ID haveTeams
           /\ id ∉ matchedIDs haveTeams (oTeams org).
Proof.
  intros Hrec Hid H. unfold applyWithStats in H.
  apply bind_cases in H as [(haveTeams & r1 & E1 & H)|(e & E1 & ->)]; pose proof E1 as E1';
    apply (reads_extendsBy rsvc lg Hrec (fun _ => False)) in E1
      as (c0 & Hl0 & ->%Forall_False_nil);
    rewrite app_nil_r in Hl0.
  - assert (forall writes dels l3,
               Forall isTeamWrite writes ->
               Forall (fun c => exists t, t ∈ haveTeams /\ c = CDeleteTeam (ID t)
                                          /\ ID t ∉ matchedIDs haveTeams (oTeams org)) dels ->
               Forall (fun c => isMembershipCall c) l3 ->
               forall id, CDeleteTeam id ∈ writes ++ dels ++ l3 ->
                 exists haveTeams0 r0,
                   (Ok haveTeams, r1) = (Ok haveTeams0, r0)
                   /\ id ∈ map ID haveTeams0
                   /\ id ∉ matchedIDs haveTeams0 (oTeams org)) as Hfind.
    { intros writes dels l3 Hw Hd Hm id Hin. rewrite !elem_of_app in Hin.
      destruct Hin as [Hin|[Hin|Hin]].
      - rewrite Forall_forall in Hw. by apply Hw in Hin.
      - rewrite Forall_forall in Hd. apply Hd in Hin as (t & Ht & [= ->] & Hno).
        exists haveTeams, r1. split; [done|]. split; [by apply list_elem_of_fmap_2|done].
      - rewrite Forall_forall in Hm. by apply Hm in Hin. }
    rewrite E1'.
    apply bind_cases in H as [(kept & r2 & E2 & H)|(e & E2 & ->)];
      apply (configureTeams_deletes rsvc lg Hrec Hid) in E2
        as (writes & dels & Hl1 & Hw & Hd).
    + assert (extendsBy lg (fun c => isMembershipCall c)
                (org' ← promoteAdmins rsvc org;
                 configureTeamMemberships rsvc org' kept;;
                 stats ← Stats; ret (asApplyOrgResult stats, org'))) as Hrest.
      { apply bind_extendsBy.
        - unfold promoteAdmins. apply bind_extendsBy; [apply reads_extendsBy, Hrec|].
          intros a. apply ret_extendsBy.
        - intros org'. apply bind_extendsBy.
          + by apply configureTeamMemberships_extendsBy.
          + intros _. apply bind_extendsBy.
            * intros [s0 st0] res0 r0 [= _ <-]. exists []. by rewrite app_nil_r.
            * intros stats. apply ret_extendsBy. }
      apply Hrest in H as (l3 & Hl3 & Hm).
      exists (writes ++ dels ++ l3). split; [by rewrite Hl3, Hl1, Hl0, <- !app_assoc|].
      by apply Hfind.
    + exists (writes ++ dels ++ []). split; [by rewrite Hl1, Hl0, app_nil_r|].
      by apply Hfind.
  - exists []. split; [by rewrite Hl0, app_nil_r|]. intros id Hin.
    by apply elem_of_nil in Hin.
Qed.

(** X28.  [ApplyOrg] deletes only what nothing claims: over a service whose
    [UpdateTeam] returns a team of the ID it was given, every [DeleteTeam]
    call it makes, whatever it returns in the end, is for a team that
    [ListTeams] reported and that no desired team matches by its name or
    by one of its previous names. *)
Theorem ApplyOrg_deletes_unmatched {S} (plat : Platform S) (org : Org) (s s' : S)
        res (log : list Call) (id : GitHubTeamID) :
  (forall t s0 g s0', UpdateTeam (platGitHubService plat) t s0 = (Ok g, s0') -> ID g = ID t) ->
  ApplyOrg (recordingPlatform plat) org (s, []) = (res, (s', log)) ->
  CDeleteTeam id ∈ log ->
  exists s1 haveTeams s2,
    Run (platRuleEngine plat) org s = (Ok tt, s1)
    /\ ListTeams (platGitHubService plat) (oName org) s1 = (Ok haveTeams, s2)
    /\ id ∈ map ID haveTeams
    /\ id ∉ matchedIDs haveTeams (oTeams org).
Proof.
  intros Hid H Hin. unfold ApplyOrg in H.
  cbn [recordingPlatform platRuleEngine platGitHubService Run] in H.
  unfold unlogged at 1 in H.
  destruct (Run (platRuleEngine plat) org s) as [[[]|err] s1];
    [|injection H as _ _ <-; by apply elem_of_nil in Hin].
  destruct (applyWithStats _ org (s1, [], zeroStats)) as [r2 [[s2 log2] st2]] eqn:Happly.
  injection H as _ _ <-.
  apply (applyWithStats_deletes _ (fun p => p.1.2)) in Happly as (calls & Hl & Hdel).
  - cbn [fst snd app] in Hl. subst calls.
    destruct (Hdel id Hin) as (haveTeams & [[s3 log3] st3] & Hlist & Hhave & Hno).
    exists s1, haveTeams, s3. split; [done|]. split; [|done].
    cbn in Hlist. unfold unlogged in Hlist.
    destruct (ListTeams (platGitHubService plat) (oName org) s1) as [[l|e] s4];
      [|discriminate].
    by injection Hlist as -> -> _ _.
  - apply (NewStatsGitHubService_records _ snd), recording_records.
  - intros t [[s0 log0] st0] g [[s0' log0'] st0']. cbn. unfold logged.
    destruct (UpdateTeam (platGitHubService plat) t s0) as [[g0|e] s4] eqn:E; [|discriminate].
    intros [= <- _ _ _]. by eapply Hid.
Qed.

Lemma ApplyOrg_deletes_unmatched_witness :
  exists s1 haveTeams s2,
    Run (platRuleEngine (forgePlatform anyRegexp)) oneOrg oneForge = (Ok tt, s1)
    /\ ListTeams (platGitHubService (forgePlatform anyRegexp)) (oName oneOrg) s1
       = (Ok haveTeams, s2)
    /\ 1 ∈ map ID haveTeams
    /\ 1 ∉ matchedIDs haveTeams (oTeams oneOrg).
Proof.
  refine (ApplyOrg_deletes_unmatched (forgePlatform anyRegexp) oneOrg oneForge
            (mkForge [mkGitHubTeam 2 0 "A" "d"]
                     [(2, RoleMaintainer, "m"); (2, RoleMember, "e")] []
                     (fUsers oneForge) [] 3)
            (Ok (mkApplyOrgResult 1 0 1 2 0, oneOrg))
            [CCreateTeam "SEEK-Jobs" (mkGitHubTeam 0 0 "A" "d"); CDeleteTeam 1;
             CAddTeamMembership "SEEK-Jobs" 2 "m@x" RoleMaintainer;
             CAddTeamMembership "SEEK-Jobs" 2 "e@x" RoleMember]
            1 _ _ _).
  - intros t s0 g s0'. cbn. destruct (hasTeam s0 (ID t)); [|done]. by intros [= <- _].
  - vm_compute; reflexivity.
  - apply list_elem_of_further, list_elem_of_here.
Defined.

(** X29.  The guard and the deletion phase agree on the reference forge:
    team IDs being distinct, every team that [ApplyOrg], run with the
    built-in rule engine, deletes is an observed team that no desired team
    matches and that no repository lists. *)
Theorem ApplyOrg_never_deletes_listed_team regexpCompile (org : Org) (f f' : Forge)
        res (log : list Call) (id : GitHubTeamID) :
  NoDup (map ID (fTeams f)) ->
  ApplyOrg (recordingPlatform (forgePlatform regexpCompile)) org (f, []) = (res, (f', log)) ->
  CDeleteTeam id ∈ log ->
  exists g, g ∈ fTeams f /\ ID g = id
            /\ id ∉ matchedIDs (fTeams f) (oTeams org)
            /\ (forall r, r ∈ fRepos f -> repoHasTeam (gName g) r = false).
Proof.
  intros Hnd H Hin.
  assert (exists s1 haveTeams s2,
             Run (NewRuleEngine regexpCompile forge) org f = (Ok tt, s1)
             /\ ListTeams forge (oName org) s1 = (Ok haveTeams, s2)
             /\ id ∈ map ID haveTeams
             /\ id ∉ matchedIDs haveTeams (oTeams org))
    as (s1 & haveTeams & s2 & Hrun & Hlist & Hhave & Hno).
  { unfold ApplyOrg in H.
    cbn [recordingPlatform forgePlatform platRuleEngine platGitHubService Run] in H.
    unfold unlogged at 1 in H.
    change (ruleEngine_Run _ org f) with (Run (NewRuleEngine regexpCompile forge) org f) in H.
    destruct (Run (NewRuleEngine regexpCompile forge) org f) as [[[]|err] s1];
      [|injection H as _ _ <-; by apply elem_of_nil in Hin].
    destruct (applyWithStats _ org (s1, [], zeroStats)) as [r2 [[s2 log2] st2]] eqn:Happly.
    injection H as _ _ <-.
    apply (applyWithStats_deletes _ (fun p => p.1.2)) in Happly as (calls & Hl & Hdel).
    - cbn [fst snd app] in Hl. subst calls.
      destruct (Hdel id Hin) as (haveTeams & [[s3 log3] st3] & Hlist & Hhave & Hno).
      exists s1, haveTeams, s3. split; [done|]. split; [|done].
      cbn in Hlist. by injection Hlist as <- <-.
    - apply (NewStatsGitHubService_records _ snd), recording_records.
    - intros t [[s0 log0] st0] g [[s0' log0'] st0']. cbn. unfold logged.
      destruct (hasTeam s0 (ID t)); [|done]. by intros [= <- _ _ _]. }
  pose proof (NewRuleEngine_readOnly regexpCompile _ _ _ _ Hrun) as ->.
  cbn in Hlist. injection Hlist as <- _.
  apply list_elem_of_fmap in Hhave as (g & -> & Hg).
  exists g. split; [done|]. split; [done|]. split; [done|].
  intros r Hr.
  apply ruleEngine_Run_AllPass in Hrun. unfold ruleEngine_Add in Hrun. cbn [app] in Hrun.
  inversion Hrun as [|? ? ? f1 ? H1 Hrun1]; subst.
  apply unknownUsersRule_preserves in H1 as ->.
  inversion Hrun1 as [|? ? ? f2 ? H2 Hrun2]; subst.
  apply teamNamesUniqueRule_preserves in H2 as ->.
  inversion Hrun2 as [|? ? ? f3 ? H3 Hrun3]; subst.
  apply usersUniqueWithinTeamRule_preserves in H3 as ->.
  inversion Hrun3 as [|? ? ? f4 ? H4 Hrun4]; subst.
  apply teamNameLengthRule_preserves in H4 as ->.
  inversion Hrun4 as [|? ? ? f5 ? H5 Hrun5]; subst.
  pose proof (activeTeamDeletionsRule_preserves _ _ _ _ H5) as ->.
  by apply (proj1 (activeTeamDeletionsRule_accepts org f Hnd) H5 g r).
Qed.

Lemma ApplyOrg_never_deletes_listed_team_witness :
  exists g, g ∈ fTeams oneForge /\ ID g = 1
            /\ 1 ∉ matchedIDs (fTeams oneForge) (oTeams oneOrg)
            /\ (forall r, r ∈ fRepos oneForge -> repoHasTeam (gName g) r = false).
Proof.
  refine (ApplyOrg_never_deletes_listed_team anyRegexp oneOrg oneForge
            (mkForge [mkGitHubTeam 2 0 "A" "d"]
                     [(2, RoleMaintainer, "m"); (2, RoleMember, "e")] []
                     (fUsers oneForge) [] 3)
            (Ok (mkApplyOrgResult 1 0 1 2 0, oneOrg))
            [CCreateTeam "SEEK-Jobs" (mkGitHubTeam 0 0 "A" "d"); CDeleteTeam 1;
             CAddTeamMembership "SEEK-Jobs" 2 "m@x" RoleMaintainer;
             CAddTeamMembership "SEEK-Jobs" 2 "e@x" RoleMember]
            1 _ _ _).
  - vm_compute. repeat constructor. set_solver.
  - vm_compute; reflexivity.
  - apply list_elem_of_further, list_elem_of_here.
Defined.
